(** * Graph.h: a pointer graph with a key index, and its algorithms

    A shallow embedding of [src/Classes/Graph.h].  The C++ classes [Vertex<T>],
    [Edge<T>] and [Graph<T>] live on the free store and refer to one another by
    pointer, so the embedding keeps an explicit store: vertex and edge objects
    are values of two finite maps indexed by addresses, and every method is a
    function on the whole program state.  A dereference of an address that is
    not allocated has no defined behaviour in C++; here it yields [None].

    The header fixes the key type by its own declarations: [vertexMap] is an
    [unordered_map<int, Vertex<T>*>] and [bfs], [topsort] and [dfs(source)]
    return a [std::vector<int>] as [std::vector<T>], so [T = int] and keys are
    modelled by [Z] (they are only compared, hashed and copied). *)

From Stdlib Require Import ZArith Floats Lia.
From stdpp Require Import numbers functions base option gmap sets fin_sets sorting list.

(** ** Addresses, objects and the program state *)

Abbreviation vptr := positive (only parsing).
Abbreviation eptr := positive (only parsing).

(** [double]: IEEE-754 binary64, the kernel's primitive floats. *)
Abbreviation double := float (only parsing).

(** [std::numeric_limits<double>::max()] *)
Definition DBL_MAX : double := 0x1.fffffffffffffp+1023%float.

(** The unsigned 32-bit arithmetic of [indegree]. *)
Definition UINT_MOD : Z := 2 ^ 32.
Definition uint_wrap (z : Z) : Z := (z mod UINT_MOD)%Z.

(** [class Edge].  [flow] has no initializer: [None] is the indeterminate
    value.  [reverse] is a nullable pointer. *)
Record Edge := mkEdge {
  dest : vptr;
  weight : double;
  selected : bool;
  orig : vptr;
  reverse : option eptr;
  flow : option double
}.

(** [class Vertex].  [indegree] has no initializer either. *)
Record Vertex := mkVertex {
  queueIndex : Z;
  info : Z;
  adj : list eptr;
  visited : bool;
  processing : bool;
  indegree : option Z;
  dist : double;
  path : option eptr;
  incoming : list eptr
}.

(** [class Graph] together with the free store its pointers point into.
    [distMatrix] and [pathMatrix] stay null in this header and are left out. *)
Record Graph := mkGraph {
  vertexSet : list vptr;
  vertexMap : gmap Z vptr;
  vheap : gmap vptr Vertex;
  eheap : gmap eptr Edge
}.

Definition empty_graph : Graph := mkGraph [] ∅ ∅ ∅.

(** [Edge::Edge(orig, dest, w)] *)
Definition Edge_new (o d : vptr) (w : double) : Edge :=
  mkEdge d w false o None None.

(** [Vertex::Vertex(in)] *)
Definition Vertex_new (k : Z) : Vertex :=
  mkVertex 0 k [] false false None 0%float None [].

(** Field assignments. *)
Definition with_adj (l : list eptr) (v : Vertex) : Vertex :=
  mkVertex (queueIndex v) (info v) l (visited v) (processing v) (indegree v)
           (dist v) (path v) (incoming v).
Definition with_incoming (l : list eptr) (v : Vertex) : Vertex :=
  mkVertex (queueIndex v) (info v) (adj v) (visited v) (processing v) (indegree v)
           (dist v) (path v) l.
Definition with_visited (b : bool) (v : Vertex) : Vertex :=
  mkVertex (queueIndex v) (info v) (adj v) b (processing v) (indegree v)
           (dist v) (path v) (incoming v).
Definition with_processing (b : bool) (v : Vertex) : Vertex :=
  mkVertex (queueIndex v) (info v) (adj v) (visited v) b (indegree v)
           (dist v) (path v) (incoming v).
Definition with_indegree (n : Z) (v : Vertex) : Vertex :=
  mkVertex (queueIndex v) (info v) (adj v) (visited v) (processing v) (Some n)
           (dist v) (path v) (incoming v).
Definition with_reverse (r : option eptr) (e : Edge) : Edge :=
  mkEdge (dest e) (weight e) (selected e) (orig e) r (flow e).

Definition set_vheap (h : gmap vptr Vertex) (g : Graph) : Graph :=
  mkGraph (vertexSet g) (vertexMap g) h (eheap g).
Definition set_eheap (h : gmap eptr Edge) (g : Graph) : Graph :=
  mkGraph (vertexSet g) (vertexMap g) (vheap g) h.

(** [*p = v] for a vertex object that is known to be allocated. *)
Definition store_vertex (p : vptr) (v : Vertex) (g : Graph) : Graph :=
  set_vheap (<[p := v]> (vheap g)) g.

(** A sequential loop over a list whose body may fail. *)
Fixpoint foldM {S A : Type} (f : S → A → option S) (s : S) (l : list A) : option S :=
  match l with
  | [] => Some s
  | x :: l' => match f s x with Some s' => foldM f s' l' | None => None end
  end.

(** ** Vertex *)

(** [v->setVisited(b)], [v->setProcesssing(b)], [v->setIndegree(n)] *)
Definition setVisited (p : vptr) (b : bool) (g : Graph) : option Graph :=
  v ← vheap g !! p; Some (store_vertex p (with_visited b v) g).
Definition setProcesssing (p : vptr) (b : bool) (g : Graph) : option Graph :=
  v ← vheap g !! p; Some (store_vertex p (with_processing b v) g).
Definition setIndegree (p : vptr) (n : Z) (g : Graph) : option Graph :=
  v ← vheap g !! p; Some (store_vertex p (with_indegree n v) g).
(** [v->getIndegree()]: reading the field before it was ever assigned is
    undefined. *)
Definition getIndegree (p : vptr) (g : Graph) : option Z :=
  v ← vheap g !! p; indegree v.

(** [e->setReverse(r)] *)
Definition setReverse (e : eptr) (r : option eptr) (g : Graph) : option Graph :=
  ed ← eheap g !! e; Some (set_eheap (<[e := with_reverse r ed]> (eheap g)) g).

(** [Vertex::addEdge(d, w)]: [new Edge], [adj.push_back], then
    [d->incoming.push_back] ([d] may be [this]). *)
Definition Vertex_addEdge (this d : vptr) (w : double) (g : Graph)
  : option (eptr * Graph) :=
  let newEdge := fresh (dom (eheap g)) in
  vt ← vheap g !! this;
  let h1 := <[this := with_adj (adj vt ++ [newEdge]) vt]> (vheap g) in
  vd ← h1 !! d;
  let h2 := <[d := with_incoming (incoming vd ++ [newEdge]) vd]> h1 in
  Some (newEdge,
        mkGraph (vertexSet g) (vertexMap g) h2
                (<[newEdge := Edge_new this d w]> (eheap g))).

(** The loop of [Vertex::deleteEdge] over [dest->incoming]: every entry whose
    origin carries the key [k] is erased. *)
Fixpoint deleteEdge_scan (g : Graph) (k : Z) (l : list eptr) : option (list eptr) :=
  match l with
  | [] => Some []
  | e :: l' =>
      ed ← eheap g !! e;
      vo ← vheap g !! orig ed;
      rest ← deleteEdge_scan g k l';
      Some (if decide (info vo = k) then rest else e :: rest)
  end.

(** [Vertex::deleteEdge(edge)] *)
Definition Vertex_deleteEdge (this : vptr) (edge : eptr) (g : Graph) : option Graph :=
  ed ← eheap g !! edge;
  vt ← vheap g !! this;
  vd ← vheap g !! dest ed;
  inc ← deleteEdge_scan g (info vt) (incoming vd);
  Some (mkGraph (vertexSet g) (vertexMap g)
                (<[dest ed := with_incoming inc vd]> (vheap g))
                (delete edge (eheap g))).

(** The loop of [Vertex::removeEdge(in)]: [kept] is the part of [adj] before
    the iterator, [todo] the part from the iterator on. *)
Fixpoint removeEdge_loop (this : vptr) (k : Z) (kept todo : list eptr)
    (removedEdge : bool) (g : Graph) : option (bool * Graph) :=
  match todo with
  | [] => Some (removedEdge, g)
  | edge :: rest =>
      ed ← eheap g !! edge;
      vd ← vheap g !! dest ed;
      if decide (info vd = k) then
        vt ← vheap g !! this;
        g2 ← Vertex_deleteEdge this edge (store_vertex this (with_adj (kept ++ rest) vt) g);
        removeEdge_loop this k kept rest true g2
      else removeEdge_loop this k (kept ++ [edge]) rest removedEdge g
  end.

Definition Vertex_removeEdge (this : vptr) (k : Z) (g : Graph) : option (bool * Graph) :=
  vt ← vheap g !! this;
  removeEdge_loop this k [] (adj vt) false g.

(** [Vertex::removeOutgoingEdges()] *)
Fixpoint removeOutgoingEdges_loop (this : vptr) (todo : list eptr) (g : Graph)
  : option Graph :=
  match todo with
  | [] => Some g
  | edge :: rest =>
      vt ← vheap g !! this;
      g2 ← Vertex_deleteEdge this edge (store_vertex this (with_adj rest vt) g);
      removeOutgoingEdges_loop this rest g2
  end.

Definition Vertex_removeOutgoingEdges (this : vptr) (g : Graph) : option Graph :=
  vt ← vheap g !! this;
  removeOutgoingEdges_loop this (adj vt) g.

(** ** Graph: vertices and edges *)

(** The conversion of an unsigned value to [int]: the value modulo [2^32]
    in the range of [int]. *)
Definition to_int (z : Z) : Z := ((z + 2 ^ 31) mod UINT_MOD - 2 ^ 31)%Z.

(** [Graph::getNumVertex]: [vertexSet.size()] returned as an [int]. *)
Definition getNumVertex (g : Graph) : Z := to_int (Z.of_nat (length (vertexSet g))).

Definition findVertex (k : Z) (g : Graph) : option vptr := vertexMap g !! k.

(** [Graph::findVertexIdx]: the position in [vertexSet], or [-1].  The
    counter [i] is an [unsigned]; [l] holds the vertices from position [i]
    on.  When [i++] wraps to [0] the loop starts over on vertices that it
    has found to differ from [k], and never ends. *)
Fixpoint findVertexIdx_from (g : Graph) (k : Z) (i : Z) (l : list vptr) : option Z :=
  match l with
  | [] => Some (-1)%Z
  | p :: l' =>
      v ← vheap g !! p;
      if decide (info v = k) then Some (to_int i)
      else if decide (i + 1 = UINT_MOD)%Z then None
      else findVertexIdx_from g k (i + 1)%Z l'
  end.
Definition findVertexIdx (k : Z) (g : Graph) : option Z :=
  findVertexIdx_from g k 0%Z (vertexSet g).

Definition addVertex (k : Z) (g : Graph) : bool * Graph :=
  match findVertex k g with
  | Some _ => (false, g)
  | None =>
      let newVertex := fresh (dom (vheap g)) in
      (true, mkGraph (vertexSet g ++ [newVertex])
                     (<[k := newVertex]> (vertexMap g))
                     (<[newVertex := Vertex_new k]> (vheap g))
                     (eheap g))
  end.

(** The body of the [for (auto u: vertexSet)] loop of [removeVertex]. *)
Definition removeVertex_body (v : vptr) (g : Graph) (u : vptr) : option Graph :=
  if decide (u ≠ v)
  then vv ← vheap g !! v; snd <$> Vertex_removeEdge u (info vv) g
  else Vertex_removeOutgoingEdges u g.

Definition removeVertex (k : Z) (g : Graph) : option (bool * Graph) :=
  match vertexMap g !! k with
  | None => Some (false, g)
  | Some v =>
      g1 ← foldM (removeVertex_body v) g (vertexSet g);
      Some (true, mkGraph (filter (λ u, u ≠ v) (vertexSet g1))
                          (delete k (vertexMap g1))
                          (delete v (vheap g1))
                          (eheap g1))
  end.

Definition addEdge (sourc dst : Z) (w : double) (g : Graph) : option (bool * Graph) :=
  match findVertex sourc g, findVertex dst g with
  | Some v1, Some v2 => '(_, g1) ← Vertex_addEdge v1 v2 w g; Some (true, g1)
  | _, _ => Some (false, g)
  end.

Definition removeEdge (sourc dst : Z) (g : Graph) : option (bool * Graph) :=
  match findVertex sourc g with
  | None => Some (false, g)
  | Some srcVertex => Vertex_removeEdge srcVertex dst g
  end.

Definition addBidirectionalEdge (sourc dst : Z) (w : double) (g : Graph)
  : option (bool * Graph) :=
  match findVertex sourc g, findVertex dst g with
  | Some v1, Some v2 =>
      '(e1, g1) ← Vertex_addEdge v1 v2 w g;
      '(e2, g2) ← Vertex_addEdge v2 v1 w g1;
      g3 ← setReverse e1 (Some e2) g2;
      g4 ← setReverse e2 (Some e1) g3;
      Some (true, g4)
  | _, _ => Some (false, g)
  end.

(** ** Edge-weight lookup *)

Fixpoint getEdgeWeight_scan (g : Graph) (k : Z) (l : list eptr) : option double :=
  match l with
  | [] => Some DBL_MAX
  | e :: l' =>
      ed ← eheap g !! e;
      vd ← vheap g !! dest ed;
      if decide (info vd = k) then Some (weight ed) else getEdgeWeight_scan g k l'
  end.

Definition getEdgeWeight (source destination : Z) (g : Graph) : option double :=
  match findVertex source g with
  | None => Some DBL_MAX
  | Some v => vv ← vheap g !! v; getEdgeWeight_scan g destination (adj vv)
  end.

(** ** Traversals

    The recursive visits and the queue loops take a [fuel] bound on their
    depth or on their number of iterations; the entry points supply
    [vertexSet.size()], which the theorems below show to be enough. *)

(** [for (auto v: vertexSet) v->setVisited(false);] *)
Definition resetVisited (g : Graph) : option Graph :=
  foldM (λ g v, setVisited v false g) g (vertexSet g).

(** The [for] loop of [dfsVisit] over the copy returned by [getAdj()]. *)
Definition dfsVisit_scan (rec : vptr → list Z → Graph → option (list Z * Graph))
    (st : list Z * Graph) (e : eptr) : option (list Z * Graph) :=
  let '(res, g) := st in
  ed ← eheap g !! e;
  wv ← vheap g !! dest ed;
  if visited wv then Some (res, g) else rec (dest ed) res g.

Fixpoint dfsVisit (fuel : nat) (v : vptr) (res : list Z) (g : Graph)
  : option (list Z * Graph) :=
  match fuel with
  | O => None
  | S fuel' =>
      g1 ← setVisited v true g;
      vv ← vheap g1 !! v;
      foldM (dfsVisit_scan (dfsVisit fuel')) (res ++ [info vv], g1) (adj vv)
  end.

(** [Graph::dfs()] *)
Definition dfs_root (fuel : nat) (st : list Z * Graph) (v : vptr)
  : option (list Z * Graph) :=
  let '(res, g) := st in
  vv ← vheap g !! v;
  if visited vv then Some (res, g) else dfsVisit fuel v res g.

Definition dfs (g : Graph) : option (list Z * Graph) :=
  g1 ← resetVisited g;
  foldM (dfs_root (length (vertexSet g))) ([], g1) (vertexSet g).

(** [Graph::dfs(source)] *)
Definition dfs_from (source : Z) (g : Graph) : option (list Z * Graph) :=
  match findVertex source g with
  | None => Some ([], g)
  | Some s =>
      g1 ← resetVisited g;
      dfsVisit (length (vertexSet g)) s [] g1
  end.

(** The inner [for] loop of [bfs]: the state is the queue and the store. *)
Definition bfs_scan (st : list vptr * Graph) (e : eptr) : option (list vptr * Graph) :=
  let '(q, g) := st in
  ed ← eheap g !! e;
  wv ← vheap g !! dest ed;
  if visited wv then Some (q, g)
  else g' ← setVisited (dest ed) true g; Some (q ++ [dest ed], g').

Fixpoint bfs_loop (fuel : nat) (q : list vptr) (res : list Z) (g : Graph)
  : option (list Z * Graph) :=
  match q with
  | [] => Some (res, g)
  | v :: q' =>
      match fuel with
      | O => None
      | S fuel' =>
          vv ← vheap g !! v;
          '(q2, g2) ← foldM bfs_scan (q', g) (adj vv);
          bfs_loop fuel' q2 (res ++ [info vv]) g2
      end
  end.

(** [Graph::bfs(source)] *)
Definition bfs (source : Z) (g : Graph) : option (list Z * Graph) :=
  match findVertex source g with
  | None => Some ([], g)
  | Some s =>
      g1 ← resetVisited g;
      g2 ← setVisited s true g1;
      bfs_loop (length (vertexSet g)) [s] [] g2
  end.

(** The [for] loop of [dfsIsDAG], with its two early returns. *)
Fixpoint dfsIsDAG_scan (rec : vptr → Graph → option (bool * Graph))
    (l : list eptr) (g : Graph) : option (bool * Graph) :=
  match l with
  | [] => Some (true, g)
  | e :: l' =>
      ed ← eheap g !! e;
      wv ← vheap g !! dest ed;
      if processing wv then Some (false, g)
      else if visited wv then dfsIsDAG_scan rec l' g
      else
        match rec (dest ed) g with
        | Some (true, g') => dfsIsDAG_scan rec l' g'
        | Some (false, g') => Some (false, g')
        | None => None
        end
  end.

Fixpoint dfsIsDAG (fuel : nat) (v : vptr) (g : Graph) : option (bool * Graph) :=
  match fuel with
  | O => None
  | S fuel' =>
      g1 ← setVisited v true g;
      g2 ← setProcesssing v true g1;
      vv ← vheap g2 !! v;
      match dfsIsDAG_scan (dfsIsDAG fuel') (adj vv) g2 with
      | Some (true, g3) => g4 ← setProcesssing v false g3; Some (true, g4)
      | Some (false, g3) => Some (false, g3)
      | None => None
      end
  end.

Fixpoint isDAG_loop (fuel : nat) (l : list vptr) (g : Graph) : option (bool * Graph) :=
  match l with
  | [] => Some (true, g)
  | v :: l' =>
      vv ← vheap g !! v;
      if visited vv then isDAG_loop fuel l' g
      else
        match dfsIsDAG fuel v g with
        | Some (true, g') => isDAG_loop fuel l' g'
        | Some (false, g') => Some (false, g')
        | None => None
        end
  end.

(** [Graph::isDAG()] *)
Definition isDAG (g : Graph) : option (bool * Graph) :=
  g1 ← foldM (λ g v, g' ← setVisited v false g; setProcesssing v false g')
             g (vertexSet g);
  isDAG_loop (length (vertexSet g)) (vertexSet g) g1.

(** [Graph::topsort()]: the three preparation loops, then the queue loop. *)
Definition topsort_count (g : Graph) (e : eptr) : option Graph :=
  ed ← eheap g !! e;
  n ← getIndegree (dest ed) g;
  setIndegree (dest ed) (uint_wrap (n + 1)) g.

Definition topsort_scan (st : list vptr * Graph) (e : eptr) : option (list vptr * Graph) :=
  let '(q, g) := st in
  ed ← eheap g !! e;
  n ← getIndegree (dest ed) g;
  g' ← setIndegree (dest ed) (uint_wrap (n - 1)) g;
  n' ← getIndegree (dest ed) g';
  Some (if decide (n' = 0%Z) then q ++ [dest ed] else q, g').

Fixpoint topsort_loop (fuel : nat) (q : list vptr) (res : list Z) (g : Graph)
  : option (list Z * Graph) :=
  match q with
  | [] => Some (res, g)
  | v :: q' =>
      match fuel with
      | O => None
      | S fuel' =>
          vv ← vheap g !! v;
          '(q2, g2) ← foldM topsort_scan (q', g) (adj vv);
          topsort_loop fuel' q2 (res ++ [info vv]) g2
      end
  end.

Definition topsort (g : Graph) : option (list Z * Graph) :=
  g1 ← foldM (λ g v, setIndegree v 0 g) g (vertexSet g);
  g2 ← foldM (λ g v, vv ← vheap g !! v; foldM topsort_count g (adj vv))
             g1 (vertexSet g);
  q ← foldM (λ q v, n ← getIndegree v g2;
                    Some (if decide (n = 0%Z) then q ++ [v] else q))
            [] (vertexSet g);
  '(res, g3) ← topsort_loop (length (vertexSet g)) q [] g2;
  Some (if decide (length res ≠ length (vertexSet g)) then [] else res, g3).

(** ** Well-formed states

    The states that the public operations produce from the empty graph:
    [vertexSet] lists the allocated vertices once each, [vertexMap] indexes
    them by key, every entry of an [adj] or [incoming] list is an allocated
    edge attached at that end, and every allocated edge is listed at both of
    its ends. *)
Record wf (g : Graph) : Prop := {
  wf_nodup : NoDup (vertexSet g);
  wf_alloc : ∀ p, p ∈ vertexSet g ↔ is_Some (vheap g !! p);
  wf_index : ∀ k p, vertexMap g !! k = Some p ↔
                    ∃ v, vheap g !! p = Some v ∧ info v = k;
  wf_adj : ∀ p v e, vheap g !! p = Some v → e ∈ adj v →
                    ∃ ed, eheap g !! e = Some ed ∧ orig ed = p;
  wf_incoming : ∀ p v e, vheap g !! p = Some v → e ∈ incoming v →
                    ∃ ed, eheap g !! e = Some ed ∧ dest ed = p;
  wf_edge : ∀ e ed, eheap g !! e = Some ed →
                    ∃ vo vd, vheap g !! orig ed = Some vo ∧
                             vheap g !! dest ed = Some vd ∧
                             e ∈ adj vo ∧ e ∈ incoming vd;
  wf_adj_nodup : ∀ p v, vheap g !! p = Some v → NoDup (adj v)
}.

(** The key of an allocated vertex, and the keys in [vertexSet] order. *)
Definition key_of (g : Graph) (p : vptr) : Z :=
  match vheap g !! p with Some v => info v | None => 0%Z end.
Definition keys (g : Graph) : list Z := key_of g <$> vertexSet g.

(** The three statements of the index invariant. *)
Definition index_synced (g : Graph) : Prop :=
  (∀ p, p ∈ vertexSet g ↔ ∃ k, vertexMap g !! k = Some p) ∧
  (∀ k p, vertexMap g !! k = Some p →
          ∃ v, vheap g !! p = Some v ∧ info v = k) ∧
  NoDup (keys g).

(** ** Basic facts *)

Lemma fresh_vertex (g : Graph) : vheap g !! fresh (dom (vheap g)) = None.
Proof. apply not_elem_of_dom, is_fresh. Qed.

Lemma fresh_edge (g : Graph) : eheap g !! fresh (dom (eheap g)) = None.
Proof. apply not_elem_of_dom, is_fresh. Qed.

Lemma wf_key_inj g p q v v' :
  wf g → vheap g !! p = Some v → vheap g !! q = Some v' → info v = info v' → p = q.
Proof.
  intros Hwf Hp Hq Hk.
  assert (vertexMap g !! info v = Some p) as H1 by (apply wf_index; eauto).
  assert (vertexMap g !! info v = Some q) as H2 by (apply wf_index; eauto).
  congruence.
Qed.

Lemma wf_findVertex_Some g k p :
  wf g → findVertex k g = Some p →
  p ∈ vertexSet g ∧ ∃ v, vheap g !! p = Some v ∧ info v = k.
Proof.
  intros Hwf H. apply (wf_index g Hwf) in H as (v & Hv & Hk).
  split; [apply wf_alloc; eauto|eauto].
Qed.

Lemma wf_findVertex_None g k p v :
  wf g → findVertex k g = None → vheap g !! p = Some v → info v ≠ k.
Proof.
  intros Hwf H Hp Hk. unfold findVertex in H.
  assert (vertexMap g !! k = Some p) as H1 by (apply wf_index; eauto).
  congruence.
Qed.

Lemma key_of_lookup g p v : vheap g !! p = Some v → key_of g p = info v.
Proof. unfold key_of. by intros ->. Qed.

Lemma wf_empty : wf empty_graph.
Proof.
  split; simpl.
  - constructor.
  - intros p. rewrite lookup_empty. split; [by intros ?%elem_of_nil|by intros [? ?]].
  - intros k p. rewrite lookup_empty. split; [done|]. by intros (v & Hv & _).
  - intros p v e Hp. by rewrite lookup_empty in Hp.
  - intros p v e Hp. by rewrite lookup_empty in Hp.
  - intros e ed He. by rewrite lookup_empty in He.
  - intros p v Hp. by rewrite lookup_empty in Hp.
Qed.

Lemma wf_keys_nodup g : wf g → NoDup (keys g).
Proof.
  intros Hwf. unfold keys. apply NoDup_fmap_2_strong; [|apply Hwf].
  intros p q Hp Hq Hk.
  apply (wf_alloc g Hwf) in Hp as [v Hv]. apply (wf_alloc g Hwf) in Hq as [v' Hv'].
  rewrite (key_of_lookup _ _ _ Hv), (key_of_lookup _ _ _ Hv') in Hk.
  eapply wf_key_inj; eauto.
Qed.

Lemma wf_index_synced g : wf g → index_synced g.
Proof.
  intros Hwf. split; [|split].
  - intros p. rewrite (wf_alloc g Hwf). split.
    + intros [v Hv]. exists (info v). apply wf_index; eauto.
    + intros [k Hk]. apply (wf_index g Hwf) in Hk as (v & Hv & _). eauto.
  - intros k p Hk. by apply (wf_index g Hwf) in Hk.
  - by apply wf_keys_nodup.
Qed.

Lemma wf_addVertex g k : wf g → wf (snd (addVertex k g)).
Proof.
  intros Hwf. unfold addVertex. destruct (findVertex k g) as [p|] eqn:Hf; [done|].
  simpl. pose proof (fresh_vertex g) as Hnew.
  set (new := fresh (dom (vheap g))) in *.
  assert (new ∉ vertexSet g) as Hnotin.
  { rewrite (wf_alloc g Hwf), Hnew. by intros [? ?]. }
  split; simpl.
  - apply NoDup_app. split; [apply Hwf|]. split; [|apply NoDup_singleton].
    intros x Hx ->%list_elem_of_singleton. done.
  - intros p. rewrite elem_of_app, list_elem_of_singleton, lookup_insert.
    case_decide as Hp; subst.
    + split; eauto.
    + rewrite (wf_alloc g Hwf). split; [intros [?|?]; [done|congruence]|auto].
  - intros k' p. destruct (decide (p = new)) as [->|Hp].
    + rewrite lookup_insert_eq. rewrite lookup_insert. case_decide as Hk; subst.
      * split; eauto.
      * split.
        -- intros H. apply (wf_index g Hwf) in H as (v & Hv & _). congruence.
        -- intros (v & [= <-] & Hv). done.
    + rewrite (lookup_insert_ne (vheap g)) by done.
      rewrite lookup_insert. case_decide as Hk; subst.
      * split; [congruence|]. intros (v & Hv & Hi).
        by eapply wf_findVertex_None in Hf.
      * apply Hwf.
  - intros p v e. rewrite lookup_insert. case_decide; subst.
    + intros [= <-]. by intros ?%elem_of_nil.
    + apply Hwf.
  - intros p v e. rewrite lookup_insert. case_decide; subst.
    + intros [= <-]. by intros ?%elem_of_nil.
    + apply Hwf.
  - intros e ed He. destruct (wf_edge g Hwf e ed He) as (vo & vd & Ho & Hd & ? & ?).
    exists vo, vd. rewrite !lookup_insert_ne by congruence. done.
  - intros p v. rewrite lookup_insert. case_decide; subst.
    + intros [= <-]. constructor.
    + apply Hwf.
Qed.

(** ** [Vertex::addEdge] on a well-formed state *)

(** What [Vertex::addEdge(d, w)] on [this] does to the vertex at [p]. *)
Definition addEdge_upd (this d : vptr) (e : eptr) (p : vptr) (v : Vertex) : Vertex :=
  with_incoming (incoming v ++ (if decide (p = d) then [e] else []))
    (with_adj (adj v ++ (if decide (p = this) then [e] else [])) v).

Lemma addEdge_upd_id this d e p v : p ≠ this → p ≠ d → addEdge_upd this d e p v = v.
Proof.
  intros H1 H2. unfold addEdge_upd. rewrite !decide_False by done.
  destruct v; unfold with_incoming, with_adj; simpl. by rewrite !app_nil_r.
Qed.

Lemma Vertex_addEdge_spec g this d w :
  is_Some (vheap g !! this) → is_Some (vheap g !! d) →
  ∃ g', Vertex_addEdge this d w g = Some (fresh (dom (eheap g)), g') ∧
        vertexSet g' = vertexSet g ∧ vertexMap g' = vertexMap g ∧
        eheap g' = <[fresh (dom (eheap g)) := Edge_new this d w]> (eheap g) ∧
        ∀ p, vheap g' !! p =
             addEdge_upd this d (fresh (dom (eheap g))) p <$> vheap g !! p.
Proof.
  intros [vt Ht] [vd Hd]. unfold Vertex_addEdge. rewrite Ht. simpl.
  set (e := fresh (dom (eheap g))).
  destruct (decide (d = this)) as [->|Hne].
  - rewrite lookup_insert_eq. simpl. eexists. split; [done|]. simpl.
    repeat split; try done. intros p.
    destruct (decide (p = this)) as [->|Hp].
    + rewrite lookup_insert_eq, Ht. simpl. unfold addEdge_upd.
      by rewrite !decide_True by done.
    + rewrite !lookup_insert_ne by done.
      destruct (vheap g !! p) eqn:E; simpl; [|done].
      by rewrite addEdge_upd_id.
  - rewrite lookup_insert_ne by done. rewrite Hd. simpl.
    eexists. split; [done|]. simpl. repeat split; try done. intros p.
    destruct (decide (p = d)) as [->|Hp].
    + rewrite lookup_insert_eq, Hd. simpl. unfold addEdge_upd.
      repeat case_decide; try congruence.
      destruct vd; unfold with_incoming, with_adj; simpl. by rewrite app_nil_r.
    + rewrite lookup_insert_ne by done.
      destruct (decide (p = this)) as [->|Hp'].
      * rewrite lookup_insert_eq, Ht. simpl. unfold addEdge_upd.
        repeat case_decide; try congruence.
        destruct vt; unfold with_incoming, with_adj; simpl. by rewrite app_nil_r.
      * rewrite lookup_insert_ne by done.
        destruct (vheap g !! p) eqn:E; simpl; [|done].
        by rewrite addEdge_upd_id.
Qed.

Lemma wf_Vertex_addEdge g g' this d w e :
  wf g → Vertex_addEdge this d w g = Some (e, g') → wf g'.
Proof.
  intros Hwf Hadd.
  assert (is_Some (vheap g !! this)) as Ht.
  { unfold Vertex_addEdge in Hadd. destruct (vheap g !! this); [eauto|done]. }
  assert (is_Some (vheap g !! d)) as Hd.
  { unfold Vertex_addEdge in Hadd. destruct (vheap g !! this) as [vt|] eqn:E; [|done].
    simpl in Hadd. destruct (decide (d = this)) as [->|Hne]; [eauto|].
    rewrite lookup_insert_ne in Hadd by done. destruct (vheap g !! d); [eauto|done]. }
  destruct (Vertex_addEdge_spec g this d w Ht Hd) as (g2 & Heq & HVS & HVM & HE & HV).
  rewrite Hadd in Heq. injection Heq as -> <-.
  pose proof (fresh_edge g) as Hfresh. set (e := fresh (dom (eheap g))) in *.
  assert (∀ p v, vheap g !! p = Some v → e ∉ adj v) as Hna.
  { intros p v Hp Hin. destruct (wf_adj g Hwf p v e Hp Hin) as (? & ? & _). congruence. }
  assert (∀ p v, vheap g !! p = Some v → e ∉ incoming v) as Hni.
  { intros p v Hp Hin. destruct (wf_incoming g Hwf p v e Hp Hin) as (? & ? & _). congruence. }
  split.
  - rewrite HVS. apply Hwf.
  - intros p. rewrite HVS, HV, fmap_is_Some. apply Hwf.
  - intros k p. rewrite HVM, HV, (wf_index g Hwf). split.
    + intros (v & Hv & Hk). rewrite Hv. simpl. eauto.
    + intros (v' & Hv' & Hk). destruct (vheap g !! p) as [v|]; [|done].
      simpl in Hv'. injection Hv' as <-. eauto.
  - intros p v' e' Hp Hin. rewrite HV in Hp.
    destruct (vheap g !! p) as [v|] eqn:E; [|done]. simpl in Hp. injection Hp as <-.
    rewrite HE. simpl in Hin. apply elem_of_app in Hin as [Hin|Hin].
    + destruct (wf_adj g Hwf p v e' E Hin) as (ed & He' & Ho).
      exists ed. rewrite lookup_insert_ne by congruence. done.
    + case_decide; [|by apply elem_of_nil in Hin].
      apply list_elem_of_singleton in Hin as ->. subst.
      rewrite lookup_insert_eq. eauto.
  - intros p v' e' Hp Hin. rewrite HV in Hp.
    destruct (vheap g !! p) as [v|] eqn:E; [|done]. simpl in Hp. injection Hp as <-.
    rewrite HE. simpl in Hin. apply elem_of_app in Hin as [Hin|Hin].
    + destruct (wf_incoming g Hwf p v e' E Hin) as (ed & He' & Ho).
      exists ed. rewrite lookup_insert_ne by congruence. done.
    + case_decide; [|by apply elem_of_nil in Hin].
      apply list_elem_of_singleton in Hin as ->. subst.
      rewrite lookup_insert_eq. eauto.
  - intros e' ed. rewrite HE, lookup_insert. case_decide as Hc.
    + intros [= <-]. subst e'. simpl. rewrite !HV.
      destruct Ht as [vt ->], Hd as [vd ->]. simpl. do 2 eexists.
      split; [done|]. split; [done|]. simpl.
      rewrite !decide_True by done. rewrite !elem_of_app, !list_elem_of_singleton. auto.
    + intros He'. destruct (wf_edge g Hwf e' ed He') as (vo & vd & Ho & Hd' & H1 & H2).
      rewrite !HV, Ho, Hd'. simpl. do 2 eexists. split; [done|]. split; [done|].
      simpl. rewrite !elem_of_app. auto.
  - intros p v' Hp. rewrite HV in Hp.
    destruct (vheap g !! p) as [v|] eqn:E; [|done]. simpl in Hp. injection Hp as <-.
    simpl. apply NoDup_app. split; [by eapply wf_adj_nodup|]. split.
    + intros x Hx Hx'. case_decide; [|by apply elem_of_nil in Hx'].
      apply list_elem_of_singleton in Hx' as ->. by eapply Hna.
    + case_decide; [apply NoDup_singleton|constructor].
Qed.

(** ** Edges by key *)

(** The edge object at [e] leads to the vertex with key [d]. *)
Definition edge_to (g : Graph) (d : Z) (e : eptr) : Prop :=
  ∃ ed, eheap g !! e = Some ed ∧ key_of g (dest ed) = d.

(** Some allocated edge leads from key [s] to key [d]. *)
Definition has_edge (g : Graph) (s d : Z) : Prop :=
  ∃ e ed, eheap g !! e = Some ed ∧
          key_of g (orig ed) = s ∧ key_of g (dest ed) = d.

(** [ed] is the first edge to key [d] in the [adj] list of the vertex that
    the index gives for key [s]. *)
Definition first_edge (g : Graph) (s d : Z) (ed : Edge) : Prop :=
  ∃ v vv l1 e l2,
    findVertex s g = Some v ∧ vheap g !! v = Some vv ∧
    adj vv = l1 ++ e :: l2 ∧ eheap g !! e = Some ed ∧
    key_of g (dest ed) = d ∧ ∀ e', e' ∈ l1 → ¬ edge_to g d e'.

Lemma wf_edge_keys g e ed :
  wf g → eheap g !! e = Some ed →
  ∃ vo vd, vheap g !! orig ed = Some vo ∧ vheap g !! dest ed = Some vd ∧
           key_of g (orig ed) = info vo ∧ key_of g (dest ed) = info vd.
Proof.
  intros Hwf He. destruct (wf_edge g Hwf e ed He) as (vo & vd & Ho & Hd & _).
  exists vo, vd. by rewrite (key_of_lookup _ _ _ Ho), (key_of_lookup _ _ _ Hd).
Qed.

Lemma has_edge_first g s d :
  wf g → has_edge g s d ↔
         ∃ v vv e, findVertex s g = Some v ∧ vheap g !! v = Some vv ∧
                   e ∈ adj vv ∧ edge_to g d e.
Proof.
  intros Hwf. split.
  - intros (e & ed & He & Hs & Hd).
    destruct (wf_edge g Hwf e ed He) as (vo & vd & Ho & _ & Hin & _).
    exists (orig ed), vo, e. rewrite (key_of_lookup _ _ _ Ho) in Hs.
    split; [apply wf_index; eauto|]. split; [done|]. split; [done|].
    by exists ed.
  - intros (v & vv & e & Hf & Hv & Hin & ed & He & Hd).
    exists e, ed. split; [done|]. split; [|done].
    destruct (wf_adj g Hwf v vv e Hv Hin) as (ed' & He' & Ho).
    assert (ed' = ed) as -> by congruence. rewrite Ho.
    apply (wf_index g Hwf) in Hf as (v' & Hv' & Hk).
    by rewrite (key_of_lookup _ _ _ Hv').
Qed.

Lemma getEdgeWeight_scan_spec g d l :
  wf g → (∀ e, e ∈ l → is_Some (eheap g !! e)) →
  ∃ r, getEdgeWeight_scan g d l = Some r ∧
       ((∃ l1 e l2 ed, l = l1 ++ e :: l2 ∧ eheap g !! e = Some ed ∧
                       key_of g (dest ed) = d ∧ r = weight ed ∧
                       ∀ e', e' ∈ l1 → ¬ edge_to g d e') ∨
        ((∀ e, e ∈ l → ¬ edge_to g d e) ∧ r = DBL_MAX)).
Proof.
  intros Hwf. induction l as [|e l IH]; intros Hall; simpl.
  - exists DBL_MAX. split; [done|]. right. split; [|done].
    by intros e ?%elem_of_nil.
  - destruct (Hall e) as [ed He]; [by left|]. rewrite He. simpl.
    destruct (wf_edge_keys g e ed Hwf He) as (vo & vd & _ & Hd & _ & Hk).
    rewrite Hd. simpl. case_decide as Hc.
    + exists (weight ed). split; [done|]. left. exists [], e, l, ed.
      repeat split; try done; [congruence|]. by intros e' ?%elem_of_nil.
    + destruct IH as (r & Hr & Hcase); [by intros; apply Hall; right|].
      exists r. split; [done|].
      assert (¬ edge_to g d e) as Hne.
      { intros (ed' & He' & Hk'). congruence. }
      destruct Hcase as [(l1 & e1 & l2 & ed1 & -> & He1 & Hk1 & -> & Hpre)|[Hno ->]].
      * left. exists (e :: l1), e1, l2, ed1. repeat split; try done.
        intros e' [->|Hin]%elem_of_cons; auto.
      * right. split; [|done]. intros e' [->|Hin]%elem_of_cons; auto.
Qed.

(** The amended edge-weight lookup: on every well-formed state it returns,
    with the weight of the first edge [s → d] when there is one and with
    [DBL_MAX] when there is none. *)
Lemma getEdgeWeight_spec g s d :
  wf g →
  ∃ r, getEdgeWeight s d g = Some r ∧
       ((∃ ed, first_edge g s d ed ∧ r = weight ed) ∨
        (¬ has_edge g s d ∧ r = DBL_MAX)).
Proof.
  intros Hwf. unfold getEdgeWeight.
  destruct (findVertex s g) as [v|] eqn:Hf.
  - destruct (wf_findVertex_Some g s v Hwf Hf) as (_ & vv & Hv & Hk).
    rewrite Hv. simpl.
    destruct (getEdgeWeight_scan_spec g d (adj vv) Hwf) as (r & Hr & Hcase).
    { intros e He. destruct (wf_adj g Hwf v vv e Hv He) as (? & ? & _). eauto. }
    exists r. split; [done|].
    destruct Hcase as [(l1 & e1 & l2 & ed1 & Hadj & He1 & Hk1 & -> & Hpre)|[Hno ->]].
    + left. exists ed1. split; [|done]. exists v, vv, l1, e1, l2. done.
    + right. split; [|done]. rewrite (has_edge_first g s d Hwf).
      intros (v' & vv' & e & Hf' & Hv' & Hin & Hto).
      assert (v' = v) as -> by congruence. assert (vv' = vv) as -> by congruence.
      by apply (Hno e).
  - exists DBL_MAX. split; [done|]. right. split; [|done].
    rewrite (has_edge_first g s d Hwf). intros (v' & ? & ? & Hf' & _). congruence.
Qed.

(** ** Removing edges

    While [Vertex::removeEdge] or [Vertex::removeOutgoingEdges] runs on the
    vertex [u], the first [deleteEdge] already erases from the destination's
    [incoming] list every entry that comes from [u], so the edges of [u] still
    waiting in [adj] are no longer listed at their destination.  [wf_but X] is
    well-formedness with the edges in [X] exempted from that one clause. *)
Record wf_but (X : Edge → Prop) (g : Graph) : Prop := {
  wfb_nodup : NoDup (vertexSet g);
  wfb_alloc : ∀ p, p ∈ vertexSet g ↔ is_Some (vheap g !! p);
  wfb_index : ∀ k p, vertexMap g !! k = Some p ↔
                     ∃ v, vheap g !! p = Some v ∧ info v = k;
  wfb_adj : ∀ p v e, vheap g !! p = Some v → e ∈ adj v →
                     ∃ ed, eheap g !! e = Some ed ∧ orig ed = p;
  wfb_incoming : ∀ p v e, vheap g !! p = Some v → e ∈ incoming v →
                     ∃ ed, eheap g !! e = Some ed ∧ dest ed = p;
  wfb_edge : ∀ e ed, eheap g !! e = Some ed →
                     ∃ vo vd, vheap g !! orig ed = Some vo ∧
                              vheap g !! dest ed = Some vd ∧
                              e ∈ adj vo ∧ (e ∈ incoming vd ∨ X ed);
  wfb_adj_nodup : ∀ p v, vheap g !! p = Some v → NoDup (adj v)
}.

Lemma wf_wf_but X g : wf g → wf_but X g.
Proof.
  intros [H1 H2 H3 H4 H5 H6 H7]. split; try done.
  intros e ed He. destruct (H6 e ed He) as (vo & vd & ? & ? & ? & ?).
  exists vo, vd. auto.
Qed.

Lemma wf_but_wf X g :
  wf_but X g → (∀ e ed, eheap g !! e = Some ed → ¬ X ed) → wf g.
Proof.
  intros [H1 H2 H3 H4 H5 H6 H7] HX. split; try done.
  intros e ed He. destruct (H6 e ed He) as (vo & vd & ? & ? & ? & [?|?]).
  - exists vo, vd. auto.
  - by destruct (HX e ed He).
Qed.

Lemma wfb_key_inj X g p q v v' :
  wf_but X g → vheap g !! p = Some v → vheap g !! q = Some v' →
  info v = info v' → p = q.
Proof.
  intros Hwf Hp Hq Hk.
  assert (vertexMap g !! info v = Some p) as H1 by (apply (wfb_index X); eauto).
  assert (vertexMap g !! info v = Some q) as H2 by (apply (wfb_index X); eauto).
  congruence.
Qed.

(** The entry [e] of some list is an edge that leaves [u]. *)
Definition leaves (g : Graph) (u : vptr) (e : eptr) : Prop :=
  orig <$> eheap g !! e = Some u.

Global Instance leaves_dec g u e : Decision (leaves g u e).
Proof. unfold leaves. apply _. Defined.

Lemma deleteEdge_scan_spec g u vu l :
  (∀ p q v v', vheap g !! p = Some v → vheap g !! q = Some v' →
               info v = info v' → p = q) →
  vheap g !! u = Some vu →
  (∀ e, e ∈ l → ∃ ed, eheap g !! e = Some ed ∧ is_Some (vheap g !! orig ed)) →
  deleteEdge_scan g (info vu) l = Some (filter (λ e, ¬ leaves g u e) l).
Proof.
  intros Hinj Hu. induction l as [|e l IH]; intros Hall; simpl; [done|].
  destruct (Hall e) as (ed & He & [vo Ho]); [by left|].
  rewrite He. simpl. rewrite Ho. simpl.
  rewrite IH by (intros; apply Hall; by right). simpl. f_equal.
  destruct (decide (info vo = info vu)) as [Hk|Hk].
  - assert (orig ed = u) as Hou by (eapply Hinj; eauto).
    rewrite filter_cons_False; [done|].
    intros H. apply H. unfold leaves. rewrite He. simpl. by rewrite Hou.
  - rewrite filter_cons_True; [done|].
    unfold leaves. rewrite He. simpl. intros [= Hou]. congruence.
Qed.

(** What one [adj.erase(it); deleteEdge(edge);] on the vertex [u] does to the
    vertex at [p], for an edge that leads to [d]: [adj] of [u] becomes
    [newadj], and [incoming] of [d] loses every entry that leaves [u]. *)
Definition erase_upd (g : Graph) (u d : vptr) (newadj : list eptr)
    (p : vptr) (v : Vertex) : Vertex :=
  with_incoming (if decide (p = d)
                 then filter (λ e, ¬ leaves g u e) (incoming v) else incoming v)
    (with_adj (if decide (p = u) then newadj else adj v) v).

Lemma erase_upd_id g u d newadj p v : p ≠ u → p ≠ d → erase_upd g u d newadj p v = v.
Proof.
  intros H1 H2. unfold erase_upd. rewrite !decide_False by done. by destruct v.
Qed.

Definition exempt (u : vptr) (D : vptr → Prop) (ed : Edge) : Prop :=
  orig ed = u ∧ D (dest ed).

Lemma erase_step_spec X g u vu newadj e ed :
  wf_but X g → vheap g !! u = Some vu → eheap g !! e = Some ed →
  ∃ g2, Vertex_deleteEdge u e (store_vertex u (with_adj newadj vu) g) = Some g2 ∧
        vertexSet g2 = vertexSet g ∧ vertexMap g2 = vertexMap g ∧
        eheap g2 = delete e (eheap g) ∧
        ∀ p, vheap g2 !! p = erase_upd g u (dest ed) newadj p <$> vheap g !! p.
Proof.
  intros Hwf Hu He.
  destruct (wfb_edge X g Hwf e ed He) as (vo & vd & Ho & Hd & _ & _).
  set (g1 := store_vertex u (with_adj newadj vu) g).
  assert (∀ p, vheap g1 !! p =
               (λ v, if decide (p = u) then with_adj newadj v else v) <$> vheap g !! p)
    as Hg1.
  { intros p. unfold g1, store_vertex. simpl. rewrite lookup_insert.
    case_decide as Hp; subst.
    - rewrite Hu. simpl. by rewrite decide_True.
    - destruct (vheap g !! p); simpl; [|done]. by rewrite decide_False by congruence. }
  assert (∀ p q v v', vheap g1 !! p = Some v → vheap g1 !! q = Some v' →
                      info v = info v' → p = q) as Hinj.
  { intros p q v v'. rewrite !Hg1. intros Hp Hq Hk.
    destruct (vheap g !! p) as [w|] eqn:Ep; [|done].
    destruct (vheap g !! q) as [w'|] eqn:Eq; [|done].
    simpl in Hp, Hq. injection Hp as <-. injection Hq as <-.
    eapply (wfb_key_inj X g p q w w'); eauto.
    by repeat case_decide. }
  unfold Vertex_deleteEdge.
  change (eheap g1) with (eheap g). rewrite He. simpl.
  rewrite !Hg1, Hu, Hd. simpl. rewrite (decide_True (P := u = u)) by done.
  set (vd1 := if decide (dest ed = u) then with_adj newadj vd else vd).
  assert (incoming vd1 = incoming vd) as Hinc by (unfold vd1; by case_decide).
  rewrite (deleteEdge_scan_spec g1 u (with_adj newadj vu)
             (incoming vd1) Hinj).
  2:{ rewrite Hg1, Hu. simpl. by rewrite decide_True. }
  2:{ intros e' He'. rewrite Hinc in He'.
      destruct (wfb_incoming X g Hwf _ _ _ Hd He') as (ed' & He1 & _).
      exists ed'. split; [done|]. rewrite Hg1, fmap_is_Some.
      destruct (wfb_edge X g Hwf e' ed' He1) as (? & _ & -> & _). eauto. }
  simpl. eexists. split; [done|]. simpl. repeat split; try done.
  intros p. rewrite lookup_insert. case_decide as Hp.
  - subst p. rewrite Hd. simpl. f_equal. unfold erase_upd, vd1.
    rewrite (decide_True (P := dest ed = dest ed)) by done.
    case_decide; by destruct vd.
  - change (<[u:=with_adj newadj vu]> (vheap g)) with (vheap g1).
    rewrite Hg1. destruct (vheap g !! p) as [w|] eqn:Ep; [|done]. simpl. f_equal.
    unfold erase_upd. rewrite (decide_False (P := p = dest ed)) by congruence.
    case_decide; by destruct w.
Qed.

Lemma erase_step_wf u D g g2 vu kept e rest ed :
  wf_but (exempt u D) g → vheap g !! u = Some vu → adj vu = kept ++ e :: rest →
  eheap g !! e = Some ed → D (dest ed) →
  vertexSet g2 = vertexSet g → vertexMap g2 = vertexMap g →
  eheap g2 = delete e (eheap g) →
  (∀ p, vheap g2 !! p = erase_upd g u (dest ed) (kept ++ rest) p <$> vheap g !! p) →
  wf_but (exempt u D) g2.
Proof.
  intros Hwf Hu Hadj He HD HVS HVM HE HV.
  assert (orig ed = u) as Hou.
  { destruct (wfb_adj _ g Hwf u vu e Hu) as (ed' & He' & Ho).
    - rewrite Hadj. apply elem_of_app. right. by left.
    - congruence. }
  assert (e ∉ kept ++ rest) as Hnotin.
  { pose proof (wfb_adj_nodup _ g Hwf u vu Hu) as Hnd. rewrite Hadj in Hnd.
    apply NoDup_app in Hnd as (_ & H1 & H2). apply NoDup_cons in H2 as [H2 _].
    intros [Hin|Hin]%elem_of_app; [|done]. apply (H1 e Hin). by left. }
  assert (∀ p v2, vheap g2 !! p = Some v2 →
            ∃ v, vheap g !! p = Some v ∧ v2 = erase_upd g u (dest ed) (kept ++ rest) p v)
    as Hlk.
  { intros p v2. rewrite HV. intros (v & ? & ?)%fmap_Some. eauto. }
  split.
  - rewrite HVS. apply Hwf.
  - intros p. rewrite HVS, HV, fmap_is_Some. apply Hwf.
  - intros k p. rewrite HVM, HV, (wfb_index _ g Hwf). split.
    + intros (v & Hv & Hk). rewrite Hv. simpl. eauto.
    + intros (v' & (v & Hv & ->)%fmap_Some & Hk). eauto.
  - intros p v2 e' (v & Hv & ->)%Hlk Hin. simpl in Hin. rewrite HE.
    case_decide as Hp.
    + subst p. assert (v = vu) as -> by congruence.
      destruct (wfb_adj _ g Hwf u vu e' Hu) as (ed' & He' & Ho).
      { rewrite Hadj. apply elem_of_app in Hin as [?|?]; apply elem_of_app; auto.
        right. by right. }
      exists ed'. split; [|done]. rewrite lookup_delete_ne; [done|].
      intros <-. done.
    + destruct (wfb_adj _ g Hwf p v e' Hv Hin) as (ed' & He' & Ho).
      exists ed'. split; [|done]. rewrite lookup_delete_ne; [done|].
      intros <-. congruence.
  - intros p v2 e' (v & Hv & ->)%Hlk Hin. simpl in Hin. rewrite HE.
    case_decide as Hp.
    + subst p. apply list_elem_of_filter in Hin as [Hnl Hin].
      destruct (wfb_incoming _ g Hwf _ v e' Hv Hin) as (ed' & He' & Hd').
      exists ed'. split; [|done]. rewrite lookup_delete_ne; [done|].
      intros <-. apply Hnl. unfold leaves. rewrite He. simpl. by rewrite Hou.
    + destruct (wfb_incoming _ g Hwf p v e' Hv Hin) as (ed' & He' & Hd').
      exists ed'. split; [|done]. rewrite lookup_delete_ne; [done|].
      intros <-. congruence.
  - intros e' ed'. rewrite HE. intros [Hne He']%lookup_delete_Some.
    destruct (wfb_edge _ g Hwf e' ed' He') as (vo & vd & Ho & Hd & Hin & Hinc).
    rewrite !HV, Ho, Hd. simpl. do 2 eexists. split; [done|]. split; [done|].
    simpl. split.
    + case_decide as Hp; [|done].
      assert (vo = vu) as -> by congruence. rewrite Hadj in Hin.
      apply elem_of_app in Hin as [?|[?|?]%elem_of_cons]; [| congruence |];
        apply elem_of_app; auto.
    + case_decide as Hp; [|done].
      destruct (decide (orig ed' = u)) as [Hu'|Hu'].
      * right. split; [done|]. by rewrite Hp.
      * destruct Hinc as [Hinc|[? _]]; [|done]. left.
        apply list_elem_of_filter. split; [|done].
        unfold leaves. rewrite He'. simpl. congruence.
  - intros p v2 (v & Hv & ->)%Hlk. simpl. case_decide as Hp.
    + subst p. assert (v = vu) as -> by congruence.
      pose proof (wfb_adj_nodup _ g Hwf u vu Hu) as Hnd. rewrite Hadj in Hnd.
      apply NoDup_app in Hnd as (H0 & H1 & H2). apply NoDup_cons in H2 as [H2 H3].
      apply NoDup_app. split; [done|]. split; [|done].
      intros x Hx Hx'. apply (H1 x Hx). by right.
    + by eapply wfb_adj_nodup.
Qed.

(** From [g] to [g'] only edges in [X] were released; the vertex list, the
    index and the keys stayed. *)
Record erased_only (X : Edge → Prop) (g g' : Graph) : Prop := {
  eo_vertexSet : vertexSet g' = vertexSet g;
  eo_vertexMap : vertexMap g' = vertexMap g;
  eo_keys : ∀ p, info <$> vheap g' !! p = info <$> vheap g !! p;
  eo_sub : ∀ e ed, eheap g' !! e = Some ed → eheap g !! e = Some ed;
  eo_kept : ∀ e ed, eheap g !! e = Some ed → ¬ X ed → eheap g' !! e = Some ed
}.

Lemma erased_only_refl X g : erased_only X g g.
Proof. by split. Qed.

Lemma erased_only_trans X g1 g2 g3 :
  erased_only X g1 g2 → erased_only X g2 g3 → erased_only X g1 g3.
Proof.
  intros [A1 A2 A3 A4 A5] [B1 B2 B3 B4 B5]. split.
  - congruence.
  - congruence.
  - intros p. by rewrite B3.
  - auto.
  - auto.
Qed.

Lemma erased_only_weaken (X Y : Edge → Prop) g g' :
  (∀ e ed, eheap g !! e = Some ed → X ed → Y ed) →
  erased_only X g g' → erased_only Y g g'.
Proof. intros HXY [A1 A2 A3 A4 A5]. split; eauto. Qed.

Lemma erased_only_key X g g' p : erased_only X g g' → key_of g' p = key_of g p.
Proof.
  intros H. pose proof (eo_keys X g g' H p) as Hk. unfold key_of.
  destruct (vheap g' !! p), (vheap g !! p); simpl in Hk; congruence.
Qed.

Lemma erase_step_erased u D g g2 newadj e ed :
  eheap g !! e = Some ed → exempt u D ed →
  vertexSet g2 = vertexSet g → vertexMap g2 = vertexMap g →
  eheap g2 = delete e (eheap g) →
  (∀ p, vheap g2 !! p = erase_upd g u (dest ed) newadj p <$> vheap g !! p) →
  erased_only (exempt u D) g g2.
Proof.
  intros He HX HVS HVM HE HV. split; try done.
  - intros p. rewrite HV. by destruct (vheap g !! p).
  - intros e' ed'. rewrite HE. by intros [_ ?]%lookup_delete_Some.
  - intros e' ed' He' HnX. rewrite HE. apply lookup_delete_Some. split; [|done].
    intros <-. congruence.
Qed.

Lemma removeEdge_loop_spec u k g0 todo :
  ∀ kept removed g vu,
    let X := exempt u (λ p, key_of g0 p = k) in
    wf_but X g → erased_only X g0 g →
    vheap g !! u = Some vu → adj vu = kept ++ todo →
    (∀ e ed, e ∈ kept → eheap g !! e = Some ed → key_of g0 (dest ed) ≠ k) →
    ∃ b g', removeEdge_loop u k kept todo removed g = Some (b, g') ∧
            wf g' ∧ erased_only X g0 g' ∧
            ∀ e ed, eheap g' !! e = Some ed → ¬ X ed.
Proof.
  induction todo as [|e rest IH]; intros kept removed g vu X Hwf Heo Hu Hadj Hkept.
  - simpl. exists removed, g. split; [done|].
    assert (∀ e ed, eheap g !! e = Some ed → ¬ X ed) as HnX.
    { intros e ed He [Ho Hk].
      destruct (wfb_edge X g Hwf e ed He) as (vo & vd & Hvo & _ & Hin & _).
      rewrite Ho in Hvo. assert (vo = vu) as -> by congruence.
      rewrite Hadj, app_nil_r in Hin. by apply (Hkept e ed). }
    split; [by apply (wf_but_wf X)|done].
  - simpl.
    destruct (wfb_adj X g Hwf u vu e Hu) as (ed & He & Ho).
    { rewrite Hadj. apply elem_of_app. right. by left. }
    destruct (wfb_edge X g Hwf e ed He) as (vo & vd & _ & Hd & _ & _).
    rewrite He. simpl. rewrite Hd. simpl.
    assert (key_of g0 (dest ed) = info vd) as Hkey.
    { rewrite <- (erased_only_key X g0 g) by done. by apply key_of_lookup. }
    case_decide as Hc.
    + rewrite Hu. simpl.
      destruct (erase_step_spec X g u vu (kept ++ rest) e ed Hwf Hu He)
        as (g2 & -> & HVS & HVM & HE & HV).
      simpl.
      assert (X ed) as HX by (split; [done|congruence]).
      apply (IH kept true g2 (erase_upd g u (dest ed) (kept ++ rest) u vu)).
      * eapply (erase_step_wf u _ g g2 vu kept e rest ed); eauto. congruence.
      * eapply erased_only_trans; [done|].
        by eapply (erase_step_erased u _ g g2 (kept ++ rest) e ed).
      * by rewrite HV, Hu.
      * simpl. by rewrite decide_True.
      * intros e' ed' Hin. rewrite HE. intros [_ ?]%lookup_delete_Some. eauto.
    + apply (IH (kept ++ [e]) removed g vu); try done.
      * by rewrite <- app_assoc.
      * intros e' ed' [Hin| ->%list_elem_of_singleton]%elem_of_app He'; [eauto|].
        congruence.
Qed.

Lemma Vertex_removeEdge_spec u k g :
  wf g → is_Some (vheap g !! u) →
  let X := exempt u (λ p, key_of g p = k) in
  ∃ b g', Vertex_removeEdge u k g = Some (b, g') ∧
          wf g' ∧ erased_only X g g' ∧
          ∀ e ed, eheap g' !! e = Some ed → ¬ X ed.
Proof.
  intros Hwf [vu Hu] X. unfold Vertex_removeEdge. rewrite Hu. simpl.
  apply (removeEdge_loop_spec u k g (adj vu) [] false g vu); try done.
  - by apply wf_wf_but.
  - by intros e ed ?%elem_of_nil.
Qed.

Lemma removeOutgoingEdges_loop_spec u g0 todo :
  ∀ g vu,
    let X := exempt u (λ _, True) in
    wf_but X g → erased_only X g0 g →
    vheap g !! u = Some vu → adj vu = todo →
    ∃ g', removeOutgoingEdges_loop u todo g = Some g' ∧
          wf g' ∧ erased_only X g0 g' ∧
          ∀ e ed, eheap g' !! e = Some ed → ¬ X ed.
Proof.
  induction todo as [|e rest IH]; intros g vu X Hwf Heo Hu Hadj.
  - simpl. exists g. split; [done|].
    assert (∀ e ed, eheap g !! e = Some ed → ¬ X ed) as HnX.
    { intros e ed He [Ho _].
      destruct (wfb_edge X g Hwf e ed He) as (vo & vd & Hvo & _ & Hin & _).
      rewrite Ho in Hvo. assert (vo = vu) as -> by congruence.
      rewrite Hadj in Hin. by apply elem_of_nil in Hin. }
    split; [by apply (wf_but_wf X)|done].
  - simpl.
    destruct (wfb_adj X g Hwf u vu e Hu) as (ed & He & Ho).
    { rewrite Hadj. by left. }
    rewrite Hu. simpl.
    destruct (erase_step_spec X g u vu rest e ed Hwf Hu He)
      as (g2 & -> & HVS & HVM & HE & HV).
    simpl.
    assert (X ed) as HX by done.
    apply (IH g2 (erase_upd g u (dest ed) rest u vu)).
    + by eapply (erase_step_wf u _ g g2 vu [] e rest ed).
    + eapply erased_only_trans; [done|].
      by eapply (erase_step_erased u _ g g2 rest e ed).
    + by rewrite HV, Hu.
    + simpl. by rewrite decide_True.
Qed.

Lemma Vertex_removeOutgoingEdges_spec u g :
  wf g → is_Some (vheap g !! u) →
  let X := exempt u (λ _, True) in
  ∃ g', Vertex_removeOutgoingEdges u g = Some g' ∧
        wf g' ∧ erased_only X g g' ∧
        ∀ e ed, eheap g' !! e = Some ed → ¬ X ed.
Proof.
  intros Hwf [vu Hu] X. unfold Vertex_removeOutgoingEdges. rewrite Hu. simpl.
  apply (removeOutgoingEdges_loop_spec u g (adj vu) g vu); try done.
  by apply wf_wf_but.
Qed.

(** ** [Graph::removeVertex] *)

(** The edges that touch the vertex [v]. *)
Definition touches (v : vptr) (ed : Edge) : Prop := orig ed = v ∨ dest ed = v.

Lemma removeVertex_body_spec v g u :
  wf g → is_Some (vheap g !! v) → is_Some (vheap g !! u) →
  ∃ g', removeVertex_body v g u = Some g' ∧ wf g' ∧
        erased_only (touches v) g g' ∧
        ∀ e ed, eheap g' !! e = Some ed → orig ed = u → ¬ touches v ed.
Proof.
  intros Hwf [vv Hv] Hu. unfold removeVertex_body. case_decide as Hne.
  - rewrite Hv. simpl.
    destruct (Vertex_removeEdge_spec u (info vv) g Hwf Hu)
      as (b & g' & -> & Hwf' & Heo & Hclean).
    simpl. exists g'. split; [done|]. split; [done|]. split.
    + eapply erased_only_weaken; [|done]. intros e ed He [Ho Hk]. right.
      destruct (wf_edge_keys g e ed Hwf He) as (_ & vd & _ & Hd & _ & Hkd).
      apply (wf_key_inj g (dest ed) v vd vv Hwf Hd Hv). congruence.
    + intros e ed He Ho [Hv'|Hv']; [congruence|].
      apply (Hclean e ed He). split; [done|]. simpl. rewrite Hv'.
      by apply key_of_lookup.
  - assert (u = v) as -> by (by destruct (decide (u = v)) as [|?]; [|done]).
    destruct (Vertex_removeOutgoingEdges_spec v g Hwf Hu)
      as (g' & -> & Hwf' & Heo & Hclean).
    exists g'. split; [done|]. split; [done|]. split.
    + eapply erased_only_weaken; [|done]. intros e ed He [Ho _]. by left.
    + intros e ed He Ho _. by apply (Hclean e ed He).
Qed.

Lemma erased_only_alloc X g g' p :
  erased_only X g g' → is_Some (vheap g !! p) → is_Some (vheap g' !! p).
Proof.
  intros H Hp. pose proof (eo_keys X g g' H p) as Hk.
  destruct Hp as [v Hv]. rewrite Hv in Hk. destruct (vheap g' !! p); [eauto|done].
Qed.

Lemma removeVertex_loop_spec v l :
  ∀ g, wf g → is_Some (vheap g !! v) → (∀ u, u ∈ l → is_Some (vheap g !! u)) →
  ∃ g', foldM (removeVertex_body v) g l = Some g' ∧ wf g' ∧
        erased_only (touches v) g g' ∧
        ∀ e ed, eheap g' !! e = Some ed → orig ed ∈ l → ¬ touches v ed.
Proof.
  induction l as [|u l IH]; intros g Hwf Hv Hl; simpl.
  - exists g. split; [done|]. split; [done|]. split; [apply erased_only_refl|].
    by intros e ed _ ?%elem_of_nil.
  - destruct (removeVertex_body_spec v g u Hwf Hv) as (g1 & -> & Hwf1 & Heo1 & Hc1).
    { apply Hl. by left. }
    destruct (IH g1 Hwf1) as (g' & -> & Hwf' & Heo' & Hc').
    { by eapply erased_only_alloc. }
    { intros u' Hu'. eapply erased_only_alloc; [done|]. apply Hl. by right. }
    exists g'. split; [done|]. split; [done|]. split.
    + by eapply erased_only_trans.
    + intros e ed He [Ho|Hin]%elem_of_cons; [|eauto].
      apply (Hc1 e ed); [|done]. by apply (eo_sub _ _ _ Heo').
Qed.

(** The state [removeVertex] leaves once its loop is over. *)
Lemma wf_drop_vertex g k v :
  wf g → vertexMap g !! k = Some v →
  (∀ e ed, eheap g !! e = Some ed → ¬ touches v ed) →
  wf (mkGraph (filter (λ u, u ≠ v) (vertexSet g)) (delete k (vertexMap g))
              (delete v (vheap g)) (eheap g)).
Proof.
  intros Hwf Hk Hclean.
  destruct (proj1 (wf_index g Hwf k v) Hk) as (vv & Hv & Hkv).
  split; simpl.
  - apply NoDup_filter, Hwf.
  - intros p. rewrite list_elem_of_filter, (wf_alloc g Hwf), lookup_delete.
    case_decide; subst; split.
    + by intros [? _].
    + by intros [? ?].
    + by intros [_ ?].
    + intros ?. split; [congruence|done].
  - intros k' p. rewrite !lookup_delete. split.
    + case_decide as Hc; [done|]. intros Hp.
      destruct (proj1 (wf_index g Hwf k' p) Hp) as (vp & Hvp & Hkp).
      exists vp. split; [|done]. rewrite decide_False; [done|].
      intros <-. assert (vv = vp) by congruence. congruence.
    + intros (vp & Hvp & Hkp). case_decide as Hp; [done|].
      assert (vertexMap g !! k' = Some p) as Hp' by (apply wf_index; eauto).
      rewrite decide_False; [done|]. intros <-. congruence.
  - intros p vp e. rewrite lookup_delete. case_decide; [done|]. apply Hwf.
  - intros p vp e. rewrite lookup_delete. case_decide; [done|]. apply Hwf.
  - intros e ed He.
    destruct (wf_edge g Hwf e ed He) as (vo & vd & Ho & Hd & H1 & H2).
    exists vo, vd. rewrite !lookup_delete.
    rewrite !decide_False; [done| |].
    + intros Hc. apply (Hclean e ed He). by right.
    + intros Hc. apply (Hclean e ed He). by left.
  - intros p vp. rewrite lookup_delete. case_decide; [done|]. apply Hwf.
Qed.

Lemma removeVertex_spec g k :
  wf g →
  match findVertex k g with
  | None => removeVertex k g = Some (false, g)
  | Some v =>
      ∃ g', removeVertex k g = Some (true, g') ∧ wf g' ∧
            findVertex k g' = None ∧ vheap g' !! v = None ∧
            vertexSet g' = filter (λ u, u ≠ v) (vertexSet g) ∧
            vertexMap g' = delete k (vertexMap g) ∧
            (∀ p, p ≠ v → info <$> vheap g' !! p = info <$> vheap g !! p) ∧
            (∀ e ed, eheap g' !! e = Some ed ↔
                     eheap g !! e = Some ed ∧ orig ed ≠ v ∧ dest ed ≠ v)
  end.
Proof.
  intros Hwf. unfold removeVertex, findVertex.
  destruct (vertexMap g !! k) as [v|] eqn:Hk; [|done].
  destruct (proj1 (wf_index g Hwf k v) Hk) as (vv & Hv & Hkv).
  destruct (removeVertex_loop_spec v (vertexSet g) g Hwf) as (g1 & -> & Hwf1 & Heo & Hc).
  { eauto. }
  { intros u. apply (wf_alloc g Hwf). }
  simpl.
  assert (∀ e ed, eheap g1 !! e = Some ed → ¬ touches v ed) as Hclean.
  { intros e ed He. apply (Hc e ed He).
    destruct (wf_edge g1 Hwf1 e ed He) as (vo & _ & Ho & _).
    rewrite <- (eo_vertexSet _ _ _ Heo). apply (wf_alloc g1 Hwf1). eauto. }
  eexists. split; [done|]. simpl.
  rewrite <- (eo_vertexMap _ _ _ Heo) in Hk.
  split; [by apply wf_drop_vertex|].
  split; [apply lookup_delete_eq|]. split; [apply lookup_delete_eq|].
  split; [by rewrite (eo_vertexSet _ _ _ Heo)|].
  split; [by rewrite (eo_vertexMap _ _ _ Heo)|]. split.
  - intros p Hp. rewrite lookup_delete_ne by done. apply Heo.
  - intros e ed. split.
    + intros He. split; [by apply (eo_sub _ _ _ Heo)|].
      split; intros Hc'; apply (Hclean e ed He); [by left|by right].
    + intros (He & H1 & H2). apply (eo_kept _ _ _ Heo); [done|].
      by intros [?|?].
Qed.

(** ** The public mutations keep the state well-formed *)

Lemma setReverse_spec g e r ed :
  eheap g !! e = Some ed →
  setReverse e r g = Some (set_eheap (<[e := with_reverse r ed]> (eheap g)) g).
Proof. intros He. unfold setReverse. by rewrite He. Qed.

Lemma wf_setReverse g g' e r : wf g → setReverse e r g = Some g' → wf g'.
Proof.
  intros Hwf. unfold setReverse. destruct (eheap g !! e) as [ed|] eqn:He; [|done].
  simpl. intros [= <-]. split; simpl; try apply Hwf.
  - intros p v e' Hp Hin. destruct (wf_adj g Hwf p v e' Hp Hin) as (ed' & He' & Ho).
    rewrite lookup_insert. case_decide; subst.
    + assert (ed' = ed) as -> by congruence. eexists. split; [done|]. done.
    + eauto.
  - intros p v e' Hp Hin. destruct (wf_incoming g Hwf p v e' Hp Hin) as (ed' & He' & Ho).
    rewrite lookup_insert. case_decide; subst.
    + assert (ed' = ed) as -> by congruence. eexists. split; [done|]. done.
    + eauto.
  - intros e' ed'. rewrite lookup_insert. case_decide; subst.
    + intros [= <-]. simpl. by apply (wf_edge g Hwf e' ed).
    + apply Hwf.
Qed.

Lemma addEdge_spec g s d w :
  wf g →
  ∃ b g', addEdge s d w g = Some (b, g') ∧ wf g' ∧
          (b = true ↔ is_Some (findVertex s g) ∧ is_Some (findVertex d g)).
Proof.
  intros Hwf. unfold addEdge.
  destruct (findVertex s g) as [v1|] eqn:H1.
  2:{ exists false, g. split; [done|]. split; [done|]. split; [done|]. by intros [[? ?] _]. }
  destruct (findVertex d g) as [v2|] eqn:H2.
  2:{ exists false, g. split; [done|]. split; [done|]. split; [done|]. by intros [_ [? ?]]. }
  destruct (wf_findVertex_Some g s v1 Hwf H1) as (_ & vv1 & Hv1 & _).
  destruct (wf_findVertex_Some g d v2 Hwf H2) as (_ & vv2 & Hv2 & _).
  destruct (Vertex_addEdge_spec g v1 v2 w) as (g' & Hadd & _); [eauto|eauto|].
  rewrite Hadd. simpl. exists true, g'. split; [done|].
  split; [by eapply wf_Vertex_addEdge|]. split; eauto.
Qed.

Lemma removeEdge_spec g s d :
  wf g → ∃ b g', removeEdge s d g = Some (b, g') ∧ wf g'.
Proof.
  intros Hwf. unfold removeEdge.
  destruct (findVertex s g) as [v1|] eqn:H1; [|by exists false, g].
  destruct (wf_findVertex_Some g s v1 Hwf H1) as (_ & vv1 & Hv1 & _).
  destruct (Vertex_removeEdge_spec v1 d g Hwf) as (b & g' & -> & Hwf' & _); [eauto|].
  by exists b, g'.
Qed.

Lemma addBidirectionalEdge_wf g s d w :
  wf g →
  ∃ b g', addBidirectionalEdge s d w g = Some (b, g') ∧ wf g' ∧
          (b = true ↔ is_Some (findVertex s g) ∧ is_Some (findVertex d g)).
Proof.
  intros Hwf. unfold addBidirectionalEdge.
  destruct (findVertex s g) as [v1|] eqn:H1.
  2:{ exists false, g. split; [done|]. split; [done|]. split; [done|]. by intros [[? ?] _]. }
  destruct (findVertex d g) as [v2|] eqn:H2.
  2:{ exists false, g. split; [done|]. split; [done|]. split; [done|]. by intros [_ [? ?]]. }
  destruct (wf_findVertex_Some g s v1 Hwf H1) as (_ & vv1 & Hv1 & _).
  destruct (wf_findVertex_Some g d v2 Hwf H2) as (_ & vv2 & Hv2 & _).
  destruct (Vertex_addEdge_spec g v1 v2 w) as (g1 & Hadd1 & _ & _ & HE1 & HV1);
    [eauto|eauto|].
  rewrite Hadd1. simpl.
  pose proof (wf_Vertex_addEdge _ _ _ _ _ _ Hwf Hadd1) as Hwf1.
  destruct (Vertex_addEdge_spec g1 v2 v1 w) as (g2 & Hadd2 & _ & _ & HE2 & HV2).
  { rewrite HV1, fmap_is_Some. eauto. }
  { rewrite HV1, fmap_is_Some. eauto. }
  rewrite Hadd2. simpl.
  pose proof (wf_Vertex_addEdge _ _ _ _ _ _ Hwf1 Hadd2) as Hwf2.
  set (e1 := fresh (dom (eheap g))) in *. set (e2 := fresh (dom (eheap g1))) in *.
  assert (e2 ≠ e1) as Hne.
  { intros Heq. pose proof (fresh_edge g1) as Hf. fold e2 in Hf.
    rewrite HE1, Heq, lookup_insert_eq in Hf. done. }
  assert (eheap g2 !! e1 = Some (Edge_new v1 v2 w)) as He1.
  { rewrite HE2, lookup_insert_ne by done. by rewrite HE1, lookup_insert_eq. }
  rewrite (setReverse_spec g2 e1 (Some e2) _ He1). simpl.
  pose proof (wf_setReverse g2 _ e1 (Some e2) Hwf2 (setReverse_spec g2 e1 (Some e2) _ He1))
    as Hwf3.
  set (g3 := set_eheap _ g2) in *.
  assert (eheap g3 !! e2 = Some (Edge_new v2 v1 w)) as He2.
  { unfold g3. simpl. rewrite lookup_insert_ne by done. by rewrite HE2, lookup_insert_eq. }
  rewrite (setReverse_spec g3 e2 (Some e1) _ He2). simpl.
  eexists true, _. split; [done|]. split.
  - eapply wf_setReverse; [exact Hwf3|]. by apply setReverse_spec.
  - split; eauto.
Qed.

(** ** Sequences of public mutations *)

Inductive mutation :=
  | AddVertex (k : Z)
  | RemoveVertex (k : Z)
  | AddEdge (s d : Z) (w : double)
  | AddBidirectionalEdge (s d : Z) (w : double)
  | RemoveEdge (s d : Z).

Definition apply_mutation (m : mutation) (g : Graph) : option (bool * Graph) :=
  match m with
  | AddVertex k => Some (addVertex k g)
  | RemoveVertex k => removeVertex k g
  | AddEdge s d w => addEdge s d w g
  | AddBidirectionalEdge s d w => addBidirectionalEdge s d w g
  | RemoveEdge s d => removeEdge s d g
  end.

(** The calls [ms], one after the other, on the state [g]. *)
Definition run (ms : list mutation) (g : Graph) : option Graph :=
  foldM (λ g m, snd <$> apply_mutation m g) g ms.

Lemma apply_mutation_wf m g :
  wf g → ∃ b g', apply_mutation m g = Some (b, g') ∧ wf g'.
Proof.
  intros Hwf. destruct m as [k|k|s d w|s d w|s d]; simpl.
  - exists (fst (addVertex k g)), (snd (addVertex k g)).
    split; [by destruct (addVertex k g)|by apply wf_addVertex].
  - pose proof (removeVertex_spec g k Hwf) as H.
    destruct (findVertex k g); [|by exists false, g].
    destruct H as (g' & -> & Hwf' & _). by exists true, g'.
  - destruct (addEdge_spec g s d w Hwf) as (b & g' & -> & Hwf' & _). by exists b, g'.
  - destruct (addBidirectionalEdge_wf g s d w Hwf) as (b & g' & -> & Hwf' & _).
    by exists b, g'.
  - by apply removeEdge_spec.
Qed.

Lemma run_wf ms : ∀ g, wf g → ∃ g', run ms g = Some g' ∧ wf g'.
Proof.
  unfold run. induction ms as [|m ms IH]; intros g Hwf; simpl.
  - by exists g.
  - destruct (apply_mutation_wf m g Hwf) as (b & g1 & -> & Hwf1). simpl.
    by apply IH.
Qed.

Lemma run_wf_Some ms g : run ms empty_graph = Some g → wf g.
Proof.
  intros H. destruct (run_wf ms empty_graph wf_empty) as (g' & Hg' & Hwf).
  congruence.
Qed.

(** C7.  Whatever sequence of [addVertex], [removeVertex], [addEdge],
    [addBidirectionalEdge] and [removeEdge] calls is made on a fresh graph,
    every call is defined and the state after it has [vertexSet] and
    [vertexMap] holding the same vertices, every index entry [k ↦ p] with
    [p->info = k], and pairwise distinct keys. *)
Theorem mutations_keep_index_synced (ms : list mutation) :
  ∃ g, run ms empty_graph = Some g ∧ index_synced g.
Proof.
  destruct (run_wf ms empty_graph wf_empty) as (g & Hrun & Hwf).
  exists g. split; [done|]. by apply wf_index_synced.
Qed.

(** ** [Graph::addBidirectionalEdge] in closed form *)

Lemma addBidirectionalEdge_spec g s d w v1 v2 :
  wf g → findVertex s g = Some v1 → findVertex d g = Some v2 →
  ∃ g' e1 e2,
    addBidirectionalEdge s d w g = Some (true, g') ∧
    e1 ≠ e2 ∧ eheap g !! e1 = None ∧ eheap g !! e2 = None ∧
    vertexSet g' = vertexSet g ∧ vertexMap g' = vertexMap g ∧
    eheap g' = <[e2 := mkEdge v1 w false v2 (Some e1) None]>
                 (<[e1 := mkEdge v2 w false v1 (Some e2) None]> (eheap g)) ∧
    ∀ p, vheap g' !! p =
         (λ v, addEdge_upd v2 v1 e2 p (addEdge_upd v1 v2 e1 p v)) <$> vheap g !! p.
Proof.
  intros Hwf H1 H2. unfold addBidirectionalEdge. rewrite H1, H2.
  destruct (wf_findVertex_Some g s v1 Hwf H1) as (_ & vv1 & Hv1 & _).
  destruct (wf_findVertex_Some g d v2 Hwf H2) as (_ & vv2 & Hv2 & _).
  destruct (Vertex_addEdge_spec g v1 v2 w) as (g1 & Hadd1 & HS1 & HM1 & HE1 & HV1);
    [eauto|eauto|].
  rewrite Hadd1. simpl.
  destruct (Vertex_addEdge_spec g1 v2 v1 w) as (g2 & Hadd2 & HS2 & HM2 & HE2 & HV2).
  { rewrite HV1, fmap_is_Some. eauto. }
  { rewrite HV1, fmap_is_Some. eauto. }
  rewrite Hadd2. simpl.
  pose proof (fresh_edge g) as Hf1. pose proof (fresh_edge g1) as Hf2.
  set (e1 := fresh (dom (eheap g))) in *. set (e2 := fresh (dom (eheap g1))) in *.
  assert (e2 ≠ e1) as Hne.
  { intros Heq. rewrite HE1, Heq, lookup_insert_eq in Hf2. done. }
  assert (eheap g2 !! e1 = Some (Edge_new v1 v2 w)) as He1.
  { rewrite HE2, lookup_insert_ne by done. by rewrite HE1, lookup_insert_eq. }
  rewrite (setReverse_spec g2 e1 (Some e2) _ He1). simpl.
  set (g3 := set_eheap _ g2).
  assert (eheap g3 !! e2 = Some (Edge_new v2 v1 w)) as He2.
  { unfold g3. simpl. rewrite lookup_insert_ne by done. by rewrite HE2, lookup_insert_eq. }
  rewrite (setReverse_spec g3 e2 (Some e1) _ He2). simpl.
  eexists _, e1, e2. split; [done|]. simpl.
  split; [done|]. split; [done|].
  split. { rewrite HE1, lookup_insert_ne in Hf2 by done. done. }
  split; [congruence|]. split; [congruence|]. split.
  - rewrite HE2, HE1. unfold with_reverse, Edge_new. simpl.
    apply map_eq. intros e. rewrite !lookup_insert.
    repeat case_decide; try done; congruence.
  - intros p. rewrite HV2, HV1. by destruct (vheap g !! p).
Qed.

Lemma addBidirectionalEdge_weight g g' s d w v1 v2 e1 e2 :
  wf g → wf g' → findVertex s g = Some v1 → findVertex d g = Some v2 →
  e1 ≠ e2 → vertexMap g' = vertexMap g →
  eheap g' = <[e2 := mkEdge v1 w false v2 (Some e1) None]>
               (<[e1 := mkEdge v2 w false v1 (Some e2) None]> (eheap g)) →
  (∀ p, info <$> vheap g' !! p = info <$> vheap g !! p) →
  ¬ has_edge g s d → getEdgeWeight s d g' = Some w.
Proof.
  intros Hwf Hwf' H1 H2 Hne HM HE HK Hno.
  assert (∀ p, key_of g' p = key_of g p) as Hkey.
  { intros p. specialize (HK p). unfold key_of.
    destruct (vheap g' !! p), (vheap g !! p); simpl in HK; congruence. }
  destruct (wf_findVertex_Some g s v1 Hwf H1) as (_ & vv1 & Hv1 & Hk1).
  destruct (wf_findVertex_Some g d v2 Hwf H2) as (_ & vv2 & Hv2 & Hk2).
  destruct (getEdgeWeight_spec g' s d Hwf') as (r & -> & [(ed & Hfst & ->)|[Hno' _]]).
  - f_equal. destruct Hfst as (v & vv & l1 & e & l2 & Hf & Hv & Hadj & He & Hkd & _).
    rewrite HE in He. rewrite lookup_insert in He. case_decide; [by injection He as <-|].
    rewrite lookup_insert in He. case_decide; [by injection He as <-|].
    destruct Hno. exists e, ed. split; [done|]. rewrite <- !Hkey. split; [|done].
    destruct (wf_adj g' Hwf' v vv e Hv) as (ed' & He' & Ho).
    { rewrite Hadj. apply elem_of_app. right. by left. }
    rewrite HE, !lookup_insert_ne in He' by done.
    assert (ed' = ed) as -> by congruence. rewrite Ho.
    destruct (wf_findVertex_Some g' s v Hwf' Hf) as (_ & vv' & Hv' & Hk').
    by rewrite (key_of_lookup _ _ _ Hv').
  - destruct Hno'. exists e1, (mkEdge v2 w false v1 (Some e2) None).
    split; [by rewrite HE, lookup_insert_ne, lookup_insert_eq|]. simpl.
    rewrite !Hkey. by rewrite (key_of_lookup _ _ _ Hv1), (key_of_lookup _ _ _ Hv2).
Qed.

(** The post-condition of a successful [addBidirectionalEdge(s, d, w)]:
    exactly two fresh edge objects [e1 : s → d] and [e2 : d → s] of weight [w],
    each the [reverse] of the other, appended to the [adj] and [incoming]
    lists at their ends; the lookup returns [w] in a direction that had no
    edge before. *)
Definition addBidirectionalEdge_post (g : Graph) (s d : Z) (w : double)
    (v1 v2 : vptr) (g' : Graph) : Prop :=
  ∃ e1 e2 ed1 ed2,
    e1 ≠ e2 ∧ eheap g !! e1 = None ∧ eheap g !! e2 = None ∧
    eheap g' !! e1 = Some ed1 ∧ eheap g' !! e2 = Some ed2 ∧
    (∀ e, e ≠ e1 → e ≠ e2 → eheap g' !! e = eheap g !! e) ∧
    orig ed1 = v1 ∧ dest ed1 = v2 ∧ weight ed1 = w ∧ reverse ed1 = Some e2 ∧
    orig ed2 = v2 ∧ dest ed2 = v1 ∧ weight ed2 = w ∧ reverse ed2 = Some e1 ∧
    (∀ p, vheap g' !! p =
          (λ v, addEdge_upd v2 v1 e2 p (addEdge_upd v1 v2 e1 p v)) <$> vheap g !! p) ∧
    (¬ has_edge g s d → getEdgeWeight s d g' = Some w) ∧
    (¬ has_edge g d s → getEdgeWeight d s g' = Some w).

Lemma addBidirectionalEdge_present g s d w v1 v2 :
  wf g → findVertex s g = Some v1 → findVertex d g = Some v2 →
  ∃ g', addBidirectionalEdge s d w g = Some (true, g') ∧ wf g' ∧
        addBidirectionalEdge_post g s d w v1 v2 g'.
Proof.
  intros Hwf H1 H2.
  destruct (addBidirectionalEdge_spec g s d w v1 v2 Hwf H1 H2)
    as (g' & e1 & e2 & Hrun & Hne & Hn1 & Hn2 & HS & HM & HE & HV).
  destruct (addBidirectionalEdge_wf g s d w Hwf) as (b & g'' & Hrun' & Hwf' & _).
  assert (g'' = g') as -> by congruence.
  assert (∀ p, info <$> vheap g' !! p = info <$> vheap g !! p) as HK.
  { intros p. rewrite HV. by destruct (vheap g !! p). }
  exists g'. split; [done|]. split; [done|].
  exists e1, e2, (mkEdge v2 w false v1 (Some e2) None),
         (mkEdge v1 w false v2 (Some e1) None). simpl.
  split; [done|]. split; [done|]. split; [done|].
  split; [by rewrite HE, lookup_insert_ne, lookup_insert_eq|].
  split; [by rewrite HE, lookup_insert_eq|].
  split; [by intros e ? ?; rewrite HE, !lookup_insert_ne|].
  repeat (split; [done|]). split.
  - by apply (addBidirectionalEdge_weight g g' s d w v1 v2 e1 e2).
  - apply (addBidirectionalEdge_weight g g' d s w v2 v1 e2 e1); try done.
    + rewrite HE. apply map_eq. intros e. rewrite !lookup_insert.
      repeat case_decide; try done; congruence.
Qed.

(** ** Sample states *)

(** Scenario S1: keys 1, 2, 3 with the edges 1 → 2 (5) and 2 → 3 (7). *)
Definition sample_ops : list mutation :=
  [AddVertex 1; AddVertex 2; AddVertex 3; AddEdge 1 2 5%float; AddEdge 2 3 7%float].
Definition sample_graph : Graph := default empty_graph (run sample_ops empty_graph).

(** Keys 1 and 2 with one edge 1 → 2 whose weight is [DBL_MAX]. *)
Definition heavy_ops : list mutation :=
  [AddVertex 1; AddVertex 2; AddEdge 1 2 DBL_MAX].
Definition heavy_graph : Graph := default empty_graph (run heavy_ops empty_graph).

(** Keys 1 and 2 with one edge 1 → 2 of weight 5. *)
Definition single_ops : list mutation :=
  [AddVertex 1; AddVertex 2; AddEdge 1 2 5%float].
Definition single_graph : Graph := default empty_graph (run single_ops empty_graph).

(** IEEE finiteness of a [double]. *)
Definition is_finite (x : double) : bool :=
  negb (PrimFloat.is_nan x || PrimFloat.is_infinity x).

Lemma sample_graph_wf : wf sample_graph.
Proof. apply (run_wf_Some sample_ops). vm_compute. reflexivity. Qed.

Lemma heavy_graph_wf : wf heavy_graph.
Proof. apply (run_wf_Some heavy_ops). vm_compute. reflexivity. Qed.

Lemma single_graph_wf : wf single_graph.
Proof. apply (run_wf_Some single_ops). vm_compute. reflexivity. Qed.

(** ** Edge-weight lookup (C5) *)

Lemma first_edge_has_edge g s d ed : wf g → first_edge g s d ed → has_edge g s d.
Proof.
  intros Hwf (v & vv & l1 & e & l2 & Hf & Hv & Hadj & He & Hk & _).
  apply (has_edge_first g s d Hwf). exists v, vv, e.
  split; [done|]. split; [done|]. split.
  - rewrite Hadj. apply elem_of_app. right. by left.
  - by exists ed.
Qed.

(** C5, as the code has it.  On every well-formed state [getEdgeWeight(s, d)]
    returns: the weight of the first edge [s → d] of [s.adj] when there is
    one, and [DBL_MAX] when [s] is absent or has no such edge.  A result
    other than [DBL_MAX] therefore means that an edge exists; the converse
    fails for an edge that weighs [DBL_MAX] itself. *)
Theorem getEdgeWeight_first_or_max (g : Graph) (s d : Z) :
  wf g →
  ∃ r, getEdgeWeight s d g = Some r ∧
       (has_edge g s d → ∃ ed, first_edge g s d ed ∧ r = weight ed) ∧
       (¬ has_edge g s d → r = DBL_MAX) ∧
       (findVertex s g = None → r = DBL_MAX) ∧
       (r ≠ DBL_MAX → has_edge g s d).
Proof.
  intros Hwf.
  destruct (getEdgeWeight_spec g s d Hwf) as (r & Hr & [(ed & Hfst & ->)|[Hno ->]]).
  - exists (weight ed). split; [done|].
    pose proof (first_edge_has_edge g s d ed Hwf Hfst) as Hhas.
    split; [eauto|]. split; [done|]. split; [|done].
    intros Hnone. destruct Hfst as (v & _ & _ & _ & _ & Hf & _). congruence.
  - exists DBL_MAX. split; [done|]. split; [done|]. done.
Qed.

Lemma getEdgeWeight_first_or_max_witness :
  ∃ r, getEdgeWeight 1 2 sample_graph = Some r ∧
       (has_edge sample_graph 1 2 → ∃ ed, first_edge sample_graph 1 2 ed ∧ r = weight ed) ∧
       (¬ has_edge sample_graph 1 2 → r = DBL_MAX) ∧
       (findVertex 1 sample_graph = None → r = DBL_MAX) ∧
       (r ≠ DBL_MAX → has_edge sample_graph 1 2).
Proof. exact (getEdgeWeight_first_or_max sample_graph 1 2 sample_graph_wf). Defined.

(** C5 as stated fails.  With the sentinel read as the "not finite" value:
    the state [heavy_graph] has an edge 1 → 2 and the lookup still returns
    the sentinel.  With IEEE finiteness: the lookup on the empty graph
    returns a finite double although there is no edge. *)
Lemma getEdgeWeight_finite_iff_edge_counterexample :
  (wf heavy_graph ∧ has_edge heavy_graph 1 2 ∧
   getEdgeWeight 1 2 heavy_graph = Some DBL_MAX) ∧
  (wf empty_graph ∧ ¬ has_edge empty_graph 1 2 ∧
   ∃ r, getEdgeWeight 1 2 empty_graph = Some r ∧ is_finite r = true).
Proof.
  split.
  - split; [apply heavy_graph_wf|]. split; [|by vm_compute].
    exists 1%positive, (mkEdge 2%positive DBL_MAX false 1%positive None None).
    by vm_compute.
  - split; [apply wf_empty|]. split.
    + intros (e & ed & He & _). simpl in He. by rewrite lookup_empty in He.
    + exists DBL_MAX. by vm_compute.
Qed.

(** ** [removeVertex] (C6) *)

(** The state after a successful [removeVertex(k)] that found the vertex [v]:
    the key and the vertex object are gone, exactly the edges that left or
    entered [v] were released, and neither the store nor any [adj] or
    [incoming] list holds an edge with an end of key [k]. *)
Definition removeVertex_post (g : Graph) (k : Z) (v : vptr) (g' : Graph) : Prop :=
  findVertex k g' = None ∧
  vheap g' !! v = None ∧
  vertexSet g' = filter (λ u, u ≠ v) (vertexSet g) ∧
  vertexMap g' = delete k (vertexMap g) ∧
  (∀ p vp, vheap g' !! p = Some vp → info vp ≠ k) ∧
  (∀ e ed, eheap g' !! e = Some ed ↔
           eheap g !! e = Some ed ∧ orig ed ≠ v ∧ dest ed ≠ v) ∧
  (∀ e ed, eheap g !! e = Some ed →
           key_of g (orig ed) = k ∨ key_of g (dest ed) = k → eheap g' !! e = None) ∧
  (∀ e ed, eheap g' !! e = Some ed →
           key_of g' (orig ed) ≠ k ∧ key_of g' (dest ed) ≠ k) ∧
  (∀ p vp e, vheap g' !! p = Some vp → e ∈ adj vp ∨ e ∈ incoming vp →
             ∃ ed, eheap g' !! e = Some ed ∧
                   key_of g' (orig ed) ≠ k ∧ key_of g' (dest ed) ≠ k).

(** C6.  On a well-formed state [removeVertex(k)] returns [false], changing
    nothing, exactly when [k] is absent; otherwise it returns [true] and
    leaves a well-formed state that satisfies [removeVertex_post]. *)
Theorem removeVertex_removes (g : Graph) (k : Z) :
  wf g →
  match findVertex k g with
  | None => removeVertex k g = Some (false, g)
  | Some v => ∃ g', removeVertex k g = Some (true, g') ∧ wf g' ∧
                    removeVertex_post g k v g'
  end.
Proof.
  intros Hwf. pose proof (removeVertex_spec g k Hwf) as H.
  destruct (findVertex k g) as [v|] eqn:Hf; [|done].
  destruct H as (g' & Hrun & Hwf' & Hf' & Hv' & HS & HM & HK & HE).
  exists g'. split; [done|]. split; [done|].
  destruct (wf_findVertex_Some g k v Hwf Hf) as (_ & vv & Hv & Hkv).
  assert (∀ p vp, vheap g' !! p = Some vp → info vp ≠ k) as Hnok.
  { intros p vp Hp. by eapply wf_findVertex_None. }
  assert (∀ e ed, eheap g' !! e = Some ed →
                  key_of g' (orig ed) ≠ k ∧ key_of g' (dest ed) ≠ k) as Hedges.
  { intros e ed He.
    destruct (wf_edge_keys g' e ed Hwf' He) as (vo & vd & Ho & Hd & -> & ->). eauto. }
  repeat (split; [done|]). split; [|split; [done|]].
  - intros e ed He Hk. destruct (eheap g' !! e) as [ed'|] eqn:He'; [|done].
    apply HE in He' as (He' & Ho & Hd). assert (ed' = ed) as -> by congruence.
    destruct (wf_edge_keys g e ed Hwf He) as (vo & vd & Hvo & Hvd & Hko & Hkd).
    destruct Hk as [Hk|Hk].
    + destruct Ho. apply (wf_key_inj g (orig ed) v vo vv Hwf Hvo Hv). congruence.
    + destruct Hd. apply (wf_key_inj g (dest ed) v vd vv Hwf Hvd Hv). congruence.
  - intros p vp e Hp [Hin|Hin].
    + destruct (wf_adj g' Hwf' p vp e Hp Hin) as (ed & He & _).
      exists ed. split; [done|]. by apply (Hedges e).
    + destruct (wf_incoming g' Hwf' p vp e Hp Hin) as (ed & He & _).
      exists ed. split; [done|]. by apply (Hedges e).
Qed.

Lemma removeVertex_removes_witness :
  match findVertex 2 sample_graph with
  | None => removeVertex 2 sample_graph = Some (false, sample_graph)
  | Some v => ∃ g', removeVertex 2 sample_graph = Some (true, g') ∧ wf g' ∧
                    removeVertex_post sample_graph 2 v g'
  end.
Proof. exact (removeVertex_removes sample_graph 2 sample_graph_wf). Defined.

(** ** [addBidirectionalEdge] (C8) *)

(** C8, as the code has it.  With both keys present the call returns [true]
    and satisfies [addBidirectionalEdge_post]: two new edges [s → d] and
    [d → s] of weight [w] that are each other's [reverse], and a lookup that
    returns [w] in each direction that had no edge before the call.  With a
    key absent it returns [false] and changes nothing. *)
Theorem addBidirectionalEdge_pairs (g : Graph) (s d : Z) (w : double) :
  wf g →
  match findVertex s g, findVertex d g with
  | Some v1, Some v2 =>
      ∃ g', addBidirectionalEdge s d w g = Some (true, g') ∧ wf g' ∧
            addBidirectionalEdge_post g s d w v1 v2 g'
  | _, _ => addBidirectionalEdge s d w g = Some (false, g)
  end.
Proof.
  intros Hwf.
  destruct (findVertex s g) as [v1|] eqn:H1.
  - destruct (findVertex d g) as [v2|] eqn:H2.
    + by apply addBidirectionalEdge_present.
    + unfold addBidirectionalEdge. by rewrite H1, H2.
  - unfold addBidirectionalEdge. by rewrite H1.
Qed.

Lemma addBidirectionalEdge_pairs_witness :
  match findVertex 1 sample_graph, findVertex 3 sample_graph with
  | Some v1, Some v2 =>
      ∃ g', addBidirectionalEdge 1 3 3%float sample_graph = Some (true, g') ∧ wf g' ∧
            addBidirectionalEdge_post sample_graph 1 3 3%float v1 v2 g'
  | _, _ => addBidirectionalEdge 1 3 3%float sample_graph = Some (false, sample_graph)
  end.
Proof. exact (addBidirectionalEdge_pairs sample_graph 1 3 3%float sample_graph_wf). Defined.

(** C8 as stated fails: the state [single_graph] already has an edge 1 → 2 of
    weight 5; [addBidirectionalEdge(1, 2, 3)] succeeds on it and
    [getEdgeWeight(1, 2)] still returns 5, not 3. *)
Lemma addBidirectionalEdge_weight_counterexample :
  wf single_graph ∧
  ∃ g', addBidirectionalEdge 1 2 3%float single_graph = Some (true, g') ∧
        getEdgeWeight 1 2 g' = Some 5%float ∧
        getEdgeWeight 1 2 g' ≠ Some 3%float.
Proof.
  split; [apply single_graph_wf|].
  destruct (addBidirectionalEdge 1 2 3%float single_graph) as [[b g']|] eqn:E;
    [|by vm_compute in E].
  destruct b; [|by vm_compute in E].
  exists g'. split; [done|].
  assert (getEdgeWeight 1 2 g' = Some 5%float) as Hw.
  { assert ((addBidirectionalEdge 1 2 3%float single_graph
               ≫= λ r, getEdgeWeight 1 2 (snd r)) = Some 5%float) as H
      by (by vm_compute).
    by rewrite E in H. }
  split; [done|]. rewrite Hw. intros [= H].
Qed.

(** ** The structure of a state and its scratch fields

    [structure g] is the state [g] with the three scratch fields that the
    traversals assign ([visited], [processing], [indegree]) cleared in every
    vertex.  Two states with the same structure have the same vertex list and
    index, the same edge objects, and vertices that agree on [info], [adj],
    [incoming], [dist], [path] and [queueIndex]. *)
Definition clear_scratch (v : Vertex) : Vertex :=
  mkVertex (queueIndex v) (info v) (adj v) false false None
           (dist v) (path v) (incoming v).

Definition structure (g : Graph) : Graph :=
  mkGraph (vertexSet g) (vertexMap g) (clear_scratch <$> vheap g) (eheap g).

(** Views of a state: the [adj] list, the successors it leads to, and the
    scratch fields, by vertex address. *)
Definition adj_of (g : Graph) (p : vptr) : list eptr :=
  match vheap g !! p with Some v => adj v | None => [] end.
Definition dest_of (g : Graph) (e : eptr) : vptr :=
  match eheap g !! e with Some ed => dest ed | None => 1%positive end.
Definition succs (g : Graph) (p : vptr) : list vptr := dest_of g <$> adj_of g p.
Definition is_visited (g : Graph) (p : vptr) : bool :=
  match vheap g !! p with Some v => visited v | None => false end.
Definition is_processing (g : Graph) (p : vptr) : bool :=
  match vheap g !! p with Some v => processing v | None => false end.

Lemma structure_vertexSet g g' : structure g' = structure g → vertexSet g' = vertexSet g.
Proof. intros H. by injection H. Qed.

Lemma structure_vertexMap g g' : structure g' = structure g → vertexMap g' = vertexMap g.
Proof. intros H. by injection H. Qed.

Lemma structure_eheap g g' : structure g' = structure g → eheap g' = eheap g.
Proof. intros H. by injection H. Qed.

Lemma structure_lookup g g' p :
  structure g' = structure g →
  clear_scratch <$> vheap g' !! p = clear_scratch <$> vheap g !! p.
Proof. intros H. injection H as _ _ H _. by rewrite <- !lookup_fmap, H. Qed.

Lemma structure_lookup_Some g g' p v :
  structure g' = structure g → vheap g !! p = Some v →
  ∃ v', vheap g' !! p = Some v' ∧ clear_scratch v' = clear_scratch v.
Proof.
  intros H Hv. pose proof (structure_lookup g g' p H) as Hl. rewrite Hv in Hl.
  destruct (vheap g' !! p) as [v'|]; [|done]. exists v'. split; [done|].
  simpl in Hl. congruence.
Qed.

Lemma clear_scratch_fields v v' :
  clear_scratch v' = clear_scratch v →
  info v' = info v ∧ adj v' = adj v ∧ incoming v' = incoming v.
Proof. intros H. by injection H. Qed.

Lemma structure_key_of g g' p : structure g' = structure g → key_of g' p = key_of g p.
Proof.
  intros H. pose proof (structure_lookup g g' p H) as Hl. unfold key_of.
  destruct (vheap g' !! p), (vheap g !! p); simpl in Hl; try done.
  by injection Hl.
Qed.

Lemma structure_adj_of g g' p : structure g' = structure g → adj_of g' p = adj_of g p.
Proof.
  intros H. pose proof (structure_lookup g g' p H) as Hl. unfold adj_of.
  destruct (vheap g' !! p), (vheap g !! p); simpl in Hl; try done.
  by injection Hl.
Qed.

Lemma structure_store g p v v' :
  vheap g !! p = Some v → clear_scratch v' = clear_scratch v →
  structure (store_vertex p v' g) = structure g.
Proof.
  intros Hv Hc. unfold structure, store_vertex. simpl. f_equal.
  rewrite fmap_insert, Hc. apply insert_id. by rewrite lookup_fmap, Hv.
Qed.

Lemma setVisited_structure g g' p b : setVisited p b g = Some g' → structure g' = structure g.
Proof.
  unfold setVisited. destruct (vheap g !! p) as [v|] eqn:Hv; [|done].
  intros [= <-]. by apply (structure_store g p v).
Qed.

Lemma setProcesssing_structure g g' p b :
  setProcesssing p b g = Some g' → structure g' = structure g.
Proof.
  unfold setProcesssing. destruct (vheap g !! p) as [v|] eqn:Hv; [|done].
  intros [= <-]. by apply (structure_store g p v).
Qed.

Lemma setIndegree_structure g g' p n :
  setIndegree p n g = Some g' → structure g' = structure g.
Proof.
  unfold setIndegree. destruct (vheap g !! p) as [v|] eqn:Hv; [|done].
  intros [= <-]. by apply (structure_store g p v).
Qed.

Lemma wf_structure g g' : structure g' = structure g → wf g → wf g'.
Proof.
  intros H Hwf.
  assert (∀ p v', vheap g' !! p = Some v' →
            ∃ v, vheap g !! p = Some v ∧ info v' = info v ∧ adj v' = adj v ∧
                 incoming v' = incoming v) as Hlk.
  { intros p v' Hv'. destruct (structure_lookup_Some g' g p v' (eq_sym H) Hv')
      as (v & Hv & Hc). exists v. split; [done|].
    symmetry in Hc. by apply clear_scratch_fields in Hc. }
  assert (∀ p v, vheap g !! p = Some v →
            ∃ v', vheap g' !! p = Some v' ∧ info v' = info v ∧ adj v' = adj v ∧
                  incoming v' = incoming v) as Hlk'.
  { intros p v Hv. destruct (structure_lookup_Some g g' p v H Hv) as (v' & Hv' & Hc).
    exists v'. split; [done|]. by apply clear_scratch_fields in Hc. }
  split.
  - rewrite (structure_vertexSet _ _ H). apply Hwf.
  - intros p. rewrite (structure_vertexSet _ _ H), (wf_alloc g Hwf). split.
    + intros [v Hv]. destruct (Hlk' p v Hv) as (v' & ? & _). eauto.
    + intros [v' Hv']. destruct (Hlk p v' Hv') as (v & ? & _). eauto.
  - intros k p. rewrite (structure_vertexMap _ _ H), (wf_index g Hwf). split.
    + intros (v & Hv & Hk). destruct (Hlk' p v Hv) as (v' & ? & ? & _).
      exists v'. split; [done|congruence].
    + intros (v' & Hv' & Hk). destruct (Hlk p v' Hv') as (v & ? & ? & _).
      exists v. split; [done|congruence].
  - intros p v' e Hv' Hin. destruct (Hlk p v' Hv') as (v & Hv & _ & Ha & _).
    rewrite (structure_eheap _ _ H). rewrite Ha in Hin. by eapply wf_adj.
  - intros p v' e Hv' Hin. destruct (Hlk p v' Hv') as (v & Hv & _ & _ & Hi).
    rewrite (structure_eheap _ _ H). rewrite Hi in Hin. by eapply wf_incoming.
  - intros e ed. rewrite (structure_eheap _ _ H). intros He.
    destruct (wf_edge g Hwf e ed He) as (vo & vd & Ho & Hd & H1 & H2).
    destruct (Hlk' _ vo Ho) as (vo' & ? & _ & Ha & _).
    destruct (Hlk' _ vd Hd) as (vd' & ? & _ & _ & Hi).
    exists vo', vd'. rewrite Ha, Hi. done.
  - intros p v' Hv'. destruct (Hlk p v' Hv') as (v & Hv & _ & Ha & _).
    rewrite Ha. by eapply wf_adj_nodup.
Qed.

(** ** Reading a traversal's state through the structure *)

Lemma foldM_app {S A} (f : S → A → option S) s l1 l2 :
  foldM f s (l1 ++ l2) = foldM f s l1 ≫= λ s', foldM f s' l2.
Proof.
  revert s. induction l1 as [|x l1 IH]; intros s; simpl; [done|].
  destruct (f s x); simpl; [apply IH|done].
Qed.

(** Two loops over [l] and over its image under [h] that keep [R]. *)
Lemma foldM_sim {S1 S2 A B} (R : S1 → S2 → Prop) (h : A → B) (P : A → Prop)
    (f1 : S1 → A → option S1) (f2 : S2 → B → option S2) (l : list A) :
  Forall P l →
  (∀ a s1 s2 s2', P a → R s1 s2 → f2 s2 (h a) = Some s2' →
                  ∃ s1', f1 s1 a = Some s1' ∧ R s1' s2') →
  ∀ s1 s2 s2', R s1 s2 → foldM f2 s2 (h <$> l) = Some s2' →
               ∃ s1', foldM f1 s1 l = Some s1' ∧ R s1' s2'.
Proof.
  intros HP Hstep. induction HP as [|a l Ha HP IH]; intros s1 s2 s2' HR; simpl.
  - intros [= <-]. eauto.
  - destruct (f2 s2 (h a)) as [t2|] eqn:E2; [|done]. intros Hrest.
    destruct (Hstep a s1 s2 t2 Ha HR E2) as (t1 & -> & HR1). eauto.
Qed.

Section View.
Variable g0 : Graph.
Hypothesis Hwf0 : wf g0.

Lemma view_vertex g p :
  structure g = structure g0 → p ∈ vertexSet g0 →
  ∃ v, vheap g !! p = Some v ∧ info v = key_of g0 p ∧ adj v = adj_of g0 p.
Proof using Hwf0.
  intros H Hp. apply (wf_alloc g0 Hwf0) in Hp as [v0 Hv0].
  destruct (structure_lookup_Some g0 g p v0 H Hv0) as (v & Hv & Hc).
  apply clear_scratch_fields in Hc as (Hi & Ha & _).
  exists v. split; [done|]. unfold key_of, adj_of. by rewrite Hv0.
Qed.

Lemma view_edge g p e :
  structure g = structure g0 → p ∈ vertexSet g0 → e ∈ adj_of g0 p →
  ∃ ed, eheap g !! e = Some ed ∧ dest ed = dest_of g0 e ∧
        dest ed ∈ vertexSet g0.
Proof using Hwf0.
  intros H Hp He. rewrite (structure_eheap _ _ H).
  apply (wf_alloc g0 Hwf0) in Hp as [v0 Hv0].
  unfold adj_of in He. rewrite Hv0 in He.
  destruct (wf_adj g0 Hwf0 p v0 e Hv0 He) as (ed & Hed & _).
  exists ed. split; [done|]. unfold dest_of. rewrite Hed. split; [done|].
  destruct (wf_edge g0 Hwf0 e ed Hed) as (_ & vd & _ & Hd & _).
  apply (wf_alloc g0 Hwf0). eauto.
Qed.

Lemma succs_closed p w : p ∈ vertexSet g0 → w ∈ succs g0 p → w ∈ vertexSet g0.
Proof using Hwf0.
  intros Hp (e & -> & He)%list_elem_of_fmap.
  destruct (view_edge g0 p e eq_refl Hp He) as (ed & _ & <- & ?). done.
Qed.

Lemma view_setVisited g p b :
  structure g = structure g0 → p ∈ vertexSet g0 →
  ∃ g', setVisited p b g = Some g' ∧ structure g' = structure g0 ∧
        (∀ q, is_visited g' q = if decide (q = p) then b else is_visited g q) ∧
        (∀ q, is_processing g' q = is_processing g q).
Proof using Hwf0.
  intros H Hp. destruct (view_vertex g p H Hp) as (v & Hv & _).
  unfold setVisited. rewrite Hv. simpl. eexists. split; [done|].
  split; [|split].
  - rewrite <- H. by apply (structure_store g p v).
  - intros q. unfold is_visited, store_vertex. simpl. rewrite lookup_insert.
    case_decide; subst; by rewrite ?decide_True, ?decide_False by done.
  - intros q. unfold is_processing, store_vertex. simpl. rewrite lookup_insert.
    case_decide; subst; [by rewrite Hv|done].
Qed.

Lemma view_setProcesssing g p b :
  structure g = structure g0 → p ∈ vertexSet g0 →
  ∃ g', setProcesssing p b g = Some g' ∧ structure g' = structure g0 ∧
        (∀ q, is_processing g' q = if decide (q = p) then b else is_processing g q) ∧
        (∀ q, is_visited g' q = is_visited g q).
Proof using Hwf0.
  intros H Hp. destruct (view_vertex g p H Hp) as (v & Hv & _).
  unfold setProcesssing. rewrite Hv. simpl. eexists. split; [done|].
  split; [|split].
  - rewrite <- H. by apply (structure_store g p v).
  - intros q. unfold is_processing, store_vertex. simpl. rewrite lookup_insert.
    case_decide; subst; by rewrite ?decide_True, ?decide_False by done.
  - intros q. unfold is_visited, store_vertex. simpl. rewrite lookup_insert.
    case_decide; subst; [by rewrite Hv|done].
Qed.
End View.

(** ** Depth-first search on successor lists

    The traversal of [dfsVisit] with the store abstracted away: the graph is a
    successor function on addresses, the [visited] flags are a finite set and
    the result lists addresses instead of keys. *)
Section PureDFS.
Variable succ : vptr → list vptr.

Definition pdfs_scan
    (rec : vptr → list vptr * gset vptr → option (list vptr * gset vptr))
    (st : list vptr * gset vptr) (w : vptr) : option (list vptr * gset vptr) :=
  if decide (w ∈ st.2) then Some st else rec w st.

Fixpoint pdfs (fuel : nat) (v : vptr) (st : list vptr * gset vptr)
  : option (list vptr * gset vptr) :=
  match fuel with
  | O => None
  | S fuel' => foldM (pdfs_scan (pdfs fuel')) (st.1 ++ [v], {[v]} ∪ st.2) (succ v)
  end.

Definition pdfs_root (fuel : nat) (st : list vptr * gset vptr) (v : vptr)
  : option (list vptr * gset vptr) :=
  if decide (v ∈ st.2) then Some st else pdfs fuel v st.
End PureDFS.

(** The store-level state of a depth- or breadth-first traversal reads as a
    list of addresses and a set of visited addresses. *)
Definition visited_as (g : Graph) (S : gset vptr) : Prop :=
  ∀ p, is_visited g p = true ↔ p ∈ S.

Definition dfs_rel (g0 : Graph) (s1 : list Z * Graph) (s2 : list vptr * gset vptr)
  : Prop :=
  s1.1 = key_of g0 <$> s2.1 ∧ structure s1.2 = structure g0 ∧ visited_as s1.2 s2.2.

Lemma is_visited_lookup g p v : vheap g !! p = Some v → is_visited g p = visited v.
Proof. unfold is_visited. by intros ->. Qed.

Lemma is_processing_lookup g p v :
  vheap g !! p = Some v → is_processing g p = processing v.
Proof. unfold is_processing. by intros ->. Qed.

Lemma visited_as_set g g' S p :
  visited_as g S →
  (∀ q, is_visited g' q = if decide (q = p) then true else is_visited g q) →
  visited_as g' ({[p]} ∪ S).
Proof.
  intros HS Hg' q. rewrite Hg', elem_of_union, elem_of_singleton, <- (HS q).
  case_decide; [by split; auto|]. split; [auto|]. by intros [?|?].
Qed.

Lemma dfsVisit_sim g0 fuel :
  wf g0 →
  ∀ v s1 s2 s2', dfs_rel g0 s1 s2 → v ∈ vertexSet g0 →
    pdfs (succs g0) fuel v s2 = Some s2' →
    ∃ s1', dfsVisit fuel v s1.1 s1.2 = Some s1' ∧ dfs_rel g0 s1' s2'.
Proof.
  intros Hwf. induction fuel as [|fuel IH]; intros v [res g] [resp S] s2' HR Hv;
    simpl; [done|].
  destruct HR as (Hres & Hstr & Hvis). simpl in *.
  destruct (view_setVisited g0 Hwf g v true Hstr Hv) as (g1 & -> & Hstr1 & Hvis1 & _).
  simpl. destruct (view_vertex g0 Hwf g1 v Hstr1 Hv) as (vv & -> & Hinfo & Hadj).
  simpl. rewrite Hinfo, Hadj. unfold succs.
  apply (foldM_sim (dfs_rel g0) (dest_of g0) (λ e, e ∈ adj_of g0 v)).
  - by apply Forall_forall.
  - intros e [res' g'] [resp' S'] t2 He (Hres' & Hstr' & Hvis') Hstep.
    simpl in *. unfold dfsVisit_scan.
    destruct (view_edge g0 Hwf g' v e Hstr' Hv He) as (ed & -> & Hd & Hin).
    simpl. destruct (view_vertex g0 Hwf g' _ Hstr' Hin) as (wv & Hwv & _).
    rewrite Hwv. simpl. rewrite <- (is_visited_lookup g' _ _ Hwv).
    unfold pdfs_scan in Hstep. simpl in Hstep. rewrite <- Hd in Hstep.
    destruct (is_visited g' (dest ed)) eqn:Ev.
    + apply Hvis' in Ev. rewrite decide_True in Hstep by done.
      injection Hstep as <-. eexists. split; [done|]. done.
    + rewrite decide_False in Hstep.
      2:{ intros Hc. apply Hvis' in Hc. congruence. }
      apply (IH (dest ed) (res', g') (resp', S') t2); [done|done|done].
  - split; [|split]; simpl.
    + by rewrite Hres, fmap_app.
    + done.
    + by apply (visited_as_set g g1 S v).
Qed.

(** The number of vertices of [V] not yet visited. *)
Definition unvisited (V : list vptr) (S : gset vptr) : nat :=
  size (list_to_set V ∖ S : gset vptr).

Lemma unvisited_mono V S S' : S ⊆ S' → unvisited V S' ≤ unvisited V S.
Proof. intros H. unfold unvisited. apply subseteq_size. set_solver. Qed.

Lemma unvisited_visit V S v :
  v ∈ V → v ∉ S → unvisited V ({[v]} ∪ S) < unvisited V S.
Proof.
  intros Hv HS. unfold unvisited. apply subset_size. split; [set_solver|].
  intros H. assert (v ∈ (list_to_set V ∖ S : gset vptr)) as Hin by set_solver.
  apply H in Hin. set_solver.
Qed.

Lemma unvisited_le_length V S : NoDup V → unvisited V S ≤ length V.
Proof.
  intros Hnd. unfold unvisited. rewrite <- (size_list_to_set (C := gset vptr) V Hnd).
  apply subseteq_size. set_solver.
Qed.

Section PureDFS_correct.
Variable succ : vptr → list vptr.
Variable V : list vptr.
Hypothesis succ_closed : ∀ v w, v ∈ V → w ∈ succ v → w ∈ V.

(** What a visit adds: a duplicate-free list of vertices that were not
    visited before. *)
Definition dfs_adds (st st' : list vptr * gset vptr) (l : list vptr) : Prop :=
  st' = (st.1 ++ l, st.2 ∪ list_to_set l) ∧ NoDup l ∧
  ∀ x, x ∈ l → x ∈ V ∧ x ∉ st.2.

Lemma pdfs_scan_spec fuel :
  (∀ v st, v ∈ V → v ∉ st.2 → unvisited V st.2 ≤ fuel →
           ∃ st' l, pdfs succ fuel v st = Some st' ∧ dfs_adds st st' l ∧ v ∈ l) →
  ∀ ws st, (∀ w, w ∈ ws → w ∈ V) → unvisited V st.2 ≤ fuel →
    ∃ st' l, foldM (pdfs_scan (pdfs succ fuel)) st ws = Some st' ∧
             dfs_adds st st' l ∧ ∀ w, w ∈ ws → w ∈ st'.2.
Proof.
  intros IH ws. induction ws as [|w ws IHws]; intros [res S] Hws Hfuel; simpl.
  - exists (res, S), []. split; [done|]. split.
    + split; [|split]; simpl.
      * rewrite app_nil_r. f_equal. set_solver.
      * constructor.
      * by intros x ?%elem_of_nil.
    + by intros w ?%elem_of_nil.
  - unfold pdfs_scan at 1. simpl. case_decide as Hw.
    + destruct (IHws (res, S)) as (st' & l & -> & Hadd & Hin); [set_solver|done|].
      exists st', l. split; [done|]. split; [done|].
      intros x [->|?]%elem_of_cons; [|auto].
      destruct Hadd as (-> & _). simpl. set_solver.
    + destruct (IH w (res, S)) as (st1 & l1 & -> & (-> & Hnd1 & Hl1) & Hwl1);
        [set_solver|done|done|]. simpl in *.
      destruct (IHws (res ++ l1, S ∪ list_to_set l1))
        as (st' & l2 & -> & (-> & Hnd2 & Hl2) & Hin); [set_solver| |].
      { simpl. etrans; [apply unvisited_mono|exact Hfuel]. set_solver. }
      simpl in *. exists (res ++ l1 ++ l2, S ∪ list_to_set (l1 ++ l2)), (l1 ++ l2).
      split; [f_equal; f_equal; [by rewrite app_assoc|set_solver]|].
      split; [split; [done|split]|].
      * apply NoDup_app. split; [done|]. split; [|done].
        intros x Hx1 Hx2. destruct (Hl2 x Hx2) as [_ Hn]. set_solver.
      * intros x [Hx|Hx]%elem_of_app; [by apply Hl1|].
        destruct (Hl2 x Hx) as [? Hn]. split; [done|set_solver].
      * simpl. intros x [->|Hx]%elem_of_cons; [set_solver|].
        specialize (Hin x Hx). set_solver.
Qed.

Lemma pdfs_spec fuel :
  ∀ v st, v ∈ V → v ∉ st.2 → unvisited V st.2 ≤ fuel →
    ∃ st' l, pdfs succ fuel v st = Some st' ∧ dfs_adds st st' l ∧ v ∈ l.
Proof.
  induction fuel as [|fuel IH]; intros v [res S] Hv HS Hfuel; simpl in *.
  - pose proof (unvisited_visit V S v Hv HS). lia.
  - destruct (pdfs_scan_spec fuel IH (succ v) (res ++ [v], {[v]} ∪ S))
      as (st' & l & -> & (-> & Hnd & Hl) & _).
    { intros w. by apply succ_closed. }
    { simpl. pose proof (unvisited_visit V S v Hv HS). lia. }
    simpl in *. exists (res ++ v :: l, S ∪ list_to_set (v :: l)), (v :: l).
    split; [f_equal; f_equal; [by rewrite <- app_assoc|set_solver]|].
    split; [|by left]. split; [done|]. split.
    + apply NoDup_cons. split; [|done]. intros Hx. destruct (Hl v Hx). set_solver.
    + intros x [->|Hx]%elem_of_cons; [done|].
      destruct (Hl x Hx). split; [done|set_solver].
Qed.

(** The forest traversal: every root in turn, skipping the visited ones. *)
Lemma pdfs_forest roots :
  NoDup V → (∀ r, r ∈ roots → r ∈ V) →
  ∀ st, NoDup st.1 → st.2 = list_to_set st.1 → (∀ x, x ∈ st.1 → x ∈ V) →
    ∃ st', foldM (pdfs_root succ (length V)) st roots = Some st' ∧
           NoDup st'.1 ∧ st'.2 = list_to_set st'.1 ∧
           (∀ x, x ∈ st'.1 → x ∈ V) ∧
           (∀ x, x ∈ st.1 → x ∈ st'.1) ∧ (∀ r, r ∈ roots → r ∈ st'.1).
Proof.
  intros HndV. induction roots as [|r roots IH]; intros Hroots [res S] Hnd HS Hres;
    simpl in *.
  - exists (res, S). split; [done|]. repeat split; try done. by intros r ?%elem_of_nil.
  - unfold pdfs_root at 1. simpl. case_decide as Hr.
    + destruct (IH (λ x Hx, Hroots x (list_elem_of_further _ _ _ Hx)) (res, S))
        as (st' & -> & H1 & H2 & H3 & H4 & H5); [done..|].
      exists st'. split; [done|]. repeat split; try done.
      intros x [->|?]%elem_of_cons; [|auto]. apply H4. simpl. set_solver.
    + destruct (pdfs_spec (length V) r (res, S)) as (st1 & l & -> & (-> & Hndl & Hl) & Hrl).
      { apply Hroots. by left. } { done. } { by apply unvisited_le_length. }
      simpl in *.
      destruct (IH (λ x Hx, Hroots x (list_elem_of_further _ _ _ Hx))
                   (res ++ l, S ∪ list_to_set l))
        as (st' & -> & H1 & H2 & H3 & H4 & H5); simpl.
      { apply NoDup_app. split; [done|]. split; [|done].
        intros x Hx Hx'. destruct (Hl x Hx'). set_solver. }
      { set_solver. }
      { intros x [?|?]%elem_of_app; [auto|]. by apply Hl. }
      exists st'. split; [done|]. repeat split; try done.
      * intros x Hx. apply H4. simpl. set_solver.
      * intros x [->|?]%elem_of_cons; [|auto]. apply H4. simpl. set_solver.
Qed.
End PureDFS_correct.

(** ** [dfs()] and [dfs(source)] *)

Lemma resetVisited_loop g0 l :
  wf g0 → (∀ p, p ∈ l → p ∈ vertexSet g0) →
  ∀ g, structure g = structure g0 →
    ∃ g', foldM (λ g v, setVisited v false g) g l = Some g' ∧
          structure g' = structure g0 ∧
          (∀ q, is_visited g' q = if decide (q ∈ l) then false else is_visited g q) ∧
          (∀ q, is_processing g' q = is_processing g q).
Proof.
  intros Hwf. induction l as [|p l IH]; intros Hl g Hstr; simpl.
  - exists g. by repeat split.
  - destruct (view_setVisited g0 Hwf g p false Hstr) as (g1 & -> & Hstr1 & Hv1 & Hp1).
    { apply Hl. by left. }
    destruct (IH (λ x Hx, Hl x (list_elem_of_further _ _ _ Hx)) g1 Hstr1)
      as (g' & -> & Hstr' & Hv' & Hp').
    exists g'. split; [done|]. split; [done|]. split.
    + intros q. rewrite Hv', Hv1. repeat case_decide; try done; set_solver.
    + intros q. by rewrite Hp', Hp1.
Qed.

Lemma is_visited_alloc g q : is_visited g q = true → is_Some (vheap g !! q).
Proof. unfold is_visited. destruct (vheap g !! q); [eauto|done]. Qed.

Lemma resetVisited_spec g :
  wf g → ∃ g', resetVisited g = Some g' ∧ structure g' = structure g ∧
               visited_as g' ∅ ∧
               (∀ q, is_processing g' q = is_processing g q).
Proof.
  intros Hwf. destruct (resetVisited_loop g (vertexSet g) Hwf (λ p H, H) g eq_refl)
    as (g' & Hrun & Hstr & Hv & Hp).
  exists g'. split; [done|]. split; [done|]. split; [|done].
  intros q. split; [|set_solver]. intros Hq. exfalso.
  rewrite Hv in Hq. case_decide as Hin; [done|]. apply Hin.
  apply (wf_alloc g Hwf). by apply is_visited_alloc.
Qed.

Lemma dfs_root_sim g0 fuel v s1 s2 s2' :
  wf g0 → dfs_rel g0 s1 s2 → v ∈ vertexSet g0 →
  pdfs_root (succs g0) fuel s2 v = Some s2' →
  ∃ s1', dfs_root fuel s1 v = Some s1' ∧ dfs_rel g0 s1' s2'.
Proof.
  intros Hwf HR Hv. destruct s1 as [res g]. unfold dfs_root, pdfs_root.
  pose proof HR as (Hres & Hstr & Hvis). simpl in *.
  destruct (view_vertex g0 Hwf g v Hstr Hv) as (vv & Hvv & _). rewrite Hvv. simpl.
  rewrite <- (is_visited_lookup g v vv Hvv).
  destruct (is_visited g v) eqn:Ev.
  - apply Hvis in Ev. rewrite decide_True by done. intros [= <-]. eauto.
  - rewrite decide_False by (intros Hc; apply Hvis in Hc; congruence).
    intros Hp. by apply (dfsVisit_sim g0 fuel Hwf v (res, g) s2 s2').
Qed.

(** [dfs()] runs as the forest traversal [pdfs_root] over the roots in
    [vertexSet] order, and that traversal visits every vertex once. *)
Lemma dfs_runs (g : Graph) :
  wf g →
  ∃ g' resp S,
    dfs g = Some (key_of g <$> resp, g') ∧
    foldM (pdfs_root (succs g) (length (vertexSet g))) ([], ∅) (vertexSet g)
      = Some (resp, S) ∧
    NoDup resp ∧ (∀ x, x ∈ resp ↔ x ∈ vertexSet g) ∧
    structure g' = structure g.
Proof.
  intros Hwf. unfold dfs.
  destruct (resetVisited_spec g Hwf) as (g1 & -> & Hstr1 & Hvis1 & _). simpl.
  destruct (pdfs_forest (succs g) (vertexSet g) (succs_closed g Hwf) (vertexSet g)
              (wf_nodup g Hwf) (λ r H, H) ([], ∅))
    as ([resp S] & Hpure & Hnd & HS & Hsub & _ & Hall); simpl.
  { constructor. } { done. } { by intros x ?%elem_of_nil. }
  simpl in *.
  destruct (foldM_sim (dfs_rel g) id (λ v, v ∈ vertexSet g)
              (dfs_root (length (vertexSet g)))
              (pdfs_root (succs g) (length (vertexSet g))) (vertexSet g))
    with (s1 := ([] : list Z, g1)) (s2 := ([] : list vptr, ∅ : gset vptr))
         (s2' := (resp, S)) as ([res g'] & Hrun & Hres & Hstr & _).
  - by apply Forall_forall.
  - intros v s1 s2 s2' Hv HR Hstep. by apply (dfs_root_sim g _ v s1 s2 s2').
  - done.
  - by rewrite list_fmap_id.
  - simpl in *. exists g', resp, S. rewrite <- Hres. split; [done|].
    split; [done|]. split; [done|]. split; [|done]. intros x. split; auto.
Qed.

(** C9.  On every well-formed state [dfs()] returns: a duplicate-free list
    that is a permutation of the keys of the graph, namely the keys of the
    forest traversal that visits the roots in [vertexSet] order and skips
    the vertices already visited; the structure of the graph is unchanged. *)
Theorem dfs_permutation (g : Graph) :
  wf g →
  ∃ res g' resp S,
    dfs g = Some (res, g') ∧
    res ≡ₚ keys g ∧ NoDup res ∧
    foldM (pdfs_root (succs g) (length (vertexSet g))) ([], ∅) (vertexSet g)
      = Some (resp, S) ∧
    res = key_of g <$> resp ∧ resp ≡ₚ vertexSet g ∧
    structure g' = structure g.
Proof.
  intros Hwf.
  destruct (dfs_runs g Hwf) as (g' & resp & S & Hrun & Hpure & Hnd & Hall & Hstr).
  exists (key_of g <$> resp), g', resp, S. split; [done|].
  assert (resp ≡ₚ vertexSet g) as Hperm.
  { apply NoDup_Permutation; [done|apply Hwf|done]. }
  split; [by unfold keys; rewrite Hperm|].
  split; [|done].
  apply (NoDup_fmap_2_strong (key_of g)); [|done].
  intros p q Hp Hq Hk.
  apply Hall, (wf_alloc g Hwf) in Hp as [vp Hvp].
  apply Hall, (wf_alloc g Hwf) in Hq as [vq Hvq].
  rewrite (key_of_lookup _ _ _ Hvp), (key_of_lookup _ _ _ Hvq) in Hk.
  by eapply wf_key_inj.
Qed.

Lemma dfs_permutation_witness :
  ∃ res g' resp S,
    dfs sample_graph = Some (res, g') ∧
    res ≡ₚ keys sample_graph ∧ NoDup res ∧
    foldM (pdfs_root (succs sample_graph) (length (vertexSet sample_graph)))
          ([], ∅) (vertexSet sample_graph) = Some (resp, S) ∧
    res = key_of sample_graph <$> resp ∧ resp ≡ₚ vertexSet sample_graph ∧
    structure g' = structure sample_graph.
Proof. exact (dfs_permutation sample_graph sample_graph_wf). Defined.

(** ** Paths, cycles and topological numberings of a successor function *)

(** [hops succ n u w]: a path of [n] edges leads from [u] to [w]. *)
Inductive hops (succ : vptr → list vptr) : nat → vptr → vptr → Prop :=
  | hops_O v : hops succ 0 v v
  | hops_S n u x w : hops succ n u x → w ∈ succ x → hops succ (S n) u w.

Definition reachable (succ : vptr → list vptr) (u w : vptr) : Prop :=
  ∃ n, hops succ n u w.

(** [n] is the least number of edges on a path from [u] to [w]. *)
Definition hop_dist (succ : vptr → list vptr) (u w : vptr) (n : nat) : Prop :=
  hops succ n u w ∧ ∀ m, hops succ m u w → n ≤ m.

(** A directed cycle: a path of at least one edge from a vertex to itself. *)
Definition cyclic (succ : vptr → list vptr) (V : list vptr) : Prop :=
  ∃ v n, v ∈ V ∧ hops succ (S n) v v.

(** A numbering that strictly decreases along every edge. *)
Definition topological_rank (succ : vptr → list vptr) (V : list vptr)
    (rank : vptr → nat) : Prop :=
  ∀ v w, v ∈ V → w ∈ succ v → rank w < rank v.

Lemma hops_trans succ n m u x w :
  hops succ n u x → hops succ m x w → hops succ (n + m) u w.
Proof.
  intros H1 H2. induction H2 as [|m x y w H2 IH Hw].
  - by rewrite Nat.add_0_r.
  - rewrite Nat.add_succ_r. econstructor; eauto.
Qed.

Lemma hops_closed succ (V : list vptr) n u w :
  (∀ v w, v ∈ V → w ∈ succ v → w ∈ V) → u ∈ V → hops succ n u w → w ∈ V.
Proof. intros Hc Hu H. induction H; eauto. Qed.

Lemma hops_rank succ (V : list vptr) rank n u w :
  (∀ v w, v ∈ V → w ∈ succ v → w ∈ V) → topological_rank succ V rank →
  u ∈ V → hops succ n u w → rank w + n ≤ rank u.
Proof.
  intros Hc Hr Hu H. induction H as [|n u x w H IH Hw]; [lia|].
  specialize (IH Hu). pose proof (hops_closed succ V n u x Hc Hu H) as Hx.
  specialize (Hr x w Hx Hw). lia.
Qed.

Lemma topological_rank_acyclic succ (V : list vptr) rank :
  (∀ v w, v ∈ V → w ∈ succ v → w ∈ V) → topological_rank succ V rank →
  ¬ cyclic succ V.
Proof.
  intros Hc Hr (v & n & Hv & Hcyc).
  pose proof (hops_rank succ V rank _ v v Hc Hr Hv Hcyc). lia.
Qed.

(** ** Breadth-first search on successor lists

    The loop of [bfs] with the store abstracted away.  Every queue entry
    carries, next to the address, the level at which the vertex was
    discovered; the code has no such field, and the simulation below erases
    it. *)
Section PureBFS.
Variable succ : vptr → list vptr.

Definition pbfs_scan (lvl : nat) (st : list (vptr * nat) * gset vptr) (w : vptr)
  : list (vptr * nat) * gset vptr :=
  if decide (w ∈ st.2) then st else (st.1 ++ [(w, lvl)], {[w]} ∪ st.2).

Fixpoint pbfs_loop (fuel : nat) (q res : list (vptr * nat)) (S : gset vptr)
  : option (list (vptr * nat) * gset vptr) :=
  match q with
  | [] => Some (res, S)
  | (v, n) :: q' =>
      match fuel with
      | O => None
      | Datatypes.S fuel' =>
          let st := foldl (pbfs_scan (n + 1)) (q', S) (succ v) in
          pbfs_loop fuel' st.1 (res ++ [(v, n)]) st.2
      end
  end.
End PureBFS.

Lemma NoDup_fst_inj {A B} (l : list (A * B)) x y1 y2 :
  NoDup l.*1 → (x, y1) ∈ l → (x, y2) ∈ l → y1 = y2.
Proof.
  induction l as [|[a b] l IH]; simpl; [by intros _ ?%elem_of_nil|].
  intros [Hn Hnd]%NoDup_cons [H1|H1]%elem_of_cons [H2|H2]%elem_of_cons.
  - congruence.
  - destruct Hn. apply list_elem_of_fmap. exists (x, y2). split; [|done].
    simpl. congruence.
  - destruct Hn. apply list_elem_of_fmap. exists (x, y1). split; [|done].
    simpl. congruence.
  - by apply IH.
Qed.

Section PureBFS_correct.
Variable succ : vptr → list vptr.
Variable V : list vptr.
Hypothesis succ_closed : ∀ v w, v ∈ V → w ∈ succ v → w ∈ V.
Variable s : vptr.

Definition by_level : relation (vptr * nat) := λ a b, a.2 ≤ b.2.

(** The invariant of the queue loop: [res] holds the vertices already
    emitted, [q] the queue, [S] the visited set. *)
Record bfs_inv (res q : list (vptr * nat)) (S : gset vptr) : Prop := {
  bi_nodup : NoDup ((res ++ q).*1);
  bi_set : ∀ p, p ∈ S ↔ p ∈ (res ++ q).*1;
  bi_hops : ∀ p n, (p, n) ∈ res ++ q → p ∈ V ∧ hops succ n s p;
  bi_sorted : StronglySorted by_level (res ++ q);
  bi_head : ∀ h n q', q = (h, n) :: q' → ∀ y m, (y, m) ∈ q' → m ≤ n + 1;
  bi_done : ∀ x n y, (x, n) ∈ res → y ∈ succ x →
                     ∃ m, (y, m) ∈ res ++ q ∧ m ≤ n + 1;
  bi_source : (s, 0) ∈ res ++ q
}.

Lemma bfs_inv_level res h n q S :
  bfs_inv res ((h, n) :: q) S → ∀ y m, (y, m) ∈ res ++ (h, n) :: q → m ≤ n + 1.
Proof.
  intros Hinv y m [Hin|[Hin|Hin]%elem_of_cons]%elem_of_app.
  - pose proof (bi_sorted _ _ _ Hinv) as Hs.
    pose proof (StronglySorted_app_1_elem_of _ _ _ (y, m) (h, n) Hs Hin) as Hle.
    unfold by_level in Hle. simpl in Hle.
    assert (m ≤ n) by (apply Hle; by left). lia.
  - injection Hin as -> ->. lia.
  - by eapply (bi_head _ _ _ Hinv).
Qed.

Lemma pbfs_scan_inv res h n ws :
  ∀ q S seen,
    bfs_inv res ((h, n) :: q) S → (∀ w, w ∈ ws → w ∈ succ h) →
    (∀ y, y ∈ seen → ∃ m, (y, m) ∈ res ++ (h, n) :: q ∧ m ≤ n + 1) →
    let st := foldl (pbfs_scan (n + 1)) (q, S) ws in
    bfs_inv res ((h, n) :: st.1) st.2 ∧
    ∀ y, y ∈ seen ++ ws → ∃ m, (y, m) ∈ res ++ (h, n) :: st.1 ∧ m ≤ n + 1.
Proof.
  induction ws as [|w ws IH]; intros q S seen Hinv Hws Hseen; simpl.
  - split; [done|]. by rewrite app_nil_r.
  - assert (∀ y, y ∈ seen ++ w :: ws ↔ y ∈ (seen ++ [w]) ++ ws) as Hre.
    { intros y. by rewrite <- app_assoc. }
    setoid_rewrite Hre. destruct (decide (w ∈ S)) as [Hw|Hw].
    + assert (pbfs_scan (n + 1) (q, S) w = (q, S)) as ->
        by (unfold pbfs_scan; simpl; by rewrite decide_True).
      apply IH; [done|by intros; apply Hws; right|].
      intros y [Hy| ->%list_elem_of_singleton]%elem_of_app; [auto|].
      apply (bi_set _ _ _ Hinv) in Hw.
      apply list_elem_of_fmap in Hw as ([y m] & -> & Hin). simpl.
      exists m. split; [done|]. by eapply bfs_inv_level.
    + assert (pbfs_scan (n + 1) (q, S) w = (q ++ [(w, n + 1)], {[w]} ∪ S)) as ->
        by (unfold pbfs_scan; simpl; by rewrite decide_False).
      assert (h ∈ V ∧ hops succ n s h) as [HhV Hh].
      { apply (bi_hops _ _ _ Hinv). apply elem_of_app. right. by left. }
      assert (w ∈ succ h) as Hwh by (apply Hws; by left).
      assert (res ++ (h, n) :: q ++ [(w, n + 1)] =
              (res ++ (h, n) :: q) ++ [(w, n + 1)]) as Happ
        by (by rewrite <- app_assoc).
      apply IH; [|by intros; apply Hws; right|].
      * split.
        -- rewrite Happ, fmap_app. apply NoDup_app.
           split; [apply Hinv|]. split; [|apply NoDup_singleton].
           intros x Hx ->%list_elem_of_singleton. apply Hw.
           by apply (bi_set _ _ _ Hinv).
        -- intros p. rewrite Happ, fmap_app, elem_of_app, elem_of_union.
           rewrite (bi_set _ _ _ Hinv p). simpl.
           rewrite elem_of_singleton, list_elem_of_singleton. tauto.
        -- intros p m. rewrite Happ.
           intros [Hin|[= -> ->]%list_elem_of_singleton]%elem_of_app.
           ++ by apply (bi_hops _ _ _ Hinv).
           ++ split; [by eapply succ_closed|].
              rewrite Nat.add_1_r. by econstructor.
        -- rewrite Happ. apply StronglySorted_app_2;
             [|apply Hinv|repeat constructor].
           intros [y m] b Hy ->%list_elem_of_singleton. unfold by_level. simpl.
           by eapply bfs_inv_level.
        -- intros h' n' q' [= <- <- <-] y m.
           intros [Hin|[= -> ->]%list_elem_of_singleton]%elem_of_app; [|lia].
           by eapply (bi_head _ _ _ Hinv).
        -- intros x k y Hx Hy.
           destruct (bi_done _ _ _ Hinv x k y Hx Hy) as (m & Hin & Hm).
           exists m. split; [|done]. rewrite Happ. apply elem_of_app. by left.
        -- rewrite Happ. apply elem_of_app. left. apply Hinv.
      * intros y [Hy| ->%list_elem_of_singleton]%elem_of_app.
        -- destruct (Hseen y Hy) as (m & Hin & Hm). exists m. split; [|done].
           rewrite Happ. apply elem_of_app. by left.
        -- exists (n + 1). split; [|done]. rewrite Happ.
           apply elem_of_app. right. by left.
Qed.

Lemma bfs_inv_pop res h n q S :
  bfs_inv res ((h, n) :: q) S →
  (∀ y, y ∈ succ h → ∃ m, (y, m) ∈ res ++ (h, n) :: q ∧ m ≤ n + 1) →
  bfs_inv (res ++ [(h, n)]) q S.
Proof.
  intros Hinv Hall.
  assert ((res ++ [(h, n)]) ++ q = res ++ (h, n) :: q) as Happ
    by (by rewrite <- app_assoc).
  split; rewrite ?Happ; try apply Hinv.
  - intros h2 n2 q2 -> y m Hy.
    assert (m ≤ n + 1).
    { eapply (bi_head _ _ _ Hinv); [done|]. by right. }
    pose proof (bi_sorted _ _ _ Hinv) as Hs.
    apply StronglySorted_app_1_r, StronglySorted_cons in Hs as [Hs _].
    apply Forall_cons in Hs as [Hs _]. unfold by_level in Hs. simpl in Hs. lia.
  - intros x k y [Hx|[= -> ->]%list_elem_of_singleton]%elem_of_app Hy.
    + by apply (bi_done _ _ _ Hinv x k y).
    + by apply Hall.
Qed.

Lemma bfs_inv_length res q S :
  NoDup V → bfs_inv res q S → length res + length q ≤ length V.
Proof.
  intros HV Hinv. rewrite <- length_app, <- (length_fmap fst).
  apply submseteq_length, NoDup_submseteq; [apply Hinv|].
  intros p ([p' n] & -> & Hin)%list_elem_of_fmap.
  by apply (bi_hops _ _ _ Hinv p' n).
Qed.

Lemma pbfs_loop_spec fuel :
  NoDup V →
  ∀ q res S, bfs_inv res q S → length V ≤ fuel + length res →
    ∃ res' S', pbfs_loop succ fuel q res S = Some (res', S') ∧ bfs_inv res' [] S'.
Proof.
  intros HV. induction fuel as [|fuel IH]; intros q res S Hinv Hfuel.
  - destruct q as [|[v n] q]; simpl; [eauto|].
    pose proof (bfs_inv_length _ _ _ HV Hinv) as Hlen. simpl in Hlen. lia.
  - destruct q as [|[v n] q]; simpl; [eauto|].
    destruct (pbfs_scan_inv res v n (succ v) q S [] Hinv) as [Hinv' Hseen];
      [done|by intros y ?%elem_of_nil|].
    apply IH.
    + apply bfs_inv_pop; [done|]. intros y Hy. by apply Hseen.
    + rewrite length_app. simpl. lia.
Qed.

(** Once the queue is empty: everything that a path reaches was emitted, at
    a level that is at most the length of the path. *)
Lemma bfs_inv_reaches res S m p :
  bfs_inv res [] S → hops succ m s p → ∃ n, (p, n) ∈ res ∧ n ≤ m.
Proof.
  intros Hinv H. remember s as u eqn:Hu.
  induction H as [v|m u x w H IH Hw].
  - exists 0. split; [|done]. pose proof (bi_source _ _ _ Hinv) as Hs.
    rewrite app_nil_r in Hs. by rewrite Hu.
  - destruct (IH Hu) as (n & Hin & Hn).
    destruct (bi_done _ _ _ Hinv x n w Hin Hw) as (k & Hk & Hkn).
    rewrite app_nil_r in Hk. exists k. split; [done|lia].
Qed.

Lemma bfs_inv_dist res S p n :
  bfs_inv res [] S → (p, n) ∈ res → hop_dist succ s p n.
Proof.
  intros Hinv Hin. split.
  - apply (bi_hops _ _ _ Hinv). by rewrite app_nil_r.
  - intros m Hm. destruct (bfs_inv_reaches res S m p Hinv Hm) as (k & Hk & Hkm).
    pose proof (bi_nodup _ _ _ Hinv) as Hnd. rewrite app_nil_r in Hnd.
    assert (k = n) as ->; [|done].
    by apply (NoDup_fst_inj res p k n).
Qed.

Lemma pbfs_spec :
  NoDup V → s ∈ V →
  ∃ res S, pbfs_loop succ (length V) [(s, 0)] [] {[s]} = Some (res, S) ∧
           NoDup res.*1 ∧ (∀ p, p ∈ res.*1 ↔ reachable succ s p) ∧
           StronglySorted by_level res ∧
           ∀ p n, (p, n) ∈ res → hop_dist succ s p n.
Proof.
  intros HV Hs.
  destruct (pbfs_loop_spec (length V) HV [(s, 0)] [] {[s]}) as (res & S & Hrun & Hinv).
  { split; simpl.
    - apply NoDup_singleton.
    - intros p. by rewrite elem_of_singleton, list_elem_of_singleton.
    - intros p n Hpn%list_elem_of_singleton.
      assert (p = s) as Hp by congruence. assert (n = 0) as Hn by congruence.
      rewrite Hp, Hn. split; [done|constructor].
    - repeat constructor.
    - intros h n q' Heq y m Hy. assert (q' = []) as Hq by congruence.
      rewrite Hq in Hy. by apply elem_of_nil in Hy.
    - by intros x n y ?%elem_of_nil.
    - by left. }
  { simpl. lia. }
  exists res, S. split; [done|].
  pose proof (bi_nodup _ _ _ Hinv) as Hnd. pose proof (bi_sorted _ _ _ Hinv) as Hso.
  rewrite app_nil_r in Hnd, Hso. split; [done|]. split; [|split; [done|]].
  - intros p. split.
    + intros ([p' n] & -> & Hin)%list_elem_of_fmap. exists n.
      apply (bi_hops _ _ _ Hinv). by rewrite app_nil_r.
    + intros [m Hm]. destruct (bfs_inv_reaches res S m p Hinv Hm) as (n & Hin & _).
      apply list_elem_of_fmap. by exists (p, n).
  - intros p n. by apply (bfs_inv_dist res S).
Qed.
End PureBFS_correct.

(** ** [bfs(source)] (C3) *)

Lemma foldM_total {S A} (f : S → A → S) s l :
  foldM (λ s x, Some (f s x)) s l = Some (foldl f s l).
Proof. revert s. induction l as [|x l IH]; intros s; simpl; [done|apply IH]. Qed.

Lemma StronglySorted_lookup_lt {A} (R : relation A) l i j a b :
  StronglySorted R l → i < j → l !! i = Some a → l !! j = Some b → R a b.
Proof.
  intros Hs. revert i j. induction Hs as [|x l Hs IH Hall]; intros i j Hij Hi Hj.
  - done.
  - destruct j as [|j]; [lia|]. simpl in Hj. destruct i as [|i]; simpl in Hi.
    + injection Hi as <-. rewrite Forall_forall in Hall. apply Hall.
      by eapply list_elem_of_lookup_2.
    + apply (IH i j); [lia|done|done].
Qed.

Lemma hop_dist_unique succ u w n m :
  hop_dist succ u w n → hop_dist succ u w m → n = m.
Proof. intros [H1 H2] [H3 H4]. specialize (H2 m H3). specialize (H4 n H1). lia. Qed.

(** The state of the queue loop read as the state of [pbfs_loop]. *)
Definition bfs_rel (g0 : Graph) (s1 : list vptr * Graph)
    (s2 : list (vptr * nat) * gset vptr) : Prop :=
  s1.1 = s2.1.*1 ∧ structure s1.2 = structure g0 ∧ visited_as s1.2 s2.2 ∧
  ∀ x, x ∈ s1.1 → x ∈ vertexSet g0.

Lemma bfs_scan_sim g0 v lvl e s1 s2 :
  wf g0 → v ∈ vertexSet g0 → e ∈ adj_of g0 v → bfs_rel g0 s1 s2 →
  ∃ s1', bfs_scan s1 e = Some s1' ∧ bfs_rel g0 s1' (pbfs_scan lvl s2 (dest_of g0 e)).
Proof.
  intros Hwf Hv He. destruct s1 as [q g], s2 as [qL S].
  intros (Hq & Hstr & Hvis & Hsub). simpl in *. unfold bfs_scan, pbfs_scan. simpl.
  destruct (view_edge g0 Hwf g v e Hstr Hv He) as (ed & -> & Hd & Hin). simpl.
  destruct (view_vertex g0 Hwf g _ Hstr Hin) as (wv & Hwv & _).
  rewrite Hwv. simpl. rewrite <- (is_visited_lookup g _ _ Hwv), <- Hd.
  destruct (is_visited g (dest ed)) eqn:Ev.
  - apply Hvis in Ev. rewrite decide_True by done. eexists. split; [done|]. done.
  - rewrite decide_False by (intros Hc; apply Hvis in Hc; congruence).
    destruct (view_setVisited g0 Hwf g (dest ed) true Hstr Hin)
      as (g1 & -> & Hstr1 & Hvis1 & _).
    simpl. eexists. split; [done|]. split; [|split; [|split]]; simpl.
    + by rewrite Hq, fmap_app.
    + done.
    + by apply (visited_as_set g g1 S).
    + intros x [?| ->%list_elem_of_singleton]%elem_of_app; auto.
Qed.

Lemma bfs_loop_sim g0 fuel :
  wf g0 →
  ∀ q res g qL resL S r',
    bfs_rel g0 (q, g) (qL, S) → res = key_of g0 <$> resL.*1 →
    pbfs_loop (succs g0) fuel qL resL S = Some r' →
    ∃ g', bfs_loop fuel q res g = Some (key_of g0 <$> r'.1.*1, g') ∧
          structure g' = structure g0.
Proof.
  intros Hwf. induction fuel as [|fuel IH]; intros q res g qL resL S r' HR Hres.
  - destruct HR as (Hq & Hstr & _). simpl in *.
    destruct qL as [|[v n] qL]; simpl in *; subst q; simpl; [|done].
    intros [= <-]. simpl. exists g. by rewrite Hres.
  - pose proof HR as (Hq & Hstr & Hvis & Hsub). simpl in *.
    destruct qL as [|[v n] qL]; simpl in *; subst q; simpl.
    { intros [= <-]. simpl. exists g. by rewrite Hres. }
    assert (v ∈ vertexSet g0) as Hv by (apply Hsub; by left).
    destruct (view_vertex g0 Hwf g v Hstr Hv) as (vv & -> & Hinfo & Hadj). simpl.
    rewrite Hadj, Hinfo.
    change (list_fmap (positive * nat)%type positive fst qL) with (qL.*1) in *.
    destruct (foldM_sim (bfs_rel g0) (dest_of g0) (λ e, e ∈ adj_of g0 v)
                bfs_scan (λ st w, Some (pbfs_scan (n + 1) st w)) (adj_of g0 v))
      with (s1 := (qL.*1, g)) (s2 := (qL, S))
           (s2' := foldl (pbfs_scan (n + 1)) (qL, S) (succs g0 v))
      as ([q2 g2] & -> & HR2).
    + by apply Forall_forall.
    + intros e s1 s2 s2' He HRs [= <-]. by apply (bfs_scan_sim g0 v).
    + split; [done|]. split; [done|]. split; [done|]. intros x Hx. apply Hsub. by right.
    + apply foldM_total.
    + simpl. intros Hloop.
      destruct (foldl (pbfs_scan (n + 1)) (qL, S) (succs g0 v)) as [qL2 S2].
      apply (IH q2 _ g2 qL2 (resL ++ [(v, n)]) S2 r');
        [done|by rewrite Hres, !fmap_app|done].
Qed.

(** What [bfs(source)] returns when [v] is the vertex of key [source]: the
    keys of a duplicate-free list [resp] of vertices that holds
    exactly the vertices reachable from [v], ordered by non-decreasing hop
    distance, and that is the output of the FIFO loop [pbfs_loop] over the
    successors in [adj] order. *)
Definition bfs_post (g : Graph) (v : vptr) (res : list Z) (g' : Graph) : Prop :=
  ∃ resL S,
    pbfs_loop (succs g) (length (vertexSet g)) [(v, 0)] [] {[v]} = Some (resL, S) ∧
    res = key_of g <$> resL.*1 ∧
    NoDup resL.*1 ∧ NoDup res ∧
    (∀ p, p ∈ resL.*1 ↔ reachable (succs g) v p) ∧
    (∀ i j x y dx dy, i ≤ j → resL.*1 !! i = Some x → resL.*1 !! j = Some y →
       hop_dist (succs g) v x dx → hop_dist (succs g) v y dy → dx ≤ dy) ∧
    structure g' = structure g.

Lemma NoDup_keys_of g l :
  wf g → (∀ p, p ∈ l → p ∈ vertexSet g) → NoDup l → NoDup (key_of g <$> l).
Proof.
  intros Hwf Hsub Hnd. apply (NoDup_fmap_2_strong (key_of g)); [|done].
  intros p q Hp Hq Hk.
  apply Hsub, (wf_alloc g Hwf) in Hp as [vp Hvp].
  apply Hsub, (wf_alloc g Hwf) in Hq as [vq Hvq].
  rewrite (key_of_lookup _ _ _ Hvp), (key_of_lookup _ _ _ Hvq) in Hk.
  by eapply wf_key_inj.
Qed.

(** [bfs(source)] runs as the FIFO loop [pbfs_loop], whose output lists the
    reachable vertices once each, sorted by the level at which they were
    discovered, and that level is the hop distance. *)
Lemma bfs_runs (g : Graph) (s : Z) (v : vptr) :
  wf g → findVertex s g = Some v →
  ∃ g' resL S,
    bfs s g = Some (key_of g <$> resL.*1, g') ∧
    pbfs_loop (succs g) (length (vertexSet g)) [(v, 0)] [] {[v]} = Some (resL, S) ∧
    NoDup resL.*1 ∧ (∀ p, p ∈ resL.*1 ↔ reachable (succs g) v p) ∧
    StronglySorted by_level resL ∧
    (∀ p n, (p, n) ∈ resL → hop_dist (succs g) v p n) ∧
    structure g' = structure g.
Proof.
  intros Hwf Hf. unfold bfs. rewrite Hf.
  destruct (wf_findVertex_Some g s v Hwf Hf) as (Hv & _).
  destruct (resetVisited_spec g Hwf) as (g1 & -> & Hstr1 & Hvis1 & _). simpl.
  destruct (view_setVisited g Hwf g1 v true Hstr1 Hv) as (g2 & -> & Hstr2 & Hvis2 & _).
  simpl.
  destruct (pbfs_spec (succs g) (vertexSet g) (succs_closed g Hwf) v
              (wf_nodup g Hwf) Hv) as (resL & S & Hpure & Hnd & Hreach & Hsort & Hdist).
  destruct (bfs_loop_sim g (length (vertexSet g)) Hwf [v] [] g2 [(v, 0)] [] {[v]}
              (resL, S)) as (g' & Hrun & Hstr').
  { split; [done|]. split; [done|]. split.
    - pose proof (visited_as_set g1 g2 ∅ v Hvis1 Hvis2) as H.
      intros p. rewrite (H p). set_solver.
    - simpl. by intros x ->%list_elem_of_singleton. }
  { done. } { done. }
  simpl in Hrun. exists g', resL, S. do 6 (split; [done|]). done.
Qed.

(** A key is in the graph exactly when the index has a vertex for it, and
    that vertex belongs to the graph and carries the key. *)
Lemma keys_findVertex (g : Graph) (s : Z) :
  wf g →
  (s ∉ keys g → findVertex s g = None) ∧
  (s ∈ keys g → ∃ v, findVertex s g = Some v ∧ v ∈ vertexSet g ∧ key_of g v = s).
Proof.
  intros Hwf. split.
  - intros Hs. destruct (findVertex s g) as [v|] eqn:Hf; [|done]. destruct Hs.
    destruct (wf_findVertex_Some g s v Hwf Hf) as (Hv & vv & Hvv & Hk).
    apply list_elem_of_fmap. exists v. split; [|done].
    by rewrite (key_of_lookup _ _ _ Hvv).
  - intros (v & Hk & Hv)%list_elem_of_fmap. exists v.
    apply (wf_alloc g Hwf) in Hv as Ha. destruct Ha as [vv Hvv].
    rewrite (key_of_lookup _ _ _ Hvv) in Hk.
    split; [|split; [done|by rewrite (key_of_lookup _ _ _ Hvv)]].
    apply (wf_index g Hwf). eauto.
Qed.

(** C3.  On every well-formed state: [bfs(s)] returns the empty sequence,
    changing nothing, when [s] is not a key of the graph; when it is one,
    [bfs(s)] returns and satisfies [bfs_post] for the vertex [v] of the graph
    that carries the key [s]. *)
Theorem bfs_levels (g : Graph) (s : Z) :
  wf g →
  (s ∉ keys g → bfs s g = Some ([], g)) ∧
  (s ∈ keys g →
   ∃ v res g', v ∈ vertexSet g ∧ key_of g v = s ∧
               bfs s g = Some (res, g') ∧ bfs_post g v res g').
Proof.
  intros Hwf. destruct (keys_findVertex g s Hwf) as [Habsent Hpresent]. split.
  { intros Hs. unfold bfs. by rewrite (Habsent Hs). }
  intros (v & Hf & Hin & Hkey)%Hpresent.
  cut (∃ res g', bfs s g = Some (res, g') ∧ bfs_post g v res g').
  { intros (res & g' & Hrun & Hpost). by exists v, res, g'. }
  destruct (bfs_runs g s v Hwf Hf)
    as (g' & resL & S & Hrun & Hpure & Hnd & Hreach & Hsort & Hdist & Hstr').
  destruct (wf_findVertex_Some g s v Hwf Hf) as (Hv & _).
  exists (key_of g <$> resL.*1), g'. split; [done|].
  exists resL, S. split; [done|]. split; [done|]. split; [done|].
  assert (∀ p, p ∈ resL.*1 → p ∈ vertexSet g) as Hsub.
  { intros p [n Hn]%Hreach. eapply hops_closed; [by apply succs_closed|done|done]. }
  split; [by apply NoDup_keys_of|]. split; [done|]. split; [|done].
  intros i j x y dx dy Hij Hi Hj Hdx Hdy.
  rewrite list_lookup_fmap in Hi, Hj.
  destruct (resL !! i) as [[x' nx]|] eqn:Ei; [|done].
  destruct (resL !! j) as [[y' ny]|] eqn:Ej; [|done].
  simpl in Hi, Hj. injection Hi as ->. injection Hj as ->.
  assert (dx = nx) as ->.
  { eapply hop_dist_unique; [done|]. apply Hdist. by eapply list_elem_of_lookup_2. }
  assert (dy = ny) as ->.
  { eapply hop_dist_unique; [done|]. apply Hdist. by eapply list_elem_of_lookup_2. }
  destruct (decide (i = j)) as [->|Hne]; [by assert (ny = nx) as -> by congruence|].
  apply (StronglySorted_lookup_lt by_level resL i j (x, nx) (y, ny) Hsort);
    [lia|done|done].
Qed.

Lemma bfs_levels_witness :
  ∃ v res g', v ∈ vertexSet sample_graph ∧ key_of sample_graph v = 1%Z ∧
              bfs 1 sample_graph = Some (res, g') ∧ bfs_post sample_graph v res g'.
Proof.
  apply (bfs_levels sample_graph 1 sample_graph_wf).
  assert (keys sample_graph = [1; 2; 3]%Z) as -> by by vm_compute. by left.
Defined.

(** ** Three-colour cycle detection on successor lists

    [dfsIsDAG] with the store abstracted away.  The state is the pair of the
    visited set and the processing set: a vertex is white when it is in
    neither, grey when it is in both, black when it is visited and no longer
    processing. *)
Section PureDAG.
Variable succ : vptr → list vptr.

Fixpoint pdag_scan
    (rec : vptr → gset vptr * gset vptr → option (bool * (gset vptr * gset vptr)))
    (ws : list vptr) (st : gset vptr * gset vptr)
  : option (bool * (gset vptr * gset vptr)) :=
  match ws with
  | [] => Some (true, st)
  | w :: ws' =>
      if decide (w ∈ st.2) then Some (false, st)
      else if decide (w ∈ st.1) then pdag_scan rec ws' st
      else match rec w st with
           | Some (true, st') => pdag_scan rec ws' st'
           | Some (false, st') => Some (false, st')
           | None => None
           end
  end.

Fixpoint pdag (fuel : nat) (v : vptr) (st : gset vptr * gset vptr)
  : option (bool * (gset vptr * gset vptr)) :=
  match fuel with
  | O => None
  | S fuel' =>
      match pdag_scan (pdag fuel') (succ v) ({[v]} ∪ st.1, {[v]} ∪ st.2) with
      | Some (true, st') => Some (true, (st'.1, st'.2 ∖ {[v]}))
      | Some (false, st') => Some (false, st')
      | None => None
      end
  end.

Fixpoint pdag_loop (fuel : nat) (vs : list vptr) (st : gset vptr * gset vptr)
  : option (bool * (gset vptr * gset vptr)) :=
  match vs with
  | [] => Some (true, st)
  | v :: vs' =>
      if decide (v ∈ st.1) then pdag_loop fuel vs' st
      else match pdag fuel v st with
           | Some (true, st') => pdag_loop fuel vs' st'
           | Some (false, st') => Some (false, st')
           | None => None
           end
  end.
End PureDAG.

Section PureDAG_correct.
Variable succ : vptr → list vptr.
Variable V : list vptr.
Hypothesis succ_closed : ∀ v w, v ∈ V → w ∈ succ v → w ∈ V.

(** The black vertices are closed under successors and carry a numbering
    that decreases along their edges. *)
Definition black_ranked (S P : gset vptr) : Prop :=
  ∃ rank : vptr → nat,
    ∀ v w, v ∈ V → v ∈ S → v ∉ P → w ∈ succ v →
           w ∈ S ∧ (w ∉ P) ∧ (rank w < rank v).

(** Every grey vertex reaches the vertex under visit. *)
Definition grey_reach (P : gset vptr) (v : vptr) : Prop :=
  ∀ x, x ∈ P → x ∈ V ∧ reachable succ x v.

Definition dag_ok (S P S' P' : gset vptr) : Prop :=
  S ⊆ S' ∧ P' = P ∧ black_ranked S' P'.

Lemma black_ranked_finish S' P v :
  v ∈ V → v ∉ P → black_ranked S' ({[v]} ∪ P) →
  (∀ w, w ∈ succ v → w ∈ S' ∧ w ≠ v ∧ w ∉ P) →
  v ∈ S' → black_ranked S' P.
Proof.
  intros Hv HvP [rank Hr] Hsucc HvS.
  exists (λ x, if decide (x = v) then S (max_list (rank <$> succ v)) else rank x).
  intros x w Hx HxS HxP Hw. destruct (decide (x = v)) as [->|Hxv].
  - destruct (Hsucc w Hw) as (HwS & Hwv & HwP). split; [done|]. split; [done|].
    rewrite decide_False by done.
    assert (rank w ≤ max_list (rank <$> succ v)); [|lia].
    apply max_list_elem_of_le, list_elem_of_fmap. eauto.
  - destruct (Hr x w Hx HxS) as (HwS & HwP & Hlt); [set_solver|done|].
    split; [done|]. split; [set_solver|].
    rewrite decide_False by set_solver. done.
Qed.

(** What a visit that started in the state [(S, P)] may return. *)
Definition dag_result (S P : gset vptr) (r : bool * (gset vptr * gset vptr))
  : Prop :=
  if r.1 then S ⊆ r.2.1 ∧ r.2.2 = P ∧ black_ranked r.2.1 r.2.2
  else cyclic succ V.

Definition pdag_pre (fuel : nat) (v : vptr) (S P : gset vptr) : Prop :=
  v ∈ V ∧ P ⊆ S ∧ black_ranked S P ∧ grey_reach P v ∧ unvisited V S ≤ fuel.

Lemma pdag_scan_spec fuel v :
  (∀ w S P, w ∉ S → pdag_pre fuel w S P →
     ∃ r, pdag succ fuel w (S, P) = Some r ∧ dag_result S P r ∧
          (r.1 = true → w ∈ r.2.1)) →
  ∀ ws S P, (∀ w, w ∈ ws → w ∈ succ v) → v ∈ P → pdag_pre fuel v S P →
    ∃ r, pdag_scan (pdag succ fuel) ws (S, P) = Some r ∧ dag_result S P r ∧
         (r.1 = true → ∀ w, w ∈ ws → w ∈ r.2.1 ∧ w ∉ P).
Proof.
  intros IH ws. induction ws as [|w ws IHws];
    intros S P Hws HvP (Hv & HPS & Hbr & Hgr & Hfuel); simpl.
  - exists (true, (S, P)). split; [done|]. split; [by split|].
    by intros _ w ?%elem_of_nil.
  - assert (w ∈ succ v) as Hwv by (apply Hws; by left).
    assert (w ∈ V) as HwV by (by eapply succ_closed).
    case_decide as HwP.
    { exists (false, (S, P)). split; [done|]. split; [|done]. simpl.
      destruct (Hgr w HwP) as [_ [n Hn]]. exists w, n. split; [done|].
      by econstructor. }
    case_decide as HwS.
    { destruct (IHws S P) as (r & -> & Hres & Hall); [set_solver|done|done|].
      exists r. split; [done|]. split; [done|].
      intros Hr x [->|Hx]%elem_of_cons; [|by apply Hall].
      split; [|done]. unfold dag_result in Hres. rewrite Hr in Hres.
      destruct Hres as (Hsub & _). set_solver. }
    destruct (IH w S P HwS) as ([[] [S2 P2]] & -> & Hres & Hin).
    { split; [done|]. split; [done|]. split; [done|]. split; [|done].
      intros x Hx. destruct (Hgr x Hx) as [HxV [n Hn]]. split; [done|].
      exists (Datatypes.S n). by econstructor. }
    + unfold dag_result in Hres. simpl in *.
      destruct Hres as (Hsub & HP2 & Hbr2). subst P2.
      specialize (Hin eq_refl).
      destruct (IHws S2 P) as (r & -> & Hres & Hall); [set_solver|done| |].
      { split; [done|]. split; [set_solver|]. split; [done|]. split; [done|].
        etrans; [by apply unvisited_mono|done]. }
      exists r. split; [done|]. split.
      * unfold dag_result in *. destruct (r.1); [|done].
        destruct Hres as (? & ? & ?). split; [set_solver|done].
      * intros Hr x [->|Hx]%elem_of_cons; [|by apply Hall].
        split; [|done]. unfold dag_result in Hres. rewrite Hr in Hres.
        destruct Hres as (Hsub' & _). set_solver.
    + exists (false, (S2, P2)). split; [done|]. split; [done|]. done.
Qed.

Lemma pdag_spec fuel :
  ∀ v S P, v ∉ S → pdag_pre fuel v S P →
    ∃ r, pdag succ fuel v (S, P) = Some r ∧ dag_result S P r ∧
         (r.1 = true → v ∈ r.2.1).
Proof.
  induction fuel as [|fuel IH]; intros v S P HvS (Hv & HPS & Hbr & Hgr & Hfuel).
  - pose proof (unvisited_visit V S v Hv HvS). lia.
  - simpl.
    destruct (pdag_scan_spec fuel v IH (succ v) ({[v]} ∪ S) ({[v]} ∪ P))
      as ([[] [S' P']] & -> & Hres & Hall); [done|set_solver| | |].
    { split; [done|]. split; [set_solver|]. split; [|split].
      - destruct Hbr as [rank Hr]. exists rank. intros x w Hx HxS HxP Hw.
        destruct (Hr x w Hx) as (? & ? & ?); [set_solver|set_solver|done|].
        split; [set_solver|]. split; [set_solver|done].
      - intros x [->%elem_of_singleton|Hx]%elem_of_union; [|by apply Hgr].
        split; [done|]. exists 0. constructor.
      - pose proof (unvisited_visit V S v Hv HvS). lia. }
    + unfold dag_result in Hres. simpl in *.
      destruct Hres as (Hsub & HP' & Hbr'). subst P'.
      specialize (Hall eq_refl).
      assert (v ∉ P) as HvP by set_solver.
      exists (true, (S', ({[v]} ∪ P) ∖ {[v]})). split; [done|]. simpl.
      assert (({[v]} ∪ P) ∖ {[v]} = P) as -> by set_solver.
      split; [|set_solver]. split; [set_solver|]. split; [done|].
      apply (black_ranked_finish S' P v); [done|done|done| |set_solver].
      intros w Hw. destruct (Hall w Hw) as [? ?]. split; [done|]. set_solver.
    + exists (false, (S', P')). split; [done|]. split; [done|]. done.
Qed.

Lemma pdag_loop_spec vs :
  NoDup V →
  ∀ S, (∀ v, v ∈ vs → v ∈ V) → black_ranked S ∅ →
    ∃ r, pdag_loop succ (length V) vs (S, ∅) = Some r ∧ dag_result S ∅ r ∧
         (r.1 = true → ∀ v, v ∈ vs → v ∈ r.2.1).
Proof.
  intros HV. induction vs as [|v vs IH]; intros S Hvs Hbr; simpl.
  - exists (true, (S, ∅)). split; [done|]. split; [by split|].
    by intros _ v ?%elem_of_nil.
  - case_decide as HvS.
    { destruct (IH S) as (r & -> & Hres & Hall); [set_solver|done|].
      exists r. split; [done|]. split; [done|].
      intros Hr x [->|Hx]%elem_of_cons; [|by apply Hall].
      unfold dag_result in Hres. rewrite Hr in Hres.
      destruct Hres as (Hsub & _). set_solver. }
    destruct (pdag_spec (length V) v S ∅ HvS) as ([[] [S2 P2]] & -> & Hres & Hin).
    { split; [set_solver|]. split; [set_solver|]. split; [done|].
      split; [by intros x ?%elem_of_empty|]. by apply unvisited_le_length. }
    + unfold dag_result in Hres. simpl in *.
      destruct Hres as (Hsub & HP2 & Hbr2). subst P2.
      specialize (Hin eq_refl).
      destruct (IH S2) as (r & -> & Hres & Hall); [set_solver|done|].
      exists r. split; [done|]. split.
      * unfold dag_result in *. destruct (r.1); [|done].
        destruct Hres as (? & ? & ?). split; [set_solver|done].
      * intros Hr x [->|Hx]%elem_of_cons; [|by apply Hall].
        unfold dag_result in Hres. rewrite Hr in Hres.
        destruct Hres as (Hsub' & _). set_solver.
    + exists (false, (S2, P2)). split; [done|]. split; [done|]. done.
Qed.

Lemma pdag_all_spec :
  NoDup V →
  ∃ r, pdag_loop succ (length V) V (∅, ∅) = Some r ∧
       (r.1 = true → ∃ rank, topological_rank succ V rank) ∧
       (r.1 = false → cyclic succ V).
Proof.
  intros HV. destruct (pdag_loop_spec V HV ∅) as (r & Hrun & Hres & Hall).
  { done. } { exists (λ _, 0). set_solver. }
  exists r. split; [done|]. unfold dag_result in Hres. split.
  - intros Hr. rewrite Hr in Hres. destruct Hres as (_ & HP & [rank Hrank]).
    exists rank. intros v w Hv Hw.
    destruct (Hrank v w Hv) as (_ & _ & ?); [by apply Hall|rewrite HP; set_solver|done|].
    done.
  - intros Hr. by rewrite Hr in Hres.
Qed.
End PureDAG_correct.

(** ** [isDAG()] (C2) *)

Definition processing_as (g : Graph) (P : gset vptr) : Prop :=
  ∀ p, is_processing g p = true ↔ p ∈ P.

(** The store read as the state of [pdag]. *)
Definition dag_rel (g0 g : Graph) (st : gset vptr * gset vptr) : Prop :=
  structure g = structure g0 ∧ visited_as g st.1 ∧ processing_as g st.2.

Lemma processing_as_set g g' P p :
  processing_as g P →
  (∀ q, is_processing g' q = if decide (q = p) then true else is_processing g q) →
  processing_as g' ({[p]} ∪ P).
Proof.
  intros HS Hg' q. rewrite Hg', elem_of_union, elem_of_singleton, <- (HS q).
  case_decide; [by split; auto|]. split; [auto|]. by intros [?|?].
Qed.

Lemma processing_as_unset g g' P p :
  processing_as g P →
  (∀ q, is_processing g' q = if decide (q = p) then false else is_processing g q) →
  processing_as g' (P ∖ {[p]}).
Proof.
  intros HS Hg' q. rewrite Hg', elem_of_difference, elem_of_singleton, <- (HS q).
  case_decide; [|tauto]. split; [done|]. by intros [_ ?].
Qed.

Lemma visited_as_same g g' S :
  visited_as g S → (∀ q, is_visited g' q = is_visited g q) → visited_as g' S.
Proof. intros HS Hg' q. by rewrite Hg'. Qed.

Lemma processing_as_same g g' P :
  processing_as g P → (∀ q, is_processing g' q = is_processing g q) →
  processing_as g' P.
Proof. intros HS Hg' q. by rewrite Hg'. Qed.

Lemma dfsIsDAG_scan_sim g0 v rec_h rec_p :
  wf g0 → v ∈ vertexSet g0 →
  (∀ w g st b st', dag_rel g0 g st → w ∈ vertexSet g0 →
     rec_p w st = Some (b, st') →
     ∃ g', rec_h w g = Some (b, g') ∧ dag_rel g0 g' st') →
  ∀ l g st b st',
    (∀ e, e ∈ l → e ∈ adj_of g0 v) → dag_rel g0 g st →
    pdag_scan rec_p (dest_of g0 <$> l) st = Some (b, st') →
    ∃ g', dfsIsDAG_scan rec_h l g = Some (b, g') ∧ dag_rel g0 g' st'.
Proof.
  intros Hwf Hv Hrec. induction l as [|e l IH]; intros g [S P] b st' Hl HR; simpl.
  - intros [= <- <-]. eauto.
  - pose proof HR as (Hstr & Hvis & Hproc). simpl in *.
    destruct (view_edge g0 Hwf g v e Hstr Hv) as (ed & -> & Hd & Hin);
      [apply Hl; by left|].
    simpl. destruct (view_vertex g0 Hwf g _ Hstr Hin) as (wv & Hwv & _).
    rewrite Hwv. simpl.
    rewrite <- (is_visited_lookup g _ _ Hwv), <- (is_processing_lookup g _ _ Hwv).
    rewrite <- Hd.
    destruct (is_processing g (dest ed)) eqn:Ep.
    { apply Hproc in Ep. rewrite decide_True by done. intros [= <- <-]. eauto. }
    rewrite decide_False by (intros Hc; apply Hproc in Hc; congruence).
    destruct (is_visited g (dest ed)) eqn:Ev.
    { apply Hvis in Ev. rewrite decide_True by done.
      apply IH; [by intros; apply Hl; right|done]. }
    rewrite decide_False by (intros Hc; apply Hvis in Hc; congruence).
    destruct (rec_p (dest ed) (S, P)) as [[[] st1]|] eqn:Er; [| |done].
    + destruct (Hrec _ g _ _ _ HR Hin Er) as (g1 & -> & HR1).
      apply IH; [by intros; apply Hl; right|done].
    + destruct (Hrec _ g _ _ _ HR Hin Er) as (g1 & -> & HR1).
      intros [= <- <-]. eauto.
Qed.

Lemma dfsIsDAG_sim g0 fuel :
  wf g0 →
  ∀ v g st b st', dag_rel g0 g st → v ∈ vertexSet g0 →
    pdag (succs g0) fuel v st = Some (b, st') →
    ∃ g', dfsIsDAG fuel v g = Some (b, g') ∧ dag_rel g0 g' st'.
Proof.
  intros Hwf. induction fuel as [|fuel IH]; intros v g [S P] b st' HR Hv; simpl;
    [done|].
  destruct HR as (Hstr & Hvis & Hproc). simpl in *.
  destruct (view_setVisited g0 Hwf g v true Hstr Hv) as (g1 & -> & Hstr1 & Hv1 & Hp1).
  simpl.
  destruct (view_setProcesssing g0 Hwf g1 v true Hstr1 Hv) as (g2 & -> & Hstr2 & Hp2 & Hv2).
  simpl. destruct (view_vertex g0 Hwf g2 v Hstr2 Hv) as (vv & -> & _ & Hadj).
  simpl. rewrite Hadj.
  assert (dag_rel g0 g2 ({[v]} ∪ S, {[v]} ∪ P)) as HR2.
  { split; [done|]. split; simpl.
    - apply (visited_as_same g1); [|done]. by apply (visited_as_set g).
    - apply (processing_as_set g1); [|done]. by apply (processing_as_same g). }
  destruct (pdag_scan (pdag (succs g0) fuel) (succs g0 v) ({[v]} ∪ S, {[v]} ∪ P))
    as [[[] [S3 P3]]|] eqn:Escan; [| |done].
  - destruct (dfsIsDAG_scan_sim g0 v (dfsIsDAG fuel) (pdag (succs g0) fuel) Hwf Hv IH
                (adj_of g0 v) g2 _ _ _ (λ e H, H) HR2 Escan)
      as (g3 & -> & Hstr3 & Hvis3 & Hproc3).
    simpl in *. intros [= <- <-].
    destruct (view_setProcesssing g0 Hwf g3 v false Hstr3 Hv)
      as (g4 & -> & Hstr4 & Hp4 & Hv4).
    simpl. eexists. split; [done|]. split; [done|]. split; simpl.
    + by apply (visited_as_same g3).
    + by apply (processing_as_unset g3).
  - destruct (dfsIsDAG_scan_sim g0 v (dfsIsDAG fuel) (pdag (succs g0) fuel) Hwf Hv IH
                (adj_of g0 v) g2 _ _ _ (λ e H, H) HR2 Escan)
      as (g3 & -> & HR3).
    intros [= <- <-]. eauto.
Qed.

Lemma isDAG_loop_sim g0 fuel :
  wf g0 →
  ∀ l g st b st', (∀ v, v ∈ l → v ∈ vertexSet g0) → dag_rel g0 g st →
    pdag_loop (succs g0) fuel l st = Some (b, st') →
    ∃ g', isDAG_loop fuel l g = Some (b, g') ∧ dag_rel g0 g' st'.
Proof.
  intros Hwf. induction l as [|v l IH]; intros g [S P] b st' Hl HR; simpl.
  - intros [= <- <-]. eauto.
  - pose proof HR as (Hstr & Hvis & Hproc). simpl in *.
    assert (v ∈ vertexSet g0) as Hv by (apply Hl; by left).
    destruct (view_vertex g0 Hwf g v Hstr Hv) as (vv & Hvv & _). rewrite Hvv. simpl.
    rewrite <- (is_visited_lookup g _ _ Hvv).
    destruct (is_visited g v) eqn:Ev.
    { apply Hvis in Ev. rewrite decide_True by done.
      apply IH; [by intros; apply Hl; right|done]. }
    rewrite decide_False by (intros Hc; apply Hvis in Hc; congruence).
    destruct (pdag (succs g0) fuel v (S, P)) as [[[] st1]|] eqn:Er; [| |done].
    + destruct (dfsIsDAG_sim g0 fuel Hwf v g _ _ _ HR Hv Er) as (g1 & -> & HR1).
      apply IH; [by intros; apply Hl; right|done].
    + destruct (dfsIsDAG_sim g0 fuel Hwf v g _ _ _ HR Hv Er) as (g1 & -> & HR1).
      intros [= <- <-]. eauto.
Qed.

Lemma resetColours_loop g0 l :
  wf g0 → (∀ p, p ∈ l → p ∈ vertexSet g0) →
  ∀ g, structure g = structure g0 →
    ∃ g', foldM (λ g v, g' ← setVisited v false g; setProcesssing v false g') g l
            = Some g' ∧
          structure g' = structure g0 ∧
          (∀ q, is_visited g' q = if decide (q ∈ l) then false else is_visited g q) ∧
          (∀ q, is_processing g' q =
                if decide (q ∈ l) then false else is_processing g q).
Proof.
  intros Hwf. induction l as [|p l IH]; intros Hl g Hstr; simpl.
  - exists g. by repeat split.
  - assert (p ∈ vertexSet g0) as Hp by (apply Hl; by left).
    destruct (view_setVisited g0 Hwf g p false Hstr Hp) as (g1 & -> & Hstr1 & Hv1 & Hp1).
    simpl.
    destruct (view_setProcesssing g0 Hwf g1 p false Hstr1 Hp)
      as (g2 & -> & Hstr2 & Hp2 & Hv2).
    destruct (IH (λ x Hx, Hl x (list_elem_of_further _ _ _ Hx)) g2 Hstr2)
      as (g' & -> & Hstr' & Hv' & Hp').
    exists g'. split; [done|]. split; [done|]. split.
    + intros q. rewrite Hv', Hv2, Hv1. repeat case_decide; try done; set_solver.
    + intros q. rewrite Hp', Hp2, Hp1. repeat case_decide; try done; set_solver.
Qed.

Lemma is_processing_alloc g q : is_processing g q = true → is_Some (vheap g !! q).
Proof. unfold is_processing. destruct (vheap g !! q); [eauto|done]. Qed.

Lemma isDAG_spec (g : Graph) :
  wf g →
  ∃ b g' st,
    isDAG g = Some (b, g') ∧
    pdag_loop (succs g) (length (vertexSet g)) (vertexSet g) (∅, ∅) = Some (b, st) ∧
    (b = true → ∃ rank, topological_rank (succs g) (vertexSet g) rank) ∧
    (b = false → cyclic (succs g) (vertexSet g)) ∧
    structure g' = structure g.
Proof.
  intros Hwf. unfold isDAG.
  destruct (resetColours_loop g (vertexSet g) Hwf (λ p H, H) g eq_refl)
    as (g1 & -> & Hstr1 & Hv1 & Hp1).
  simpl.
  destruct (pdag_all_spec (succs g) (vertexSet g) (succs_closed g Hwf) (wf_nodup g Hwf))
    as ([b st] & Hpure & Htrue & Hfalse).
  destruct (isDAG_loop_sim g (length (vertexSet g)) Hwf (vertexSet g) g1 (∅, ∅) b st)
    as (g' & Hrun & Hstr' & _); [done| |done|].
  { split; [done|]. split; simpl.
    - intros q. split; [|set_solver]. intros Hq. exfalso.
      rewrite Hv1 in Hq. case_decide as Hin; [done|]. apply Hin.
      apply (wf_alloc g Hwf). by apply is_visited_alloc.
    - intros q. split; [|set_solver]. intros Hq. exfalso.
      rewrite Hp1 in Hq. case_decide as Hin; [done|]. apply Hin.
      apply (wf_alloc g Hwf). by apply is_processing_alloc. }
  exists b, g', st. by repeat split.
Qed.

(** C2.  On every well-formed state [isDAG()] returns, with the answer of the
    three-colour search [pdag_loop] (which answers [false] exactly when it
    meets an edge into a vertex that is in the processing set); the answer is
    [false] if and only if the graph has a directed cycle; the structure of
    the graph is unchanged. *)
Theorem isDAG_false_iff_cyclic (g : Graph) :
  wf g →
  ∃ b g' st,
    isDAG g = Some (b, g') ∧
    pdag_loop (succs g) (length (vertexSet g)) (vertexSet g) (∅, ∅) = Some (b, st) ∧
    (b = false ↔ cyclic (succs g) (vertexSet g)) ∧
    structure g' = structure g.
Proof.
  intros Hwf.
  destruct (isDAG_spec g Hwf) as (b & g' & st & Hrun & Hpure & Htrue & Hfalse & Hstr).
  exists b, g', st. split; [done|]. split; [done|]. split; [|done].
  split; [done|]. intros Hcyc. destruct b; [|done].
  destruct (Htrue eq_refl) as [rank Hrank].
  destruct (topological_rank_acyclic (succs g) (vertexSet g) rank
              (succs_closed g Hwf) Hrank Hcyc).
Qed.

Lemma isDAG_false_iff_cyclic_witness :
  ∃ b g' st,
    isDAG sample_graph = Some (b, g') ∧
    pdag_loop (succs sample_graph) (length (vertexSet sample_graph))
              (vertexSet sample_graph) (∅, ∅) = Some (b, st) ∧
    (b = false ↔ cyclic (succs sample_graph) (vertexSet sample_graph)) ∧
    structure g' = structure sample_graph.
Proof. exact (isDAG_false_iff_cyclic sample_graph sample_graph_wf). Defined.

(** ** Kahn's algorithm on successor lists

    [topsort] with the store abstracted away: the [indegree] fields are a
    function from addresses to unsigned 32-bit values. *)
Section PureTopsort.
Variable succ : vptr → list vptr.

Definition ptop_count (deg : vptr → Z) (w : vptr) : vptr → Z :=
  <[w := uint_wrap (deg w + 1)]> deg.

Definition ptop_scan (st : list vptr * (vptr → Z)) (w : vptr)
  : list vptr * (vptr → Z) :=
  let deg := <[w := uint_wrap (st.2 w - 1)]> st.2 in
  (if decide (deg w = 0%Z) then st.1 ++ [w] else st.1, deg).

Fixpoint ptop_loop (fuel : nat) (q res : list vptr) (deg : vptr → Z)
  : option (list vptr * (vptr → Z)) :=
  match q with
  | [] => Some (res, deg)
  | v :: q' =>
      match fuel with
      | O => None
      | S fuel' =>
          let st := foldl ptop_scan (q', deg) (succ v) in
          ptop_loop fuel' st.1 (res ++ [v]) st.2
      end
  end.

Definition ptop_init (V : list vptr) : vptr → Z :=
  foldl (λ deg v, foldl ptop_count deg (succ v)) (λ _, 0%Z) V.

Definition ptopsort (V : list vptr) : option (list vptr) :=
  let deg := ptop_init V in
  r ← ptop_loop (length V) (filter (λ v, deg v = 0%Z) V) [] deg;
  Some (if decide (length r.1 ≠ length V) then [] else r.1).
End PureTopsort.

(** The number of occurrences of [p] in a list. *)
Definition count (p : vptr) (l : list vptr) : nat :=
  length (filter (λ x, x = p) l).

Lemma count_app p l1 l2 : count p (l1 ++ l2) = count p l1 + count p l2.
Proof. unfold count. by rewrite filter_app, length_app. Qed.

Lemma count_cons_eq p l : count p (p :: l) = S (count p l).
Proof. unfold count. by rewrite filter_cons_True. Qed.

Lemma count_cons_ne p x l : x ≠ p → count p (x :: l) = count p l.
Proof. intros H. unfold count. by rewrite filter_cons_False. Qed.

Lemma count_le_length p l : count p l ≤ length l.
Proof. apply length_filter. Qed.

Lemma count_perm p l k : l ≡ₚ k → count p l = count p k.
Proof. intros H. unfold count. by rewrite H. Qed.

Lemma count_zero p l : count p l = 0 ↔ p ∉ l.
Proof.
  unfold count. split.
  - intros H Hin. apply length_zero_iff_nil in H.
    assert (p ∈ filter (λ x, x = p) l) as Hf by (by apply list_elem_of_filter).
    rewrite H in Hf. by apply elem_of_nil in Hf.
  - intros H. induction l as [|x l IH]; [done|].
    rewrite filter_cons_False by (intros ->; apply H; by left).
    apply IH. intros Hin. apply H. by right.
Qed.

Lemma count_bind_le succ (V l : list vptr) p :
  NoDup l → (∀ x, x ∈ l → x ∈ V) → count p (l ≫= succ) ≤ count p (V ≫= succ).
Proof.
  intros Hnd Hsub.
  destruct (submseteq_Permutation l V (NoDup_submseteq l V Hnd Hsub)) as [k Hk].
  rewrite (count_perm p (V ≫= succ) ((l ++ k) ≫= succ)) by (by rewrite Hk).
  rewrite bind_app, count_app. lia.
Qed.

(** When every predecessor of [p] is in [l], all edges into [p] leave [l]. *)
Lemma count_bind_preds succ (V l : list vptr) p :
  NoDup V → NoDup l → (∀ x, x ∈ l → x ∈ V) →
  (∀ u, u ∈ V → p ∈ succ u → u ∈ l) →
  count p (V ≫= succ) = count p (l ≫= succ).
Proof.
  intros HV Hnd Hsub Hpred.
  destruct (submseteq_Permutation l V (NoDup_submseteq l V Hnd Hsub)) as [k Hk].
  rewrite (count_perm p (V ≫= succ) ((l ++ k) ≫= succ)) by (by rewrite Hk).
  rewrite bind_app, count_app.
  assert (count p (k ≫= succ) = 0) as ->; [|lia].
  apply count_zero. intros (u & Hp & Hu)%list_elem_of_bind.
  rewrite Hk in HV. apply NoDup_app in HV as (_ & Hdisj & _).
  apply (Hdisj u); [|done]. apply Hpred; [|done]. rewrite Hk. set_solver.
Qed.

Lemma uint_wrap_small z : (0 ≤ z < UINT_MOD)%Z → uint_wrap z = z.
Proof. intros H. unfold uint_wrap. by apply Z.mod_small. Qed.

Lemma foldl_bind {A B C} (f : A → C → A) (h : B → list C) (a : A) (l : list B) :
  foldl (λ a x, foldl f a (h x)) a l = foldl f a (l ≫= h).
Proof.
  revert a. induction l as [|x l IH]; intros a; [done|].
  rewrite bind_cons, foldl_app. simpl. apply IH.
Qed.

Lemma count_ge_1 p l : p ∈ l → 1 ≤ count p l.
Proof.
  intros Hin. destruct (count p l) eqn:E; [|lia].
  apply count_zero in E. done.
Qed.

(** The position of the first occurrence of [x] in [l]. *)
Fixpoint pos_in (x : vptr) (l : list vptr) : nat :=
  match l with
  | [] => 0
  | y :: l' => if decide (y = x) then 0 else S (pos_in x l')
  end.

Lemma pos_in_app_notin x l1 l2 : x ∉ l1 → pos_in x (l1 ++ x :: l2) = length l1.
Proof.
  induction l1 as [|y l1 IH]; intros Hx; simpl.
  - by rewrite decide_True.
  - rewrite decide_False by (intros ->; apply Hx; by left).
    rewrite IH; [done|]. intros Hin. apply Hx. by right.
Qed.

Lemma pos_in_elem x l1 l2 : x ∈ l1 → pos_in x (l1 ++ l2) < length l1.
Proof.
  induction l1 as [|y l1 IH]; intros Hx; simpl; [by apply elem_of_nil in Hx|].
  case_decide; [lia|]. apply elem_of_cons in Hx as [->|Hx]; [done|].
  specialize (IH Hx). lia.
Qed.

Lemma max_rank_elem (rank : vptr → nat) (l : list vptr) :
  l ≠ [] → ∃ x, x ∈ l ∧ ∀ y, y ∈ l → rank y ≤ rank x.
Proof.
  induction l as [|a l IH]; [done|]. intros _.
  destruct l as [|b l].
  - exists a. split; [by left|]. intros y ->%list_elem_of_singleton. done.
  - destruct IH as (x & Hx & Hmax); [done|].
    destruct (decide (rank x ≤ rank a)) as [Hle|Hgt].
    + exists a. split; [by left|]. intros y [->|Hy]%elem_of_cons; [done|].
      specialize (Hmax y Hy). lia.
    + exists x. split; [by right|]. intros y [->|Hy]%elem_of_cons; [lia|].
      by apply Hmax.
Qed.

Section PureTopsort_correct.
Variable succ : vptr → list vptr.
Variable V : list vptr.
Hypothesis succ_closed : ∀ v w, v ∈ V → w ∈ succ v → w ∈ V.
Hypothesis V_nodup : NoDup V.
Hypothesis edges_bound : (Z.of_nat (length (V ≫= succ)) < UINT_MOD)%Z.

(** The number of edges into [p]. *)
Definition indeg0 (p : vptr) : nat := count p (V ≫= succ).

Lemma indeg0_bound p : (Z.of_nat (indeg0 p) < UINT_MOD)%Z.
Proof.
  pose proof (count_le_length p (V ≫= succ)). unfold indeg0. lia.
Qed.

Lemma ptop_count_fold ws :
  ∀ d, (∀ p, 0 ≤ d p)%Z → (∀ p, d p + Z.of_nat (count p ws) < UINT_MOD)%Z →
    ∀ p, foldl ptop_count d ws p = (d p + Z.of_nat (count p ws))%Z.
Proof.
  induction ws as [|w ws IH]; intros d Hpos Hlt p; simpl.
  - unfold count. simpl. lia.
  - assert (uint_wrap (d w + 1) = (d w + 1)%Z) as Hw.
    { apply uint_wrap_small. specialize (Hpos w). specialize (Hlt w).
      rewrite count_cons_eq in Hlt. lia. }
    unfold ptop_count at 2. rewrite Hw. rewrite IH.
    + destruct (decide (w = p)) as [->|Hne].
      * rewrite fn_lookup_insert, count_cons_eq. lia.
      * rewrite fn_lookup_insert_ne, count_cons_ne by done. done.
    + intros x. destruct (decide (w = x)) as [->|Hne].
      * rewrite fn_lookup_insert. specialize (Hpos x). lia.
      * rewrite fn_lookup_insert_ne by done. apply Hpos.
    + intros x. specialize (Hlt x). destruct (decide (w = x)) as [->|Hne].
      * rewrite fn_lookup_insert. rewrite count_cons_eq in Hlt. lia.
      * rewrite fn_lookup_insert_ne by done. by rewrite count_cons_ne in Hlt.
Qed.

Lemma ptop_init_spec p : ptop_init succ V p = Z.of_nat (indeg0 p).
Proof.
  unfold ptop_init. rewrite (foldl_bind ptop_count succ).
  rewrite ptop_count_fold; [done|done|].
  intros x. pose proof (indeg0_bound x). unfold indeg0 in *. lia.
Qed.

(** The invariant of the queue loop. *)
Record top_inv (res q : list vptr) (deg : vptr → Z) : Prop := {
  ti_nodup : NoDup (res ++ q);
  ti_sub : ∀ x, x ∈ res ++ q → x ∈ V;
  ti_deg : ∀ p, p ∈ V →
    Z.of_nat (indeg0 p) = (deg p + Z.of_nat (count p (res ≫= succ)))%Z;
  ti_zero : ∀ p, p ∈ V → (p ∈ res ++ q ↔ deg p = 0%Z);
  ti_order : ∀ l1 p l2, res = l1 ++ p :: l2 →
                        ∀ u, u ∈ V → p ∈ succ u → u ∈ l1
}.

(** The invariant of the inner loop over the successors of [v], of which
    [ws1] are done. *)
Record scan_inv (res : list vptr) (v : vptr) (ws1 q : list vptr)
    (deg : vptr → Z) : Prop := {
  si_nodup : NoDup (res ++ v :: q);
  si_sub : ∀ x, x ∈ res ++ v :: q → x ∈ V;
  si_deg : ∀ p, p ∈ V →
    Z.of_nat (indeg0 p) =
    (deg p + Z.of_nat (count p (res ≫= succ)) + Z.of_nat (count p ws1))%Z;
  si_zero : ∀ p, p ∈ V → (p ∈ res ++ v :: q ↔ deg p = 0%Z)
}.

Lemma scan_inv_step res v ws1 w ws2 q deg :
  succ v = ws1 ++ w :: ws2 → scan_inv res v ws1 q deg →
  scan_inv res v (ws1 ++ [w]) (ptop_scan (q, deg) w).1 (ptop_scan (q, deg) w).2.
Proof.
  intros Hsucc Hinv.
  assert (v ∈ V) as Hv by (apply (si_sub _ _ _ _ _ Hinv); set_solver).
  assert (w ∈ V) as Hw.
  { apply (succ_closed v w Hv). rewrite Hsucc. set_solver. }
  pose proof (si_nodup _ _ _ _ _ Hinv) as Hnd.
  assert (NoDup (v :: res)) as Hnd'.
  { apply NoDup_app in Hnd as (Hres & Hdisj & Hvq).
    apply NoDup_cons. split; [|done]. intros Hin. apply (Hdisj v Hin). by left. }
  pose proof (count_bind_le succ V (v :: res) w Hnd') as Hle.
  rewrite bind_cons, count_app, Hsucc, count_app, count_cons_eq in Hle.
  pose proof (si_deg _ _ _ _ _ Hinv w Hw) as Hdeg.
  pose proof (indeg0_bound w) as Hbound. fold (indeg0 w) in Hle.
  assert (1 ≤ deg w)%Z as Hpos.
  { assert (count w ws1 + S (count w ws2) + count w (res ≫= succ) ≤ indeg0 w); [|lia].
    apply Hle. intros x [->|Hx]%elem_of_cons; [done|].
    apply (si_sub _ _ _ _ _ Hinv). set_solver. }
  assert (uint_wrap (deg w - 1) = (deg w - 1)%Z) as Hwrap.
  { apply uint_wrap_small. lia. }
  unfold ptop_scan. simpl. rewrite Hwrap, fn_lookup_insert.
  assert (w ∉ res ++ v :: q) as Hwnot.
  { intros Hin. apply (si_zero _ _ _ _ _ Hinv w Hw) in Hin. lia. }
  assert (∀ p, p ∈ V →
            Z.of_nat (indeg0 p) =
            (<[w:=(deg w - 1)%Z]> deg p + Z.of_nat (count p (res ≫= succ)) +
             Z.of_nat (count p (ws1 ++ [w])))%Z) as Hdeg'.
  { intros p Hp. pose proof (si_deg _ _ _ _ _ Hinv p Hp) as Hd. rewrite count_app.
    destruct (decide (w = p)) as [->|Hne].
    - rewrite fn_lookup_insert, count_cons_eq. unfold count at 3. simpl. lia.
    - rewrite fn_lookup_insert_ne, count_cons_ne by done. unfold count at 3.
      simpl. lia. }
  case_decide as Hz; simpl.
  - split; [| |done|].
    + replace (res ++ v :: q ++ [w]) with ((res ++ v :: q) ++ [w])
        by (by rewrite <- app_assoc).
      apply NoDup_app. split; [done|]. split; [|apply NoDup_singleton].
      by intros x Hx ->%list_elem_of_singleton.
    + intros x Hx. assert (x ∈ res ++ v :: q ∨ x = w) as Hcase by set_solver.
      destruct Hcase as [Hin|Heq]; [by apply (si_sub _ _ _ _ _ Hinv)|by subst].
    + intros p Hp. destruct (decide (w = p)) as [->|Hne].
      * rewrite fn_lookup_insert. split; [done|]. intros _. set_solver.
      * rewrite fn_lookup_insert_ne by done.
        rewrite <- (si_zero _ _ _ _ _ Hinv p Hp). set_solver.
  - split; [done|apply Hinv|done|].
    intros p Hp. destruct (decide (w = p)) as [->|Hne].
    + rewrite fn_lookup_insert. split; [done|done].
    + rewrite fn_lookup_insert_ne by done. apply (si_zero _ _ _ _ _ Hinv p Hp).
Qed.

Lemma scan_inv_all res v ws2 :
  ∀ ws1 q deg, succ v = ws1 ++ ws2 → scan_inv res v ws1 q deg →
    scan_inv res v (succ v) (foldl ptop_scan (q, deg) ws2).1
                            (foldl ptop_scan (q, deg) ws2).2.
Proof.
  induction ws2 as [|w ws2 IH]; intros ws1 q deg Hsucc Hinv; simpl.
  - by rewrite Hsucc, app_nil_r.
  - pose proof (scan_inv_step res v ws1 w ws2 q deg Hsucc Hinv) as Hstep.
    destruct (ptop_scan (q, deg) w) as [q1 deg1]. simpl in *.
    apply (IH (ws1 ++ [w])); [by rewrite <- app_assoc|done].
Qed.

(** All predecessors of a vertex whose count is zero were emitted. *)
Lemma top_inv_preds res q deg v u :
  top_inv res q deg → v ∈ V → deg v = 0%Z → u ∈ V → v ∈ succ u → u ∈ res.
Proof.
  intros Hinv Hv Hz Hu Hvu. destruct (decide (u ∈ res)) as [|Hnot]; [done|].
  exfalso. pose proof (ti_nodup _ _ _ Hinv) as Hnd.
  apply NoDup_app in Hnd as (Hres & _ & _).
  assert (NoDup (u :: res)) as Hnd' by (by apply NoDup_cons).
  pose proof (count_bind_le succ V (u :: res) v Hnd') as Hle.
  rewrite bind_cons, count_app in Hle. fold (indeg0 v) in Hle.
  pose proof (ti_deg _ _ _ Hinv v Hv) as Hdeg.
  pose proof (count_ge_1 v (succ u) Hvu).
  assert (count v (succ u) + count v (res ≫= succ) ≤ indeg0 v); [|lia].
  apply Hle. intros x [->|Hx]%elem_of_cons; [done|].
  apply (ti_sub _ _ _ Hinv). set_solver.
Qed.

Lemma top_inv_pop res v q deg :
  top_inv res (v :: q) deg →
  top_inv (res ++ [v]) (foldl ptop_scan (q, deg) (succ v)).1
                       (foldl ptop_scan (q, deg) (succ v)).2.
Proof.
  intros Hinv.
  assert (v ∈ V) as Hv by (apply (ti_sub _ _ _ Hinv); set_solver).
  assert (deg v = 0%Z) as Hz by (apply (ti_zero _ _ _ Hinv v Hv); set_solver).
  assert (scan_inv res v [] q deg) as Hscan.
  { split; try apply Hinv. intros p Hp. rewrite (ti_deg _ _ _ Hinv p Hp).
    unfold count at 3. simpl. lia. }
  pose proof (scan_inv_all res v (succ v) [] q deg eq_refl Hscan) as Hfin.
  destruct (foldl ptop_scan (q, deg) (succ v)) as [q1 deg1]. simpl in *.
  assert ((res ++ [v]) ++ q1 = res ++ v :: q1) as Happ by (by rewrite <- app_assoc).
  split; rewrite ?Happ; try apply Hfin.
  - intros p Hp. rewrite (si_deg _ _ _ _ _ Hfin p Hp).
    rewrite bind_app, count_app, bind_cons, count_app.
    change (count p ([] ≫= succ)) with 0. lia.
  - intros l1 p l2 Heq u Hu Hpu.
    destruct l2 as [|y l2 _] using rev_ind.
    + apply app_inj_tail in Heq as [-> ->].
      by apply (top_inv_preds l1 (p :: q) deg p u).
    + rewrite app_comm_cons, app_assoc in Heq. apply app_inj_tail in Heq as [-> ->].
      by apply (ti_order _ _ _ Hinv l1 p l2 eq_refl u).
Qed.

Lemma top_inv_length res q deg :
  top_inv res q deg → length res + length q ≤ length V.
Proof.
  intros Hinv. rewrite <- length_app.
  apply submseteq_length, NoDup_submseteq; apply Hinv.
Qed.

Lemma ptop_loop_spec fuel :
  ∀ q res deg, top_inv res q deg → length V ≤ fuel + length res →
    ∃ res' deg', ptop_loop succ fuel q res deg = Some (res', deg') ∧
                 top_inv res' [] deg'.
Proof.
  induction fuel as [|fuel IH]; intros q res deg Hinv Hfuel.
  - destruct q as [|v q]; simpl; [eauto|].
    pose proof (top_inv_length _ _ _ Hinv) as Hlen. simpl in Hlen. lia.
  - destruct q as [|v q]; simpl; [eauto|].
    apply IH; [by apply top_inv_pop|]. rewrite length_app. simpl. lia.
Qed.

Lemma top_inv_init :
  top_inv [] (filter (λ v, ptop_init succ V v = 0%Z) V) (ptop_init succ V).
Proof.
  split; simpl.
  - by apply NoDup_filter.
  - by intros x [_ ?]%list_elem_of_filter.
  - intros p Hp. rewrite ptop_init_spec.
    change (count p []) with 0. lia.
  - intros p Hp. rewrite list_elem_of_filter. tauto.
  - intros l1 p l2 Heq. by destruct l1.
Qed.

Lemma top_inv_precedes res deg u p :
  top_inv res [] deg → u ∈ V → p ∈ succ u → p ∈ res →
  ∃ l1 l2 l3, res = l1 ++ u :: l2 ++ p :: l3.
Proof.
  intros Hinv Hu Hp (l1 & l3 & ->)%list_elem_of_split.
  pose proof (ti_order _ _ _ Hinv l1 p l3 eq_refl u Hu Hp) as Hin.
  apply list_elem_of_split in Hin as (a & b & ->).
  exists a, b, l3. by rewrite <- app_assoc.
Qed.

Lemma top_inv_full_rank res deg :
  top_inv res [] deg → (∀ x, x ∈ V → x ∈ res) →
  topological_rank succ V (λ x, length res - pos_in x res).
Proof.
  intros Hinv Hall v w Hv Hw.
  assert (w ∈ res) as Hwr by (apply Hall; by eapply succ_closed).
  apply list_elem_of_split in Hwr as (l1 & l2 & Heq).
  pose proof (ti_order _ _ _ Hinv l1 w l2 Heq v Hv Hw) as Hin.
  pose proof (ti_nodup _ _ _ Hinv) as Hnd. rewrite app_nil_r, Heq in Hnd.
  apply NoDup_app in Hnd as (_ & Hdisj & Hnd2).
  rewrite Heq, pos_in_app_notin.
  2:{ intros Hc. apply (Hdisj w Hc). by left. }
  pose proof (pos_in_elem v l1 (w :: l2) Hin). rewrite length_app. simpl. lia.
Qed.

Lemma top_inv_rank_full res deg rank :
  top_inv res [] deg → topological_rank succ V rank → ∀ x, x ∈ V → x ∈ res.
Proof.
  intros Hinv Hrank.
  pose proof (ti_nodup _ _ _ Hinv) as Hnd. rewrite app_nil_r in Hnd.
  assert (∀ x, x ∈ res → x ∈ V) as Hsub.
  { intros x Hx. apply (ti_sub _ _ _ Hinv). by rewrite app_nil_r. }
  assert (filter (λ x, x ∉ res) V = []) as Hnil.
  { destruct (filter (λ x, x ∉ res) V) as [|a U] eqn:EU; [done|]. exfalso.
    destruct (max_rank_elem rank (a :: U)) as (p & Hp & Hmax); [done|].
    rewrite <- EU in Hp, Hmax. apply list_elem_of_filter in Hp as [Hpres HpV].
    destruct (decide (Exists (λ u, p ∈ succ u ∧ u ∉ res) V)) as [Hex|Hno].
    - apply Exists_exists in Hex as (u & Hu & Hpu & Hures).
      assert (rank u ≤ rank p) by (apply Hmax; by apply list_elem_of_filter).
      specialize (Hrank u p Hu Hpu). lia.
    - apply Hpres. rewrite <- (app_nil_r res).
      apply (ti_zero _ _ _ Hinv p HpV).
      pose proof (ti_deg _ _ _ Hinv p HpV) as Hdeg.
      assert (indeg0 p = count p (res ≫= succ)); [|lia].
      apply count_bind_preds; [done..|].
      intros u Hu Hpu. destruct (decide (u ∈ res)) as [|Hures]; [done|].
      destruct Hno. apply Exists_exists. eauto. }
  intros x Hx. destruct (decide (x ∈ res)) as [|Hnot]; [done|].
  assert (x ∈ filter (λ x, x ∉ res) V) as Hin by (by apply list_elem_of_filter).
  rewrite Hnil in Hin. by apply elem_of_nil in Hin.
Qed.

Lemma ptop_spec :
  ∃ res deg,
    ptop_loop succ (length V) (filter (λ v, ptop_init succ V v = 0%Z) V) []
              (ptop_init succ V) = Some (res, deg) ∧
    NoDup res ∧ (∀ x, x ∈ res → x ∈ V) ∧
    (length res = length V ↔ ∃ rank, topological_rank succ V rank) ∧
    (length res = length V → res ≡ₚ V) ∧
    (∀ u p, u ∈ V → p ∈ succ u → p ∈ res →
            ∃ l1 l2 l3, res = l1 ++ u :: l2 ++ p :: l3).
Proof.
  destruct (ptop_loop_spec (length V) _ [] _ top_inv_init)
    as (res & deg & Hrun & Hinv); [simpl; lia|].
  exists res, deg. split; [done|].
  pose proof (ti_nodup _ _ _ Hinv) as Hnd. rewrite app_nil_r in Hnd.
  assert (∀ x, x ∈ res → x ∈ V) as Hsub.
  { intros x Hx. apply (ti_sub _ _ _ Hinv). by rewrite app_nil_r. }
  assert (length res = length V → res ≡ₚ V) as Hperm.
  { intros Hlen. apply submseteq_length_Permutation; [|lia].
    by apply NoDup_submseteq. }
  split; [done|]. split; [done|]. split; [|split; [done|]].
  - split.
    + intros Hlen. eexists. apply (top_inv_full_rank res deg Hinv).
      intros x Hx. by rewrite (Hperm Hlen).
    + intros [rank Hrank]. apply Nat.le_antisymm.
      * apply submseteq_length. by apply NoDup_submseteq.
      * apply submseteq_length, NoDup_submseteq; [done|].
        by apply (top_inv_rank_full res deg rank).
  - intros u p. by apply (top_inv_precedes res deg).
Qed.
End PureTopsort_correct.

(** ** [topsort()] (C1) *)

(** The [indegree] fields read as a function on addresses. *)
Definition indeg_as (g0 g : Graph) (deg : vptr → Z) : Prop :=
  ∀ p, p ∈ vertexSet g0 → getIndegree p g = Some (deg p).

Definition top_rel (g0 g : Graph) (deg : vptr → Z) : Prop :=
  structure g = structure g0 ∧ indeg_as g0 g deg.

Lemma view_setIndegree g0 g p n :
  wf g0 → structure g = structure g0 → p ∈ vertexSet g0 →
  ∃ g', setIndegree p n g = Some g' ∧ structure g' = structure g0 ∧
        ∀ q, getIndegree q g' = if decide (q = p) then Some n else getIndegree q g.
Proof.
  intros Hwf H Hp. destruct (view_vertex g0 Hwf g p H Hp) as (v & Hv & _).
  unfold setIndegree. rewrite Hv. simpl. eexists. split; [done|]. split.
  - rewrite <- H. by apply (structure_store g p v).
  - intros q. unfold getIndegree, store_vertex. simpl. rewrite lookup_insert.
    case_decide; subst; by rewrite ?decide_True, ?decide_False by done.
Qed.

Lemma topsort_zero_loop g0 l :
  wf g0 → (∀ p, p ∈ l → p ∈ vertexSet g0) →
  ∀ g, structure g = structure g0 →
    ∃ g', foldM (λ g v, setIndegree v 0 g) g l = Some g' ∧
          structure g' = structure g0 ∧
          ∀ q, getIndegree q g' = if decide (q ∈ l) then Some 0%Z else getIndegree q g.
Proof.
  intros Hwf. induction l as [|p l IH]; intros Hl g Hstr; simpl.
  - exists g. by repeat split.
  - destruct (view_setIndegree g0 g p 0 Hwf Hstr) as (g1 & -> & Hstr1 & Hd1).
    { apply Hl. by left. }
    destruct (IH (λ x Hx, Hl x (list_elem_of_further _ _ _ Hx)) g1 Hstr1)
      as (g' & -> & Hstr' & Hd').
    exists g'. split; [done|]. split; [done|].
    intros q. rewrite Hd', Hd1. repeat case_decide; try done; set_solver.
Qed.

Lemma topsort_count_sim g0 v e g deg :
  wf g0 → v ∈ vertexSet g0 → e ∈ adj_of g0 v → top_rel g0 g deg →
  ∃ g', topsort_count g e = Some g' ∧ top_rel g0 g' (ptop_count deg (dest_of g0 e)).
Proof.
  intros Hwf Hv He [Hstr Hdeg]. unfold topsort_count.
  destruct (view_edge g0 Hwf g v e Hstr Hv He) as (ed & -> & Hd & Hin). simpl.
  rewrite (Hdeg _ Hin). simpl.
  destruct (view_setIndegree g0 g (dest ed) (uint_wrap (deg (dest ed) + 1)) Hwf Hstr Hin)
    as (g' & -> & Hstr' & Hd').
  exists g'. split; [done|]. split; [done|]. intros p Hp. rewrite Hd', <- Hd.
  unfold ptop_count. case_decide as Hc.
  - subst p. by rewrite fn_lookup_insert.
  - rewrite fn_lookup_insert_ne by done. by apply Hdeg.
Qed.

Lemma topsort_count_loop g0 g deg :
  wf g0 → top_rel g0 g deg →
  ∃ g', foldM (λ g v, vv ← vheap g !! v; foldM topsort_count g (adj vv))
              g (vertexSet g0) = Some g' ∧
        top_rel g0 g' (foldl (λ deg v, foldl ptop_count deg (succs g0 v))
                             deg (vertexSet g0)).
Proof.
  intros Hwf HR.
  destruct (foldM_sim (top_rel g0) id (λ v, v ∈ vertexSet g0)
              (λ g v, vv ← vheap g !! v; foldM topsort_count g (adj vv))
              (λ deg v, Some (foldl ptop_count deg (succs g0 v))) (vertexSet g0))
    with (s1 := g) (s2 := deg)
         (s2' := foldl (λ deg v, foldl ptop_count deg (succs g0 v)) deg (vertexSet g0))
    as (g' & Hrun & HR').
  - by apply Forall_forall.
  - intros v g1 deg1 deg2 Hv HR1 [= <-]. destruct HR1 as [Hstr1 Hdeg1].
    destruct (view_vertex g0 Hwf g1 v Hstr1 Hv) as (vv & -> & _ & Hadj). simpl.
    rewrite Hadj. unfold succs.
    apply (foldM_sim (top_rel g0) (dest_of g0) (λ e, e ∈ adj_of g0 v)
             topsort_count (λ deg w, Some (ptop_count deg w)) (adj_of g0 v))
      with (s2 := deg1).
    + by apply Forall_forall.
    + intros e g2 d2 d3 He HR2 [= <-]. by apply (topsort_count_sim g0 v).
    + done.
    + apply foldM_total.
  - done.
  - rewrite list_fmap_id. apply (foldM_total (λ deg v, foldl ptop_count deg (succs g0 v))).
  - eauto.
Qed.

Lemma topsort_queue_loop g0 g deg l :
  indeg_as g0 g deg → (∀ p, p ∈ l → p ∈ vertexSet g0) →
  ∀ acc, foldM (λ q v, n ← getIndegree v g;
                       Some (if decide (n = 0%Z) then q ++ [v] else q)) acc l
         = Some (acc ++ filter (λ v, deg v = 0%Z) l).
Proof.
  intros Hdeg. induction l as [|v l IH]; intros Hl acc; simpl.
  - by rewrite app_nil_r.
  - rewrite (Hdeg v) by (apply Hl; by left). simpl.
    rewrite IH by (intros; apply Hl; by right).
    rewrite filter_cons. case_decide; [|done]. by rewrite <- app_assoc.
Qed.

(** The state of the queue loop of [topsort] read as that of [ptop_loop]. *)
Definition top_loop_rel (g0 : Graph) (s1 : list vptr * Graph)
    (s2 : list vptr * (vptr → Z)) : Prop :=
  s1.1 = s2.1 ∧ top_rel g0 s1.2 s2.2 ∧ ∀ x, x ∈ s1.1 → x ∈ vertexSet g0.

Lemma topsort_scan_sim g0 v e s1 s2 :
  wf g0 → v ∈ vertexSet g0 → e ∈ adj_of g0 v → top_loop_rel g0 s1 s2 →
  ∃ s1', topsort_scan s1 e = Some s1' ∧
         top_loop_rel g0 s1' (ptop_scan s2 (dest_of g0 e)).
Proof.
  intros Hwf Hv He. destruct s1 as [q g], s2 as [q' deg].
  intros (Hq & [Hstr Hdeg] & Hsub). simpl in *. subst q'.
  unfold topsort_scan, ptop_scan. simpl.
  destruct (view_edge g0 Hwf g v e Hstr Hv He) as (ed & -> & Hd & Hin). simpl.
  rewrite (Hdeg _ Hin). simpl.
  destruct (view_setIndegree g0 g (dest ed) (uint_wrap (deg (dest ed) - 1)) Hwf Hstr Hin)
    as (g' & -> & Hstr' & Hd').
  simpl. rewrite Hd', decide_True by done. simpl. rewrite <- Hd.
  rewrite fn_lookup_insert. eexists. split; [done|]. split; [|split]; simpl.
  - done.
  - split; [done|]. intros p Hp. rewrite Hd'. case_decide as Hc.
    + subst p. by rewrite fn_lookup_insert.
    + rewrite fn_lookup_insert_ne by done. by apply Hdeg.
  - intros x. case_decide; [|by apply Hsub].
    intros [?| ->%list_elem_of_singleton]%elem_of_app; auto.
Qed.

Lemma topsort_loop_sim g0 fuel :
  wf g0 →
  ∀ q res g resp deg r',
    top_loop_rel g0 (q, g) (q, deg) → res = key_of g0 <$> resp →
    ptop_loop (succs g0) fuel q resp deg = Some r' →
    ∃ g', topsort_loop fuel q res g = Some (key_of g0 <$> r'.1, g') ∧
          structure g' = structure g0.
Proof.
  intros Hwf. induction fuel as [|fuel IH]; intros q res g resp deg r' HR Hres.
  - destruct HR as (_ & [Hstr _] & _). simpl in *.
    destruct q as [|v q]; simpl; [|done].
    intros [= <-]. simpl. exists g. by rewrite Hres.
  - pose proof HR as (_ & [Hstr Hdeg] & Hsub). simpl in *.
    destruct q as [|v q]; simpl.
    { intros [= <-]. simpl. exists g. by rewrite Hres. }
    assert (v ∈ vertexSet g0) as Hv by (apply Hsub; by left).
    destruct (view_vertex g0 Hwf g v Hstr Hv) as (vv & -> & Hinfo & Hadj). simpl.
    rewrite Hadj, Hinfo.
    destruct (foldM_sim (top_loop_rel g0) (dest_of g0) (λ e, e ∈ adj_of g0 v)
                topsort_scan (λ st w, Some (ptop_scan st w)) (adj_of g0 v))
      with (s1 := (q, g)) (s2 := (q, deg))
           (s2' := foldl ptop_scan (q, deg) (succs g0 v))
      as ([q2 g2] & -> & HR2).
    + by apply Forall_forall.
    + intros e s1 s2 s2' He HRs [= <-]. by apply (topsort_scan_sim g0 v).
    + split; [done|]. split; [done|]. intros x Hx. apply Hsub. by right.
    + apply foldM_total.
    + simpl. intros Hloop.
      destruct (foldl ptop_scan (q, deg) (succs g0 v)) as [q3 deg3].
      destruct HR2 as (Hq2 & HR2 & Hsub2). simpl in *. subst q3.
      apply (IH q2 _ g2 (resp ++ [v]) deg3 r'); [done|by rewrite Hres, fmap_app|done].
Qed.

(** The number of edge objects reachable from [vertexSet]. *)
Definition edge_count (g : Graph) : nat := length (vertexSet g ≫= succs g).

Lemma has_edge_succs g ku kp :
  wf g → has_edge g ku kp →
  ∃ u p, u ∈ vertexSet g ∧ p ∈ succs g u ∧ key_of g u = ku ∧ key_of g p = kp.
Proof.
  intros Hwf (e & ed & He & Hku & Hkp).
  destruct (wf_edge g Hwf e ed He) as (vo & vd & Ho & Hd & Hin & _).
  exists (orig ed), (dest ed). split; [apply (wf_alloc g Hwf); eauto|].
  split; [|done]. unfold succs, adj_of. rewrite Ho.
  apply list_elem_of_fmap. exists e. split; [|done]. unfold dest_of. by rewrite He.
Qed.

Lemma succs_has_edge g u p :
  wf g → u ∈ vertexSet g → p ∈ succs g u → has_edge g (key_of g u) (key_of g p).
Proof.
  intros Hwf Hu (e & -> & He)%list_elem_of_fmap.
  apply (wf_alloc g Hwf) in Hu as [vu Hvu]. unfold adj_of in He. rewrite Hvu in He.
  destruct (wf_adj g Hwf u vu e Hvu He) as (ed & Hed & Ho).
  exists e, ed. split; [done|]. unfold dest_of. rewrite Hed, Ho. done.
Qed.

Lemma topsort_spec (g : Graph) :
  wf g → (Z.of_nat (edge_count g) < UINT_MOD)%Z →
  ∃ res g' resp,
    topsort g = Some (res, g') ∧ structure g' = structure g ∧
    res = key_of g <$> resp ∧ NoDup resp ∧ (∀ x, x ∈ resp → x ∈ vertexSet g) ∧
    ((∃ rank, topological_rank (succs g) (vertexSet g) rank) → resp ≡ₚ vertexSet g) ∧
    (¬ (∃ rank, topological_rank (succs g) (vertexSet g) rank) → resp = []) ∧
    (∀ u p, u ∈ vertexSet g → p ∈ succs g u → p ∈ resp →
            ∃ l1 l2 l3, resp = l1 ++ u :: l2 ++ p :: l3).
Proof.
  intros Hwf Hbound. unfold topsort.
  destruct (topsort_zero_loop g (vertexSet g) Hwf (λ p H, H) g eq_refl)
    as (g1 & -> & Hstr1 & Hd1).
  simpl.
  destruct (topsort_count_loop g g1 (λ _, 0%Z) Hwf) as (g2 & -> & Hstr2 & Hdeg2).
  { split; [done|]. intros p Hp. rewrite Hd1. by rewrite decide_True. }
  simpl. fold (ptop_init (succs g) (vertexSet g)) in Hdeg2.
  rewrite (topsort_queue_loop g g2 _ (vertexSet g) Hdeg2 (λ p H, H) []). simpl.
  destruct (ptop_spec (succs g) (vertexSet g) (succs_closed g Hwf) (wf_nodup g Hwf) Hbound)
    as (resp & deg & Hpure & Hnd & Hsub & Hfull & Hperm & Hord).
  destruct (topsort_loop_sim g (length (vertexSet g)) Hwf
              (filter (λ v, ptop_init (succs g) (vertexSet g) v = 0%Z) (vertexSet g))
              [] g2 [] (ptop_init (succs g) (vertexSet g)) (resp, deg))
    as (g3 & -> & Hstr3); [|done|exact Hpure|].
  { split; [done|]. split; [by split|]. by intros x [_ ?]%list_elem_of_filter. }
  simpl. rewrite length_fmap. case_decide as Hlen.
  - exists [], g3, []. split; [done|]. split; [done|]. split; [done|].
    split; [constructor|]. split; [by intros x ?%elem_of_nil|].
    split; [|split; [done|]].
    + intros Hrank. by apply Hfull in Hrank.
    + by intros u p _ _ ?%elem_of_nil.
  - assert (length resp = length (vertexSet g)) as Hlen'.
    { by destruct (decide (length resp = length (vertexSet g))). }
    exists (key_of g <$> resp), g3, resp. split; [done|]. split; [done|].
    split; [done|]. split; [done|]. split; [done|]. split; [auto|].
    split; [|done]. intros Hno. destruct Hno. by apply Hfull.
Qed.

(** C1.  On every well-formed state with fewer than [2^32] edges, [topsort()]
    and [isDAG()] both return; the result of [topsort()] is a permutation of
    the keys exactly when [isDAG()] answers [true], and is empty when it
    answers [false]; in a non-empty result the origin key of every edge
    precedes the destination key. *)
Theorem topsort_iff_isDAG (g : Graph) :
  wf g → (Z.of_nat (edge_count g) < UINT_MOD)%Z →
  ∃ res g1 b g2,
    topsort g = Some (res, g1) ∧ isDAG g = Some (b, g2) ∧
    (res ≡ₚ keys g ↔ b = true) ∧
    (b = false → res = []) ∧
    (res ≠ [] → ∀ ku kp, has_edge g ku kp →
                ∃ l1 l2 l3, res = l1 ++ ku :: l2 ++ kp :: l3) ∧
    structure g1 = structure g.
Proof.
  intros Hwf Hbound.
  destruct (topsort_spec g Hwf Hbound)
    as (res & g1 & resp & Hrun & Hstr & Hres & Hnd & Hsub & Hfull & Hempty & Hord).
  destruct (isDAG_spec g Hwf) as (b & g2 & st & Hdag & _ & Htrue & Hfalse & _).
  exists res, g1, b, g2. split; [done|]. split; [done|].
  assert (b = false → resp = []) as Hnil.
  { intros -> . apply Hempty. intros [rank Hrank].
    by apply (topological_rank_acyclic (succs g) (vertexSet g) rank
                (succs_closed g Hwf) Hrank), Hfalse. }
  split; [|split; [|split; [|done]]].
  - split.
    + intros Hperm. destruct b; [done|]. rewrite Hres, (Hnil eq_refl) in Hperm.
      destruct (Hfalse eq_refl) as (v & n & Hv & _). unfold keys in Hperm.
      apply Permutation_nil_l in Hperm. symmetry in Hperm.
      apply fmap_nil_inv in Hperm.
      rewrite Hperm in Hv. by apply elem_of_nil in Hv.
    + intros ->. rewrite Hres. unfold keys. by rewrite (Hfull (Htrue eq_refl)).
  - intros Hb. by rewrite Hres, (Hnil Hb).
  - intros Hne ku kp Hedge.
    destruct (has_edge_succs g ku kp Hwf Hedge) as (u & p & Hu & Hp & <- & <-).
    assert (resp ≡ₚ vertexSet g) as Hperm.
    { apply Hfull. destruct b; [by apply Htrue|].
      rewrite Hres, (Hnil eq_refl) in Hne. done. }
    destruct (Hord u p Hu Hp) as (l1 & l2 & l3 & Heq).
    { rewrite Hperm. by eapply succs_closed. }
    exists (key_of g <$> l1), (key_of g <$> l2), (key_of g <$> l3).
    rewrite Hres, Heq. by rewrite fmap_app, fmap_cons, fmap_app, fmap_cons.
Qed.

Lemma topsort_iff_isDAG_witness :
  ∃ res g1 b g2,
    topsort sample_graph = Some (res, g1) ∧ isDAG sample_graph = Some (b, g2) ∧
    (res ≡ₚ keys sample_graph ↔ b = true) ∧
    (b = false → res = []) ∧
    (res ≠ [] → ∀ ku kp, has_edge sample_graph ku kp →
                ∃ l1 l2 l3, res = l1 ++ ku :: l2 ++ kp :: l3) ∧
    structure g1 = structure sample_graph.
Proof.
  apply (topsort_iff_isDAG sample_graph sample_graph_wf). by vm_compute.
Defined.

(** ** The traversals only assign scratch fields (C10) *)

(** From [g] to [g']: the vertex list, the index and every edge object are
    the same, the same addresses hold vertices, and every vertex keeps its
    [info], [adj], [incoming], [dist], [path] and [queueIndex]. *)
Definition only_scratch_changed (g g' : Graph) : Prop :=
  vertexSet g' = vertexSet g ∧ vertexMap g' = vertexMap g ∧ eheap g' = eheap g ∧
  ∀ p, match vheap g !! p, vheap g' !! p with
       | Some v, Some v' =>
           info v' = info v ∧ adj v' = adj v ∧ incoming v' = incoming v ∧
           dist v' = dist v ∧ path v' = path v ∧ queueIndex v' = queueIndex v
       | None, None => True
       | _, _ => False
       end.

Lemma structure_only_scratch g g' :
  structure g' = structure g → only_scratch_changed g g'.
Proof.
  intros H. split; [by eapply structure_vertexSet|].
  split; [by eapply structure_vertexMap|]. split; [by eapply structure_eheap|].
  intros p. pose proof (structure_lookup g g' p H) as Hl.
  destruct (vheap g !! p) as [v|], (vheap g' !! p) as [v'|]; simpl in Hl; try done.
  injection Hl as ? ? ? ? ? ?. done.
Qed.

Lemma dfs_from_runs (g : Graph) (s : Z) :
  wf g → ∃ res g', dfs_from s g = Some (res, g') ∧ structure g' = structure g.
Proof.
  intros Hwf. unfold dfs_from. destruct (findVertex s g) as [v|] eqn:Hf; [|eauto].
  destruct (wf_findVertex_Some g s v Hwf Hf) as (Hv & _).
  destruct (resetVisited_spec g Hwf) as (g1 & -> & Hstr1 & Hvis1 & _). simpl.
  destruct (pdfs_spec (succs g) (vertexSet g) (succs_closed g Hwf)
              (length (vertexSet g)) v ([], ∅)) as (st' & l & Hpure & _ & _).
  { done. } { set_solver. } { apply unvisited_le_length, Hwf. }
  destruct (dfsVisit_sim g (length (vertexSet g)) Hwf v ([], g1) ([], ∅) st')
    as ([res g'] & Hrun & _ & Hstr & _); [by split|done|done|].
  simpl in *. eauto.
Qed.

(** C10.  On every well-formed state with fewer than [2^32] edges, each of
    [dfs()], [dfs(source)], [bfs(source)], [isDAG()] and [topsort()] returns
    and leaves a state that differs from the one it started in by scratch
    fields only. *)
Theorem traversals_only_scratch (g : Graph) (s : Z) :
  wf g → (Z.of_nat (edge_count g) < UINT_MOD)%Z →
  (∃ res g', dfs g = Some (res, g') ∧ only_scratch_changed g g') ∧
  (∃ res g', dfs_from s g = Some (res, g') ∧ only_scratch_changed g g') ∧
  (∃ res g', bfs s g = Some (res, g') ∧ only_scratch_changed g g') ∧
  (∃ b g', isDAG g = Some (b, g') ∧ only_scratch_changed g g') ∧
  (∃ res g', topsort g = Some (res, g') ∧ only_scratch_changed g g').
Proof.
  intros Hwf Hbound. split; [|split; [|split; [|split]]].
  - destruct (dfs_runs g Hwf) as (g' & resp & _ & Hrun & _ & _ & _ & Hstr).
    eexists _, g'. split; [done|]. by apply structure_only_scratch.
  - destruct (dfs_from_runs g s Hwf) as (res & g' & Hrun & Hstr).
    exists res, g'. split; [done|]. by apply structure_only_scratch.
  - destruct (findVertex s g) as [v|] eqn:Hf.
    + destruct (bfs_runs g s v Hwf Hf) as (g' & resL & _ & Hrun & _ & _ & _ & _ & _ & Hstr).
      eexists _, g'. split; [done|]. by apply structure_only_scratch.
    + exists [], g. split; [unfold bfs; by rewrite Hf|].
      by apply structure_only_scratch.
  - destruct (isDAG_spec g Hwf) as (b & g' & _ & Hrun & _ & _ & _ & Hstr).
    exists b, g'. split; [done|]. by apply structure_only_scratch.
  - destruct (topsort_spec g Hwf Hbound) as (res & g' & _ & Hrun & Hstr & _).
    exists res, g'. split; [done|]. by apply structure_only_scratch.
Qed.

Lemma traversals_only_scratch_witness :
  (∃ res g', dfs sample_graph = Some (res, g') ∧ only_scratch_changed sample_graph g') ∧
  (∃ res g', dfs_from 1 sample_graph = Some (res, g') ∧
             only_scratch_changed sample_graph g') ∧
  (∃ res g', bfs 1 sample_graph = Some (res, g') ∧
             only_scratch_changed sample_graph g') ∧
  (∃ b g', isDAG sample_graph = Some (b, g') ∧ only_scratch_changed sample_graph g') ∧
  (∃ res g', topsort sample_graph = Some (res, g') ∧
             only_scratch_changed sample_graph g').
Proof.
  apply (traversals_only_scratch sample_graph 1 sample_graph_wf). by vm_compute.
Defined.

(** * Disjoint sets and [kruskalMST] (C4) *)

Definition INT_MAX : Z := (2 ^ 31 - 1)%Z.

(** The largest [size_t], which bounds the [size()] of a [std::vector]. *)
Definition SIZE_MAX : Z := (2 ^ 64 - 1)%Z.

(** [class DisjointSets<T>]: the two hash maps [parent] and [rank]. *)
Record DisjointSets := mkDisjointSets {
  parent : gmap Z Z;
  rank : gmap Z Z
}.

(** [m[k]] of [std::unordered_map]: a key that is absent is first inserted
    with a value-initialised mapped value, which is [0] for [int]; the value
    at [k] and the map after the access. *)
Definition at_key (k : Z) (m : gmap Z Z) : Z * gmap Z Z :=
  match m !! k with
  | Some x => (x, m)
  | None => (0%Z, <[k := 0%Z]> m)
  end.

Definition makeSet (item : Z) (ds : DisjointSets) : DisjointSets :=
  mkDisjointSets (<[item := item]> (parent ds)) (<[item := 0%Z]> (rank ds)).

(** [findSet(item)] with path compression.  The recursion follows [parent]
    and has no bound of its own: [fuel] bounds its depth.  The callee's
    [item] is a reference to the caller's slot [parent[item]]; that slot is
    assigned only after the callee has returned, so the callee reads one
    value through it. *)
Fixpoint findSet (fuel : nat) (item : Z) (ds : DisjointSets) : option (Z * DisjointSets) :=
  match fuel with
  | O => None
  | S fuel' =>
      let (p, par1) := at_key item (parent ds) in
      if decide (p ≠ item) then
        match findSet fuel' p (mkDisjointSets par1 (rank ds)) with
        | Some (r, ds2) => Some (r, mkDisjointSets (<[item := r]> (parent ds2)) (rank ds2))
        | None => None
        end
      else Some (p, mkDisjointSets par1 (rank ds))
  end.

(** [unionSets(set1, set2)]: union by rank.  [rank[root1]++] on an [int]
    that holds [INT_MAX] is undefined. *)
Definition unionSets (fuel : nat) (set1 set2 : Z) (ds : DisjointSets) : option DisjointSets :=
  match findSet fuel set1 ds with
  | Some (root1, ds1) =>
      match findSet fuel set2 ds1 with
      | Some (root2, ds2) =>
          if decide (root1 ≠ root2) then
            let (r1, rk1) := at_key root1 (rank ds2) in
            let (r2, rk2) := at_key root2 rk1 in
            if decide (r1 > r2)%Z then
              Some (mkDisjointSets (<[root2 := root1]> (parent ds2)) rk2)
            else if decide (r1 < r2)%Z then
              Some (mkDisjointSets (<[root1 := root2]> (parent ds2)) rk2)
            else if decide (r1 < INT_MAX)%Z then
              Some (mkDisjointSets (<[root2 := root1]> (parent ds2))
                                   (<[root1 := (r1 + 1)%Z]> rk2))
            else None
          else Some ds2
      | None => None
      end
  | None => None
  end.

(** The comparator that [kruskalMST] hands to [std::sort].  It reads the
    keys of the origins through [key_of]; an edge whose ends are not
    allocated stops the sweep below. *)
Definition kruskal_less (g : Graph) (source : Z) (a b : Edge) : bool :=
  let ka := bool_decide (key_of g (orig a) = source) in
  let kb := bool_decide (key_of g (orig b) = source) in
  if ka && negb kb then true
  else if negb ka && kb then false
  else PrimFloat.ltb (weight a) (weight b).

(** One round of the first loop: the key of [v] is pushed, then a copy
    [*e] of every edge of [adj]. *)
Definition kruskal_collect (g : Graph) (st : list Edge * list Z) (v : vptr)
    : option (list Edge * list Z) :=
  match vheap g !! v with
  | Some vv =>
      match mapM (λ e, eheap g !! e) (adj vv) with
      | Some es => Some (st.1 ++ es, st.2 ++ [info vv])
      | None => None
      end
  | None => None
  end.

(** One round of the sweep over the sorted edges.  Of the two operands of
    [!=] the left one is taken first. *)
Definition kruskal_sweep (g : Graph) (fuel : nat) (st : list Edge * DisjointSets) (e : Edge)
    : option (list Edge * DisjointSets) :=
  match vheap g !! orig e, vheap g !! dest e with
  | Some uo, Some vd =>
      let u := info uo in
      let v := info vd in
      match findSet fuel u st.2 with
      | Some (ru, ds1) =>
          match findSet fuel v ds1 with
          | Some (rv, ds2) =>
              if decide (ru ≠ rv) then
                match unionSets fuel u v ds2 with
                | Some ds3 => Some (st.1 ++ [e], ds3)
                | None => None
                end
              else Some (st.1, ds2)
          | None => None
          end
      | None => None
      end
  | _, _ => None
  end.

(** One round of the last loop; [||] reads the destination's set only when
    the origin's set is not [sourceComponent]. *)
Definition kruskal_keep (g : Graph) (fuel : nat) (sourceComponent : Z)
    (st : list Edge * DisjointSets) (e : Edge) : option (list Edge * DisjointSets) :=
  match vheap g !! orig e with
  | Some uo =>
      match findSet fuel (info uo) st.2 with
      | Some (ro, ds1) =>
          if decide (ro = sourceComponent) then Some (st.1 ++ [e], ds1)
          else
            match vheap g !! dest e with
            | Some vd =>
                match findSet fuel (info vd) ds1 with
                | Some (rd, ds2) =>
                    if decide (rd = sourceComponent) then Some (st.1 ++ [e], ds2)
                    else Some (st.1, ds2)
                | None => None
                end
            | None => None
            end
      | None => None
      end
  | None => None
  end.

(** [std::sort] requires its comparator to be a strict weak ordering of the
    elements of the range, and a call with another comparator is undefined.
    The test of the requirement on the elements of [l]: no element is less
    than itself, [less] is transitive, and so is the equivalence of
    elements neither of which is less than the other. *)
Definition strict_weak_orderb {A} (less : A → A → bool) (l : list A) : bool :=
  forallb (λ a, negb (less a a)) l &&
  forallb (λ a, forallb (λ b, forallb (λ c,
    implb (less a b && less b c) (less a c) &&
    implb (negb (less a b) && negb (less b a) && negb (less b c) && negb (less c b))
          (negb (less a c) && negb (less c a))) l) l) l.

(** [kruskalMST(source)], with the library routine [std::sort] as a
    parameter.  The call of [std::sort] is undefined when the comparator is
    not a strict weak ordering of the edges, as with a weight that is NaN
    among weights that differ.  The recursion of [findSet] is given as many
    rounds as there are vertices. *)
Definition kruskalMST (std_sort : (Edge → Edge → bool) → list Edge → list Edge)
    (source : Z) (g : Graph) : option (list Edge) :=
  match foldM (kruskal_collect g) ([], []) (vertexSet g) with
  | Some (edges, vertices) =>
      if strict_weak_orderb (kruskal_less g source) edges then
        let sorted := std_sort (kruskal_less g source) edges in
        let ds := foldl (λ ds v, makeSet v ds) (mkDisjointSets ∅ ∅) vertices in
        let fuel := length vertices in
        match foldM (kruskal_sweep g fuel) ([], ds) sorted with
        | Some (mst, ds1) =>
            if decide (source ∈ vertices) then
              match findSet fuel source ds1 with
              | Some (sourceComponent, ds2) =>
                  match foldM (kruskal_keep g fuel sourceComponent) ([], ds2) mst with
                  | Some (result, _) => Some result
                  | None => None
                  end
              | None => None
              end
            else Some []
        | None => None
        end
      else None
  | None => None
  end.

(** An insertion sort, one routine that meets the contract of [std::sort]. *)
Fixpoint insert_by {A} (less : A → A → bool) (x : A) (l : list A) : list A :=
  match l with
  | [] => [x]
  | y :: l' => if less x y then x :: y :: l' else y :: insert_by less x l'
  end.

Definition insertion_sort {A} (less : A → A → bool) (l : list A) : list A :=
  foldr (insert_by less) [] l.

(** Scenario S6: keys 1, 2, 3 with the undirected edges 1–2 (1), 2–3 (2)
    and 1–3 (3). *)
Definition triangle_ops : list mutation :=
  [AddVertex 1; AddVertex 2; AddVertex 3;
   AddBidirectionalEdge 1 2 1%float; AddBidirectionalEdge 2 3 2%float;
   AddBidirectionalEdge 1 3 3%float].
Definition triangle_graph : Graph := default empty_graph (run triangle_ops empty_graph).

(** ** The union-find invariant *)

(** The values that [parent[x]] and [rank[x]] read. *)
Definition par (ds : DisjointSets) (x : Z) : Z := default 0%Z (parent ds !! x).
Definition rk (ds : DisjointSets) (x : Z) : Z := default 0%Z (rank ds !! x).

(** The keys that represent themselves, and the keys of the set of [r]. *)
Definition roots (K : list Z) (rep : Z → Z) : list Z := filter (λ x, rep x = x) K.
Definition members (K : list Z) (rep : Z → Z) (r : Z) : list Z :=
  filter (λ x, rep x = r) K.

(** [ds] holds the partition of the keys [K] whose representatives are
    given by [rep]: [parent] leads every key to its representative, along
    strictly growing ranks, and a set whose representative has rank [r] has
    at least [2^r] keys. *)
Record uf_models (K : list Z) (rep : Z → Z) (ds : DisjointSets) : Prop := {
  um_parent_dom : ∀ x, x ∈ K ↔ is_Some (parent ds !! x);
  um_rank_dom : ∀ x, x ∈ K ↔ is_Some (rank ds !! x);
  um_parent_in : ∀ x, x ∈ K → par ds x ∈ K;
  um_rep_in : ∀ x, x ∈ K → rep x ∈ K;
  um_rep_root : ∀ x, x ∈ K → par ds (rep x) = rep x;
  um_rep_parent : ∀ x, x ∈ K → rep (par ds x) = rep x;
  um_root_rep : ∀ x, x ∈ K → par ds x = x → rep x = x;
  um_rank_strict : ∀ x, x ∈ K → par ds x ≠ x → (rk ds x < rk ds (par ds x))%Z;
  um_rank_rep : ∀ x, x ∈ K → (rk ds x ≤ rk ds (rep x))%Z;
  um_rank_nonneg : ∀ x, x ∈ K → (0 ≤ rk ds x)%Z;
  um_rank_size : ∀ x, x ∈ K → rep x = x →
    (2 ^ rk ds x ≤ Z.of_nat (length (members K rep x)))%Z
}.

Lemma at_key_Some k m x : m !! k = Some x → at_key k m = (x, m).
Proof. intros H. unfold at_key. by rewrite H. Qed.

Lemma at_key_parent K rep ds x :
  uf_models K rep ds → x ∈ K → at_key x (parent ds) = (par ds x, parent ds).
Proof.
  intros Hm Hx. apply (um_parent_dom _ _ _ Hm) in Hx as [p Hp].
  unfold par. rewrite Hp. by apply at_key_Some.
Qed.

Lemma at_key_rank K rep ds x :
  uf_models K rep ds → x ∈ K → at_key x (rank ds) = (rk ds x, rank ds).
Proof.
  intros Hm Hx. apply (um_rank_dom _ _ _ Hm) in Hx as [p Hp].
  unfold rk. rewrite Hp. by apply at_key_Some.
Qed.

Lemma rep_idem K rep ds x : uf_models K rep ds → x ∈ K → rep (rep x) = rep x.
Proof.
  intros Hm Hx. apply (um_root_rep _ _ _ Hm).
  - by apply (um_rep_in _ _ _ Hm).
  - by apply (um_rep_root _ _ _ Hm).
Qed.

Lemma rep_in_roots K rep ds x : uf_models K rep ds → x ∈ K → rep x ∈ roots K rep.
Proof.
  intros Hm Hx. apply list_elem_of_filter. split.
  - by eapply rep_idem.
  - by apply (um_rep_in _ _ _ Hm).
Qed.

Lemma par_insert ds x r rks y :
  par (mkDisjointSets (<[x := r]> (parent ds)) rks) y =
  if decide (y = x) then r else par ds y.
Proof.
  unfold par. simpl. case_decide as E.
  - subst y. by rewrite lookup_insert_eq.
  - by rewrite lookup_insert_ne.
Qed.

(** The rank of a key is at most the binary logarithm of the number of
    keys, and the recursion of [findSet] is less deep than there are keys. *)
Lemma rank_log K rep ds x :
  uf_models K rep ds → x ∈ K → (0 ≤ rk ds x ∧ 2 ^ rk ds x ≤ Z.of_nat (length K))%Z.
Proof.
  intros Hm Hx. pose proof (um_rank_nonneg _ _ _ Hm x Hx) as H0. split; [done|].
  pose proof (um_rank_rep _ _ _ Hm x Hx) as Hle.
  pose proof (um_rank_size _ _ _ Hm (rep x) (um_rep_in _ _ _ Hm x Hx)
                (rep_idem K rep ds x Hm Hx)) as Hsz.
  pose proof (length_filter (λ y, rep y = rep x) K) as Hlen. fold (members K rep (rep x)) in Hlen.
  pose proof (Z.pow_le_mono_r 2 _ _ ltac:(lia) Hle). lia.
Qed.

Lemma findSet_depth K rep ds x :
  uf_models K rep ds → x ∈ K →
  (rk ds (rep x) - rk ds x < Z.of_nat (length K))%Z.
Proof.
  intros Hm Hx. pose proof (um_rank_nonneg _ _ _ Hm x Hx).
  destruct (rank_log K rep ds (rep x) Hm (um_rep_in _ _ _ Hm x Hx)) as [H0 Hp].
  pose proof (Z.pow_gt_lin_r 2 (rk ds (rep x)) ltac:(lia) H0). lia.
Qed.

(** Path compression keeps the partition. *)
Lemma uf_models_compress K rep ds x :
  uf_models K rep ds → x ∈ K →
  uf_models K rep (mkDisjointSets (<[x := rep x]> (parent ds)) (rank ds)).
Proof.
  intros Hm Hx.
  assert (Hrk : ∀ y, rk (mkDisjointSets (<[x := rep x]> (parent ds)) (rank ds)) y = rk ds y)
    by done.
  split; try (intros y; rewrite ?Hrk, ?par_insert); simpl.
  - rewrite lookup_insert. case_decide as E.
    + subst y. split; [by eauto|done].
    + apply (um_parent_dom _ _ _ Hm).
  - apply (um_rank_dom _ _ _ Hm).
  - intros Hy. case_decide; [by apply (um_rep_in _ _ _ Hm)|by apply (um_parent_in _ _ _ Hm)].
  - apply (um_rep_in _ _ _ Hm).
  - intros Hy. case_decide as E.
    + rewrite <- E. by eapply rep_idem.
    + by apply (um_rep_root _ _ _ Hm).
  - intros Hy. case_decide as E.
    + subst y. by eapply rep_idem.
    + by apply (um_rep_parent _ _ _ Hm).
  - intros Hy. case_decide as E.
    + by subst y.
    + by apply (um_root_rep _ _ _ Hm).
  - intros Hy. case_decide as E.
    + subst y. intros Hne.
      assert (par ds x ≠ x) as Hp.
      { intros Hp. by apply (um_root_rep _ _ _ Hm) in Hp. }
      pose proof (um_rank_strict _ _ _ Hm x Hx Hp).
      pose proof (um_rank_rep _ _ _ Hm (par ds x) (um_parent_in _ _ _ Hm x Hx)) as Hle.
      rewrite (um_rep_parent _ _ _ Hm x Hx) in Hle. lia.
    + by apply (um_rank_strict _ _ _ Hm).
  - apply (um_rank_rep _ _ _ Hm).
  - apply (um_rank_nonneg _ _ _ Hm).
  - apply (um_rank_size _ _ _ Hm).
Qed.

(** [findSet] returns the representative and keeps the partition, when its
    recursion is given enough rounds. *)
Lemma findSet_spec K rep fuel : ∀ x ds,
  uf_models K rep ds → x ∈ K →
  (rk ds (rep x) - rk ds x < Z.of_nat fuel)%Z →
  ∃ ds', findSet fuel x ds = Some (rep x, ds') ∧ uf_models K rep ds' ∧
         rank ds' = rank ds.
Proof.
  induction fuel as [|fuel IH]; intros x ds Hm Hx Hfuel.
  - pose proof (um_rank_rep _ _ _ Hm x Hx). lia.
  - simpl. rewrite (at_key_parent K rep ds x Hm Hx).
    assert (mkDisjointSets (parent ds) (rank ds) = ds) as -> by by destruct ds.
    case_decide as Hp.
    + pose proof (um_rank_strict _ _ _ Hm x Hx Hp).
      destruct (IH (par ds x) ds Hm) as (ds2 & -> & Hm2 & Hrk2).
      { by apply (um_parent_in _ _ _ Hm). }
      { rewrite (um_rep_parent _ _ _ Hm x Hx). lia. }
      rewrite (um_rep_parent _ _ _ Hm x Hx). eexists. split; [done|].
      split; [by apply uf_models_compress|done].
    + rewrite (um_root_rep _ _ _ Hm x Hx Hp), Hp. eauto.
Qed.

Lemma findSet_models K rep ds x :
  uf_models K rep ds → x ∈ K →
  ∃ ds', findSet (length K) x ds = Some (rep x, ds') ∧ uf_models K rep ds' ∧
         rank ds' = rank ds.
Proof. intros Hm Hx. apply findSet_spec; [done..|by eapply findSet_depth]. Qed.

Lemma filter_without {A} (P Q : A → Prop) `{!∀ x, Decision (P x)} `{!∀ x, Decision (Q x)}
    (l : list A) (b : A) :
  b ∉ l → (∀ x, Q x ↔ P x ∧ x ≠ b) → filter Q l = filter P l.
Proof.
  intros Hb HQ. induction l as [|a l IH]; [done|].
  apply not_elem_of_cons in Hb as [Hab Hb].
  destruct (decide (P a)) as [Ha|Ha].
  - rewrite (filter_cons_True P), (filter_cons_True Q); [|by apply HQ|done].
    by rewrite IH.
  - rewrite (filter_cons_False P), (filter_cons_False Q); [by apply IH| |done].
    rewrite HQ. tauto.
Qed.

Lemma filter_drop_one {A} (P Q : A → Prop) `{!∀ x, Decision (P x)} `{!∀ x, Decision (Q x)}
    (l : list A) (b : A) :
  NoDup l → b ∈ l → P b → (∀ x, Q x ↔ P x ∧ x ≠ b) →
  length (filter Q l) + 1 = length (filter P l).
Proof.
  intros Hnd Hb HPb HQ. induction Hnd as [|a l Ha Hnd IH]; [by apply elem_of_nil in Hb|].
  apply elem_of_cons in Hb as [->|Hb].
  - rewrite (filter_cons_True P), (filter_cons_False Q); [|rewrite HQ; tauto|done].
    rewrite (filter_without P Q l a Ha HQ). simpl. lia.
  - assert (a ≠ b) as Hab by (by intros ->).
    destruct (decide (P a)) as [HPa|HPa].
    + rewrite (filter_cons_True P), (filter_cons_True Q); [|by apply HQ|done].
      simpl. rewrite <- (IH Hb). lia.
    + rewrite (filter_cons_False P), (filter_cons_False Q); [by apply IH| |done].
      rewrite HQ. tauto.
Qed.

Lemma filter_split {A} (P Q R : A → Prop) `{!∀ x, Decision (P x)}
    `{!∀ x, Decision (Q x)} `{!∀ x, Decision (R x)} (l : list A) :
  (∀ x, R x ↔ P x ∨ Q x) → (∀ x, P x → Q x → False) →
  length (filter R l) = length (filter P l) + length (filter Q l).
Proof.
  intros HR Hdisj. induction l as [|a l IH]; [done|].
  destruct (decide (P a)) as [HP|HP], (decide (Q a)) as [HQ|HQ].
  - destruct (Hdisj a HP HQ).
  - rewrite (filter_cons_True P), (filter_cons_False Q), (filter_cons_True R);
      [|apply HR; tauto|done..]. simpl. lia.
  - rewrite (filter_cons_False P), (filter_cons_True Q), (filter_cons_True R);
      [|apply HR; tauto|done..]. simpl. lia.
  - rewrite (filter_cons_False P), (filter_cons_False Q), (filter_cons_False R);
      [done|rewrite HR; tauto|done..].
Qed.

(** The representatives after the set of the root [b] has been hung below
    the root [a]. *)
Definition relink (rep : Z → Z) (a b : Z) (x : Z) : Z :=
  if decide (rep x = b) then a else rep x.

(** Linking two different roots keeps the invariant and leaves one root
    less; the rank of the upper root grows by one when the two ranks were
    equal. *)
Lemma uf_models_link K rep ds ds' a b :
  uf_models K rep ds → NoDup K → a ∈ K → b ∈ K → rep a = a → rep b = b → a ≠ b →
  parent ds' = <[b := a]> (parent ds) →
  (∀ x, is_Some (rank ds' !! x) ↔ is_Some (rank ds !! x)) →
  (∀ x, x ≠ a → rk ds' x = rk ds x) →
  (rk ds b < rk ds' a)%Z →
  (rk ds' a = rk ds a ∨ rk ds a = rk ds b ∧ rk ds' a = rk ds a + 1)%Z →
  uf_models K (relink rep a b) ds' ∧
  length (roots K (relink rep a b)) + 1 = length (roots K rep).
Proof.
  intros Hm Hnd Ha Hb Hra Hrb Hab Hpar Hdom Hrk Hlt Hle.
  assert (Hp : ∀ y, par ds' y = if decide (y = b) then a else par ds y).
  { intros y. destruct ds' as [p' r']. simpl in Hpar. subst p'. apply par_insert. }
  assert (Hpa : par ds a = a).
  { rewrite <- Hra at 1 2. by apply (um_rep_root _ _ _ Hm). }
  assert (Hmono : ∀ y, (rk ds y ≤ rk ds' y)%Z).
  { intros y. destruct (decide (y = a)) as [->|E]; [lia|]. rewrite Hrk by done. lia. }
  assert (Hcount : length (roots K (relink rep a b)) + 1 = length (roots K rep)).
  { apply (filter_drop_one (λ x, rep x = x) (λ x, relink rep a b x = x) K b); [done..|].
    intros x. unfold relink. case_decide as E; split.
    - intros <-. congruence.
    - intros [Hx Hne]. congruence.
    - intros Hx. split; congruence.
    - by intros [Hx _]. }
  split; [|done]. split; intros y; rewrite ?Hp; [unfold relink..|].
  - rewrite Hpar, lookup_insert. case_decide as E.
    + subst y. split; [by eauto|done].
    + apply (um_parent_dom _ _ _ Hm).
  - rewrite Hdom. apply (um_rank_dom _ _ _ Hm).
  - intros Hy. case_decide; [done|by apply (um_parent_in _ _ _ Hm)].
  - intros Hy. case_decide; [done|by apply (um_rep_in _ _ _ Hm)].
  - intros Hy. destruct (decide (rep y = b)) as [E|E].
    + by rewrite decide_False.
    + rewrite decide_False by done. by apply (um_rep_root _ _ _ Hm).
  - intros Hy. destruct (decide (y = b)) as [->|E].
    + rewrite Hra, Hrb. by rewrite decide_False, decide_True.
    + by rewrite (um_rep_parent _ _ _ Hm y Hy).
  - intros Hy. destruct (decide (y = b)) as [->|E]; [congruence|]. intros Hpy.
    rewrite (um_root_rep _ _ _ Hm y Hy Hpy). by rewrite decide_False.
  - intros Hy. destruct (decide (y = b)) as [->|E].
    + intros _. rewrite Hrk by done. done.
    + intros Hpy. destruct (decide (y = a)) as [->|Eya]; [congruence|].
      rewrite (Hrk y Eya). pose proof (um_rank_strict _ _ _ Hm y Hy Hpy).
      pose proof (Hmono (par ds y)). lia.
  - intros Hy. pose proof (um_rank_rep _ _ _ Hm y Hy) as Hr.
    destruct (decide (rep y = b)) as [E|E].
    + destruct (decide (y = a)) as [->|Eya]; [congruence|].
      rewrite (Hrk y Eya). rewrite E in Hr. lia.
    + destruct (decide (y = a)) as [->|Eya]; [by rewrite Hra|].
      rewrite (Hrk y Eya). pose proof (Hmono (rep y)). lia.
  - intros Hy. pose proof (um_rank_nonneg _ _ _ Hm y Hy). pose proof (Hmono y). lia.
  - intros Hy Hroot. unfold members.
    destruct (decide (y = a)) as [->|Eya].
    + rewrite (filter_split (λ x, rep x = a) (λ x, rep x = b) (λ x, relink rep a b x = a));
        [| |congruence].
      * pose proof (um_rank_size _ _ _ Hm a Ha Hra) as Hsa.
        pose proof (um_rank_size _ _ _ Hm b Hb Hrb) as Hsb.
        pose proof (um_rank_nonneg _ _ _ Hm a Ha) as H0.
        unfold members in Hsa, Hsb. destruct Hle as [->|[Heq ->]]; [lia|].
        rewrite Z.pow_add_r by lia. rewrite <- Heq in Hsb. lia.
      * intros x. unfold relink. case_decide; [tauto|]. split; [by left|].
        intros [?|?]; congruence.
    + assert (rep y = y ∧ rep y ≠ b) as [Hry Hyb].
      { unfold relink in Hroot. case_decide; [congruence|done]. }
      rewrite (Hrk y Eya).
      rewrite (list_filter_iff _ (λ x, rep x = y)); [by apply (um_rank_size _ _ _ Hm)|].
      intros x. unfold relink. case_decide; split; congruence.
Qed.

Lemma rank_small K rep ds x :
  uf_models K rep ds → x ∈ K → (Z.of_nat (length K) ≤ SIZE_MAX)%Z → (rk ds x < 64)%Z.
Proof.
  intros Hm Hx Hmax. destruct (rank_log K rep ds x Hm Hx) as [H0 Hp].
  apply (Z.pow_lt_mono_r_iff 2); [lia..|]. unfold SIZE_MAX in Hmax. lia.
Qed.

(** [unionSets] on keys of two different sets: the two sets are merged and
    the others stay.  The ranks stay below 64, so [rank[root1]++] does not
    overflow. *)
Lemma unionSets_spec K rep ds u v :
  uf_models K rep ds → NoDup K → u ∈ K → v ∈ K → rep u ≠ rep v →
  (Z.of_nat (length K) ≤ SIZE_MAX)%Z →
  ∃ ds' a b, unionSets (length K) u v ds = Some ds' ∧
    ((a = rep u ∧ b = rep v) ∨ (a = rep v ∧ b = rep u)) ∧
    uf_models K (relink rep a b) ds' ∧
    length (roots K (relink rep a b)) + 1 = length (roots K rep).
Proof.
  intros Hm Hnd Hu Hv Hne Hmax. unfold unionSets.
  destruct (findSet_models K rep ds u Hm Hu) as (ds1 & -> & Hm1 & _).
  destruct (findSet_models K rep ds1 v Hm1 Hv) as (ds2 & -> & Hm2 & _).
  rewrite decide_True by done.
  pose proof (um_rep_in _ _ _ Hm2 u Hu) as Hru.
  pose proof (um_rep_in _ _ _ Hm2 v Hv) as Hrv.
  rewrite (at_key_rank K rep ds2 _ Hm2 Hru), (at_key_rank K rep ds2 _ Hm2 Hrv).
  pose proof (rep_idem K rep ds2 u Hm2 Hu) as Hiu.
  pose proof (rep_idem K rep ds2 v Hm2 Hv) as Hiv.
  pose proof (rank_small K rep ds2 _ Hm2 Hru Hmax) as Hbu.
  repeat case_decide.
  - eexists _, (rep u), (rep v). split; [done|]. split; [by left|].
    apply (uf_models_link K rep ds2); try done; unfold rk in *; simpl; lia.
  - eexists _, (rep v), (rep u). split; [done|]. split; [by right|].
    apply (uf_models_link K rep ds2); try done; unfold rk in *; simpl; lia.
  - eexists _, (rep u), (rep v). split; [done|]. split; [by left|].
    apply (uf_models_link K rep ds2); try done; simpl.
    + intros x. rewrite lookup_insert. case_decide as E; [|done].
      subst x. split; [intros _|by eauto]. by apply (um_rank_dom _ _ _ Hm2).
    + intros x Hx. unfold rk. simpl. by rewrite lookup_insert_ne.
    + unfold rk in *. simpl. rewrite lookup_insert_eq. simpl. lia.
    + unfold rk in *. simpl. rewrite lookup_insert_eq. simpl. lia.
  - unfold INT_MAX in *. lia.
Qed.

(** ** The sweep of [kruskalMST] *)

(** The copies [*e] that the first loop of [kruskalMST] pushes, in order. *)
Definition edge_copies (g : Graph) : list Edge :=
  vertexSet g ≫= λ v, omap (λ e, eheap g !! e) (adj_of g v).

(** Keys that are joined by edges of [es], each usable in both directions. *)
Definition joined (g : Graph) (es : list Edge) : relation Z :=
  rtsc (λ a b, ∃ e, e ∈ es ∧ key_of g (orig e) = a ∧ key_of g (dest e) = b).

(** Every two keys of the graph are joined by its edges. *)
Definition connected (g : Graph) : Prop :=
  ∀ u v, u ∈ keys g → v ∈ keys g → rtsc (has_edge g) u v.

Lemma mapM_omap {A B} (f : A → option B) (l : list A) :
  Forall (λ x, is_Some (f x)) l → mapM f l = Some (omap f l).
Proof.
  induction 1 as [|x l [y Hy] _ IH]; [done|].
  simpl. rewrite Hy. simpl. by rewrite IH.
Qed.

Lemma kruskal_collect_loop g : wf g → ∀ l st,
  (∀ v, v ∈ l → v ∈ vertexSet g) →
  foldM (kruskal_collect g) st l =
  Some (st.1 ++ (l ≫= λ v, omap (λ e, eheap g !! e) (adj_of g v)),
        st.2 ++ (key_of g <$> l)).
Proof.
  intros Hwf. induction l as [|v l IH]; intros [es ks] Hsub; simpl.
  - by rewrite !app_nil_r.
  - destruct (proj1 (wf_alloc g Hwf v)) as [vv Hv]; [apply Hsub; by left|].
    unfold kruskal_collect at 1. rewrite Hv.
    rewrite mapM_omap.
    + rewrite IH by (intros w Hw; apply Hsub; by right). simpl.
      unfold adj_of at 2, key_of at 2. rewrite Hv.
      by rewrite <- !app_assoc.
    + apply Forall_forall. intros e He.
      destruct (wf_adj g Hwf v vv e Hv He) as (ed & -> & _). by eexists.
Qed.

Lemma kruskal_collect_all g :
  wf g → foldM (kruskal_collect g) ([], []) (vertexSet g) = Some (edge_copies g, keys g).
Proof. intros Hwf. by rewrite (kruskal_collect_loop g Hwf). Qed.

(** The copies are the edge objects of the store. *)
Lemma edge_copies_spec g ed :
  wf g → ed ∈ edge_copies g ↔ ∃ p, eheap g !! p = Some ed.
Proof.
  intros Hwf. unfold edge_copies. rewrite list_elem_of_bind. split.
  - intros (v & Hed & _). apply list_elem_of_omap in Hed as (p & _ & Hp). eauto.
  - intros (p & Hp). destruct (wf_edge g Hwf p ed Hp) as (vo & vd & Hvo & _ & Hadj & _).
    exists (orig ed). split.
    + apply list_elem_of_omap. exists p. split; [|done].
      unfold adj_of. by rewrite Hvo.
    + apply (wf_alloc g Hwf). by eexists.
Qed.

(** The ends of an edge object of the store are vertices of the graph. *)
Lemma edge_ends g p ed :
  wf g → eheap g !! p = Some ed →
  ∃ vo vd, vheap g !! orig ed = Some vo ∧ vheap g !! dest ed = Some vd ∧
           info vo = key_of g (orig ed) ∧ info vd = key_of g (dest ed) ∧
           key_of g (orig ed) ∈ keys g ∧ key_of g (dest ed) ∈ keys g.
Proof.
  intros Hwf Hp. destruct (wf_edge g Hwf p ed Hp) as (vo & vd & Hvo & Hvd & _).
  exists vo, vd. rewrite (key_of_lookup _ _ _ Hvo), (key_of_lookup _ _ _ Hvd).
  do 4 (split; [done|]).
  rewrite <- (key_of_lookup _ _ _ Hvo), <- (key_of_lookup _ _ _ Hvd).
  split; apply list_elem_of_fmap_2, (wf_alloc g Hwf); by eexists.
Qed.

Lemma joined_mono g es es' x y :
  (∀ e, e ∈ es → e ∈ es') → joined g es x y → joined g es' x y.
Proof.
  intros Hsub. unfold joined, rtsc. apply rtc_subrel.
  intros a b [(e & He & Ha & Hb)|(e & He & Ha & Hb)]; [left|right]; exists e; eauto.
Qed.

Lemma joined_edge g es e :
  e ∈ es → joined g es (key_of g (orig e)) (key_of g (dest e)).
Proof. intros He. apply rtsc_lr. by exists e. Qed.

(** Keys that are joined by edges inside the sets of a partition lie in
    one set. *)
Lemma joined_rep g es (rep : Z → Z) x y :
  (∀ e, e ∈ es → rep (key_of g (orig e)) = rep (key_of g (dest e))) →
  joined g es x y → rep x = rep y.
Proof.
  intros Hes. induction 1 as [|a b c Hab _ IH]; [done|].
  rewrite <- IH. destruct Hab as [(e & He & <- & <-)|(e & He & <- & <-)].
  - by apply Hes.
  - symmetry. by apply Hes.
Qed.

Lemma makeSet_all_parent l : ∀ ds x,
  parent (foldl (λ ds v, makeSet v ds) ds l) !! x =
  if decide (x ∈ l) then Some x else parent ds !! x.
Proof.
  induction l as [|a l IH]; intros ds x; simpl; [done|].
  rewrite IH. destruct (decide (x ∈ l)) as [Hx|Hx].
  - rewrite decide_True; [done|by right].
  - simpl. rewrite lookup_insert. destruct (decide (a = x)) as [->|Hne].
    + rewrite decide_True; [done|by left].
    + rewrite decide_False; [done|]. intros [?|?]%elem_of_cons; congruence.
Qed.

Lemma makeSet_all_rank l : ∀ ds x,
  rank (foldl (λ ds v, makeSet v ds) ds l) !! x =
  if decide (x ∈ l) then Some 0%Z else rank ds !! x.
Proof.
  induction l as [|a l IH]; intros ds x; simpl; [done|].
  rewrite IH. destruct (decide (x ∈ l)) as [Hx|Hx].
  - rewrite decide_True; [done|by right].
  - simpl. rewrite lookup_insert. destruct (decide (a = x)) as [->|Hne].
    + rewrite decide_True; [done|by left].
    + rewrite decide_False; [done|]. intros [?|?]%elem_of_cons; congruence.
Qed.

Lemma roots_id K : roots K id = K.
Proof.
  unfold roots. induction K as [|a K IH]; [done|].
  rewrite filter_cons_True by done. by rewrite IH.
Qed.

(** After the [makeSet] loop every key is alone in its set. *)
Lemma uf_models_init K :
  uf_models K id (foldl (λ ds v, makeSet v ds) (mkDisjointSets ∅ ∅) K).
Proof.
  set (ds := foldl _ _ K).
  assert (Hp : ∀ x, x ∈ K → par ds x = x).
  { intros x Hx. unfold par, ds. rewrite makeSet_all_parent. by rewrite decide_True. }
  assert (Hr : ∀ x, rk ds x = 0%Z).
  { intros x. unfold rk, ds. rewrite makeSet_all_rank. by case_decide. }
  split; intros x; rewrite ?Hr; unfold id; try (intros Hx; by rewrite ?Hp by done).
  - unfold ds. rewrite makeSet_all_parent. case_decide; [by split; eauto|].
    simpl. rewrite lookup_empty. split; [done|]. by intros [? ?].
  - unfold ds. rewrite makeSet_all_rank. case_decide; [by split; eauto|].
    simpl. rewrite lookup_empty. split; [done|]. by intros [? ?].
  - intros Hx _. assert (x ∈ members K (λ y, y) x) as Hin by by apply list_elem_of_filter.
    destruct (members K (λ y, y) x); [by apply elem_of_nil in Hin|]. simpl. lia.
Qed.

(** A loop over [l] whose body keeps an invariant of the rounds done. *)
Lemma foldM_inv {S A} (f : S → A → option S) (I : list A → S → Prop) (P : A → Prop) :
  (∀ done s a, I done s → P a → ∃ s', f s a = Some s' ∧ I (done ++ [a]) s') →
  ∀ l done s, Forall P l → I done s →
  ∃ s', foldM f s l = Some s' ∧ I (done ++ l) s'.
Proof.
  intros Hstep. induction l as [|a l IH]; intros done s HP HI; simpl.
  - rewrite app_nil_r. eauto.
  - apply Forall_cons in HP as [Ha HP].
    destruct (Hstep done s a HI Ha) as (s' & -> & HI').
    destruct (IH (done ++ [a]) s' HP HI') as (s'' & Hrun & HI'').
    rewrite <- app_assoc in HI''. eauto.
Qed.

(** The state of the sweep after the edges [done]: the sets of [ds] are
    the sets of keys joined by the edges chosen so far, every edge swept
    lies inside a set, and no chosen edge joined keys that earlier chosen
    edges had joined. *)
Definition sweep_inv (g : Graph) (rep : Z → Z) (done : list Edge)
    (st : list Edge * DisjointSets) : Prop :=
  uf_models (keys g) rep st.2 ∧
  length st.1 + length (roots (keys g) rep) = length (keys g) ∧
  st.1 `sublist_of` done ∧
  (∀ e, e ∈ done → rep (key_of g (orig e)) = rep (key_of g (dest e))) ∧
  (∀ x, x ∈ keys g → joined g st.1 x (rep x)) ∧
  (∀ l1 e l2, st.1 = l1 ++ e :: l2 →
     ¬ joined g l1 (key_of g (orig e)) (key_of g (dest e))).

Lemma kruskal_sweep_step g done st e :
  wf g → (Z.of_nat (length (keys g)) ≤ SIZE_MAX)%Z →
  (∃ rep, sweep_inv g rep done st) → (∃ p, eheap g !! p = Some e) →
  ∃ st', kruskal_sweep g (length (keys g)) st e = Some st' ∧
         ∃ rep', sweep_inv g rep' (done ++ [e]) st'.
Proof.
  intros Hwf Hmax (rep & Hm & Hcount & Hsub & Hdone & Hjoin & Hforest) (p & Hp).
  destruct st as [mst ds]. simpl in *.
  destruct (edge_ends g p e Hwf Hp) as (vo & vd & Hvo & Hvd & Hko & Hkd & Hu & Hv).
  unfold kruskal_sweep. rewrite Hvo, Hvd, Hko, Hkd. simpl.
  set (u := key_of g (orig e)) in *. set (v := key_of g (dest e)) in *.
  destruct (findSet_models _ rep ds u Hm Hu) as (ds1 & -> & Hm1 & _).
  destruct (findSet_models _ rep ds1 v Hm1 Hv) as (ds2 & -> & Hm2 & _).
  case_decide as Hne.
  - destruct (unionSets_spec _ rep ds2 u v Hm2 (wf_keys_nodup g Hwf) Hu Hv Hne Hmax)
      as (ds3 & a & b & -> & Hab & Hm3 & Hroots).
    eexists. split; [done|]. exists (relink rep a b). unfold sweep_inv. simpl.
    assert (Huv : joined g (mst ++ [e]) u v).
    { apply joined_edge, elem_of_app. right. by left. }
    assert (Hup : ∀ x y, joined g mst x y → joined g (mst ++ [e]) x y).
    { intros x y. apply joined_mono. intros e' He'. apply elem_of_app. by left. }
    assert (Hba : joined g (mst ++ [e]) b a).
    { destruct Hab as [[-> ->]|[-> ->]].
      - etrans; [symmetry; apply Hup, Hjoin, Hv|].
        etrans; [symmetry; apply Huv|]. by apply Hup, Hjoin.
      - etrans; [symmetry; apply Hup, Hjoin, Hu|].
        etrans; [apply Huv|]. by apply Hup, Hjoin. }
    split; [done|]. split; [rewrite length_app; simpl; lia|].
    split; [by apply sublist_app|]. split; [|split].
    + intros e' [He'|He']%elem_of_app.
      * unfold relink. by rewrite (Hdone e' He').
      * apply list_elem_of_singleton in He' as ->. fold u v. unfold relink.
        destruct Hab as [[-> ->]|[-> ->]]; repeat case_decide; congruence.
    + intros x Hx. unfold relink. case_decide as E.
      * etrans; [apply Hup, Hjoin, Hx|]. by rewrite E.
      * by apply Hup, Hjoin.
    + intros l1 e' l2 Heq. destruct l2 as [|z l2 _] using rev_ind.
      * apply app_inj_tail in Heq as [<- <-]. fold u v. intros Hj. apply Hne.
        apply (joined_rep g mst rep u v); [|done].
        intros e' He'. apply Hdone. by eapply elem_of_sublist.
      * rewrite app_comm_cons, app_assoc in Heq.
        apply app_inj_tail in Heq as [Heq _]. by eapply Hforest.
  - eexists. split; [done|]. exists rep. unfold sweep_inv. simpl.
    split; [done|]. split; [done|]. split; [by apply sublist_inserts_r|].
    split; [|done].
    intros e' [He'|He']%elem_of_app; [by apply Hdone|].
    apply list_elem_of_singleton in He' as ->. done.
Qed.

(** ** The contract of [std::sort] *)

(** [less] is a strict weak ordering of the elements of [l], which
    [std::sort] requires of its comparator. *)
Definition strict_weak_order {A} (less : A → A → bool) (l : list A) : Prop :=
  (∀ a, a ∈ l → less a a = false) ∧
  (∀ a b c, a ∈ l → b ∈ l → c ∈ l →
     less a b = true → less b c = true → less a c = true) ∧
  (∀ a b c, a ∈ l → b ∈ l → c ∈ l →
     less a b = false → less b a = false → less b c = false → less c b = false →
     less a c = false ∧ less c a = false).

(** No element is less than one that stands before it. *)
Definition sorted_by {A} (less : A → A → bool) (l : list A) : Prop :=
  StronglySorted (λ a b, less b a = false) l.

(** [strict_weak_orderb] tests [strict_weak_order]. *)
Lemma strict_weak_orderb_spec {A} (less : A → A → bool) (l : list A) :
  strict_weak_orderb less l = true ↔ strict_weak_order less l.
Proof.
  unfold strict_weak_orderb, strict_weak_order.
  rewrite andb_true_iff, !forallb_forall. split.
  - intros [Hirr Hall]. split; [|split].
    + intros a Ha%list_elem_of_In. apply negb_true_iff. by apply Hirr.
    + intros a b c Ha%list_elem_of_In Hb%list_elem_of_In Hc%list_elem_of_In Hab Hbc.
      specialize (Hall a Ha). rewrite forallb_forall in Hall.
      specialize (Hall b Hb). rewrite forallb_forall in Hall.
      specialize (Hall c Hc). rewrite Hab, Hbc in Hall. simpl in Hall.
      by destruct (less a c).
    + intros a b c Ha%list_elem_of_In Hb%list_elem_of_In Hc%list_elem_of_In H1 H2 H3 H4.
      specialize (Hall a Ha). rewrite forallb_forall in Hall.
      specialize (Hall b Hb). rewrite forallb_forall in Hall.
      specialize (Hall c Hc). rewrite H1, H2, H3, H4 in Hall. simpl in Hall.
      by destruct (less a c), (less c a).
  - intros (Hirr & Htr & Heq). split.
    + intros a Ha%list_elem_of_In. apply negb_true_iff. by apply Hirr.
    + intros a Ha%list_elem_of_In. rewrite forallb_forall.
      intros b Hb%list_elem_of_In. rewrite forallb_forall.
      intros c Hc%list_elem_of_In.
      specialize (Htr a b c Ha Hb Hc). specialize (Heq a b c Ha Hb Hc).
      destruct (less a b), (less b c), (less b a), (less c b); simpl;
        try done; try by rewrite Htr.
      by destruct Heq as [-> ->].
Qed.

(** What [std::sort] promises when the comparator meets the requirement:
    the range is permuted and sorted.  Nothing is promised otherwise. *)
Record sort_contract (sort : (Edge → Edge → bool) → list Edge → list Edge) : Prop := {
  sort_perm : ∀ less l, strict_weak_order less l → sort less l ≡ₚ l;
  sort_sorted : ∀ less l, strict_weak_order less l → sorted_by less (sort less l)
}.

(** ** The order of [double] *)

(** A key of three integers whose lexicographic order is the order of the
    floating-point values that are not NaN: the sign class, the exponent and
    the mantissa, the last two negated below zero. *)
Definition sf_key (f : spec_float) : Z * Z * Z :=
  match f with
  | S754_nan => (0, 0, 0)
  | S754_zero _ => (0, 0, 0)
  | S754_infinity s => (if s then -2 else 2, 0, 0)
  | S754_finite s m e => if s then (-1, - e, - Z.pos m) else (1, e, Z.pos m)
  end%Z.

Definition key_lt (a b : Z * Z * Z) : Prop :=
  (a.1.1 < b.1.1 ∨ a.1.1 = b.1.1 ∧ (a.1.2 < b.1.2 ∨ a.1.2 = b.1.2 ∧ a.2 < b.2))%Z.

Lemma SFltb_key a b :
  a ≠ S754_nan → b ≠ S754_nan → SFltb a b = true ↔ key_lt (sf_key a) (sf_key b).
Proof.
  intros Ha Hb. unfold SFltb, key_lt.
  destruct a as [[]|[]| |[] m1 e1], b as [[]|[]| |[] m2 e2]; simpl; try done;
    try (split; [intros; lia|done]); try (split; [done|intros; lia]);
    destruct (Z.compare_spec e1 e2); simpl;
    try change (Pos.compare_cont Eq m1 m2) with (Pos.compare m1 m2);
    try destruct (Pos.compare_spec m1 m2); simpl;
    (split; [intros; lia|try done; intros; lia]).
Qed.

Lemma SFltb_nan a b : SFltb a b = true → a ≠ S754_nan ∧ b ≠ S754_nan.
Proof. unfold SFltb. by destruct a, b. Qed.

Lemma is_nan_Prim2SF x : PrimFloat.is_nan x = false → Prim2SF x ≠ S754_nan.
Proof.
  unfold PrimFloat.is_nan. rewrite FloatAxioms.eqb_spec. intros H E. rewrite E in H. done.
Qed.

Lemma ltb_irrefl (x : float) : PrimFloat.ltb x x = false.
Proof.
  destruct (PrimFloat.ltb x x) eqn:E; [|done]. rewrite ltb_spec in E.
  destruct (SFltb_nan _ _ E) as [Hx _]. apply SFltb_key in E; [|done..].
  unfold key_lt in E. lia.
Qed.

Lemma ltb_trans (x y z : float) :
  PrimFloat.ltb x y = true → PrimFloat.ltb y z = true → PrimFloat.ltb x z = true.
Proof.
  rewrite !ltb_spec. intros Hxy Hyz.
  destruct (SFltb_nan _ _ Hxy) as [Hx Hy]. destruct (SFltb_nan _ _ Hyz) as [_ Hz].
  apply SFltb_key in Hxy, Hyz; [|done..]. apply SFltb_key; [done..|].
  unfold key_lt in *. lia.
Qed.

Lemma ltb_false_key (x y : float) :
  PrimFloat.is_nan x = false → PrimFloat.is_nan y = false →
  PrimFloat.ltb x y = false ↔ ¬ key_lt (sf_key (Prim2SF x)) (sf_key (Prim2SF y)).
Proof.
  intros Hx%is_nan_Prim2SF Hy%is_nan_Prim2SF. rewrite ltb_spec.
  rewrite <- (SFltb_key _ _ Hx Hy). by destruct (SFltb _ _).
Qed.
(** The comparator of [kruskalMST] meets the requirement of [std::sort] on
    edges whose weights are numbers. *)
Lemma kruskal_less_strict_weak_order g source (l : list Edge) :
  (∀ e, e ∈ l → PrimFloat.is_nan (weight e) = false) →
  strict_weak_order (kruskal_less g source) l.
Proof.
  intros Hnan. unfold kruskal_less. split; [|split].
  - intros a _. destruct (bool_decide _); simpl; apply ltb_irrefl.
  - intros a b c _ _ _.
    destruct (bool_decide (key_of g (orig a) = source)),
             (bool_decide (key_of g (orig b) = source)),
             (bool_decide (key_of g (orig c) = source)); simpl; try done;
      apply ltb_trans.
  - intros a b c Ha%Hnan Hb%Hnan Hc%Hnan.
    destruct (bool_decide (key_of g (orig a) = source)),
             (bool_decide (key_of g (orig b) = source)),
             (bool_decide (key_of g (orig c) = source)); simpl; try done;
      rewrite !ltb_false_key by done; unfold key_lt; lia.
Qed.

Lemma insert_by_perm {A} (less : A → A → bool) x l : insert_by less x l ≡ₚ x :: l.
Proof.
  induction l as [|y l IH]; simpl; [done|].
  destruct (less x y); [done|]. rewrite IH. apply Permutation_swap.
Qed.

Lemma insertion_sort_perm {A} (less : A → A → bool) l : insertion_sort less l ≡ₚ l.
Proof.
  induction l as [|x l IH]; simpl; [done|].
  rewrite insert_by_perm. by f_equiv.
Qed.

Lemma insert_by_sorted {A} (less : A → A → bool) (L : list A) x : ∀ l,
  strict_weak_order less L → x ∈ L → (∀ y, y ∈ l → y ∈ L) →
  sorted_by less l → sorted_by less (insert_by less x l).
Proof.
  intros l (Hirr & Htrans & _) Hx. induction l as [|y l IH]; intros Hl Hs; simpl.
  - by repeat constructor.
  - apply StronglySorted_inv in Hs as [Hs Hy].
    assert (y ∈ L) as HyL by (apply Hl; by left).
    destruct (less x y) eqn:Hxy.
    + constructor; [by constructor|]. apply Forall_cons. split.
      * destruct (less y x) eqn:Hyx; [|done].
        rewrite <- (Hirr x Hx). symmetry. by apply (Htrans x y x).
      * apply Forall_forall. intros z Hz.
        assert (z ∈ L) as HzL by (apply Hl; by right).
        destruct (less z x) eqn:Hzx; [|done].
        rewrite <- (proj1 (Forall_forall _ _) Hy z Hz). symmetry.
        by apply (Htrans z x y).
    + constructor.
      * apply IH; [|done]. intros z Hz. apply Hl. by right.
      * rewrite insert_by_perm. by apply Forall_cons.
Qed.

Lemma insertion_sort_sorted {A} (less : A → A → bool) l :
  strict_weak_order less l → sorted_by less (insertion_sort less l).
Proof.
  intros Hswo. cut (∀ l', (∀ y, y ∈ l' → y ∈ l) → sorted_by less (insertion_sort less l')).
  { intros H. by apply H. }
  induction l' as [|x l' IH]; intros Hl; simpl; [constructor|].
  apply (insert_by_sorted less l); [done|apply Hl; by left| |].
  - intros y Hy. rewrite insertion_sort_perm in Hy. apply Hl. by right.
  - apply IH. intros y Hy. apply Hl. by right.
Qed.

Lemma insertion_sort_contract : sort_contract insertion_sort.
Proof.
  split; [intros less l _; apply insertion_sort_perm|apply @insertion_sort_sorted].
Qed.

(** ** [kruskalMST(source)] (C4) *)

(** [greedy g done mst]: sweeping the edges [done] in order and taking an
    edge exactly when the edges taken before do not join its ends gives
    [mst]. *)
Inductive greedy (g : Graph) : list Edge → list Edge → Prop :=
  | greedy_nil : greedy g [] []
  | greedy_skip done mst e :
      greedy g done mst →
      joined g mst (key_of g (orig e)) (key_of g (dest e)) →
      greedy g (done ++ [e]) mst
  | greedy_take done mst e :
      greedy g done mst →
      ¬ joined g mst (key_of g (orig e)) (key_of g (dest e)) →
      greedy g (done ++ [e]) (mst ++ [e]).

Lemma kruskal_sweep_choice g rep done st e :
  wf g → (Z.of_nat (length (keys g)) ≤ SIZE_MAX)%Z →
  sweep_inv g rep done st → (∃ p, eheap g !! p = Some e) →
  ∃ st', kruskal_sweep g (length (keys g)) st e = Some st' ∧
    ((joined g st.1 (key_of g (orig e)) (key_of g (dest e)) ∧ st'.1 = st.1) ∨
     (¬ joined g st.1 (key_of g (orig e)) (key_of g (dest e)) ∧ st'.1 = st.1 ++ [e])).
Proof.
  intros Hwf Hmax (Hm & Hcount & Hsub & Hdone & Hjoin & Hforest) (p & Hp).
  destruct st as [mst ds]. simpl in *.
  destruct (edge_ends g p e Hwf Hp) as (vo & vd & Hvo & Hvd & Hko & Hkd & Hu & Hv).
  unfold kruskal_sweep. rewrite Hvo, Hvd, Hko, Hkd. simpl.
  set (u := key_of g (orig e)) in *. set (v := key_of g (dest e)) in *.
  destruct (findSet_models _ rep ds u Hm Hu) as (ds1 & -> & Hm1 & _).
  destruct (findSet_models _ rep ds1 v Hm1 Hv) as (ds2 & -> & Hm2 & _).
  case_decide as Hne.
  - destruct (unionSets_spec _ rep ds2 u v Hm2 (wf_keys_nodup g Hwf) Hu Hv Hne Hmax)
      as (ds3 & a & b & -> & _).
    eexists. split; [done|]. right. split; [|done].
    intros Hj. apply Hne. apply (joined_rep g mst rep u v); [|done].
    intros e' He'. apply Hdone. by eapply elem_of_sublist.
  - eexists. split; [done|]. left. split; [|done].
    etrans; [by apply Hjoin|]. rewrite Hne. symmetry.
    by apply Hjoin.
Qed.

(** The sweep runs through all sorted edges, keeps its invariant and makes
    the greedy choice. *)
Lemma kruskal_sweep_greedy std_sort source g :
  sort_contract std_sort → wf g → (Z.of_nat (length (vertexSet g)) ≤ SIZE_MAX)%Z →
  strict_weak_order (kruskal_less g source) (edge_copies g) →
  ∃ mst ds rep,
    foldM (kruskal_sweep g (length (keys g)))
          ([], foldl (λ ds v, makeSet v ds) (mkDisjointSets ∅ ∅) (keys g))
          (std_sort (kruskal_less g source) (edge_copies g)) = Some (mst, ds) ∧
    sweep_inv g rep (std_sort (kruskal_less g source) (edge_copies g)) (mst, ds) ∧
    greedy g (std_sort (kruskal_less g source) (edge_copies g)) mst.
Proof.
  intros Hsort Hwf Hmax Hswo.
  assert (Hmax' : (Z.of_nat (length (keys g)) ≤ SIZE_MAX)%Z).
  { unfold keys. by rewrite length_fmap. }
  destruct (foldM_inv (kruskal_sweep g (length (keys g)))
              (λ done st, (∃ rep, sweep_inv g rep done st) ∧ greedy g done st.1)
              (λ e, ∃ p, eheap g !! p = Some e))
    with (l := std_sort (kruskal_less g source) (edge_copies g)) (done := @nil Edge)
         (s := (@nil Edge, foldl (λ ds v, makeSet v ds) (mkDisjointSets ∅ ∅) (keys g)))
    as ([mst ds] & Hrun & (rep & Hinv) & Hgr).
  - intros done st e [[rep Hinv] Hgr] He.
    destruct (kruskal_sweep_step g done st e Hwf Hmax' (ex_intro _ rep Hinv) He)
      as (st' & Hrun & Hinv').
    destruct (kruskal_sweep_choice g rep done st e Hwf Hmax' Hinv He)
      as (st'' & Hrun' & Hch).
    assert (st'' = st') as -> by congruence.
    exists st'. split; [done|]. split; [done|].
    destruct Hch as [[Hj ->]|[Hj ->]]; by constructor.
  - apply Forall_forall. intros e He.
    rewrite (sort_perm _ Hsort _ _ Hswo) in He. by apply edge_copies_spec.
  - split; [|constructor]. exists id. unfold sweep_inv. simpl.
    split; [apply uf_models_init|].
    rewrite roots_id. split; [done|]. split; [done|].
    split; [by intros e ?%elem_of_nil|]. split; [done|].
    intros [|] ? ? ?; done.
  - simpl in *. by exists mst, ds, rep.
Qed.

(** The last loop keeps the edges that have an end in the set of
    [sourceComponent]. *)
Lemma kruskal_keep_filter g rep sc : wf g → ∀ l acc ds,
  uf_models (keys g) rep ds →
  (∀ e, e ∈ l → ∃ p, eheap g !! p = Some e) →
  ∃ ds', foldM (kruskal_keep g (length (keys g)) sc) (acc, ds) l =
         Some (acc ++ filter (λ e, rep (key_of g (orig e)) = sc ∨
                                   rep (key_of g (dest e)) = sc) l, ds').
Proof.
  intros Hwf. induction l as [|e l IH]; intros acc ds Hm Hl; simpl.
  - rewrite app_nil_r. eauto.
  - destruct (Hl e) as (p & Hp); [by left|].
    destruct (edge_ends g p e Hwf Hp) as (vo & vd & Hvo & Hvd & Hko & Hkd & Hu & Hv).
    unfold kruskal_keep at 1. simpl. rewrite Hvo, Hko.
    destruct (findSet_models _ rep ds _ Hm Hu) as (ds1 & -> & Hm1 & _).
    assert (Hrest : ∀ e', e' ∈ l → ∃ p, eheap g !! p = Some e').
    { intros e' He'. apply Hl. by right. }
    destruct (decide (rep (key_of g (orig e)) = sc)) as [Ho|Ho].
    + destruct (IH (acc ++ [e]) ds1 Hm1 Hrest) as (ds' & ->).
      rewrite filter_cons_True by by left. rewrite <- app_assoc. eauto.
    + rewrite Hvd, Hkd.
      destruct (findSet_models _ rep ds1 _ Hm1 Hv) as (ds2 & -> & Hm2 & _).
      destruct (decide (rep (key_of g (dest e)) = sc)) as [Hd|Hd].
      * destruct (IH (acc ++ [e]) ds2 Hm2 Hrest) as (ds' & ->).
        rewrite filter_cons_True by by right. rewrite <- app_assoc. eauto.
      * destruct (IH acc ds2 Hm2 Hrest) as (ds' & ->).
        rewrite filter_cons_False by tauto. eauto.
Qed.

Lemma filter_id {A} (P : A → Prop) `{!∀ x, Decision (P x)} (l : list A) :
  (∀ x, x ∈ l → P x) → filter P l = l.
Proof.
  induction l as [|a l IH]; intros Hall; [done|].
  rewrite filter_cons_True by (apply Hall; by left).
  f_equal. apply IH. intros x Hx. apply Hall. by right.
Qed.

Lemma NoDup_all_equal {A} (l : list A) (r : A) :
  NoDup l → r ∈ l → (∀ x, x ∈ l → x = r) → length l = 1.
Proof.
  intros Hnd Hr Hall. destruct l as [|a [|b l]]; [by apply elem_of_nil in Hr|done|].
  assert (a = b) as ->.
  { rewrite (Hall a), (Hall b); [done|by right; left|by left]. }
  apply NoDup_cons in Hnd as [Hnd _]. destruct Hnd. by left.
Qed.

(** [kruskalMST(source)] on a graph whose weights are numbers: the sorted
    range is a sorted permutation of the copies of the edges, the sweep
    makes the greedy choice [mst] from it, front to back, and the result
    holds the edges of [mst] that have an end in the set of [source]. *)
Lemma kruskalMST_runs std_sort (source : Z) (g : Graph) :
  sort_contract std_sort → wf g →
  (Z.of_nat (length (vertexSet g)) ≤ SIZE_MAX)%Z →
  (∀ p ed, eheap g !! p = Some ed → PrimFloat.is_nan (weight ed) = false) →
  ∃ mst ds rep,
    sorted_by (kruskal_less g source) (std_sort (kruskal_less g source) (edge_copies g)) ∧
    std_sort (kruskal_less g source) (edge_copies g) ≡ₚ edge_copies g ∧
    greedy g (std_sort (kruskal_less g source) (edge_copies g)) mst ∧
    sweep_inv g rep (std_sort (kruskal_less g source) (edge_copies g)) (mst, ds) ∧
    (∀ e, e ∈ mst → ∃ p, eheap g !! p = Some e) ∧
    kruskalMST std_sort source g =
      Some (if decide (source ∈ keys g)
            then filter (λ e, rep (key_of g (orig e)) = rep source ∨
                              rep (key_of g (dest e)) = rep source) mst
            else []).
Proof.
  intros Hsort Hwf Hmax Hnan.
  assert (strict_weak_order (kruskal_less g source) (edge_copies g)) as Hswo.
  { apply kruskal_less_strict_weak_order.
    intros e (p & Hp)%(edge_copies_spec g e Hwf). by eapply Hnan. }
  destruct (kruskal_sweep_greedy std_sort source g Hsort Hwf Hmax Hswo)
    as (mst & ds & rep & Hrun & Hinv & Hgr).
  pose proof Hinv as (Hm & Hcount & Hsub & Hdone & Hjoin & Hforest). simpl in *.
  assert (Halloc : ∀ e, e ∈ mst → ∃ p, eheap g !! p = Some e).
  { intros e He. apply (edge_copies_spec g e Hwf).
    rewrite <- (sort_perm _ Hsort (kruskal_less g source)) by done.
    by eapply elem_of_sublist. }
  exists mst, ds, rep. split; [by apply (sort_sorted _ Hsort)|].
  split; [by apply (sort_perm _ Hsort)|]. split; [done|]. split; [done|].
  split; [done|].
  unfold kruskalMST. rewrite (kruskal_collect_all g Hwf).
  rewrite (proj2 (strict_weak_orderb_spec _ _) Hswo), Hrun.
  case_decide as Hs; [|done].
  destruct (findSet_models _ rep ds source Hm Hs) as (ds2 & -> & Hm2 & _).
  by destruct (kruskal_keep_filter g rep (rep source) Hwf mst [] ds2 Hm2 Halloc) as (ds3 & ->).
Qed.

(** C4.  On a well-formed graph whose weights are numbers and with a
    [std::sort] that keeps its contract.  The range that is swept is a
    permutation of the copies of the edges of the graph; it has the edges
    whose origin is [source] first and does not let the weight decrease
    within either group.  When [source] is not a key of the graph,
    [kruskalMST(source)] returns the empty sequence.  When it is one and
    every two keys are joined by edges, as in a connected graph whose edges
    were added in both directions, [kruskalMST(source)] returns the greedy
    choice from the sorted range, front to back: an edge is taken exactly
    when the edges taken before it do not join its ends.  These are
    [|V| - 1] edges, all of them copies of edges of the graph; they join
    every two keys and none of them joins keys that the ones before it had
    joined, so they are a spanning tree.  A weight that is NaN can make the
    call of [std::sort] undefined.  The number of vertices is the [size()]
    of a [std::vector], which is at most [SIZE_MAX]. *)
Theorem kruskalMST_spanning_tree std_sort (source : Z) (g : Graph) :
  sort_contract std_sort → wf g →
  (Z.of_nat (length (vertexSet g)) ≤ SIZE_MAX)%Z →
  (∀ p ed, eheap g !! p = Some ed → PrimFloat.is_nan (weight ed) = false) →
  std_sort (kruskal_less g source) (edge_copies g) ≡ₚ edge_copies g ∧
  (∀ i j a b, i < j →
     std_sort (kruskal_less g source) (edge_copies g) !! i = Some a →
     std_sort (kruskal_less g source) (edge_copies g) !! j = Some b →
     (key_of g (orig b) = source → key_of g (orig a) = source) ∧
     ((key_of g (orig a) = source ↔ key_of g (orig b) = source) →
      PrimFloat.ltb (weight b) (weight a) = false)) ∧
  (source ∉ keys g → kruskalMST std_sort source g = Some []) ∧
  (source ∈ keys g → connected g →
   ∃ result, kruskalMST std_sort source g = Some result ∧
     greedy g (std_sort (kruskal_less g source) (edge_copies g)) result ∧
     length result = length (vertexSet g) - 1 ∧
     (∀ e, e ∈ result → ∃ p, eheap g !! p = Some e) ∧
     (∀ u v, u ∈ keys g → v ∈ keys g → joined g result u v) ∧
     (∀ l1 e l2, result = l1 ++ e :: l2 →
        ¬ joined g l1 (key_of g (orig e)) (key_of g (dest e))) ∧
     result `sublist_of` std_sort (kruskal_less g source) (edge_copies g)).
Proof.
  intros Hsort Hwf Hmax Hnan.
  destruct (kruskalMST_runs std_sort source g Hsort Hwf Hmax Hnan)
    as (mst & ds & rep & Hsorted & Hperm & Hgr &
        (Hm & Hcount & Hsub & Hdone & Hjoin & Hforest) & Halloc & Hres).
  simpl in *. rewrite Hres. split; [done|]. split; [|split].
  - intros i j a b Hij Ha Hb.
    pose proof (StronglySorted_lookup_lt _ _ i j a b Hsorted Hij Ha Hb) as Hless.
    simpl in Hless. unfold kruskal_less in Hless.
    destruct (bool_decide_reflect (key_of g (orig a) = source)) as [Hka|Hka],
             (bool_decide_reflect (key_of g (orig b) = source)) as [Hkb|Hkb];
      simpl in Hless; try done; tauto.
  - intros Hs. by rewrite decide_False.
  - intros Hs Hconn. rewrite decide_True by done.
    assert (Hedge : ∀ x y, has_edge g x y → rep x = rep y).
    { intros x y (p & ed & Hp & <- & <-). apply Hdone.
      rewrite Hperm. apply (edge_copies_spec g ed Hwf). eauto. }
    assert (Hone : ∀ x, x ∈ keys g → rep x = rep source).
    { intros x Hx. generalize (Hconn x source Hx Hs). generalize source. clear -Hedge.
      induction 1 as [|a b c [Hab|Hab] _ IH]; [done|..].
      - by rewrite (Hedge a b Hab).
      - by rewrite <- (Hedge b a Hab). }
    rewrite filter_id.
    2:{ intros e He. destruct (Halloc e He) as (p & Hp). left.
        destruct (edge_ends g p e Hwf Hp) as (_ & _ & _ & _ & _ & _ & Hu & _).
        by apply Hone. }
    exists mst. split; [done|]. split; [done|].
    split; [|split; [done|split; [|done]]].
    + assert (length (roots (keys g) rep) = 1) as Hr.
      { apply (NoDup_all_equal _ (rep source)).
        - apply NoDup_filter, wf_keys_nodup, Hwf.
        - by eapply rep_in_roots.
        - intros x [Hx Hk]%list_elem_of_filter. rewrite <- Hx. by apply Hone. }
      unfold keys in Hcount. rewrite length_fmap in Hcount. fold (keys g) in Hcount. lia.
    + intros u v Hu Hv. etrans; [by apply Hjoin|].
      rewrite (Hone u Hu), <- (Hone v Hv). symmetry. by apply Hjoin.
Qed.

Lemma triangle_graph_wf : wf triangle_graph.
Proof. apply (run_wf_Some triangle_ops). vm_compute. reflexivity. Qed.

Lemma has_edge_copy g s d :
  wf g →
  Exists (λ ed, key_of g (orig ed) = s ∧ key_of g (dest ed) = d) (edge_copies g) →
  has_edge g s d.
Proof.
  intros Hwf (ed & Hed & Hs & Hd)%Exists_exists.
  apply (edge_copies_spec g ed Hwf) in Hed as (p & Hp). by exists p, ed.
Qed.

Lemma triangle_graph_connected : connected triangle_graph.
Proof.
  assert (has_edge triangle_graph 1 2) as H12.
  { apply has_edge_copy; [apply triangle_graph_wf|].
    apply (bool_decide_unpack _). by vm_compute. }
  assert (has_edge triangle_graph 2 3) as H23.
  { apply has_edge_copy; [apply triangle_graph_wf|].
    apply (bool_decide_unpack _). by vm_compute. }
  assert (∀ u, u ∈ keys triangle_graph → rtsc (has_edge triangle_graph) 1%Z u) as H1.
  { assert (keys triangle_graph = [1; 2; 3]%Z) as -> by by vm_compute.
    intros u Hu. repeat (apply elem_of_cons in Hu as [->|Hu]).
    - done.
    - by apply rtsc_lr.
    - etrans; by apply rtsc_lr.
    - by apply elem_of_nil in Hu. }
  intros u v Hu Hv. etrans; [symmetry|]; by apply H1.
Qed.

Lemma triangle_graph_weights p ed :
  eheap triangle_graph !! p = Some ed → PrimFloat.is_nan (weight ed) = false.
Proof.
  intros Hp.
  assert (Forall (λ e, PrimFloat.is_nan (weight e) = false) (edge_copies triangle_graph))
    as Hall by (apply (bool_decide_unpack _); by vm_compute).
  rewrite Forall_forall in Hall. apply Hall.
  apply (edge_copies_spec _ _ triangle_graph_wf). eauto.
Qed.

Lemma kruskalMST_spanning_tree_witness :
  insertion_sort (kruskal_less triangle_graph 1) (edge_copies triangle_graph)
    ≡ₚ edge_copies triangle_graph ∧
  (∀ i j a b, i < j →
     insertion_sort (kruskal_less triangle_graph 1) (edge_copies triangle_graph) !! i
       = Some a →
     insertion_sort (kruskal_less triangle_graph 1) (edge_copies triangle_graph) !! j
       = Some b →
     (key_of triangle_graph (orig b) = 1%Z → key_of triangle_graph (orig a) = 1%Z) ∧
     ((key_of triangle_graph (orig a) = 1%Z ↔ key_of triangle_graph (orig b) = 1%Z) →
      PrimFloat.ltb (weight b) (weight a) = false)) ∧
  (∃ result, kruskalMST insertion_sort 1 triangle_graph = Some result ∧
     greedy triangle_graph
       (insertion_sort (kruskal_less triangle_graph 1) (edge_copies triangle_graph))
       result ∧
     length result = length (vertexSet triangle_graph) - 1 ∧
     (∀ e, e ∈ result → ∃ p, eheap triangle_graph !! p = Some e) ∧
     (∀ u v, u ∈ keys triangle_graph → v ∈ keys triangle_graph →
        joined triangle_graph result u v) ∧
     (∀ l1 e l2, result = l1 ++ e :: l2 →
        ¬ joined triangle_graph l1 (key_of triangle_graph (orig e))
                                   (key_of triangle_graph (dest e))) ∧
     result `sublist_of`
       insertion_sort (kruskal_less triangle_graph 1) (edge_copies triangle_graph)).
Proof.
  destruct (kruskalMST_spanning_tree insertion_sort 1 triangle_graph
              insertion_sort_contract triangle_graph_wf)
    as (Hperm & Horder & _ & Htree).
  { by vm_compute. }
  { apply triangle_graph_weights. }
  split; [done|]. split; [done|].
  apply Htree; [|apply triangle_graph_connected].
  assert (keys triangle_graph = [1; 2; 3]%Z) as -> by by vm_compute. by left.
Defined.

(** Scenario S6 from key 1: the two edges of origin 1 are swept first and
    both are chosen, so the tree has the weights 1 and 3. *)
Example kruskalMST_triangle :
  (λ l : list Edge,
     (λ e, (key_of triangle_graph (orig e), key_of triangle_graph (dest e), weight e))
       <$> l) <$> kruskalMST insertion_sort 1 triangle_graph =
  Some [(1, 2, 1%float); (1, 3, 3%float)]%Z.
Proof. by vm_compute. Qed.

(** * Further properties of the mutations *)

(** Two states with the same fields and the same objects are one state. *)
Lemma Graph_eq (g g' : Graph) :
  vertexSet g' = vertexSet g → vertexMap g' = vertexMap g →
  (∀ p, vheap g' !! p = vheap g !! p) → (∀ e, eheap g' !! e = eheap g !! e) →
  g' = g.
Proof.
  destruct g, g'. simpl. intros -> -> Hv He. f_equal; by apply map_eq.
Qed.

Global Instance edge_to_dec g d e : Decision (edge_to g d e).
Proof.
  unfold edge_to. destruct (eheap g !! e) as [ed|] eqn:E.
  - destruct (decide (key_of g (dest ed) = d)) as [Hd|Hd].
    + left. by exists ed.
    + right. intros (ed' & [= <-] & ?). done.
  - right. by intros (ed' & ? & ?).
Defined.

(** ** The state that [Vertex::removeEdge] leaves *)

(** What [u->removeEdge(k)] does to the vertex at [p]: [adj] of [u] becomes
    [newadj]; when an edge was erased ([hit]), [incoming] of the vertex with
    key [k] loses every entry that leaves [u]. *)
Definition removeEdge_upd (g0 : Graph) (u : vptr) (k : Z) (hit : bool)
    (newadj : list eptr) (p : vptr) (v : Vertex) : Vertex :=
  with_incoming (if decide (hit = true ∧ info v = k)
                 then filter (λ e, ¬ leaves g0 u e) (incoming v) else incoming v)
    (with_adj (if decide (p = u) then newadj else adj v) v).

Lemma removeEdge_loop_exact u k g0 vu0 :
  wf g0 → vheap g0 !! u = Some vu0 →
  ∀ todo done removed g vu,
    let X := exempt u (λ p, key_of g0 p = k) in
    adj vu0 = done ++ todo →
    wf_but X g → erased_only X g0 g →
    vheap g !! u = Some vu → adj vu = filter (λ e, ¬ edge_to g0 k e) done ++ todo →
    (removed = true ↔ ∃ e, e ∈ done ∧ edge_to g0 k e) →
    (∀ e, eheap g !! e =
          if decide (e ∈ done ∧ edge_to g0 k e) then None else eheap g0 !! e) →
    (∀ p, vheap g !! p =
          removeEdge_upd g0 u k removed (filter (λ e, ¬ edge_to g0 k e) done ++ todo) p <$> vheap g0 !! p) →
    ∃ b g', removeEdge_loop u k (filter (λ e, ¬ edge_to g0 k e) done) todo removed g = Some (b, g') ∧
      wf g' ∧ vertexSet g' = vertexSet g0 ∧ vertexMap g' = vertexMap g0 ∧
      (b = true ↔ ∃ e, e ∈ adj vu0 ∧ edge_to g0 k e) ∧
      (∀ e, eheap g' !! e =
            if decide (e ∈ adj vu0 ∧ edge_to g0 k e) then None else eheap g0 !! e) ∧
      (∀ p, vheap g' !! p =
            removeEdge_upd g0 u k b (filter (λ e, ¬ edge_to g0 k e) (adj vu0)) p <$> vheap g0 !! p).
Proof.
  intros Hwf0 Hu0. set (keep := filter (λ e, ¬ edge_to g0 k e)).
  induction todo as [|e rest IH];
    intros done removed g vu X Hadj0 Hwf Heo Hu Hadj Hflag HE HV.
  - simpl. rewrite app_nil_r in Hadj0, Hadj, HV. subst done.
    exists removed, g. split; [done|]. split.
    { apply (wf_but_wf X); [done|]. intros e ed He [Ho Hk].
      rewrite HE in He. case_decide as Hc; [done|]. apply Hc.
      destruct (wf_edge g0 Hwf0 e ed He) as (vo & vd & Hvo & _ & Hin & _).
      rewrite Ho in Hvo. assert (vo = vu0) as -> by congruence.
      split; [done|]. by exists ed. }
    split; [apply Heo|]. split; [apply Heo|]. done.
  - simpl.
    destruct (wfb_adj X g Hwf u vu e Hu) as (ed & He & Ho).
    { rewrite Hadj. apply elem_of_app. right. by left. }
    destruct (wfb_edge X g Hwf e ed He) as (vo & vd & _ & Hd & _ & _).
    rewrite He. simpl. rewrite Hd. simpl.
    pose proof (eo_sub X g0 g Heo e ed He) as He0.
    assert (key_of g0 (dest ed) = info vd) as Hkey.
    { rewrite <- (erased_only_key X g0 g) by done. by apply key_of_lookup. }
    assert (edge_to g0 k e ↔ info vd = k) as Hmatch.
    { split.
      - intros (ed' & He' & Hk'). congruence.
      - intros Hk'. exists ed. split; [done|congruence]. }
    assert (NoDup (adj vu0)) as Hnd0 by (by eapply wf_adj_nodup).
    assert (e ∉ done) as Hnotdone.
    { rewrite Hadj0 in Hnd0. apply NoDup_app in Hnd0 as (_ & Hdisj & _).
      intros Hin. apply (Hdisj e Hin). by left. }
    case_decide as Hc.
    + rewrite Hu. simpl.
      destruct (erase_step_spec X g u vu (keep done ++ rest) e ed Hwf Hu He)
        as (g2 & -> & HVS & HVM & HE2 & HV2).
      simpl.
      assert (X ed) as HX by (split; [done|congruence]).
      assert (keep (done ++ [e]) = keep done) as Hkeep.
      { unfold keep. rewrite filter_app, filter_cons_False, filter_nil, app_nil_r; [done|].
        intros Hn. apply Hn. by apply Hmatch. }
      rewrite <- Hkeep.
      apply (IH (done ++ [e]) true g2 (erase_upd g u (dest ed) (keep done ++ rest) u vu)).
      * by rewrite <- app_assoc.
      * eapply (erase_step_wf u _ g g2 vu (keep done) e rest ed); eauto. congruence.
      * eapply erased_only_trans; [done|].
        by eapply (erase_step_erased u _ g g2 (keep done ++ rest) e ed).
      * by rewrite HV2, Hu.
      * simpl. rewrite decide_True by done. by rewrite Hkeep.
      * split; [intros _|done]. exists e. split; [|by apply Hmatch].
        apply elem_of_app. right. by left.
      * intros e'. rewrite HE2. destruct (decide (e' = e)) as [->|Hne].
        -- rewrite lookup_delete_eq, decide_True; [done|].
           split; [apply elem_of_app; right; by left|by apply Hmatch].
        -- rewrite lookup_delete_ne by done. rewrite HE.
           repeat case_decide; try done.
           ++ exfalso. match goal with H : ¬ _ |- _ => apply H end.
              match goal with H : _ ∧ _ |- _ => destruct H as [H1 H2] end.
              split; [apply elem_of_app; by left|done].
           ++ exfalso. match goal with H : ¬ _ |- _ => apply H end.
              match goal with H : _ ∧ _ |- _ => destruct H as [H1 H2] end.
              split; [|done]. apply elem_of_app in H1 as [?|H1]; [done|].
              apply list_elem_of_singleton in H1. congruence.
      * intros p. rewrite HV2, HV, Hkeep.
        destruct (vheap g0 !! p) as [v0|] eqn:Hp0; [|done]. simpl. f_equal.
        assert (info v0 = k ↔ p = dest ed) as Hpk.
        { split.
          - intros Hk0. destruct (wf_edge g0 Hwf0 e ed He0) as (_ & vd0 & _ & Hd0 & _).
            apply (wf_key_inj g0 p (dest ed) v0 vd0 Hwf0 Hp0 Hd0).
            rewrite <- (key_of_lookup _ _ _ Hd0). congruence.
          - intros ->. rewrite <- Hc, <- Hkey. symmetry. by apply key_of_lookup. }
        unfold erase_upd, removeEdge_upd.
        destruct v0 as [qi inf ad vis pr ind di pa inc].
        unfold with_incoming, with_adj. simpl in *. f_equal.
        -- by repeat case_decide.
        -- destruct (decide (p = dest ed)) as [Hpd|Hpd].
           ++ apply Hpk in Hpd as Hk0.
              rewrite (decide_True (P := true = true ∧ inf = k)) by done.
              destruct removed.
              ** rewrite (decide_True (P := true = true ∧ inf = k)) by done.
                 apply filter_id. intros e' [Hnl _]%list_elem_of_filter Hl.
                 apply Hnl. unfold leaves in *.
                 destruct (eheap g !! e') as [ed'|] eqn:He'; [|done].
                 by rewrite (eo_sub X g0 g Heo e' ed' He').
              ** rewrite (decide_False (P := false = true ∧ inf = k)) by (by intros [? _]).
                 apply list_filter_iff. intros e'. unfold leaves. rewrite HE.
                 case_decide as Hd'; [|done].
                 exfalso. destruct Hd' as [Hd1 Hd2].
                 assert (false = true) as Hf; [|done]. apply Hflag. eauto.
           ++ assert (inf ≠ k) as Hk0 by (by rewrite Hpk).
              by rewrite !decide_False by (by intros [_ ?]).
    + assert (keep (done ++ [e]) = keep done ++ [e]) as Hkeep.
      { unfold keep. rewrite filter_app, filter_cons_True, filter_nil; [done|].
        by rewrite Hmatch. }
      rewrite <- Hkeep.
      apply (IH (done ++ [e]) removed g vu); try done.
      * by rewrite <- app_assoc.
      * by rewrite Hkeep, <- app_assoc.
      * rewrite Hflag. split; intros (e' & Hin & Hto); exists e'; (split; [|done]).
        -- apply elem_of_app. by left.
        -- apply elem_of_app in Hin as [?|Hin]; [done|].
           apply list_elem_of_singleton in Hin as ->. by apply Hmatch in Hto.
      * intros e'. rewrite HE. repeat case_decide; try done.
        -- exfalso. match goal with H : ¬ _ |- _ => apply H end.
           match goal with H : _ ∧ _ |- _ => destruct H as [H1 H2] end.
           split; [apply elem_of_app; by left|done].
        -- exfalso. match goal with H : ¬ _ |- _ => apply H end.
           match goal with H : _ ∧ _ |- _ => destruct H as [H1 H2] end.
           split; [|done]. apply elem_of_app in H1 as [?|H1]; [done|].
           apply list_elem_of_singleton in H1 as ->. by apply Hmatch in H2.
      * intros p. by rewrite HV, Hkeep, <- app_assoc.
Qed.

Lemma removeEdge_upd_id g0 u k adjl p v :
  (p = u → adjl = adj v) → removeEdge_upd g0 u k false adjl p v = v.
Proof.
  intros Hadj. unfold removeEdge_upd. rewrite decide_False by (by intros [? _]).
  destruct v. unfold with_incoming, with_adj. simpl in *. f_equal.
  case_decide; [by apply Hadj|done].
Qed.

(** [u->removeEdge(k)] on a well-formed state: the flag tells whether [adj]
    held an edge to the key [k]; those edges are released, [adj] of [u]
    keeps the other entries in their order. *)
Lemma Vertex_removeEdge_exact u k g vu :
  wf g → vheap g !! u = Some vu →
  ∃ b g', Vertex_removeEdge u k g = Some (b, g') ∧ wf g' ∧
    vertexSet g' = vertexSet g ∧ vertexMap g' = vertexMap g ∧
    (b = true ↔ ∃ e, e ∈ adj vu ∧ edge_to g k e) ∧
    (∀ e, eheap g' !! e =
          if decide (e ∈ adj vu ∧ edge_to g k e) then None else eheap g !! e) ∧
    (∀ p, vheap g' !! p =
          removeEdge_upd g u k b (filter (λ e, ¬ edge_to g k e) (adj vu)) p
            <$> vheap g !! p).
Proof.
  intros Hwf Hu. unfold Vertex_removeEdge. rewrite Hu. simpl.
  apply (removeEdge_loop_exact u k g vu Hwf Hu (adj vu) [] false g vu); try done.
  - by apply wf_wf_but.
  - split; [done|]. by intros (e & ?%elem_of_nil & _).
  - intros p. destruct (vheap g !! p) as [v|] eqn:Hp; [|done]. simpl. f_equal.
    symmetry. apply removeEdge_upd_id. intros ->. simpl. congruence.
Qed.

(** Without an edge to the key [k], [u->removeEdge(k)] changes nothing. *)
Lemma Vertex_removeEdge_none u k g vu :
  wf g → vheap g !! u = Some vu → (∀ e, e ∈ adj vu → ¬ edge_to g k e) →
  Vertex_removeEdge u k g = Some (false, g).
Proof.
  intros Hwf Hu Hno.
  destruct (Vertex_removeEdge_exact u k g vu Hwf Hu)
    as (b & g' & -> & _ & HVS & HVM & Hb & HE & HV).
  assert (b = false) as ->.
  { destruct b; [|done]. destruct (proj1 Hb eq_refl) as (e & Hin & Hto).
    by destruct (Hno e Hin). }
  f_equal. f_equal. apply Graph_eq; try done.
  - intros p. rewrite HV. destruct (vheap g !! p) as [v|] eqn:Hp; [|done]. simpl.
    f_equal. apply removeEdge_upd_id. intros ->.
    assert (v = vu) as -> by congruence. by apply filter_id.
  - intros e. rewrite HE. rewrite decide_False; [done|]. intros [Hin Hto].
    by destruct (Hno e Hin).
Qed.

Lemma key_of_info g g' :
  (∀ p, info <$> vheap g' !! p = info <$> vheap g !! p) →
  ∀ p, key_of g' p = key_of g p.
Proof.
  intros H p. specialize (H p). unfold key_of.
  destruct (vheap g' !! p), (vheap g !! p); simpl in H; congruence.
Qed.

Lemma keys_info g g' :
  vertexSet g' = vertexSet g →
  (∀ p, info <$> vheap g' !! p = info <$> vheap g !! p) → keys g' = keys g.
Proof.
  intros HVS H. unfold keys. rewrite HVS. apply list_fmap_ext.
  intros i p _. by apply key_of_info.
Qed.

(** ** Edge-weight lookups across a change of the state *)

Lemma getEdgeWeight_scan_ext g g' d l :
  (∀ e, e ∈ l → eheap g' !! e = eheap g !! e) →
  (∀ e ed, e ∈ l → eheap g !! e = Some ed →
           info <$> vheap g' !! dest ed = info <$> vheap g !! dest ed) →
  getEdgeWeight_scan g' d l = getEdgeWeight_scan g d l.
Proof.
  intros HE HV. induction l as [|e l IH]; simpl; [done|].
  rewrite HE by (by left). destruct (eheap g !! e) as [ed|] eqn:He; simpl; [|done].
  assert (info <$> vheap g' !! dest ed = info <$> vheap g !! dest ed) as Hd.
  { apply (HV e); [by left|done]. }
  destruct (vheap g' !! dest ed) as [vd'|], (vheap g !! dest ed) as [vd|];
    simpl in *; try done.
  injection Hd as ->. rewrite IH; [done| |].
  - intros e' He'. apply HE. by right.
  - intros e' ed' He'. apply HV. by right.
Qed.

(** Entries that do not lead to [d] can be dropped from the list. *)
Lemma getEdgeWeight_scan_filter g d (P : eptr → Prop) `{!∀ e, Decision (P e)} l :
  (∀ e, e ∈ l → ¬ P e →
        ∃ ed vd, eheap g !! e = Some ed ∧ vheap g !! dest ed = Some vd ∧ info vd ≠ d) →
  getEdgeWeight_scan g d (filter P l) = getEdgeWeight_scan g d l.
Proof.
  induction l as [|e l IH]; intros Hdrop; [done|].
  assert (getEdgeWeight_scan g d (filter P l) = getEdgeWeight_scan g d l) as IH'.
  { apply IH. intros e' He'. apply Hdrop. by right. }
  destruct (decide (P e)) as [HP|HP].
  - rewrite filter_cons_True by done. simpl. by rewrite IH'.
  - rewrite filter_cons_False by done. simpl.
    destruct (Hdrop e) as (ed & vd & -> & Hd & Hk); [by left|done|].
    simpl. rewrite Hd. simpl. by rewrite decide_False.
Qed.

(** The scan stops at the first entry that leads to [d]. *)
Lemma getEdgeWeight_scan_found g d l1 e l2 ed :
  wf g → (∀ e', e' ∈ l1 → is_Some (eheap g !! e') ∧ ¬ edge_to g d e') →
  eheap g !! e = Some ed → key_of g (dest ed) = d →
  getEdgeWeight_scan g d (l1 ++ e :: l2) = Some (weight ed).
Proof.
  intros Hwf Hl1 He Hd. induction l1 as [|e1 l1 IH]; simpl.
  - rewrite He. simpl.
    destruct (wf_edge_keys g e ed Hwf He) as (_ & vd & _ & Hvd & _ & Hk).
    rewrite Hvd. simpl. rewrite decide_True by congruence. done.
  - destruct (Hl1 e1) as [[ed1 He1] Hno]; [by left|]. rewrite He1. simpl.
    destruct (wf_edge_keys g e1 ed1 Hwf He1) as (_ & vd1 & _ & Hvd1 & _ & Hk1).
    rewrite Hvd1. simpl. rewrite decide_False.
    + apply IH. intros e' He'. apply Hl1. by right.
    + intros Hc. apply Hno. exists ed1. split; [done|congruence].
Qed.

Lemma getEdgeWeight_scan_none g d l :
  wf g → (∀ e, e ∈ l → is_Some (eheap g !! e) ∧ ¬ edge_to g d e) →
  getEdgeWeight_scan g d l = Some DBL_MAX.
Proof.
  intros Hwf. induction l as [|e l IH]; intros Hl; simpl; [done|].
  destruct (Hl e) as [[ed He] Hno]; [by left|]. rewrite He. simpl.
  destruct (wf_edge_keys g e ed Hwf He) as (_ & vd & _ & Hvd & _ & Hk).
  rewrite Hvd. simpl. rewrite decide_False.
  - apply IH. intros e' He'. apply Hl. by right.
  - intros Hc. apply Hno. exists ed. split; [done|congruence].
Qed.

(** ** [Graph::removeEdge] *)

(** The entries of [adj] of the vertex with key [s] that lead to the key [d]
    are the edge objects from [s] to [d]. *)
Lemma edge_from_to g s d u vu e ed :
  wf g → findVertex s g = Some u → vheap g !! u = Some vu →
  eheap g !! e = Some ed →
  e ∈ adj vu ∧ edge_to g d e ↔ key_of g (orig ed) = s ∧ key_of g (dest ed) = d.
Proof.
  intros Hwf Hf Hu He.
  destruct (wf_findVertex_Some g s u Hwf Hf) as (_ & vu' & Hu' & Hk).
  assert (vu' = vu) as -> by congruence. split.
  - intros [Hin (ed' & He' & Hd)]. assert (ed' = ed) as -> by congruence.
    destruct (wf_adj g Hwf u vu e Hu Hin) as (ed' & He'' & Ho).
    assert (ed' = ed) as -> by congruence.
    split; [|done]. rewrite Ho. by rewrite (key_of_lookup _ _ _ Hu).
  - intros [Hs Hd].
    destruct (wf_edge g Hwf e ed He) as (vo & vd & Hvo & _ & Hin & _).
    rewrite (key_of_lookup _ _ _ Hvo) in Hs.
    assert (orig ed = u) as Hou by (by eapply (wf_key_inj g); eauto; congruence).
    rewrite Hou in Hvo. assert (vo = vu) as -> by congruence.
    split; [done|]. by exists ed.
Qed.

Lemma removeEdge_upd_info g0 u k b l p v : info (removeEdge_upd g0 u k b l p v) = info v.
Proof. done. Qed.

(** [removeEdge(s, d)] answers whether an edge from [s] to [d] existed,
    changes nothing when it answers false, and otherwise releases exactly
    the edge objects from [s] to [d] (all of them, in a multigraph), after
    which the lookup of the pair gives the sentinel. *)
Theorem removeEdge_removes (g : Graph) (s d : Z) :
  wf g →
  ∃ b g', removeEdge s d g = Some (b, g') ∧ wf g' ∧
    (b = true ↔ has_edge g s d) ∧ (b = false → g' = g) ∧
    vertexSet g' = vertexSet g ∧ keys g' = keys g ∧
    (∀ e ed, eheap g' !! e = Some ed ↔
             eheap g !! e = Some ed ∧
             ¬ (key_of g (orig ed) = s ∧ key_of g (dest ed) = d)) ∧
    ¬ has_edge g' s d ∧ getEdgeWeight s d g' = Some DBL_MAX.
Proof.
  intros Hwf. unfold removeEdge.
  destruct (findVertex s g) as [u|] eqn:Hf.
  - destruct (wf_findVertex_Some g s u Hwf Hf) as (_ & vu & Hu & Hk).
    destruct (Vertex_removeEdge_exact u d g vu Hwf Hu)
      as (b & g' & Hrun & Hwf' & HVS & HVM & Hb & HE & HV).
    rewrite Hrun. exists b, g'. split; [done|]. split; [done|].
    assert (∀ p, info <$> vheap g' !! p = info <$> vheap g !! p) as Hinfo.
    { intros p. rewrite HV. by destruct (vheap g !! p). }
    assert (∀ e ed, eheap g' !! e = Some ed ↔
              eheap g !! e = Some ed ∧
              ¬ (key_of g (orig ed) = s ∧ key_of g (dest ed) = d)) as Hiff.
    { intros e ed. rewrite HE. split.
      - case_decide as Hc; [done|]. intros He. split; [done|].
        by rewrite <- (edge_from_to g s d u vu e ed Hwf Hf Hu He).
      - intros [He Hno]. rewrite decide_False; [done|].
        by rewrite (edge_from_to g s d u vu e ed Hwf Hf Hu He). }
    assert (¬ has_edge g' s d) as Hgone.
    { intros (e & ed & He & Hs & Hd). apply Hiff in He as [_ Hno]. apply Hno.
      by rewrite <- !(key_of_info g g' Hinfo). }
    split; [|split; [|split; [done|split; [by apply keys_info|split; [done|split; [done|]]]]]].
    + rewrite Hb, (has_edge_first g s d Hwf). split.
      * intros (e & Hin & Hto). by exists u, vu, e.
      * intros (v & vv & e & Hf' & Hv & Hin & Hto).
        assert (v = u) as -> by congruence. assert (vv = vu) as -> by congruence.
        by exists e.
    + intros ->. rewrite (Vertex_removeEdge_none u d g vu Hwf Hu) in Hrun; [congruence|].
      intros e Hin Hto. assert (false = true); [|done]. apply Hb. eauto.
    + destruct (getEdgeWeight_spec g' s d Hwf') as (r & -> & [(ed & Hfirst & _)|[_ ->]]);
        [|done].
      by destruct (Hgone (first_edge_has_edge g' s d ed Hwf' Hfirst)).
  - assert (¬ has_edge g s d) as Hno.
    { rewrite (has_edge_first g s d Hwf). intros (v & ? & ? & Hf' & _). congruence. }
    exists false, g. split; [done|]. split; [done|].
    split; [by split|]. split; [done|]. split; [done|]. split; [done|]. split.
    + intros e ed. split; [|by intros [? _]]. intros He. split; [done|].
      intros [Hs Hd]. apply Hno. by exists e, ed.
    + split; [done|]. unfold getEdgeWeight. by rewrite Hf.
Qed.

Lemma removeEdge_removes_witness :
  ∃ b g', removeEdge 1 2 sample_graph = Some (b, g') ∧ wf g' ∧
    (b = true ↔ has_edge sample_graph 1 2) ∧ (b = false → g' = sample_graph) ∧
    vertexSet g' = vertexSet sample_graph ∧ keys g' = keys sample_graph ∧
    (∀ e ed, eheap g' !! e = Some ed ↔
             eheap sample_graph !! e = Some ed ∧
             ¬ (key_of sample_graph (orig ed) = 1%Z ∧
                key_of sample_graph (dest ed) = 2%Z)) ∧
    ¬ has_edge g' 1 2 ∧ getEdgeWeight 1 2 g' = Some DBL_MAX.
Proof. exact (removeEdge_removes sample_graph 1 2 sample_graph_wf). Defined.

(** [removeEdge(s, d)] leaves every other pair of keys as it was: the same
    edges, and the same answer of the edge-weight lookup. *)
Theorem removeEdge_keeps_other_pairs (g : Graph) (s d : Z) :
  wf g →
  ∃ b g', removeEdge s d g = Some (b, g') ∧
    ∀ s' d', s' ≠ s ∨ d' ≠ d →
      (has_edge g' s' d' ↔ has_edge g s' d') ∧
      getEdgeWeight s' d' g' = getEdgeWeight s' d' g.
Proof.
  intros Hwf. unfold removeEdge.
  destruct (findVertex s g) as [u|] eqn:Hf; [|by exists false, g].
  destruct (wf_findVertex_Some g s u Hwf Hf) as (_ & vu & Hu & Hk).
  destruct (Vertex_removeEdge_exact u d g vu Hwf Hu)
    as (b & g' & Hrun & Hwf' & HVS & HVM & Hb & HE & HV).
  rewrite Hrun. exists b, g'. split; [done|]. intros s' d' Hother.
  assert (∀ p, info <$> vheap g' !! p = info <$> vheap g !! p) as Hinfo.
  { intros p. rewrite HV. by destruct (vheap g !! p). }
  split.
  - split; intros (e & ed & He & Hs & Hd); exists e, ed.
    + rewrite !(key_of_info g g' Hinfo) in Hs, Hd. split; [|done].
      rewrite HE in He. by case_decide.
    + rewrite !(key_of_info g g' Hinfo). split; [|done].
      rewrite HE, decide_False; [done|].
      rewrite (edge_from_to g s d u vu e ed Hwf Hf Hu He). intros [? ?].
      destruct Hother; congruence.
  - unfold getEdgeWeight, findVertex. rewrite HVM.
    destruct (vertexMap g !! s') as [v'|] eqn:Hf'; [|done].
    destruct (wf_findVertex_Some g s' v' Hwf Hf') as (_ & vv' & Hv' & Hk').
    rewrite HV, Hv'. simpl. destruct (decide (v' = u)) as [->|Hne].
    + assert (vv' = vu) as -> by congruence.
      assert (d' ≠ d) as Hd by (destruct Hother; congruence).
      rewrite (getEdgeWeight_scan_ext g g').
      * apply getEdgeWeight_scan_filter. intros e Hin Hdrop.
        apply dec_stable in Hdrop as (ed & He & Hto).
        destruct (wf_edge_keys g e ed Hwf He) as (_ & vd & _ & Hvd & _ & Hkd).
        exists ed, vd. split; [done|]. split; [done|]. congruence.
      * intros e [Hkeep Hin]%list_elem_of_filter. rewrite HE.
        rewrite decide_False; [done|]. by intros [_ ?].
      * done.
    + apply getEdgeWeight_scan_ext; [|by intros; apply Hinfo].
      intros e Hin. rewrite HE, decide_False; [done|]. intros [Hin' _].
      destruct (wf_adj g Hwf v' vv' e Hv' Hin) as (ed & He & Ho).
      destruct (wf_adj g Hwf u vu e Hu Hin') as (ed' & He' & Ho').
      congruence.
Qed.

Lemma removeEdge_keeps_other_pairs_witness :
  ∃ b g', removeEdge 1 2 sample_graph = Some (b, g') ∧
    ∀ s' d', s' ≠ 1%Z ∨ d' ≠ 2%Z →
      (has_edge g' s' d' ↔ has_edge sample_graph s' d') ∧
      getEdgeWeight s' d' g' = getEdgeWeight s' d' sample_graph.
Proof. exact (removeEdge_keeps_other_pairs sample_graph 1 2 sample_graph_wf). Defined.

(** ** [Graph::addEdge] *)

Lemma getEdgeWeight_scan_app_miss g d l1 l2 :
  wf g → (∀ e, e ∈ l1 → is_Some (eheap g !! e) ∧ ¬ edge_to g d e) →
  getEdgeWeight_scan g d (l1 ++ l2) = getEdgeWeight_scan g d l2.
Proof.
  intros Hwf. induction l1 as [|e l1 IH]; intros Hl; simpl; [done|].
  destruct (Hl e) as [[ed He] Hno]; [by left|]. rewrite He. simpl.
  destruct (wf_edge_keys g e ed Hwf He) as (_ & vd & _ & Hvd & _ & Hk).
  rewrite Hvd. simpl. rewrite decide_False.
  - apply IH. intros e' He'. apply Hl. by right.
  - intros Hc. apply Hno. exists ed. split; [done|congruence].
Qed.

Lemma getEdgeWeight_scan_app_hit g d l1 l2 :
  wf g → (∀ e, e ∈ l1 → is_Some (eheap g !! e)) →
  (∃ e, e ∈ l1 ∧ edge_to g d e) →
  getEdgeWeight_scan g d (l1 ++ l2) = getEdgeWeight_scan g d l1.
Proof.
  intros Hwf. induction l1 as [|e l1 IH]; intros Hl (e0 & Hin & Hto); simpl.
  - by apply elem_of_nil in Hin.
  - destruct (Hl e) as [ed He]; [by left|]. rewrite He. simpl.
    destruct (wf_edge_keys g e ed Hwf He) as (_ & vd & _ & Hvd & _ & Hk).
    rewrite Hvd. simpl. case_decide as Hc; [done|].
    apply IH; [intros e' He'; apply Hl; by right|].
    exists e0. split; [|done]. apply elem_of_cons in Hin as [->|?]; [|done].
    destruct Hto as (ed' & He' & Hd'). congruence.
Qed.

(** The state after a successful [addEdge(s, d, w)]. *)
Lemma addEdge_exact g s d w v1 v2 :
  wf g → findVertex s g = Some v1 → findVertex d g = Some v2 →
  ∃ g' e, addEdge s d w g = Some (true, g') ∧ wf g' ∧
    eheap g !! e = None ∧
    vertexSet g' = vertexSet g ∧ vertexMap g' = vertexMap g ∧
    eheap g' = <[e := Edge_new v1 v2 w]> (eheap g) ∧
    (∀ p, vheap g' !! p = addEdge_upd v1 v2 e p <$> vheap g !! p).
Proof.
  intros Hwf H1 H2. unfold addEdge. rewrite H1, H2.
  destruct (wf_findVertex_Some g s v1 Hwf H1) as (_ & vv1 & Hv1 & _).
  destruct (wf_findVertex_Some g d v2 Hwf H2) as (_ & vv2 & Hv2 & _).
  destruct (Vertex_addEdge_spec g v1 v2 w) as (g' & Hadd & HVS & HVM & HE & HV);
    [eauto|eauto|].
  rewrite Hadd. simpl. exists g', (fresh (dom (eheap g))).
  split; [done|]. split; [by eapply wf_Vertex_addEdge|].
  split; [apply fresh_edge|]. done.
Qed.

Lemma addEdge_upd_info v1 v2 e p v : info (addEdge_upd v1 v2 e p v) = info v.
Proof. done. Qed.

(** [addEdge(s, d, w)] answers whether both keys are present, changes
    nothing when it answers false, and otherwise allocates one edge object
    from [s] to [d] with weight [w], no reverse and [selected] unset; the
    edges of the graph are the old ones and this one. *)
Theorem addEdge_adds (g : Graph) (s d : Z) (w : double) :
  wf g →
  ∃ b g', addEdge s d w g = Some (b, g') ∧ wf g' ∧
    (b = true ↔ is_Some (findVertex s g) ∧ is_Some (findVertex d g)) ∧
    (b = false → g' = g) ∧
    vertexSet g' = vertexSet g ∧ keys g' = keys g ∧
    (b = true →
     ∃ e ed, eheap g !! e = None ∧ eheap g' = <[e := ed]> (eheap g) ∧
             key_of g (orig ed) = s ∧ key_of g (dest ed) = d ∧
             weight ed = w ∧ reverse ed = None ∧ selected ed = false) ∧
    (∀ s' d', has_edge g' s' d' ↔ has_edge g s' d' ∨ b = true ∧ s' = s ∧ d' = d).
Proof.
  intros Hwf.
  destruct (findVertex s g) as [v1|] eqn:H1; [destruct (findVertex d g) as [v2|] eqn:H2|].
  - destruct (addEdge_exact g s d w v1 v2 Hwf H1 H2)
      as (g' & e & Hrun & Hwf' & Hfresh & HVS & HVM & HE & HV).
    destruct (wf_findVertex_Some g s v1 Hwf H1) as (_ & vv1 & Hv1 & Hk1).
    destruct (wf_findVertex_Some g d v2 Hwf H2) as (_ & vv2 & Hv2 & Hk2).
    assert (∀ p, info <$> vheap g' !! p = info <$> vheap g !! p) as Hinfo.
    { intros p. rewrite HV. by destruct (vheap g !! p). }
    exists true, g'. split; [done|]. split; [done|]. split; [by split; eauto|].
    split; [done|]. split; [done|]. split; [by apply keys_info|]. split.
    + intros _. exists e, (Edge_new v1 v2 w). simpl.
      rewrite (key_of_lookup _ _ _ Hv1), (key_of_lookup _ _ _ Hv2). done.
    + intros s' d'. split.
      * intros (e' & ed' & He' & Hs & Hd). rewrite !(key_of_info g g' Hinfo) in Hs, Hd.
        rewrite HE, lookup_insert in He'. case_decide as Hc.
        -- injection He' as <-. simpl in *. right.
           rewrite (key_of_lookup _ _ _ Hv1) in Hs.
           rewrite (key_of_lookup _ _ _ Hv2) in Hd. split; [done|]. split; congruence.
        -- left. by exists e', ed'.
      * intros [(e' & ed' & He' & Hs & Hd)|(_ & -> & ->)].
        -- exists e', ed'. rewrite !(key_of_info g g' Hinfo). split; [|done].
           rewrite HE, lookup_insert_ne; [done|]. intros <-. congruence.
        -- exists e, (Edge_new v1 v2 w). rewrite !(key_of_info g g' Hinfo). simpl.
           rewrite HE, lookup_insert_eq.
           by rewrite (key_of_lookup _ _ _ Hv1), (key_of_lookup _ _ _ Hv2).
  - exists false, g. unfold addEdge. rewrite H1, H2.
    split; [done|]. split; [done|]. split; [split; [done|by intros [_ [? ?]]]|].
    split; [done|]. split; [done|]. split; [done|]. split; [done|].
    intros s' d'. split; [by left|]. by intros [?|[? _]].
  - exists false, g. unfold addEdge. rewrite H1.
    split; [done|]. split; [done|]. split; [split; [done|by intros [[? ?] _]]|].
    split; [done|]. split; [done|]. split; [done|]. split; [done|].
    intros s' d'. split; [by left|]. by intros [?|[? _]].
Qed.

Lemma addEdge_adds_witness :
  ∃ b g', addEdge 3 1 2%float sample_graph = Some (b, g') ∧ wf g' ∧
    (b = true ↔ is_Some (findVertex 3 sample_graph) ∧ is_Some (findVertex 1 sample_graph)) ∧
    (b = false → g' = sample_graph) ∧
    vertexSet g' = vertexSet sample_graph ∧ keys g' = keys sample_graph ∧
    (b = true →
     ∃ e ed, eheap sample_graph !! e = None ∧ eheap g' = <[e := ed]> (eheap sample_graph) ∧
             key_of sample_graph (orig ed) = 3%Z ∧ key_of sample_graph (dest ed) = 1%Z ∧
             weight ed = 2%float ∧ reverse ed = None ∧ selected ed = false) ∧
    (∀ s' d', has_edge g' s' d' ↔
              has_edge sample_graph s' d' ∨ b = true ∧ s' = 3%Z ∧ d' = 1%Z).
Proof. exact (addEdge_adds sample_graph 3 1 2%float sample_graph_wf). Defined.

(** After [addEdge(s, d, w)] the lookup of [(s, d)] gives [w] when the pair
    had no edge before; the lookup of a pair that had an edge, and of every
    other pair, gives what it gave before. *)
Theorem addEdge_lookup (g : Graph) (s d : Z) (w : double) :
  wf g → is_Some (findVertex s g) → is_Some (findVertex d g) →
  ∃ g', addEdge s d w g = Some (true, g') ∧
    (¬ has_edge g s d → getEdgeWeight s d g' = Some w) ∧
    (∀ s' d', has_edge g s' d' ∨ s' ≠ s ∨ d' ≠ d →
              getEdgeWeight s' d' g' = getEdgeWeight s' d' g).
Proof.
  intros Hwf [v1 H1] [v2 H2].
  destruct (addEdge_exact g s d w v1 v2 Hwf H1 H2)
    as (g' & e & Hrun & Hwf' & Hfresh & HVS & HVM & HE & HV).
  destruct (wf_findVertex_Some g s v1 Hwf H1) as (_ & vv1 & Hv1 & Hk1).
  destruct (wf_findVertex_Some g d v2 Hwf H2) as (_ & vv2 & Hv2 & Hk2).
  assert (∀ p, info <$> vheap g' !! p = info <$> vheap g !! p) as Hinfo.
  { intros p. rewrite HV. by destruct (vheap g !! p). }
  assert (∀ p v e', vheap g !! p = Some v → e' ∈ adj v →
            eheap g' !! e' = eheap g !! e' ∧ is_Some (eheap g !! e')) as Hold.
  { intros p v e' Hp Hin. destruct (wf_adj g Hwf p v e' Hp Hin) as (ed' & He' & _).
    split; [|eauto]. rewrite HE, lookup_insert_ne; [done|]. intros <-. congruence. }
  assert (∀ d' e', e' ≠ e → edge_to g' d' e' ↔ edge_to g d' e') as Hto.
  { intros d' e' Hne. unfold edge_to. rewrite HE, lookup_insert_ne by done.
    split; intros (ed' & He' & Hd'); exists ed'; split; try done.
    - by rewrite <- (key_of_info g g' Hinfo).
    - by rewrite (key_of_info g g' Hinfo). }
  assert (eheap g' !! e = Some (Edge_new v1 v2 w)) as He by (by rewrite HE, lookup_insert_eq).
  assert (key_of g' v2 = d) as Hkd.
  { rewrite (key_of_info g g' Hinfo). by rewrite (key_of_lookup _ _ _ Hv2). }
  assert (∀ d', (∀ e', e' ∈ adj vv1 → ¬ edge_to g d' e') →
            ∀ e', e' ∈ adj vv1 → is_Some (eheap g' !! e') ∧ ¬ edge_to g' d' e') as Hmiss.
  { intros d' Hno e' Hin. destruct (Hold v1 vv1 e' Hv1 Hin) as [Heq Hs].
    split; [by rewrite Heq|]. rewrite Hto; [by apply Hno|].
    intros ->. destruct Hs as [? ?]. congruence. }
  exists g'. split; [done|]. split.
  - intros Hno. unfold getEdgeWeight, findVertex. rewrite HVM.
    unfold findVertex in H1. rewrite H1, HV, Hv1. simpl.
    rewrite decide_True by done.
    rewrite (getEdgeWeight_scan_app_miss g' d (adj vv1) [e] Hwf').
    + simpl. rewrite He. simpl. rewrite HV, Hv2. simpl. by rewrite decide_True.
    + apply Hmiss. intros e' Hin Hto'. apply Hno.
      apply (has_edge_first g s d Hwf). by exists v1, vv1, e'.
  - intros s' d' Hcase. unfold getEdgeWeight, findVertex. rewrite HVM.
    destruct (vertexMap g !! s') as [v'|] eqn:Hf'; [|done].
    destruct (wf_findVertex_Some g s' v' Hwf Hf') as (_ & vv' & Hv' & Hk').
    rewrite HV, Hv'. simpl. destruct (decide (v' = v1)) as [->|Hne].
    + assert (vv' = vv1) as -> by congruence.
      assert (s' = s) as -> by congruence.
      destruct (decide (Exists (edge_to g d') (adj vv1))) as [Hhit|Hnohit];
        rewrite Exists_exists in *.
      * rewrite (getEdgeWeight_scan_app_hit g' d' (adj vv1) [e] Hwf').
        -- apply getEdgeWeight_scan_ext; [|by intros; apply Hinfo]. intros e' Hin.
           by apply (Hold v1 vv1 e' Hv1 Hin).
        -- intros e' Hin. destruct (Hold v1 vv1 e' Hv1 Hin) as [-> ?]. done.
        -- destruct Hhit as (e' & Hin & Hto'). exists e'. split; [done|].
           apply Hto; [|done]. intros ->.
           destruct (Hold v1 vv1 e Hv1 Hin) as [_ [? ?]]. congruence.
      * assert (∀ e', e' ∈ adj vv1 → ¬ edge_to g d' e') as Hno by eauto.
        assert (d' ≠ d) as Hd'.
        { destruct Hcase as [Hh|[?|?]]; [|done|done]. exfalso. apply Hnohit.
          apply (has_edge_first g s d' Hwf) in Hh as (v & vv & e' & Hf & Hv & Hin & Hto').
          unfold findVertex in Hf. assert (v = v1) as -> by congruence.
          assert (vv = vv1) as -> by congruence. eauto. }
        rewrite (getEdgeWeight_scan_app_miss g' d' (adj vv1) [e] Hwf') by by apply Hmiss.
        simpl. rewrite He. simpl. rewrite HV, Hv2. simpl.
        rewrite decide_False by congruence. symmetry.
        apply getEdgeWeight_scan_none; [done|]. intros e' Hin.
        split; [by apply (Hold v1 vv1 e' Hv1 Hin)|by apply Hno].
    + rewrite app_nil_r.
      apply getEdgeWeight_scan_ext; [|by intros; apply Hinfo]. intros e' Hin.
      by apply (Hold v' vv' e' Hv' Hin).
Qed.

Lemma addEdge_lookup_witness :
  ∃ g', addEdge 3 1 2%float sample_graph = Some (true, g') ∧
    (¬ has_edge sample_graph 3 1 → getEdgeWeight 3 1 g' = Some 2%float) ∧
    (∀ s' d', has_edge sample_graph s' d' ∨ s' ≠ 3%Z ∨ d' ≠ 1%Z →
              getEdgeWeight s' d' g' = getEdgeWeight s' d' sample_graph).
Proof.
  apply (addEdge_lookup sample_graph 3 1 2%float sample_graph_wf); vm_compute; eauto.
Defined.

(** ** [Graph::addVertex] *)

(** [addVertex(k)] answers whether the key was absent and changes nothing
    when it was not; otherwise [k] becomes the last key of the vertex
    sequence, with a vertex that has no edges, and no edge and no lookup of
    an edge weight changes. *)
Theorem addVertex_adds (g : Graph) (k : Z) :
  wf g →
  ∃ b g', addVertex k g = (b, g') ∧ wf g' ∧
    (b = true ↔ findVertex k g = None) ∧ (b = false → g' = g) ∧
    (b = true →
     keys g' = keys g ++ [k] ∧
     ∃ v, findVertex k g' = Some v ∧ vheap g !! v = None ∧
          vheap g' !! v = Some (Vertex_new k)) ∧
    (∀ k', k' ≠ k → findVertex k' g' = findVertex k' g) ∧
    eheap g' = eheap g ∧
    (∀ s d, has_edge g' s d ↔ has_edge g s d) ∧
    (∀ s d, getEdgeWeight s d g' = getEdgeWeight s d g).
Proof.
  intros Hwf. pose proof (wf_addVertex g k Hwf) as Hwf'. unfold addVertex in *.
  destruct (findVertex k g) as [p|] eqn:Hf.
  - exists false, g. split; [done|]. split; [done|]. split; [by split|].
    split; [done|]. split; [done|]. split; [done|]. split; [done|]. by split.
  - simpl in Hwf'. pose proof (fresh_vertex g) as Hnew.
    set (nv := fresh (dom (vheap g))) in *.
    set (g' := mkGraph _ _ _ _) in *.
    assert (∀ p v, vheap g !! p = Some v → vheap g' !! p = Some v) as Hold.
    { intros p v Hp. unfold g'. simpl. rewrite lookup_insert_ne; [done|].
      intros <-. congruence. }
    assert (∀ p v, vheap g !! p = Some v → key_of g' p = key_of g p) as Hkey.
    { intros p v Hp. unfold key_of. by rewrite (Hold p v Hp), Hp. }
    exists true, g'. split; [done|]. split; [done|]. split; [done|]. split; [done|].
    split; [|split; [|split; [done|split]]].
    + intros _. split.
      * unfold keys, g'. simpl. rewrite fmap_app. simpl. f_equal.
        -- apply list_fmap_ext. intros i p Hp.
           apply list_elem_of_lookup_2, (wf_alloc g Hwf) in Hp as [v Hv].
           by apply (Hkey p v).
        -- unfold key_of. simpl. by rewrite lookup_insert_eq.
      * exists nv. unfold findVertex, g'. simpl. by rewrite !lookup_insert_eq.
    + intros k' Hk'. unfold findVertex, g'. simpl. by rewrite lookup_insert_ne.
    + intros s d. unfold has_edge.
      split; intros (e & ed & He & Hs & Hd); exists e, ed; (split; [done|]);
        change (eheap g' !! e) with (eheap g !! e) in *;
        destruct (wf_edge g Hwf e ed He) as (vo & vd & Ho & Hvd & _);
        rewrite (Hkey _ _ Ho), (Hkey _ _ Hvd) in *; done.
    + intros s d. unfold getEdgeWeight, findVertex.
      change (vertexMap g') with (<[k := nv]> (vertexMap g)).
      rewrite lookup_insert. case_decide as Hk.
      * subst s. assert (vheap g' !! nv = Some (Vertex_new k)) as ->.
        { unfold g'. simpl. by rewrite lookup_insert_eq. }
        simpl. unfold findVertex in Hf. by rewrite Hf.
      * destruct (vertexMap g !! s) as [v|] eqn:Hs; [|done].
        destruct (wf_findVertex_Some g s v Hwf Hs) as (_ & vv & Hv & _).
        rewrite (Hold v vv Hv), Hv. simpl.
        apply getEdgeWeight_scan_ext; [done|].
        intros e ed Hin He.
        destruct (wf_edge g Hwf e ed He) as (_ & vd & _ & Hvd & _).
        by rewrite (Hold _ _ Hvd), Hvd.
Qed.

Lemma addVertex_adds_witness :
  ∃ b g', addVertex 4 sample_graph = (b, g') ∧ wf g' ∧
    (b = true ↔ findVertex 4 sample_graph = None) ∧ (b = false → g' = sample_graph) ∧
    (b = true →
     keys g' = keys sample_graph ++ [4%Z] ∧
     ∃ v, findVertex 4 g' = Some v ∧ vheap sample_graph !! v = None ∧
          vheap g' !! v = Some (Vertex_new 4)) ∧
    (∀ k', k' ≠ 4%Z → findVertex k' g' = findVertex k' sample_graph) ∧
    eheap g' = eheap sample_graph ∧
    (∀ s d, has_edge g' s d ↔ has_edge sample_graph s d) ∧
    (∀ s d, getEdgeWeight s d g' = getEdgeWeight s d sample_graph).
Proof. exact (addVertex_adds sample_graph 4 sample_graph_wf). Defined.

(** ** Round trips *)

Lemma foldM_id {S A} (f : S → A → option S) (s : S) (l : list A) :
  (∀ x, x ∈ l → f s x = Some s) → foldM f s l = Some s.
Proof.
  induction l as [|x l IH]; intros Hl; simpl; [done|].
  rewrite Hl by (by left). apply IH. intros y Hy. apply Hl. by right.
Qed.

(** Adding a new key and removing it again gives back the state, object by
    object. *)
Theorem addVertex_removeVertex (g : Graph) (k : Z) :
  wf g → findVertex k g = None →
  removeVertex k (snd (addVertex k g)) = Some (true, g).
Proof.
  intros Hwf Hf. pose proof (wf_addVertex g k Hwf) as Hwf'. unfold addVertex in *.
  rewrite Hf in *. simpl in *. pose proof (fresh_vertex g) as Hnew.
  set (nv := fresh (dom (vheap g))) in *.
  set (g1 := mkGraph _ _ _ _) in *.
  assert (nv ∉ vertexSet g) as Hnotin.
  { rewrite (wf_alloc g Hwf), Hnew. by intros [? ?]. }
  assert (vheap g1 !! nv = Some (Vertex_new k)) as Hnv.
  { unfold g1. simpl. by rewrite lookup_insert_eq. }
  unfold removeVertex. change (vertexMap g1) with (<[k := nv]> (vertexMap g)).
  rewrite lookup_insert_eq.
  rewrite (foldM_id (removeVertex_body nv) g1).
  - simpl. f_equal. f_equal. destruct g as [VS VM VH EH]. unfold g1. simpl in *.
    f_equal.
    + rewrite filter_app, filter_cons_False, filter_nil, app_nil_r by (by intros ?).
      apply filter_id. intros x Hx ->. done.
    + by apply delete_insert_id.
    + by apply delete_insert_id.
  - intros u Hu. unfold removeVertex_body. case_decide as Hne.
    + rewrite Hnv. simpl.
      change (vertexSet g1) with (vertexSet g ++ [nv]) in Hu.
      apply elem_of_app in Hu as [Hu|Hu];
        [|apply list_elem_of_singleton in Hu; congruence].
      apply (wf_alloc g Hwf) in Hu as [vu Hvu].
      assert (vheap g1 !! u = Some vu) as Hvu1.
      { unfold g1. simpl. by rewrite lookup_insert_ne by congruence. }
      rewrite (Vertex_removeEdge_none u k g1 vu Hwf' Hvu1); [done|].
      intros e Hin (ed & He & Hd). change (eheap g1 !! e) with (eheap g !! e) in He.
      destruct (wf_edge g Hwf e ed He) as (_ & vd & _ & Hvd & _).
      assert (key_of g1 (dest ed) = info vd) as Hkd.
      { unfold key_of, g1. simpl. rewrite lookup_insert_ne by congruence. by rewrite Hvd. }
      apply (wf_findVertex_None g k (dest ed) vd Hwf Hf Hvd). congruence.
    + assert (u = nv) as -> by (by destruct (decide (u = nv))).
      unfold Vertex_removeOutgoingEdges. by rewrite Hnv.
Qed.

Lemma addVertex_removeVertex_witness :
  removeVertex 4 (snd (addVertex 4 sample_graph)) = Some (true, sample_graph).
Proof. apply (addVertex_removeVertex sample_graph 4 sample_graph_wf). by vm_compute. Defined.

Lemma Vertex_with_eq v la li la' li' :
  la' = adj v → li' = incoming v →
  with_incoming li' (with_adj la' (with_incoming li (with_adj la v))) = v.
Proof. intros -> ->. by destruct v. Qed.

(** Adding an edge between two keys that had none and removing it again
    gives back the state, object by object. *)
Theorem addEdge_removeEdge (g : Graph) (s d : Z) (w : double) :
  wf g → is_Some (findVertex s g) → is_Some (findVertex d g) → ¬ has_edge g s d →
  ∃ g1, addEdge s d w g = Some (true, g1) ∧ removeEdge s d g1 = Some (true, g).
Proof.
  intros Hwf [v1 H1] [v2 H2] Hno.
  destruct (addEdge_exact g s d w v1 v2 Hwf H1 H2)
    as (g1 & e & Hrun & Hwf1 & Hfresh & HVS & HVM & HE & HV).
  destruct (wf_findVertex_Some g s v1 Hwf H1) as (_ & vv1 & Hv1 & Hk1).
  destruct (wf_findVertex_Some g d v2 Hwf H2) as (_ & vv2 & Hv2 & Hk2).
  exists g1. split; [done|].
  assert (∀ p, info <$> vheap g1 !! p = info <$> vheap g !! p) as Hinfo.
  { intros p. rewrite HV. by destruct (vheap g !! p). }
  set (vu1 := addEdge_upd v1 v2 e v1 vv1).
  assert (vheap g1 !! v1 = Some vu1) as Hvu1 by (by rewrite HV, Hv1).
  assert (adj vu1 = adj vv1 ++ [e]) as Hadj1.
  { unfold vu1. simpl. by rewrite decide_True. }
  assert (eheap g1 !! e = Some (Edge_new v1 v2 w)) as He by (by rewrite HE, lookup_insert_eq).
  assert (edge_to g1 d e) as Htoe.
  { exists (Edge_new v1 v2 w). split; [done|]. simpl.
    rewrite (key_of_info g g1 Hinfo). by rewrite (key_of_lookup _ _ _ Hv2). }
  assert (∀ e', e' ≠ e → eheap g1 !! e' = eheap g !! e') as Hother.
  { intros e' Hne. by rewrite HE, lookup_insert_ne. }
  assert (∀ e', e' ∈ adj vv1 → e' ≠ e ∧ ¬ edge_to g1 d e') as Hold.
  { intros e' Hin. destruct (wf_adj g Hwf v1 vv1 e' Hv1 Hin) as (ed' & He' & Ho).
    assert (e' ≠ e) as Hne by (intros ->; congruence). split; [done|].
    intros (ed'' & He'' & Hd''). rewrite Hother in He'' by done.
    rewrite (key_of_info g g1 Hinfo) in Hd''. apply Hno.
    apply (has_edge_first g s d Hwf). exists v1, vv1, e'.
    split; [done|]. split; [done|]. split; [done|]. by exists ed''. }
  unfold removeEdge, findVertex. rewrite HVM. unfold findVertex in H1. rewrite H1.
  destruct (Vertex_removeEdge_exact v1 d g1 vu1 Hwf1 Hvu1)
    as (b & g2 & -> & _ & HVS2 & HVM2 & Hb & HE2 & HV2).
  assert (b = true) as ->.
  { apply Hb. exists e. split; [|done]. rewrite Hadj1. apply elem_of_app. right. by left. }
  f_equal. f_equal. apply Graph_eq; [congruence|congruence| |].
  - intros p. rewrite HV2, HV. destruct (vheap g !! p) as [v|] eqn:Hp; [|done].
    simpl. f_equal. unfold removeEdge_upd at 1, addEdge_upd at 2 3 4.
    apply Vertex_with_eq; simpl.
    + destruct (decide (p = v1)) as [->|Hne]; [|by rewrite app_nil_r].
      assert (v = vv1) as -> by congruence.
      rewrite decide_True by done.
      rewrite filter_app, filter_cons_False, filter_nil, app_nil_r by tauto.
      apply filter_id. intros e' Hin. by apply Hold.
    + destruct (decide (p = v2)) as [->|Hne].
      * assert (v = vv2) as -> by congruence.
        rewrite decide_True by done.
        rewrite filter_app, filter_cons_False, filter_nil, app_nil_r.
        2:{ intros Hn. apply Hn. unfold leaves. by rewrite He. }
        apply filter_id. intros e' Hin Hl.
        destruct (wf_incoming g Hwf v2 _ e' Hv2 Hin) as (ed' & He' & Hd').
        assert (e' ≠ e) as Hne by (intros ->; congruence).
        unfold leaves in Hl. rewrite Hother, He' in Hl by done. simpl in Hl.
        injection Hl as Ho. apply Hno. exists e', ed'. split; [done|].
        rewrite Ho, Hd'.
        by rewrite (key_of_lookup _ _ _ Hv1), (key_of_lookup _ _ _ Hv2).
      * rewrite app_nil_r. rewrite decide_False; [done|]. intros [_ Hk].
        apply Hne. apply (wf_key_inj g p v2 _ vv2 Hwf Hp Hv2). congruence.
  - intros e'. rewrite HE2. destruct (decide (e' = e)) as [->|Hne].
    + rewrite decide_True; [done|]. split; [|done].
      rewrite Hadj1. apply elem_of_app. right. by left.
    + rewrite decide_False; [by apply Hother|]. intros [Hin Hto].
      rewrite Hadj1 in Hin. apply elem_of_app in Hin as [Hin|Hin].
      * by destruct (Hold e' Hin).
      * by apply list_elem_of_singleton in Hin.
Qed.

Lemma addEdge_removeEdge_witness :
  ∃ g1, addEdge 3 1 2%float sample_graph = Some (true, g1) ∧
        removeEdge 3 1 g1 = Some (true, sample_graph).
Proof.
  apply (addEdge_removeEdge sample_graph 3 1 2%float sample_graph_wf);
    [vm_compute; eauto..|].
  rewrite (has_edge_first _ _ _ sample_graph_wf).
  intros (v & vv & e & Hf & Hv & Hin & _). vm_compute in Hf. injection Hf as <-.
  vm_compute in Hv. injection Hv as <-. by apply elem_of_nil in Hin.
Defined.

(** ** What the removal of one direction leaves behind *)

(** The edges that [removeEdge(s, d)] releases and keeps. *)
Lemma removeEdge_edges g s d :
  wf g →
  ∃ b g', removeEdge s d g = Some (b, g') ∧ wf g' ∧
    (∀ p, key_of g' p = key_of g p) ∧
    (∀ e ed, eheap g' !! e = Some ed ↔
             eheap g !! e = Some ed ∧
             ¬ (key_of g (orig ed) = s ∧ key_of g (dest ed) = d)).
Proof.
  intros Hwf. unfold removeEdge.
  destruct (findVertex s g) as [u|] eqn:Hf.
  - destruct (wf_findVertex_Some g s u Hwf Hf) as (_ & vu & Hu & Hk).
    destruct (Vertex_removeEdge_exact u d g vu Hwf Hu)
      as (b & g' & Hrun & Hwf' & HVS & HVM & Hb & HE & HV).
    rewrite Hrun. exists b, g'. split; [done|]. split; [done|]. split.
    + apply key_of_info. intros p. rewrite HV. by destruct (vheap g !! p).
    + intros e ed. rewrite HE. split.
      * case_decide as Hc; [done|]. intros He. split; [done|].
        by rewrite <- (edge_from_to g s d u vu e ed Hwf Hf Hu He).
      * intros [He Hno]. rewrite decide_False; [done|].
        by rewrite (edge_from_to g s d u vu e ed Hwf Hf Hu He).
  - exists false, g. split; [done|]. split; [done|]. split; [done|].
    intros e ed. split; [|by intros [? _]]. intros He. split; [done|].
    intros [Hs Hd]. destruct (wf_edge g Hwf e ed He) as (vo & _ & Hvo & _).
    rewrite (key_of_lookup _ _ _ Hvo) in Hs.
    assert (findVertex s g = Some (orig ed)) as Hf' by (apply wf_index; eauto).
    congruence.
Qed.

(** [removeEdge(s, d)] after [addBidirectionalEdge(s, d, w)] releases the
    edge from [s] to [d] only: its partner from [d] to [s] stays in the
    graph, and the [reverse] pointer of the partner then points to the
    released object. *)
Theorem removeEdge_leaves_reverse_dangling (g : Graph) (s d : Z) (w : double) :
  wf g → is_Some (findVertex s g) → is_Some (findVertex d g) → s ≠ d →
  ∃ g1 b g2 e ed r,
    addBidirectionalEdge s d w g = Some (true, g1) ∧
    removeEdge s d g1 = Some (b, g2) ∧
    eheap g2 !! e = Some ed ∧
    key_of g2 (orig ed) = d ∧ key_of g2 (dest ed) = s ∧
    reverse ed = Some r ∧ eheap g2 !! r = None.
Proof.
  intros Hwf [v1 H1] [v2 H2] Hsd.
  destruct (addBidirectionalEdge_present g s d w v1 v2 Hwf H1 H2)
    as (g1 & Hrun1 & Hwf1 & e1 & e2 & ed1 & ed2 & Hne & Hf1 & Hf2 & He1 & He2 & _ &
        Ho1 & Hd1 & _ & Hr1 & Ho2 & Hd2 & _ & Hr2 & HV & _).
  destruct (wf_findVertex_Some g s v1 Hwf H1) as (_ & vv1 & Hv1 & Hk1).
  destruct (wf_findVertex_Some g d v2 Hwf H2) as (_ & vv2 & Hv2 & Hk2).
  assert (∀ p, key_of g1 p = key_of g p) as Hkey1.
  { apply key_of_info. intros p. rewrite HV. by destruct (vheap g !! p). }
  destruct (removeEdge_edges g1 s d Hwf1) as (b & g2 & Hrun2 & Hwf2 & Hkey2 & Hiff).
  exists g1, b, g2, e2, ed2, e1. split; [done|]. split; [done|].
  assert (key_of g v1 = s) as Hs by (by rewrite (key_of_lookup _ _ _ Hv1)).
  assert (key_of g v2 = d) as Hd by (by rewrite (key_of_lookup _ _ _ Hv2)).
  split; [|split; [|split; [|split; [done|]]]].
  - apply Hiff. split; [done|]. rewrite !Hkey1, Ho2, Hd2. intros [? ?]. congruence.
  - by rewrite Hkey2, Hkey1, Ho2.
  - by rewrite Hkey2, Hkey1, Hd2.
  - destruct (eheap g2 !! e1) as [ed|] eqn:He; [|done].
    apply Hiff in He as [He Hno]. assert (ed = ed1) as -> by congruence.
    exfalso. apply Hno. by rewrite !Hkey1, Ho1, Hd1.
Qed.

Lemma removeEdge_leaves_reverse_dangling_witness :
  ∃ g1 b g2 e ed r,
    addBidirectionalEdge 1 3 2%float sample_graph = Some (true, g1) ∧
    removeEdge 1 3 g1 = Some (b, g2) ∧
    eheap g2 !! e = Some ed ∧
    key_of g2 (orig ed) = 3%Z ∧ key_of g2 (dest ed) = 1%Z ∧
    reverse ed = Some r ∧ eheap g2 !! r = None.
Proof.
  apply (removeEdge_leaves_reverse_dangling sample_graph 1 3 2%float sample_graph_wf);
    [vm_compute; eauto..|done].
Defined.

(** ** Links between the objects *)

(** The pointers of the vertex sequence and of the [adj] and [incoming]
    lists lead to live objects, and every live object is listed where it
    belongs. *)
Definition links_consistent (g : Graph) : Prop :=
  (∀ p, p ∈ vertexSet g ↔ is_Some (vheap g !! p)) ∧
  (∀ p v e, vheap g !! p = Some v → e ∈ adj v →
            ∃ ed, eheap g !! e = Some ed ∧ orig ed = p) ∧
  (∀ p v e, vheap g !! p = Some v → e ∈ incoming v →
            ∃ ed, eheap g !! e = Some ed ∧ dest ed = p) ∧
  (∀ e ed, eheap g !! e = Some ed →
           ∃ vo vd, vheap g !! orig ed = Some vo ∧ vheap g !! dest ed = Some vd ∧
                    e ∈ adj vo ∧ e ∈ incoming vd) ∧
  (∀ p v, vheap g !! p = Some v → NoDup (adj v)).

(** Every sequence of public mutations from the empty graph runs without
    an undefined access and leaves the links consistent: no entry of the
    vertex sequence, of an [adj] or of an [incoming] list dangles, and no
    vertex or edge object is left over outside them. *)
Theorem mutations_keep_links (ms : list mutation) :
  ∃ g, run ms empty_graph = Some g ∧ links_consistent g.
Proof.
  destruct (run_wf ms empty_graph wf_empty) as (g & Hrun & Hwf).
  exists g. split; [done|]. unfold links_consistent.
  split; [apply Hwf|]. split; [apply Hwf|]. split; [apply Hwf|].
  split; [apply Hwf|apply Hwf].
Qed.

(** * Further properties of the lookups and the setters *)

(** ** [findVertexIdx] and [getNumVertex] *)

Lemma to_int_small z : (- 2 ^ 31 ≤ z < 2 ^ 31)%Z → to_int z = z.
Proof.
  intros H. unfold to_int, UINT_MOD. rewrite Z.mod_small; lia.
Qed.

Lemma findVertexIdx_from_miss g k l : ∀ i,
  (∀ p, p ∈ l → ∃ v, vheap g !! p = Some v ∧ info v ≠ k) →
  (0 ≤ i)%Z → (i + Z.of_nat (length l) < UINT_MOD)%Z →
  findVertexIdx_from g k i l = Some (-1)%Z.
Proof.
  induction l as [|p l IH]; intros i Hl Hi Hb; simpl; [done|].
  destruct (Hl p) as (v & -> & Hk); [by left|]. simpl.
  rewrite decide_False by done. simpl in Hb.
  rewrite decide_False by lia.
  apply IH; [|lia..]. intros q Hq. apply Hl. by right.
Qed.

Lemma findVertexIdx_from_hit g k l1 p v l2 : ∀ i,
  (∀ q, q ∈ l1 → ∃ w, vheap g !! q = Some w ∧ info w ≠ k) →
  vheap g !! p = Some v → info v = k →
  (0 ≤ i)%Z → (i + Z.of_nat (length l1) < UINT_MOD)%Z →
  findVertexIdx_from g k i (l1 ++ p :: l2) = Some (to_int (i + Z.of_nat (length l1))).
Proof.
  induction l1 as [|q l1 IH]; intros i Hl Hp Hk Hi Hb; simpl.
  - rewrite Hp. simpl. rewrite decide_True by done. do 2 f_equal. lia.
  - destruct (Hl q) as (w & -> & Hkw); [by left|]. simpl.
    rewrite decide_False by done. simpl in Hb. rewrite decide_False by lia.
    rewrite IH; [do 2 f_equal; lia| |done|done|lia..].
    intros r Hr. apply Hl. by right.
Qed.

(** [findVertexIdx(k)] agrees with the index: it gives [-1] exactly when
    [findVertex(k)] finds nothing, and otherwise the position in
    [vertexSet], below [getNumVertex()], of the vertex that [findVertex(k)]
    gives.  The positions are those of an [int]: the graph has fewer than
    [2^31] vertices. *)
Theorem findVertexIdx_agrees (g : Graph) (k : Z) :
  wf g → (Z.of_nat (length (vertexSet g)) < 2 ^ 31)%Z →
  ∃ i, findVertexIdx k g = Some i ∧
       (findVertex k g = None → i = (-1)%Z) ∧
       (∀ v, findVertex k g = Some v →
             (0 ≤ i < getNumVertex g)%Z ∧ vertexSet g !! Z.to_nat i = Some v).
Proof.
  intros Hwf Hb. unfold findVertexIdx.
  assert (getNumVertex g = Z.of_nat (length (vertexSet g))) as HN.
  { unfold getNumVertex. apply to_int_small. lia. }
  destruct (findVertex k g) as [v|] eqn:Hf.
  - destruct (wf_findVertex_Some g k v Hwf Hf) as (Hin & vv & Hv & Hk).
    apply list_elem_of_split in Hin as (l1 & l2 & HVS).
    pose proof (wf_nodup g Hwf) as Hnd. rewrite HVS in Hnd, Hb. rewrite HVS.
    rewrite length_app in Hb. simpl in Hb.
    rewrite (findVertexIdx_from_hit g k l1 v vv l2 0); [|..|done|done|lia|].
    + exists (Z.of_nat (length l1)). rewrite to_int_small by (simpl; lia).
      split; [done|]. split; [done|]. intros v' Hv'. assert (v' = v) as -> by congruence.
      rewrite HN, HVS, length_app, Nat2Z.id. simpl. split; [lia|].
      by rewrite list_lookup_middle.
    + intros q Hq.
      assert (q ∈ vertexSet g) as Hqg by (rewrite HVS; set_solver).
      apply (wf_alloc g Hwf) in Hqg as [w Hw]. exists w. split; [done|].
      intros Hkw. assert (q = v) as ->.
      { apply (wf_key_inj g q v w vv Hwf Hw Hv). congruence. }
      apply NoDup_app in Hnd as (_ & Hnd & _). apply (Hnd v Hq). by left.
    + unfold UINT_MOD. lia.
  - exists (-1)%Z. split; [|split; [done|by intros v ?]].
    apply findVertexIdx_from_miss; [|lia|unfold UINT_MOD; lia].
    intros p Hp. apply (wf_alloc g Hwf) in Hp as [v Hv]. exists v. split; [done|].
    by eapply wf_findVertex_None.
Qed.

Lemma findVertexIdx_agrees_witness :
  ∃ i, findVertexIdx 2 sample_graph = Some i ∧
       (findVertex 2 sample_graph = None → i = (-1)%Z) ∧
       (∀ v, findVertex 2 sample_graph = Some v →
             (0 ≤ i < getNumVertex sample_graph)%Z ∧
             vertexSet sample_graph !! Z.to_nat i = Some v).
Proof. apply (findVertexIdx_agrees sample_graph 2 sample_graph_wf). by vm_compute. Defined.

(** ** [resetNodes] *)

(** [Graph::resetNodes]: [visited] is cleared in every vertex of
    [vertexSet]. *)
Definition resetNodes (g : Graph) : option Graph :=
  foldM (λ g v, setVisited v false g) g (vertexSet g).

Lemma resetNodes_loop l : ∀ g,
  (∀ p, p ∈ l → is_Some (vheap g !! p)) →
  ∃ g', foldM (λ g v, setVisited v false g) g l = Some g' ∧
        vertexSet g' = vertexSet g ∧ vertexMap g' = vertexMap g ∧ eheap g' = eheap g ∧
        ∀ q, vheap g' !! q =
             (if decide (q ∈ l) then with_visited false else id) <$> vheap g !! q.
Proof.
  induction l as [|p l IH]; intros g Hl; simpl.
  - exists g. repeat (split; [done|]). intros q. by destruct (vheap g !! q).
  - destruct (Hl p) as [v Hv]; [by left|].
    assert (setVisited p false g = Some (store_vertex p (with_visited false v) g)) as ->.
    { unfold setVisited. by rewrite Hv. }
    destruct (IH (store_vertex p (with_visited false v) g)) as (g' & -> & HS & HM & HE & HV).
    { intros q Hq. unfold store_vertex. simpl. destruct (decide (q = p)) as [->|Hne].
      - rewrite lookup_insert_eq. eauto.
      - rewrite lookup_insert_ne by done. apply Hl. by right. }
    exists g'. split; [done|]. repeat (split; [done|]). intros q. rewrite HV.
    unfold store_vertex. simpl. destruct (decide (q = p)) as [->|Hne].
    + rewrite lookup_insert_eq, Hv. simpl. rewrite (decide_True (P := p ∈ p :: l)) by set_solver.
      case_decide; by destruct v.
    + rewrite lookup_insert_ne by done.
      destruct (decide (q ∈ l)) as [Hq|Hq].
      * rewrite decide_True by set_solver. done.
      * rewrite decide_False by set_solver. done.
Qed.

(** [resetNodes()] clears [visited] in every vertex and changes nothing
    else: no other field of a vertex, no edge, neither the vertex list nor
    the index.  A second call changes nothing. *)
Theorem resetNodes_clears (g : Graph) :
  wf g →
  ∃ g', resetNodes g = Some g' ∧
        vertexSet g' = vertexSet g ∧ vertexMap g' = vertexMap g ∧ eheap g' = eheap g ∧
        vheap g' = with_visited false <$> vheap g ∧
        (∀ p, is_visited g' p = false) ∧
        resetNodes g' = Some g'.
Proof.
  intros Hwf.
  assert (Hrun : ∀ g, (∀ p, p ∈ vertexSet g ↔ is_Some (vheap g !! p)) →
    ∃ g', resetNodes g = Some g' ∧
          vertexSet g' = vertexSet g ∧ vertexMap g' = vertexMap g ∧ eheap g' = eheap g ∧
          vheap g' = with_visited false <$> vheap g).
  { clear g Hwf. intros g Halloc.
    destruct (resetNodes_loop (vertexSet g) g) as (g' & Hrun & HS & HM & HE & HV).
    { intros p Hp. by apply Halloc. }
    exists g'. repeat (split; [done|]). apply map_eq. intros q.
    rewrite HV, lookup_fmap. case_decide as Hq; [done|].
    destruct (vheap g !! q) as [v|] eqn:Hv; [|done]. destruct Hq. apply Halloc. eauto. }
  destruct (Hrun g (wf_alloc g Hwf)) as (g' & Hr & HS & HM & HE & HV).
  exists g'. repeat (split; [done|]). split.
  - intros p. unfold is_visited. rewrite HV, lookup_fmap.
    by destruct (vheap g !! p).
  - destruct (Hrun g') as (g'' & Hr' & HS' & HM' & HE' & HV').
    { intros p. rewrite HS, HV, lookup_fmap, fmap_is_Some. apply Hwf. }
    rewrite Hr'. f_equal. destruct g', g''. simpl in *. subst. f_equal.
    rewrite <- map_fmap_compose. apply map_fmap_ext. intros p v _. by destruct v.
Qed.

Lemma resetNodes_clears_witness :
  ∃ g', resetNodes sample_graph = Some g' ∧
        vertexSet g' = vertexSet sample_graph ∧ vertexMap g' = vertexMap sample_graph ∧
        eheap g' = eheap sample_graph ∧
        vheap g' = with_visited false <$> vheap sample_graph ∧
        (∀ p, is_visited g' p = false) ∧
        resetNodes g' = Some g'.
Proof. exact (resetNodes_clears sample_graph sample_graph_wf). Defined.

(** ** [Vertex::setInfo] *)

Definition with_info (k : Z) (v : Vertex) : Vertex :=
  mkVertex (queueIndex v) k (adj v) (visited v) (processing v) (indegree v)
           (dist v) (path v) (incoming v).

(** [v->setInfo(k)] *)
Definition setInfo (p : vptr) (k : Z) (g : Graph) : option Graph :=
  v ← vheap g !! p; Some (store_vertex p (with_info k v) g).

(** [setInfo] assigns the key of a vertex and nothing else: the index still
    has the vertex under its old key [k].  After [findVertex(k)->setInfo(k')]
    with another key, [findVertex(k)] gives the vertex although its key is
    [k'], [findVertex(k')] gives what it gave before, [findVertexIdx(k)]
    gives [-1], and the index is no longer in step with the vertices. *)
Theorem setInfo_leaves_index (g : Graph) (k k' : Z) (v : vptr) :
  wf g → (Z.of_nat (length (vertexSet g)) < 2 ^ 31)%Z →
  findVertex k g = Some v → k' ≠ k →
  ∃ g', setInfo v k' g = Some g' ∧
        findVertex k g' = Some v ∧ key_of g' v = k' ∧
        findVertex k' g' = findVertex k' g ∧
        findVertexIdx k g' = Some (-1)%Z ∧
        ¬ index_synced g'.
Proof.
  intros Hwf Hb Hf Hne.
  destruct (wf_findVertex_Some g k v Hwf Hf) as (Hin & vv & Hv & Hk).
  unfold setInfo. rewrite Hv. simpl. eexists. split; [done|].
  split; [done|]. split.
  { unfold key_of, store_vertex. simpl. by rewrite lookup_insert_eq. }
  split; [done|]. split.
  - unfold findVertexIdx. simpl. apply findVertexIdx_from_miss; [|lia|unfold UINT_MOD; lia].
    intros p Hp. simpl. destruct (decide (p = v)) as [->|Hpv].
    + rewrite lookup_insert_eq. eexists. split; [done|]. done.
    + rewrite lookup_insert_ne by done.
      apply (wf_alloc g Hwf) in Hp as [w Hw]. exists w. split; [done|].
      intros Hkw. apply Hpv. apply (wf_key_inj g p v w vv Hwf Hw Hv). congruence.
  - intros (_ & Hidx & _). destruct (Hidx k v) as (w & Hw & Hkw); [done|].
    simpl in Hw. rewrite lookup_insert_eq in Hw. injection Hw as <-. simpl in Hkw. done.
Qed.

Lemma setInfo_leaves_index_witness :
  ∃ g', setInfo 2%positive 7 sample_graph = Some g' ∧
        findVertex 2 g' = Some 2%positive ∧ key_of g' 2%positive = 7%Z ∧
        findVertex 7 g' = findVertex 7 sample_graph ∧
        findVertexIdx 2 g' = Some (-1)%Z ∧
        ¬ index_synced g'.
Proof.
  apply (setInfo_leaves_index sample_graph 2 7 2%positive sample_graph_wf).
  - by vm_compute.
  - by vm_compute.
  - done.
Defined.

(** ** What [removeVertex] leaves alone *)

(** [u->removeEdge(k)] keeps the lookup of every pair whose second key is
    not [k]. *)
Lemma Vertex_removeEdge_weights u k g vu b g' :
  wf g → vheap g !! u = Some vu → Vertex_removeEdge u k g = Some (b, g') →
  ∀ s d, d ≠ k → getEdgeWeight s d g' = getEdgeWeight s d g.
Proof.
  intros Hwf Hu Hrun0 s d Hd.
  destruct (Vertex_removeEdge_exact u k g vu Hwf Hu)
    as (b' & g'' & Hrun & Hwf' & HVS & HVM & Hb & HE & HV).
  rewrite Hrun0 in Hrun. injection Hrun as <- <-.
  assert (∀ p, info <$> vheap g' !! p = info <$> vheap g !! p) as Hinfo.
  { intros p. rewrite HV. by destruct (vheap g !! p). }
  unfold getEdgeWeight, findVertex. rewrite HVM.
  destruct (vertexMap g !! s) as [v'|] eqn:Hf'; [|done].
  destruct (wf_findVertex_Some g s v' Hwf Hf') as (_ & vv' & Hv' & Hk').
  rewrite HV, Hv'. simpl. destruct (decide (v' = u)) as [->|Hne].
  - assert (vv' = vu) as -> by congruence.
    rewrite (getEdgeWeight_scan_ext g g').
    + apply getEdgeWeight_scan_filter. intros e Hin Hdrop.
      apply dec_stable in Hdrop as (ed & He & Hto).
      destruct (wf_edge_keys g e ed Hwf He) as (_ & vd & _ & Hvd & _ & Hkd).
      exists ed, vd. split; [done|]. split; [done|]. congruence.
    + intros e [Hkeep Hin]%list_elem_of_filter. rewrite HE.
      rewrite decide_False; [done|]. by intros [_ ?].
    + done.
  - apply getEdgeWeight_scan_ext; [|by intros; apply Hinfo].
    intros e Hin. rewrite HE, decide_False; [done|]. intros [Hin' _].
    destruct (wf_adj g Hwf v' vv' e Hv' Hin) as (ed & He & Ho).
    destruct (wf_adj g Hwf u vu e Hu Hin') as (ed' & He' & Ho').
    congruence.
Qed.

(** [removeOutgoingEdges] does not touch the [adj] of another vertex. *)
Lemma removeOutgoingEdges_loop_adj u todo :
  ∀ g vu g',
    wf_but (exempt u (λ _, True)) g →
    vheap g !! u = Some vu → adj vu = todo →
    removeOutgoingEdges_loop u todo g = Some g' →
    ∀ p, p ≠ u → adj <$> vheap g' !! p = adj <$> vheap g !! p.
Proof.
  induction todo as [|e rest IH]; intros g vu g' Hwf Hu Hadj Hrun p Hp.
  - simpl in Hrun. by injection Hrun as <-.
  - simpl in Hrun.
    destruct (wfb_adj _ g Hwf u vu e Hu) as (ed & He & Ho).
    { rewrite Hadj. by left. }
    rewrite Hu in Hrun. simpl in Hrun.
    destruct (erase_step_spec _ g u vu rest e ed Hwf Hu He)
      as (g2 & Hstep & HVS & HVM & HE & HV).
    rewrite Hstep in Hrun. simpl in Hrun.
    rewrite (IH g2 (erase_upd g u (dest ed) rest u vu) g'); [| | | |done|done].
    + rewrite HV. destruct (vheap g !! p) as [v|]; [|done]. simpl.
      by rewrite decide_False.
    + by eapply (erase_step_wf u _ g g2 vu [] e rest ed).
    + by rewrite HV, Hu.
    + simpl. by rewrite decide_True.
Qed.

(** [v->removeOutgoingEdges()] keeps the lookup of every pair whose first
    key is not the key of [v]. *)
Lemma Vertex_removeOutgoingEdges_weights v g vv g' :
  wf g → vheap g !! v = Some vv → Vertex_removeOutgoingEdges v g = Some g' →
  ∀ s d, s ≠ info vv → getEdgeWeight s d g' = getEdgeWeight s d g.
Proof.
  intros Hwf Hv Hrun0 s d Hs.
  destruct (Vertex_removeOutgoingEdges_spec v g Hwf (ex_intro _ vv Hv))
    as (g'' & Hrun & Hwf' & Heo & Hclean).
  rewrite Hrun0 in Hrun. injection Hrun as <-.
  unfold Vertex_removeOutgoingEdges in Hrun0. rewrite Hv in Hrun0. simpl in Hrun0.
  pose proof (removeOutgoingEdges_loop_adj v (adj vv) g vv g'
                (wf_wf_but _ g Hwf) Hv eq_refl Hrun0) as Hadj.
  unfold getEdgeWeight, findVertex. rewrite (eo_vertexMap _ _ _ Heo).
  destruct (vertexMap g !! s) as [p|] eqn:Hf; [|done].
  destruct (wf_findVertex_Some g s p Hwf Hf) as (_ & vp & Hp & Hk).
  assert (p ≠ v) as Hne by (intros ->; congruence).
  specialize (Hadj p Hne). rewrite Hp in Hadj.
  destruct (vheap g' !! p) as [vp'|] eqn:Hp'; [|done]. simpl in *.
  injection Hadj as Hadj. rewrite Hadj, Hp. simpl.
  apply getEdgeWeight_scan_ext.
  - intros e Hin. destruct (wf_adj g Hwf p vp e Hp Hin) as (ed & He & Ho).
    rewrite He. apply (eo_kept _ _ _ Heo); [done|]. intros [Ho' _]. congruence.
  - intros e ed _ _. apply (eo_keys _ _ _ Heo).
Qed.

Lemma removeVertex_loop_weights v k l :
  ∀ g, wf g → (∃ vv, vheap g !! v = Some vv ∧ info vv = k) →
       (∀ u, u ∈ l → is_Some (vheap g !! u)) →
  ∀ g', foldM (removeVertex_body v) g l = Some g' →
  ∀ s d, s ≠ k → d ≠ k → getEdgeWeight s d g' = getEdgeWeight s d g.
Proof.
  induction l as [|u l IH]; intros g Hwf (vv & Hv & Hk) Hl g' Hrun s d Hs Hd.
  - simpl in Hrun. by injection Hrun as <-.
  - simpl in Hrun.
    destruct (removeVertex_body_spec v g u Hwf (ex_intro _ vv Hv)) as (g1 & Hb & Hwf1 & Heo1 & _).
    { apply Hl. by left. }
    rewrite Hb in Hrun.
    assert (∃ vv1, vheap g1 !! v = Some vv1 ∧ info vv1 = k) as Hv1.
    { pose proof (eo_keys _ _ _ Heo1 v) as Hi. rewrite Hv in Hi.
      destruct (vheap g1 !! v) as [vv1|]; [|done]. exists vv1. split; [done|].
      simpl in Hi. congruence. }
    rewrite (IH g1 Hwf1 Hv1) with (g' := g'); [| |done|done|done].
    2:{ intros u' Hu'. eapply erased_only_alloc; [done|]. apply Hl. by right. }
    unfold removeVertex_body in Hb. case_decide as Hne.
    + rewrite Hv in Hb. simpl in Hb.
      destruct (Vertex_removeEdge u (info vv) g) as [[b g1']|] eqn:Hre; [|done].
      simpl in Hb. injection Hb as ->.
      destruct (Hl u) as [vu Hu]; [by left|].
      apply (Vertex_removeEdge_weights u (info vv) g vu b g1); [done..|congruence].
    + assert (u = v) as -> by (by destruct (decide (u = v)) as [|?]; [|done]).
      apply (Vertex_removeOutgoingEdges_weights v g vv g1); [done..|congruence].
Qed.

(** [removeVertex(k)] leaves every pair of other keys as it was: the same
    edges, and the same answer of the edge-weight lookup. *)
Theorem removeVertex_keeps_other_pairs (g : Graph) (k : Z) :
  wf g →
  ∃ b g', removeVertex k g = Some (b, g') ∧
    ∀ s d, s ≠ k → d ≠ k →
      (has_edge g' s d ↔ has_edge g s d) ∧
      getEdgeWeight s d g' = getEdgeWeight s d g.
Proof.
  intros Hwf. pose proof (removeVertex_spec g k Hwf) as Hspec.
  destruct (findVertex k g) as [v|] eqn:Hf.
  2:{ exists false, g. split; [done|]. by intros. }
  destruct Hspec as (g' & Hrun & Hwf' & Hf' & Hv' & HS & HM & HK & HE).
  exists true, g'. split; [done|]. intros s d Hs Hd.
  destruct (wf_findVertex_Some g k v Hwf Hf) as (_ & vv & Hv & Hkv).
  assert (Hkey : ∀ p, p ≠ v → key_of g' p = key_of g p).
  { intros p Hp. unfold key_of. specialize (HK p Hp).
    destruct (vheap g' !! p), (vheap g !! p); simpl in HK; congruence. }
  assert (Hends : ∀ e ed, eheap g !! e = Some ed →
            key_of g (orig ed) ≠ k → key_of g (dest ed) ≠ k → orig ed ≠ v ∧ dest ed ≠ v).
  { intros e ed He Ho Hde. rewrite <- Hkv, <- (key_of_lookup g v vv Hv) in Ho, Hde.
    split; congruence. }
  split.
  - split; intros (e & ed & He & Ho & Hde); exists e, ed.
    + apply HE in He as (He & Hov & Hdv). by rewrite !Hkey in Ho, Hde.
    + subst s d. destruct (Hends e ed He Hs Hd) as [Hov Hdv].
      rewrite !Hkey by done. split; [|done]. by apply HE.
  - unfold removeVertex in Hrun. unfold findVertex in Hf. rewrite Hf in Hrun.
    destruct (foldM (removeVertex_body v) g (vertexSet g)) as [g1|] eqn:Hloop; [|done].
    simpl in Hrun. injection Hrun as <-.
    rewrite <- (removeVertex_loop_weights v k (vertexSet g) g Hwf) with (g' := g1);
      [|eauto|by intros u; apply (wf_alloc g Hwf)|done..].
    destruct (removeVertex_loop_spec v (vertexSet g) g Hwf) as (g1' & Hl' & Hwf1 & Heo & Hc).
    { eauto. } { intros u. apply (wf_alloc g Hwf). }
    rewrite Hloop in Hl'. injection Hl' as <-.
    unfold getEdgeWeight, findVertex. simpl. rewrite lookup_delete_ne by done.
    destruct (vertexMap g1 !! s) as [p|] eqn:Hp; [|done].
    assert (p ≠ v) as Hne.
    { intros ->. rewrite (eo_vertexMap _ _ _ Heo) in Hp.
      apply (wf_index g Hwf) in Hp as (vp & Hvp & Hkp). congruence. }
    rewrite lookup_delete_ne by done.
    destruct (vheap g1 !! p) as [vp|] eqn:Hvp; [|done]. simpl.
    apply getEdgeWeight_scan_ext; [done|]. intros e ed Hin He. simpl.
    rewrite lookup_delete_ne; [done|]. intros Hdv.
    apply (Hc e ed He); [|by right].
    destruct (wf_edge g1 Hwf1 e ed He) as (vo & _ & Ho & _).
    rewrite <- (eo_vertexSet _ _ _ Heo). apply (wf_alloc g1 Hwf1). eauto.
Qed.

Lemma removeVertex_keeps_other_pairs_witness :
  ∃ b g', removeVertex 3 sample_graph = Some (b, g') ∧
    ∀ s d, s ≠ 3%Z → d ≠ 3%Z →
      (has_edge g' s d ↔ has_edge sample_graph s d) ∧
      getEdgeWeight s d g' = getEdgeWeight s d sample_graph.
Proof. exact (removeVertex_keeps_other_pairs sample_graph 3 sample_graph_wf). Defined.

(** ** [Vertex::removeOutgoingEdges] *)

(** [v->removeOutgoingEdges()] releases exactly the edges that leave [v]:
    afterwards [v] has an empty [adj], every lookup of a weight from the
    key of [v] gives the sentinel, and every lookup from another key gives
    what it gave before. *)
Theorem removeOutgoingEdges_clears (g : Graph) (v : vptr) :
  wf g → is_Some (vheap g !! v) →
  ∃ g', Vertex_removeOutgoingEdges v g = Some g' ∧ wf g' ∧
    vertexSet g' = vertexSet g ∧ keys g' = keys g ∧
    (∀ e ed, eheap g' !! e = Some ed ↔ eheap g !! e = Some ed ∧ orig ed ≠ v) ∧
    adj <$> vheap g' !! v = Some [] ∧
    (∀ d, getEdgeWeight (key_of g v) d g' = Some DBL_MAX) ∧
    (∀ s d, s ≠ key_of g v → getEdgeWeight s d g' = getEdgeWeight s d g).
Proof.
  intros Hwf [vv Hv]. rewrite (key_of_lookup g v vv Hv).
  destruct (Vertex_removeOutgoingEdges_spec v g Hwf (ex_intro _ vv Hv))
    as (g' & Hrun & Hwf' & Heo & Hclean).
  exists g'. split; [done|]. split; [done|].
  split; [apply Heo|]. split; [apply keys_info; apply Heo|].
  assert (∃ vv', vheap g' !! v = Some vv' ∧ info vv' = info vv ∧ adj vv' = []) as Hv'.
  { pose proof (eo_keys _ _ _ Heo v) as Hi. rewrite Hv in Hi.
    destruct (vheap g' !! v) as [vv'|] eqn:Hv'; [|done]. simpl in Hi.
    exists vv'. split; [done|]. split; [congruence|].
    destruct (adj vv') as [|e l] eqn:Hadj; [done|].
    destruct (wf_adj g' Hwf' v vv' e Hv') as (ed & He & Ho); [rewrite Hadj; by left|].
    by destruct (Hclean e ed He). }
  destruct Hv' as (vv' & Hv' & Hi' & Hadj').
  split; [|split; [|split]].
  - intros e ed. split.
    + intros He. split; [by apply (eo_sub _ _ _ Heo)|].
      intros Ho. by apply (Hclean e ed He).
    + intros [He Ho]. apply (eo_kept _ _ _ Heo); [done|]. by intros [? _].
  - rewrite Hv'. simpl. by rewrite Hadj'.
  - intros d. unfold getEdgeWeight, findVertex. rewrite (eo_vertexMap _ _ _ Heo).
    assert (vertexMap g !! info vv = Some v) as -> by (apply (wf_index g Hwf); eauto).
    rewrite Hv'. simpl. by rewrite Hadj'.
  - by apply (Vertex_removeOutgoingEdges_weights v g vv g').
Qed.

Lemma removeOutgoingEdges_clears_witness :
  ∃ g', Vertex_removeOutgoingEdges 1%positive sample_graph = Some g' ∧ wf g' ∧
    vertexSet g' = vertexSet sample_graph ∧ keys g' = keys sample_graph ∧
    (∀ e ed, eheap g' !! e = Some ed ↔
             eheap sample_graph !! e = Some ed ∧ orig ed ≠ 1%positive) ∧
    adj <$> vheap g' !! 1%positive = Some [] ∧
    (∀ d, getEdgeWeight (key_of sample_graph 1%positive) d g' = Some DBL_MAX) ∧
    (∀ s d, s ≠ key_of sample_graph 1%positive →
            getEdgeWeight s d g' = getEdgeWeight s d sample_graph).
Proof.
  apply (removeOutgoingEdges_clears sample_graph 1%positive sample_graph_wf).
  vm_compute. eauto.
Defined.

(** * Further properties of the traversals *)

(** ** What a depth-first visit reaches *)

Section PureDFS_reach.
Variable succ : vptr → list vptr.

Lemma reachable_step u w x : w ∈ succ u → reachable succ w x → reachable succ u x.
Proof.
  intros Hw [n Hn]. exists (1 + n).
  apply (hops_trans succ 1 n u w x); [|done].
  apply (hops_S succ 0 u u w); [constructor|done].
Qed.

(** The loop over the successors adds vertices that are reached from the
    successors, and every successor of an added vertex is visited when the
    loop is over. *)
Lemma pdfs_scan_reach fuel :
  (∀ v st st', pdfs succ fuel v st = Some st' →
     ∃ l, st' = (st.1 ++ v :: l, st.2 ∪ list_to_set (v :: l)) ∧
          (∀ x, x ∈ l → reachable succ v x) ∧
          (∀ x w, x ∈ v :: l → w ∈ succ x → w ∈ st'.2)) →
  ∀ ws st st', foldM (pdfs_scan (pdfs succ fuel)) st ws = Some st' →
    ∃ l, st' = (st.1 ++ l, st.2 ∪ list_to_set l) ∧
         (∀ x, x ∈ l → ∃ w, w ∈ ws ∧ reachable succ w x) ∧
         (∀ x w, x ∈ l → w ∈ succ x → w ∈ st'.2) ∧
         (∀ w, w ∈ ws → w ∈ st'.2).
Proof.
  intros IH ws. induction ws as [|w ws IHws]; intros [res S] st'; simpl.
  - intros [= <-]. exists []. split; [f_equal; [by rewrite app_nil_r|set_solver]|].
    split; [by intros x ?%elem_of_nil|]. split; [by intros x ? ?%elem_of_nil|].
    by intros w ?%elem_of_nil.
  - unfold pdfs_scan at 1. simpl. case_decide as Hw.
    + intros Hrun. destruct (IHws _ _ Hrun) as (l & -> & Hreach & Hclosed & Hws).
      exists l. split; [done|]. split; [|split; [done|]].
      * intros x Hx. destruct (Hreach x Hx) as (w' & Hw' & Hr). exists w'.
        split; [by right|done].
      * simpl in *. intros w' [->|Hw']%elem_of_cons; [set_solver|by apply Hws].
    + destruct (pdfs succ fuel w (res, S)) as [st1|] eqn:Hsub; [|done]. intros Hrun.
      destruct (IH _ _ _ Hsub) as (l1 & -> & Hreach1 & Hclosed1). simpl in *.
      destruct (IHws _ _ Hrun) as (l2 & -> & Hreach2 & Hclosed2 & Hws). simpl in *.
      exists ((w :: l1) ++ l2). split; [f_equal; [by rewrite app_assoc|set_solver]|].
      split; [|split].
      * intros x [[Hx|Hx]%elem_of_cons|Hx]%elem_of_app.
        -- exists w. split; [by left|]. subst x. exists 0. constructor.
        -- exists w. split; [by left|by apply Hreach1].
        -- destruct (Hreach2 x Hx) as (w' & Hw' & Hr). exists w'. split; [by right|done].
      * intros x w' [Hx|Hx]%elem_of_app Hw'; [|by eapply Hclosed2].
        specialize (Hclosed1 x w' Hx Hw'). set_solver.
      * intros w' [->|Hw']%elem_of_cons; [set_solver|by apply Hws].
Qed.

Lemma pdfs_reach fuel :
  ∀ v st st', pdfs succ fuel v st = Some st' →
    ∃ l, st' = (st.1 ++ v :: l, st.2 ∪ list_to_set (v :: l)) ∧
         (∀ x, x ∈ l → reachable succ v x) ∧
         (∀ x w, x ∈ v :: l → w ∈ succ x → w ∈ st'.2).
Proof.
  induction fuel as [|fuel IH]; intros v [res S] st'; simpl; [done|]. intros Hrun.
  destruct (pdfs_scan_reach fuel IH _ _ _ Hrun) as (l & -> & Hreach & Hclosed & Hws).
  simpl in *. exists l. split; [f_equal; [by rewrite <- app_assoc|set_solver]|].
  split.
  - intros x Hx. destruct (Hreach x Hx) as (w & Hw & Hr). by eapply reachable_step.
  - intros x w [->|Hx]%elem_of_cons Hw; [by apply Hws|by eapply Hclosed].
Qed.

(** A visit that starts with nothing visited lists the vertices that can be
    reached from its root, the root first. *)
Lemma pdfs_reach_all fuel v st' :
  pdfs succ fuel v ([], ∅) = Some st' →
  ∃ l, st'.1 = v :: l ∧ ∀ x, x ∈ v :: l ↔ reachable succ v x.
Proof.
  intros Hrun. destruct (pdfs_reach fuel v _ _ Hrun) as (l & -> & Hreach & Hclosed).
  simpl in *. exists l. split; [done|]. intros x. split.
  - intros [->|Hx]%elem_of_cons; [exists 0; constructor|by apply Hreach].
  - intros [n Hn]. induction Hn as [|n u y w Hn IHn Hw]; [by left|].
    specialize (IHn Hrun Hreach Hclosed).
    specialize (Hclosed y w IHn Hw). set_solver.
Qed.
End PureDFS_reach.

(** ** The traversals on a state of known structure

    A traversal on a state [g] whose structure is that of [g0] returns what
    the traversal on successor lists returns for [g0], whatever the scratch
    fields of [g] hold when it starts. *)

Lemma structure_alloc g g' p :
  structure g' = structure g → is_Some (vheap g' !! p) → is_Some (vheap g !! p).
Proof.
  intros Hstr Hp. pose proof (structure_lookup g g' p Hstr) as H.
  destruct Hp as [v Hv]. rewrite Hv in H. destruct (vheap g !! p); [eauto|done].
Qed.

Lemma resetVisited_on g0 g :
  wf g0 → structure g = structure g0 →
  ∃ g1, resetVisited g = Some g1 ∧ structure g1 = structure g0 ∧ visited_as g1 ∅.
Proof.
  intros Hwf Hstr. unfold resetVisited. rewrite (structure_vertexSet g0 g Hstr).
  destruct (resetVisited_loop g0 (vertexSet g0) Hwf (λ p H, H) g Hstr)
    as (g1 & Hrun & Hstr1 & Hv & _).
  exists g1. split; [done|]. split; [done|].
  intros q. split; [|set_solver]. intros Hq. exfalso.
  rewrite Hv in Hq. case_decide as Hin; [done|]. apply Hin.
  apply (wf_alloc g0 Hwf), (structure_alloc g0 g q Hstr). by apply is_visited_alloc.
Qed.

Lemma dfs_on g0 g :
  wf g0 → structure g = structure g0 →
  ∃ g' resp S,
    dfs g = Some (key_of g0 <$> resp, g') ∧
    foldM (pdfs_root (succs g0) (length (vertexSet g0))) ([], ∅) (vertexSet g0)
      = Some (resp, S) ∧
    structure g' = structure g0.
Proof.
  intros Hwf Hstr. unfold dfs. rewrite (structure_vertexSet g0 g Hstr).
  destruct (resetVisited_on g0 g Hwf Hstr) as (g1 & -> & Hstr1 & Hvis1). simpl.
  destruct (pdfs_forest (succs g0) (vertexSet g0) (succs_closed g0 Hwf) (vertexSet g0)
              (wf_nodup g0 Hwf) (λ r H, H) ([], ∅))
    as ([resp S] & Hpure & _); simpl.
  { constructor. } { done. } { by intros x ?%elem_of_nil. }
  destruct (foldM_sim (dfs_rel g0) id (λ v, v ∈ vertexSet g0)
              (dfs_root (length (vertexSet g0)))
              (pdfs_root (succs g0) (length (vertexSet g0))) (vertexSet g0))
    with (s1 := ([] : list Z, g1)) (s2 := ([] : list vptr, ∅ : gset vptr))
         (s2' := (resp, S)) as ([res g'] & Hrun & Hres & Hstr' & _).
  - by apply Forall_forall.
  - intros v s1 s2 s2' Hv HR Hstep. by apply (dfs_root_sim g0 _ v s1 s2 s2').
  - done.
  - by rewrite list_fmap_id.
  - simpl in *. exists g', resp, S. by rewrite <- Hres.
Qed.

Lemma dfs_from_on g0 g s v :
  wf g0 → structure g = structure g0 → findVertex s g0 = Some v →
  ∃ g' resp S,
    dfs_from s g = Some (key_of g0 <$> resp, g') ∧
    pdfs (succs g0) (length (vertexSet g0)) v ([], ∅) = Some (resp, S) ∧
    structure g' = structure g0.
Proof.
  intros Hwf Hstr Hf. unfold dfs_from, findVertex.
  rewrite (structure_vertexMap g0 g Hstr), (structure_vertexSet g0 g Hstr).
  unfold findVertex in Hf. rewrite Hf.
  destruct (wf_findVertex_Some g0 s v Hwf Hf) as (Hv & _).
  destruct (resetVisited_on g0 g Hwf Hstr) as (g1 & -> & Hstr1 & Hvis1). simpl.
  destruct (pdfs_spec (succs g0) (vertexSet g0) (succs_closed g0 Hwf)
              (length (vertexSet g0)) v ([], ∅)) as ([resp S] & l & Hpure & _ & _).
  { done. } { set_solver. } { apply unvisited_le_length, Hwf. }
  destruct (dfsVisit_sim g0 (length (vertexSet g0)) Hwf v ([], g1) ([], ∅) (resp, S))
    as ([res g'] & Hrun & Hres & Hstr' & _); [by split|done|done|].
  simpl in *. exists g', resp, S. by rewrite <- Hres.
Qed.

Lemma bfs_on g0 g s v :
  wf g0 → structure g = structure g0 → findVertex s g0 = Some v →
  ∃ g' resL S,
    bfs s g = Some (key_of g0 <$> resL.*1, g') ∧
    pbfs_loop (succs g0) (length (vertexSet g0)) [(v, 0)] [] {[v]} = Some (resL, S) ∧
    structure g' = structure g0.
Proof.
  intros Hwf Hstr Hf. unfold bfs, findVertex.
  rewrite (structure_vertexMap g0 g Hstr), (structure_vertexSet g0 g Hstr).
  unfold findVertex in Hf. rewrite Hf.
  destruct (wf_findVertex_Some g0 s v Hwf Hf) as (Hv & _).
  destruct (resetVisited_on g0 g Hwf Hstr) as (g1 & -> & Hstr1 & Hvis1). simpl.
  destruct (view_setVisited g0 Hwf g1 v true Hstr1 Hv) as (g2 & -> & Hstr2 & Hvis2 & _).
  simpl.
  destruct (pbfs_spec (succs g0) (vertexSet g0) (succs_closed g0 Hwf) v
              (wf_nodup g0 Hwf) Hv) as (resL & S & Hpure & _).
  destruct (bfs_loop_sim g0 (length (vertexSet g0)) Hwf [v] [] g2 [(v, 0)] [] {[v]}
              (resL, S)) as (g' & Hrun & Hstr').
  { split; [done|]. split; [done|]. split.
    - pose proof (visited_as_set g1 g2 ∅ v Hvis1 Hvis2) as H.
      intros p. rewrite (H p). set_solver.
    - simpl. by intros x ->%list_elem_of_singleton. }
  { done. } { done. }
  simpl in Hrun. by exists g', resL, S.
Qed.

Lemma isDAG_on g0 g :
  wf g0 → structure g = structure g0 →
  ∃ b g' st,
    isDAG g = Some (b, g') ∧
    pdag_loop (succs g0) (length (vertexSet g0)) (vertexSet g0) (∅, ∅) = Some (b, st) ∧
    structure g' = structure g0.
Proof.
  intros Hwf Hstr. unfold isDAG. rewrite (structure_vertexSet g0 g Hstr).
  destruct (resetColours_loop g0 (vertexSet g0) Hwf (λ p H, H) g Hstr)
    as (g1 & -> & Hstr1 & Hv1 & Hp1).
  simpl.
  destruct (pdag_all_spec (succs g0) (vertexSet g0) (succs_closed g0 Hwf) (wf_nodup g0 Hwf))
    as ([b st] & Hpure & _).
  destruct (isDAG_loop_sim g0 (length (vertexSet g0)) Hwf (vertexSet g0) g1 (∅, ∅) b st)
    as (g' & Hrun & Hstr' & _); [done| |done|].
  { split; [done|]. split; simpl.
    - intros q. split; [|set_solver]. intros Hq. exfalso.
      rewrite Hv1 in Hq. case_decide as Hin; [done|]. apply Hin.
      apply (wf_alloc g0 Hwf), (structure_alloc g0 g q Hstr). by apply is_visited_alloc.
    - intros q. split; [|set_solver]. intros Hq. exfalso.
      rewrite Hp1 in Hq. case_decide as Hin; [done|]. apply Hin.
      apply (wf_alloc g0 Hwf), (structure_alloc g0 g q Hstr).
      by apply is_processing_alloc. }
  by exists b, g', st.
Qed.

Lemma topsort_on g0 g :
  wf g0 → structure g = structure g0 →
  (Z.of_nat (edge_count g0) < UINT_MOD)%Z →
  ∃ g' resp deg,
    topsort g =
      Some (if decide (length resp ≠ length (vertexSet g0)) then []
            else key_of g0 <$> resp, g') ∧
    ptop_loop (succs g0) (length (vertexSet g0))
      (filter (λ v, ptop_init (succs g0) (vertexSet g0) v = 0%Z) (vertexSet g0)) []
      (ptop_init (succs g0) (vertexSet g0)) = Some (resp, deg) ∧
    structure g' = structure g0.
Proof.
  intros Hwf Hstr Hbound. unfold topsort. rewrite (structure_vertexSet g0 g Hstr).
  destruct (topsort_zero_loop g0 (vertexSet g0) Hwf (λ p H, H) g Hstr)
    as (g1 & -> & Hstr1 & Hd1).
  simpl.
  destruct (topsort_count_loop g0 g1 (λ _, 0%Z) Hwf) as (g2 & -> & Hstr2 & Hdeg2).
  { split; [done|]. intros p Hp. rewrite Hd1. by rewrite decide_True. }
  simpl. fold (ptop_init (succs g0) (vertexSet g0)) in Hdeg2.
  rewrite (topsort_queue_loop g0 g2 _ (vertexSet g0) Hdeg2 (λ p H, H) []). simpl.
  destruct (ptop_spec (succs g0) (vertexSet g0) (succs_closed g0 Hwf) (wf_nodup g0 Hwf)
              Hbound) as (resp & deg & Hpure & _).
  destruct (topsort_loop_sim g0 (length (vertexSet g0)) Hwf
              (filter (λ v, ptop_init (succs g0) (vertexSet g0) v = 0%Z) (vertexSet g0))
              [] g2 [] (ptop_init (succs g0) (vertexSet g0)) (resp, deg))
    as (g3 & -> & Hstr3); [|done|exact Hpure|].
  { split; [done|]. split; [by split|]. by intros x [_ ?]%list_elem_of_filter. }
  simpl. rewrite length_fmap. exists g3, resp, deg.
  split; [|done]. by case_decide.
Qed.

Lemma only_scratch_structure g g' :
  only_scratch_changed g g' → structure g' = structure g.
Proof.
  intros (HVS & HVM & HE & HV). unfold structure. rewrite HVS, HVM, HE. f_equal.
  apply map_eq. intros p. rewrite !lookup_fmap. specialize (HV p).
  destruct (vheap g !! p) as [v|], (vheap g' !! p) as [v'|]; simpl; try done.
  destruct HV as (H1 & H2 & H3 & H4 & H5 & H6). destruct v, v'. simpl in *.
  unfold clear_scratch. simpl. by subst.
Qed.

(** The result of a traversal does not depend on the scratch fields it
    finds: on two states that differ in [visited], [processing] and
    [indegree] only, as after an earlier traversal, each of the five
    traversals returns the same value. *)
Theorem traversals_ignore_scratch (g g' : Graph) (s : Z) :
  wf g → (Z.of_nat (edge_count g) < UINT_MOD)%Z → only_scratch_changed g g' →
  (∃ r g1 g2, dfs g = Some (r, g1) ∧ dfs g' = Some (r, g2)) ∧
  (∃ r g1 g2, dfs_from s g = Some (r, g1) ∧ dfs_from s g' = Some (r, g2)) ∧
  (∃ r g1 g2, bfs s g = Some (r, g1) ∧ bfs s g' = Some (r, g2)) ∧
  (∃ b g1 g2, isDAG g = Some (b, g1) ∧ isDAG g' = Some (b, g2)) ∧
  (∃ r g1 g2, topsort g = Some (r, g1) ∧ topsort g' = Some (r, g2)).
Proof.
  intros Hwf Hbound Hstr%only_scratch_structure.
  split; [|split; [|split; [|split]]].
  - destruct (dfs_on g g Hwf eq_refl) as (g1 & resp & S & H1 & Hp1 & _).
    destruct (dfs_on g g' Hwf Hstr) as (g2 & resp' & S' & H2 & Hp2 & _).
    rewrite Hp1 in Hp2. injection Hp2 as <- <-. eauto.
  - destruct (findVertex s g) as [v|] eqn:Hf.
    + destruct (dfs_from_on g g s v Hwf eq_refl Hf) as (g1 & resp & S & H1 & Hp1 & _).
      destruct (dfs_from_on g g' s v Hwf Hstr Hf) as (g2 & resp' & S' & H2 & Hp2 & _).
      rewrite Hp1 in Hp2. injection Hp2 as <- <-. eauto.
    + exists [], g, g'. unfold dfs_from, findVertex.
      rewrite (structure_vertexMap g g' Hstr). unfold findVertex in Hf. by rewrite Hf.
  - destruct (findVertex s g) as [v|] eqn:Hf.
    + destruct (bfs_on g g s v Hwf eq_refl Hf) as (g1 & resp & S & H1 & Hp1 & _).
      destruct (bfs_on g g' s v Hwf Hstr Hf) as (g2 & resp' & S' & H2 & Hp2 & _).
      rewrite Hp1 in Hp2. injection Hp2 as <- <-. eauto.
    + exists [], g, g'. unfold bfs, findVertex.
      rewrite (structure_vertexMap g g' Hstr). unfold findVertex in Hf. by rewrite Hf.
  - destruct (isDAG_on g g Hwf eq_refl) as (b & g1 & st & H1 & Hp1 & _).
    destruct (isDAG_on g g' Hwf Hstr) as (b' & g2 & st' & H2 & Hp2 & _).
    rewrite Hp1 in Hp2. injection Hp2 as <- <-. eauto.
  - destruct (topsort_on g g Hwf eq_refl Hbound) as (g1 & resp & deg & H1 & Hp1 & _).
    destruct (topsort_on g g' Hwf Hstr Hbound) as (g2 & resp' & deg' & H2 & Hp2 & _).
    rewrite Hp1 in Hp2. injection Hp2 as <- <-. eauto.
Qed.

Lemma traversals_ignore_scratch_witness :
  let g' := default sample_graph (snd <$> dfs sample_graph) in
  g' ≠ sample_graph ∧
  (∃ r g1 g2, dfs sample_graph = Some (r, g1) ∧ dfs g' = Some (r, g2)) ∧
  (∃ r g1 g2, dfs_from 1 sample_graph = Some (r, g1) ∧ dfs_from 1 g' = Some (r, g2)) ∧
  (∃ r g1 g2, bfs 1 sample_graph = Some (r, g1) ∧ bfs 1 g' = Some (r, g2)) ∧
  (∃ b g1 g2, isDAG sample_graph = Some (b, g1) ∧ isDAG g' = Some (b, g2)) ∧
  (∃ r g1 g2, topsort sample_graph = Some (r, g1) ∧ topsort g' = Some (r, g2)).
Proof.
  intros g'. split.
  - intros H. apply (f_equal (λ g, is_visited g 1%positive)) in H. by vm_compute in H.
  - apply (traversals_ignore_scratch sample_graph g' 1 sample_graph_wf).
    + by vm_compute.
    + apply structure_only_scratch. by vm_compute.
Defined.

(** ** [dfs(source)] *)

(** What [dfs(source)] visits. *)
Lemma dfs_from_visits (g : Graph) (s : Z) (v : vptr) :
  wf g → findVertex s g = Some v →
  ∃ g' l,
    dfs_from s g = Some (key_of g <$> v :: l, g') ∧
    NoDup (v :: l) ∧ (∀ p, p ∈ v :: l → p ∈ vertexSet g) ∧
    (∀ p, p ∈ v :: l ↔ reachable (succs g) v p) ∧
    structure g' = structure g.
Proof.
  intros Hwf Hf.
  destruct (wf_findVertex_Some g s v Hwf Hf) as (Hv & _).
  destruct (dfs_from_on g g s v Hwf eq_refl Hf) as (g' & resp & S & Hrun & Hpure & Hstr).
  destruct (pdfs_spec (succs g) (vertexSet g) (succs_closed g Hwf)
              (length (vertexSet g)) v ([], ∅)) as (st' & l0 & Hpure' & Hadds & _).
  { done. } { set_solver. } { apply unvisited_le_length, Hwf. }
  rewrite Hpure in Hpure'. injection Hpure' as <-.
  destruct (pdfs_reach_all (succs g) _ v _ Hpure) as (l & Hl & Hreach).
  destruct Hadds as (Heq & Hnd & Hin). simpl in *. injection Heq as -> _. subst l0.
  exists g', l. split; [done|]. split; [done|]. split; [|done].
  intros p Hp. by apply Hin.
Qed.

(** [dfs(source)] gives nothing for an absent key.  Otherwise it lists,
    without repetition and beginning with [source], the keys of the
    vertices that can be reached from it along edges. *)
Theorem dfs_from_reachable (g : Graph) (s : Z) :
  wf g →
  match findVertex s g with
  | None => dfs_from s g = Some ([], g)
  | Some v =>
      ∃ res g' resp,
        dfs_from s g = Some (res, g') ∧ res = key_of g <$> resp ∧
        NoDup res ∧ NoDup resp ∧ head res = Some s ∧
        (∀ p, p ∈ resp ↔ reachable (succs g) v p) ∧
        structure g' = structure g
  end.
Proof.
  intros Hwf. destruct (findVertex s g) as [v|] eqn:Hf.
  2:{ unfold dfs_from. by rewrite Hf. }
  destruct (wf_findVertex_Some g s v Hwf Hf) as (Hv & vv & Hvv & Hk).
  destruct (dfs_from_visits g s v Hwf Hf) as (g' & l & Hrun & Hnd & Hin & Hreach & Hstr).
  exists (key_of g <$> v :: l), g', (v :: l). split; [done|]. split; [done|].
  split; [by apply NoDup_keys_of|]. split; [done|]. split; [|done].
  simpl. by rewrite (key_of_lookup _ _ _ Hvv), Hk.
Qed.

Lemma dfs_from_reachable_witness :
  ∃ res g' resp,
    dfs_from 2 sample_graph = Some (res, g') ∧ res = key_of sample_graph <$> resp ∧
    NoDup res ∧ NoDup resp ∧ head res = Some 2%Z ∧
    (∀ p, p ∈ resp ↔ reachable (succs sample_graph) 2%positive p) ∧
    structure g' = structure sample_graph.
Proof. exact (dfs_from_reachable sample_graph 2 sample_graph_wf). Defined.

(** [bfs(source)] and [dfs(source)] visit the same vertices: their results
    are permutations of one another. *)
Theorem bfs_dfs_same_vertices (g : Graph) (s : Z) :
  wf g →
  ∃ rb gb rd gd,
    bfs s g = Some (rb, gb) ∧ dfs_from s g = Some (rd, gd) ∧ rb ≡ₚ rd.
Proof.
  intros Hwf. destruct (findVertex s g) as [v|] eqn:Hf.
  - destruct (bfs_runs g s v Hwf Hf) as (gb & resL & S & Hb & _ & Hndb & Hrb & _).
    destruct (dfs_from_visits g s v Hwf Hf) as (gd & l & Hd & Hndd & _ & Hrd & _).
    eexists _, gb, _, gd. split; [done|]. split; [done|].
    apply fmap_Permutation, NoDup_Permutation; [done|done|].
    intros p. by rewrite Hrb, Hrd.
  - exists [], g, [], g. unfold bfs, dfs_from. by rewrite Hf.
Qed.

Lemma bfs_dfs_same_vertices_witness :
  ∃ rb gb rd gd,
    bfs 1 sample_graph = Some (rb, gb) ∧ dfs_from 1 sample_graph = Some (rd, gd) ∧
    rb ≡ₚ rd.
Proof. exact (bfs_dfs_same_vertices sample_graph 1 sample_graph_wf). Defined.

(** * Further properties of [kruskalMST] and [DisjointSets] *)

(** ** [kruskalMST] on a graph that need not be connected *)

Lemma joined_has_edge g es x y :
  (∀ e, e ∈ es → ∃ p, eheap g !! p = Some e) → joined g es x y → rtsc (has_edge g) x y.
Proof.
  intros Hes. induction 1 as [|a b c [Hab|Hab] _ IH]; [done|..].
  - destruct Hab as (e & He & <- & <-). destruct (Hes e He) as (p & Hp).
    etrans; [|exact IH]. apply rtsc_lr. by exists p, e.
  - destruct Hab as (e & He & <- & <-). destruct (Hes e He) as (p & Hp).
    etrans; [|exact IH]. apply rtsc_rl. by exists p, e.
Qed.

Lemma has_edge_keys g x y : wf g → has_edge g x y → x ∈ keys g ∧ y ∈ keys g.
Proof.
  intros Hwf (p & ed & Hp & <- & <-).
  by destruct (edge_ends g p ed Hwf Hp) as (_ & _ & _ & _ & _ & _ & ? & ?).
Qed.

Lemma rtsc_has_edge_keys g x y :
  wf g → rtsc (has_edge g) x y → x ∈ keys g → y ∈ keys g.
Proof.
  intros Hwf. induction 1 as [|a b c [Hab|Hab] _ IH]; [done|..]; intros _; apply IH.
  - by destruct (has_edge_keys g a b Hwf Hab).
  - by destruct (has_edge_keys g b a Hwf Hab).
Qed.

(** [kruskalMST(source)] for a key of any graph whose weights are numbers,
    connected or not: the edges returned are copies of edges of the graph
    that lie in the part of the graph joined to [source]; they join
    [source] to every key that the edges of the graph join it to; none of
    them joins keys that the ones before it had joined; and they stand in
    the order of the sweep.  They are a spanning tree of the part of
    [source]. *)
Theorem kruskalMST_component std_sort (source : Z) (g : Graph) :
  sort_contract std_sort → wf g →
  (Z.of_nat (length (vertexSet g)) ≤ SIZE_MAX)%Z →
  (∀ p ed, eheap g !! p = Some ed → PrimFloat.is_nan (weight ed) = false) →
  source ∈ keys g →
  ∃ result, kruskalMST std_sort source g = Some result ∧
    (∀ e, e ∈ result →
       (∃ p, eheap g !! p = Some e) ∧
       rtsc (has_edge g) source (key_of g (orig e)) ∧
       rtsc (has_edge g) source (key_of g (dest e))) ∧
    (∀ x, rtsc (has_edge g) source x → joined g result source x) ∧
    (∀ l1 e l2, result = l1 ++ e :: l2 →
       ¬ joined g l1 (key_of g (orig e)) (key_of g (dest e))) ∧
    result `sublist_of` std_sort (kruskal_less g source) (edge_copies g).
Proof.
  intros Hsort Hwf Hmax Hnan Hs.
  destruct (kruskalMST_runs std_sort source g Hsort Hwf Hmax Hnan)
    as (mst & ds & rep & Hsorted & Hperm & Hgr &
        (Hm & Hcount & Hsub & Hdone & Hjoin & Hforest) & Halloc & Hres).
  simpl in *. rewrite Hres, decide_True by done.
  assert (Hedge : ∀ x y, has_edge g x y → rep x = rep y).
  { intros x y (p & ed & Hp & <- & <-). apply Hdone.
    rewrite Hperm. apply (edge_copies_spec g ed Hwf). eauto. }
  assert (Hmst : ∀ e, e ∈ mst → rep (key_of g (orig e)) = rep (key_of g (dest e))).
  { intros e He. apply Hdone. by eapply elem_of_sublist. }
  assert (Hcomp : ∀ x, rtsc (has_edge g) source x → rep x = rep source).
  { intros x. generalize source. clear -Hedge.
    induction 1 as [|a b c [Hab|Hab] _ IH]; [done|..].
    - by rewrite (Hedge a b Hab).
    - by rewrite <- (Hedge b a Hab). }
  set (P := λ e : Edge, rep (key_of g (orig e)) = rep source ∨
                        rep (key_of g (dest e)) = rep source).
  exists (filter P mst). split; [done|].
  assert (Hback : ∀ x, x ∈ keys g → rep x = rep source → rtsc (has_edge g) source x).
  { intros x Hx Hr. apply (joined_has_edge g mst); [done|].
    etrans; [by apply Hjoin|]. rewrite <- Hr. symmetry. by apply Hjoin. }
  assert (Hfilt : ∀ a b, joined g mst a b → rep b = rep source →
                         joined g (filter P mst) a b).
  { intros a b. induction 1 as [|a b c [Hab|Hab] Hbc IH]; intros Hr; [done|..].
    - destruct Hab as (e & He & <- & <-).
      etrans; [apply rtsc_lr|by apply IH].
      exists e. split; [|done]. apply list_elem_of_filter. split; [|done].
      right. rewrite <- Hr. by apply (joined_rep g mst).
    - destruct Hab as (e & He & <- & <-).
      etrans; [apply rtsc_rl|by apply IH].
      exists e. split; [|done]. apply list_elem_of_filter. split; [|done].
      left. rewrite <- Hr. by apply (joined_rep g mst). }
  split; [|split; [|split]].
  - intros e [HP He]%list_elem_of_filter. destruct (Halloc e He) as (p & Hp).
    split; [eauto|].
    destruct (edge_ends g p e Hwf Hp) as (_ & _ & _ & _ & _ & _ & Hu & Hv).
    pose proof (Hmst e He) as Heq.
    split; apply Hback; try done; destruct HP; congruence.
  - intros x Hx. pose proof (Hcomp x Hx) as Hr.
    pose proof (rtsc_has_edge_keys g source x Hwf Hx Hs) as Hxk.
    assert (joined g mst source x) as Hj.
    { etrans; [by apply Hjoin|]. rewrite <- Hr. symmetry. by apply Hjoin. }
    by apply Hfilt.
  - intros l1 e l2 Heq Hj.
    assert (filter P mst `sublist_of` mst) as Hsl by apply sublist_filter.
    rewrite Heq in Hsl. apply sublist_app_l in Hsl as (k1 & k2 & Hk & Hl1 & Hl2).
    apply sublist_cons_l in Hl2 as (k21 & k22 & -> & _).
    apply (Hforest (k1 ++ k21) e k22); [by rewrite <- app_assoc|].
    eapply joined_mono; [|exact Hj]. intros e' He'.
    apply elem_of_app. left. by eapply elem_of_sublist.
  - etrans; [apply sublist_filter|done].
Qed.

(** Keys 1 to 5 in three parts: the undirected edges 1–2 (1), 2–3 (4) and
    1–3 (2), the undirected edge 4–5 (3), nothing between the parts. *)
Definition parts_ops : list mutation :=
  [AddVertex 1; AddVertex 2; AddVertex 3; AddVertex 4; AddVertex 5;
   AddBidirectionalEdge 1 2 1%float; AddBidirectionalEdge 2 3 4%float;
   AddBidirectionalEdge 1 3 2%float; AddBidirectionalEdge 4 5 3%float].
Definition parts_graph : Graph := default empty_graph (run parts_ops empty_graph).

Lemma parts_graph_wf : wf parts_graph.
Proof. apply (run_wf_Some parts_ops). vm_compute. reflexivity. Qed.

Lemma parts_graph_weights p ed :
  eheap parts_graph !! p = Some ed → PrimFloat.is_nan (weight ed) = false.
Proof.
  intros Hp.
  assert (Forall (λ e, PrimFloat.is_nan (weight e) = false) (edge_copies parts_graph))
    as Hall by (apply (bool_decide_unpack _); by vm_compute).
  rewrite Forall_forall in Hall. apply Hall.
  apply (edge_copies_spec _ _ parts_graph_wf). eauto.
Qed.

Lemma kruskalMST_component_witness :
  ∃ result, kruskalMST insertion_sort 4 parts_graph = Some result ∧
    (∀ e, e ∈ result →
       (∃ p, eheap parts_graph !! p = Some e) ∧
       rtsc (has_edge parts_graph) 4%Z (key_of parts_graph (orig e)) ∧
       rtsc (has_edge parts_graph) 4%Z (key_of parts_graph (dest e))) ∧
    (∀ x, rtsc (has_edge parts_graph) 4%Z x → joined parts_graph result 4%Z x) ∧
    (∀ l1 e l2, result = l1 ++ e :: l2 →
       ¬ joined parts_graph l1 (key_of parts_graph (orig e))
                               (key_of parts_graph (dest e))) ∧
    result `sublist_of`
      insertion_sort (kruskal_less parts_graph 4) (edge_copies parts_graph).
Proof.
  apply (kruskalMST_component insertion_sort 4 parts_graph
           insertion_sort_contract parts_graph_wf).
  - by vm_compute.
  - apply parts_graph_weights.
  - assert (keys parts_graph = [1; 2; 3; 4; 5]%Z) as -> by by vm_compute.
    set_solver.
Defined.

(** ** The edges that leave [source] *)

Lemma greedy_sub g done mst e : greedy g done mst → e ∈ mst → e ∈ done.
Proof.
  induction 1 as [|done mst e0 _ IH _|done mst e0 _ IH _]; [done|..].
  - intros He. apply elem_of_app. left. by apply IH.
  - intros [He|He]%elem_of_app; apply elem_of_app; [left; by apply IH|by right].
Qed.

Lemma greedy_app_inv g l1 l2 : ∀ mst,
  greedy g (l1 ++ l2) mst → ∃ m1 m2, mst = m1 ++ m2 ∧ greedy g l1 m1.
Proof.
  induction l2 as [|e l2 IH] using rev_ind; intros mst H.
  - rewrite app_nil_r in H. exists mst, []. by rewrite app_nil_r.
  - rewrite app_assoc in H. inversion H as [Hnil|done m e0 Hg Hj Heq|done m e0 Hg Hj Heq].
    + by destruct l1, l2.
    + apply app_inj_tail in Heq as [-> ->]. by apply IH.
    + apply app_inj_tail in Heq as [-> ->].
      destruct (IH m Hg) as (m1 & m2 & -> & Hg1).
      exists m1, (m2 ++ [e]). by rewrite app_assoc.
Qed.

(** Edges that all leave [source] join two keys only through [source]. *)
Lemma star_joined g source es x d :
  (∀ e, e ∈ es → key_of g (orig e) = source) →
  joined g es x d → x ≠ d → d ≠ source →
  ∃ e, e ∈ es ∧ key_of g (orig e) = source ∧ key_of g (dest e) = d.
Proof.
  intros Hes Hj Hxd Hd. apply rtc_inv_r in Hj as [->|(y & _ & [Hyd|Hyd])]; [done|..].
  - destruct Hyd as (e & He & _ & Hde). exists e. by rewrite (Hes e He).
  - destruct Hyd as (e & He & Hoe & _). destruct Hd. by rewrite <- Hoe, (Hes e He).
Qed.

Lemma greedy_star g source done mst :
  greedy g done mst → (∀ e, e ∈ done → key_of g (orig e) = source) →
  ∀ e, e ∈ done → key_of g (dest e) ≠ source →
  ∃ e', e' ∈ mst ∧ key_of g (orig e') = source ∧ key_of g (dest e') = key_of g (dest e).
Proof.
  induction 1 as [|done mst e0 Hg IH Hj|done mst e0 Hg IH Hj]; intros Hall e He Hd.
  - by apply elem_of_nil in He.
  - apply elem_of_app in He as [He|He%list_elem_of_singleton].
    + apply IH; [|done..]. intros e' He'. apply Hall, elem_of_app. by left.
    + subst e0. rewrite (Hall e) in Hj by (apply elem_of_app; right; by left).
      apply (star_joined g source mst source); [|done|congruence|done].
      intros e' He'. apply Hall, elem_of_app. left. by eapply greedy_sub.
  - apply elem_of_app in He as [He|He%list_elem_of_singleton].
    + destruct (IH (λ e' He', Hall e' (proj2 (elem_of_app _ _ _) (or_introl He'))) e He Hd)
        as (e' & He' & Ho & Hde).
      exists e'. split; [|done]. apply elem_of_app. by left.
    + subst e0. exists e. split; [apply elem_of_app; right; by left|].
      split; [|done]. apply Hall, elem_of_app. right. by left.
Qed.

(** [kruskalMST(source)] sweeps the edges that leave [source] before all
    others, so it returns an edge from [source] to each key that [source]
    has an edge to, whatever the weights are: the tree need not be one of
    least weight.  No weight is NaN, as [std::sort] needs for the
    comparator. *)
Theorem kruskalMST_keeps_source_edges std_sort (source : Z) (g : Graph) :
  sort_contract std_sort → wf g →
  (Z.of_nat (length (vertexSet g)) ≤ SIZE_MAX)%Z →
  (∀ p ed, eheap g !! p = Some ed → PrimFloat.is_nan (weight ed) = false) →
  ∃ result, kruskalMST std_sort source g = Some result ∧
    ∀ d, d ≠ source → has_edge g source d →
      ∃ e, e ∈ result ∧ key_of g (orig e) = source ∧ key_of g (dest e) = d.
Proof.
  intros Hsort Hwf Hmax Hnan.
  destruct (kruskalMST_runs std_sort source g Hsort Hwf Hmax Hnan)
    as (mst & ds & rep & Hsorted & Hperm & Hgr &
        (Hm & Hcount & Hsub & Hdone & Hjoin & Hforest) & Halloc & Hres).
  simpl in *. rewrite Hres.
  set (sorted := std_sort (kruskal_less g source) (edge_copies g)) in *.
  destruct (decide (source ∈ keys g)) as [Hs|Hs].
  2:{ exists []. split; [done|]. intros d _ Hd.
      by destruct Hs, (has_edge_keys g source d Hwf Hd). }
  eexists. split; [done|]. intros d Hd (p & ed & Hp & Ho & Hde).
  assert (ed ∈ sorted) as Hin.
  { rewrite Hperm. apply (edge_copies_spec g ed Hwf). eauto. }
  apply list_elem_of_split in Hin as (l1 & l2 & Hsplit).
  assert (Hfirst : ∀ e, e ∈ l1 ++ [ed] → key_of g (orig e) = source).
  { intros e [He|He%list_elem_of_singleton]%elem_of_app; [|by subst e].
    apply list_elem_of_lookup in He as (i & Hi).
    pose proof (lookup_lt_Some _ _ _ Hi) as Hlt.
    pose proof (StronglySorted_lookup_lt _ _ i (length l1) e ed Hsorted Hlt) as Hless.
    rewrite Hsplit in Hless.
    rewrite lookup_app_l in Hless by done. rewrite list_lookup_middle in Hless by done.
    specialize (Hless Hi eq_refl). simpl in Hless. unfold kruskal_less in Hless.
    destruct (bool_decide_reflect (key_of g (orig e) = source)) as [Hka|Hka]; [done|].
    rewrite bool_decide_eq_true_2 in Hless by done. done. }
  rewrite Hsplit in Hgr. rewrite (cons_middle ed), app_assoc in Hgr.
  apply greedy_app_inv in Hgr as (m1 & m2 & -> & Hg1).
  destruct (greedy_star g source _ _ Hg1 Hfirst ed) as (e' & He' & Ho' & Hd').
  { apply elem_of_app. right. by left. }
  { congruence. }
  exists e'. split; [|split; congruence].
  apply list_elem_of_filter. split; [left; by rewrite Ho'|].
  apply elem_of_app. by left.
Qed.

Lemma kruskalMST_keeps_source_edges_witness :
  ∃ result, kruskalMST insertion_sort 2 parts_graph = Some result ∧
    ∀ d, d ≠ 2%Z → has_edge parts_graph 2 d →
      ∃ e, e ∈ result ∧ key_of parts_graph (orig e) = 2%Z ∧
           key_of parts_graph (dest e) = d.
Proof.
  apply (kruskalMST_keeps_source_edges insertion_sort 2 parts_graph
           insertion_sort_contract parts_graph_wf).
  - by vm_compute.
  - apply parts_graph_weights.
Defined.

(** ** [DisjointSets] as a partition *)

(** A deeper bound on the recursion gives the same result. *)
Lemma findSet_fuel n : ∀ m x ds r,
  findSet n x ds = Some r → n ≤ m → findSet m x ds = Some r.
Proof.
  induction n as [|n IH]; intros m x ds r H Hle; [done|].
  destruct m as [|m]; [lia|]. simpl in *.
  destruct (at_key x (parent ds)) as [p par1]. case_decide; [|done].
  destruct (findSet n p _) as [[r' ds2]|] eqn:Hrec; [|done].
  by rewrite (IH m _ _ _ Hrec) by lia.
Qed.

Lemma unionSets_fuel n m u v ds ds' :
  unionSets n u v ds = Some ds' → n ≤ m → unionSets m u v ds = Some ds'.
Proof.
  unfold unionSets. intros H Hle.
  destruct (findSet n u ds) as [[r1 ds1]|] eqn:H1; [|done].
  rewrite (findSet_fuel n m _ _ _ H1 Hle).
  destruct (findSet n v ds1) as [[r2 ds2]|] eqn:H2; [|done].
  by rewrite (findSet_fuel n m _ _ _ H2 Hle).
Qed.

(** The sets after [makeSet] for the keys [K] and [unionSets] for the pairs
    [ps], in this order. *)
Definition disjoint_sets_run (fuel : nat) (K : list Z) (ps : list (Z * Z))
    : option DisjointSets :=
  foldM (λ ds p, unionSets fuel p.1 p.2 ds)
        (foldl (λ ds v, makeSet v ds) (mkDisjointSets ∅ ∅) K) ps.

(** [rep] gives the classes of the relation spanned by the pairs [ps]. *)
Definition classes_of (K : list Z) (ps : list (Z * Z)) (rep : Z → Z) : Prop :=
  (∀ x, x ∈ K → rtsc (λ a b, (a, b) ∈ ps) x (rep x)) ∧
  (∀ a b, (a, b) ∈ ps → rep a = rep b).

Lemma classes_of_iff K ps rep x y :
  classes_of K ps rep → x ∈ K → y ∈ K →
  rep x = rep y ↔ rtsc (λ a b, (a, b) ∈ ps) x y.
Proof.
  intros [Hto Hpair] Hx Hy. split.
  - intros Heq. etrans; [by apply Hto|]. rewrite Heq. symmetry. by apply Hto.
  - clear Hx Hy. induction 1 as [|a b c [Hab|Hab] _ IH]; [done|..].
    + by rewrite (Hpair a b Hab).
    + by rewrite <- (Hpair b a Hab).
Qed.

Lemma rtsc_pairs_mono (ps ps' : list (Z * Z)) x y :
  (∀ p, p ∈ ps → p ∈ ps') →
  rtsc (λ a b, (a, b) ∈ ps) x y → rtsc (λ a b, (a, b) ∈ ps') x y.
Proof.
  intros Hsub. induction 1 as [|a b c [Hab|Hab] _ IH]; [done|..].
  - etrans; [apply rtsc_lr|exact IH]. by apply Hsub.
  - etrans; [apply rtsc_rl|exact IH]. by apply Hsub.
Qed.

Lemma makeSet_remove_dups K :
  foldl (λ ds v, makeSet v ds) (mkDisjointSets ∅ ∅) K =
  foldl (λ ds v, makeSet v ds) (mkDisjointSets ∅ ∅) (remove_dups K).
Proof.
  assert (∀ d d' : DisjointSets, parent d = parent d' → rank d = rank d' → d = d') as Hext.
  { intros [] []. simpl. by intros -> ->. }
  apply Hext; apply map_eq; intros x.
  - rewrite !makeSet_all_parent. 
    destruct (decide (x ∈ K)) as [Hx|Hx].
    + by rewrite decide_True by by apply elem_of_remove_dups.
    + by rewrite decide_False by by rewrite elem_of_remove_dups.
  - rewrite !makeSet_all_rank.
    destruct (decide (x ∈ K)) as [Hx|Hx].
    + by rewrite decide_True by by apply elem_of_remove_dups.
    + by rewrite decide_False by by rewrite elem_of_remove_dups.
Qed.

Lemma unionSets_classes K rep ds ps u v :
  uf_models K rep ds → NoDup K → (Z.of_nat (length K) ≤ SIZE_MAX)%Z →
  classes_of K ps rep → u ∈ K → v ∈ K →
  ∃ ds' rep', unionSets (length K) u v ds = Some ds' ∧
              uf_models K rep' ds' ∧ classes_of K (ps ++ [(u, v)]) rep'.
Proof.
  intros Hm Hnd Hmax [Hto Hpair] Hu Hv.
  assert (Hold : ∀ x y, rtsc (λ a b, (a, b) ∈ ps) x y →
                        rtsc (λ a b, (a, b) ∈ ps ++ [(u, v)]) x y).
  { intros x y. apply rtsc_pairs_mono. set_solver. }
  assert (Hnew : rtsc (λ a b, (a, b) ∈ ps ++ [(u, v)]) u v).
  { apply rtsc_lr. set_solver. }
  destruct (decide (rep u = rep v)) as [Heq|Hne].
  - unfold unionSets.
    destruct (findSet_models K rep ds u Hm Hu) as (ds1 & -> & Hm1 & _).
    destruct (findSet_models K rep ds1 v Hm1 Hv) as (ds2 & -> & Hm2 & _).
    rewrite decide_False by (intros H; by apply H).
    exists ds2, rep. split; [done|]. split; [done|]. split.
    + intros x Hx. by apply Hold, Hto.
    + intros a b [Hab|Hab%list_elem_of_singleton]%elem_of_app; [by apply Hpair|].
      by injection Hab as -> ->.
  - destruct (unionSets_spec K rep ds u v Hm Hnd Hu Hv Hne Hmax)
      as (ds' & a & b & Hrun & Hab & Hm' & _).
    exists ds', (relink rep a b). split; [done|]. split; [done|].
    assert (rtsc (λ a b, (a, b) ∈ ps ++ [(u, v)]) b a) as Hba.
    { destruct Hab as [[-> ->]|[-> ->]].
      - etrans; [symmetry; by apply Hold, Hto|]. etrans; [symmetry; exact Hnew|].
        by apply Hold, Hto.
      - etrans; [symmetry; by apply Hold, Hto|]. etrans; [exact Hnew|].
        by apply Hold, Hto. }
    split.
    + intros x Hx. unfold relink. case_decide as E.
      * etrans; [by apply Hold, Hto|]. by rewrite E.
      * by apply Hold, Hto.
    + intros x y [Hxy|Hxy%list_elem_of_singleton]%elem_of_app.
      * unfold relink. by rewrite (Hpair x y Hxy).
      * injection Hxy as -> ->. unfold relink.
        destruct Hab as [[-> ->]|[-> ->]]; repeat case_decide; congruence.
Qed.

Lemma disjoint_sets_run_models (fuel : nat) (K : list Z) (ps : list (Z * Z)) :
  length K ≤ fuel → (Z.of_nat (length K) ≤ SIZE_MAX)%Z →
  (∀ a b, (a, b) ∈ ps → a ∈ K ∧ b ∈ K) →
  ∃ ds rep, disjoint_sets_run fuel K ps = Some ds ∧
            length (remove_dups K) ≤ fuel ∧
            uf_models (remove_dups K) rep ds ∧ classes_of (remove_dups K) ps rep.
Proof.
  intros Hfuel Hmax Hps. unfold disjoint_sets_run. rewrite makeSet_remove_dups.
  set (K' := remove_dups K).
  assert (NoDup K') as Hnd by apply NoDup_remove_dups.
  assert (HK : ∀ x, x ∈ K' ↔ x ∈ K) by (intros x; apply elem_of_remove_dups).
  assert (length K' ≤ length K) as Hlen.
  { apply submseteq_length, NoDup_submseteq; [done|]. intros x. by rewrite HK. }
  assert (length K' ≤ fuel) as Hfuel' by lia.
  assert (Z.of_nat (length K') ≤ SIZE_MAX)%Z as Hmax' by lia.
  destruct (foldM_inv (λ ds p, unionSets fuel p.1 p.2 ds)
              (λ done ds, ∃ rep, uf_models K' rep ds ∧ classes_of K' done rep)
              (λ p, p.1 ∈ K' ∧ p.2 ∈ K')) with (l := ps) (done := @nil (Z * Z))
              (s := foldl (λ ds v, makeSet v ds) (mkDisjointSets ∅ ∅) K')
    as (ds & Hrun & rep & Hm & Hcl).
  - intros done ds [a b] (rep & Hm & Hcl) [Ha Hb]. simpl in *.
    destruct (unionSets_classes K' rep ds done a b Hm Hnd Hmax' Hcl Ha Hb)
      as (ds' & rep' & Hrun & Hm' & Hcl').
    exists ds'. split; [by apply (unionSets_fuel (length K'))|eauto].
  - apply Forall_forall. intros [a b] Hab. simpl. rewrite !HK. by apply Hps.
  - exists id. split; [apply uf_models_init|]. split; [done|].
    by intros a b ?%elem_of_nil.
  - simpl in *. by exists ds, rep.
Qed.

(** After [makeSet] for every key of [K] and [unionSets] for every pair of
    [ps], which are pairs of keys of [K], two keys of [K] get the same
    representative from [findSet] exactly when the pairs join them.  The
    recursion of [findSet] is never deeper than the number of keys, which
    is at most [SIZE_MAX] as the [size()] of a map. *)
Theorem disjoint_sets_partition (fuel : nat) (K : list Z) (ps : list (Z * Z)) :
  length K ≤ fuel → (Z.of_nat (length K) ≤ SIZE_MAX)%Z →
  (∀ a b, (a, b) ∈ ps → a ∈ K ∧ b ∈ K) →
  ∃ ds, disjoint_sets_run fuel K ps = Some ds ∧
    ∀ x y, x ∈ K → y ∈ K →
      ∃ rx ds1 ry ds2,
        findSet fuel x ds = Some (rx, ds1) ∧ findSet fuel y ds1 = Some (ry, ds2) ∧
        rx ∈ K ∧ ry ∈ K ∧
        (rx = ry ↔ rtsc (λ a b, (a, b) ∈ ps) x y).
Proof.
  intros Hfuel Hmax Hps.
  destruct (disjoint_sets_run_models fuel K ps Hfuel Hmax Hps)
    as (ds & rep & Hrun & Hfuel' & Hm & Hcl).
  assert (HK : ∀ x, x ∈ remove_dups K ↔ x ∈ K) by (intros x; apply elem_of_remove_dups).
  exists ds. split; [done|]. intros x y Hx%HK Hy%HK.
  destruct (findSet_models _ rep ds x Hm Hx) as (ds1 & H1 & Hm1 & _).
  destruct (findSet_models _ rep ds1 y Hm1 Hy) as (ds2 & H2 & Hm2 & _).
  exists (rep x), ds1, (rep y), ds2.
  split; [by apply (findSet_fuel (length (remove_dups K)))|].
  split; [by apply (findSet_fuel (length (remove_dups K)))|].
  split; [by apply HK, (um_rep_in _ _ _ Hm)|].
  split; [by apply HK, (um_rep_in _ _ _ Hm)|].
  by apply (classes_of_iff (remove_dups K)).
Qed.

Lemma disjoint_sets_partition_witness :
  ∃ ds, disjoint_sets_run 5 [1; 2; 3; 4; 5]%Z [(1, 2); (4, 5); (2, 3)]%Z = Some ds ∧
    ∀ x y, x ∈ [1; 2; 3; 4; 5]%Z → y ∈ [1; 2; 3; 4; 5]%Z →
      ∃ rx ds1 ry ds2,
        findSet 5 x ds = Some (rx, ds1) ∧ findSet 5 y ds1 = Some (ry, ds2) ∧
        rx ∈ [1; 2; 3; 4; 5]%Z ∧ ry ∈ [1; 2; 3; 4; 5]%Z ∧
        (rx = ry ↔ rtsc (λ a b, (a, b) ∈ [(1, 2); (4, 5); (2, 3)]%Z) x y).
Proof.
  apply (disjoint_sets_partition 5 [1; 2; 3; 4; 5]%Z [(1, 2); (4, 5); (2, 3)]%Z).
  - simpl. lia.
  - by vm_compute.
  - intros a b Hab. repeat (apply elem_of_cons in Hab as [Hab|Hab]);
      try (injection Hab as -> ->; set_solver). by apply elem_of_nil in Hab.
Defined.

(** [findSet] leaves alone an entry of [parent] for a key outside [K]. *)
Lemma findSet_frame K rep x c n : ∀ item ds r ds',
  uf_models K rep ds → item ∈ K → x ∉ K →
  findSet n item ds = Some (r, ds') →
  findSet n item (mkDisjointSets (<[x := c]> (parent ds)) (rank ds)) =
    Some (r, mkDisjointSets (<[x := c]> (parent ds')) (rank ds')).
Proof.
  induction n as [|n IH]; intros item ds r ds' Hm Hi Hx H; [done|].
  assert (item ≠ x) as Hne by congruence.
  simpl in *. rewrite (at_key_parent K rep ds item Hm Hi) in H.
  destruct (parent ds !! item) as [p|] eqn:Hp.
  2:{ apply (um_parent_dom _ _ _ Hm) in Hi as [? ?]. congruence. }
  assert (par ds item = p) as Hpar by (unfold par; by rewrite Hp).
  rewrite Hpar in H.
  rewrite (at_key_Some _ _ p) by by rewrite lookup_insert_ne.
  case_decide as Hpi.
  - destruct (findSet n p _) as [[r' ds2]|] eqn:Hrec; [|done].
    injection H as <- <-.
    assert (uf_models K rep (mkDisjointSets (parent ds) (rank ds))) as Hm' by by destruct ds.
    assert (p ∈ K) as HpK by (rewrite <- Hpar; by apply (um_parent_in _ _ _ Hm)).
    pose proof (IH p _ _ _ Hm' HpK Hx Hrec) as Hrec'. simpl in Hrec'. rewrite Hrec'.
    simpl. by rewrite insert_insert_ne.
  - by injection H as <- <-.
Qed.

(** [findSet] for a key [x] that was never given to [makeSet] does not
    fail.  [parent[x]] reads as the value-initialised key, which is [0]: the
    call returns what [findSet(0)] returns, or [0] when that is no key
    either, and it leaves the result behind as [parent[x]]. *)
Theorem findSet_unknown_key (fuel : nat) (K : list Z) (ps : list (Z * Z)) (x : Z) :
  length K < fuel → (Z.of_nat (length K) ≤ SIZE_MAX)%Z →
  (∀ a b, (a, b) ∈ ps → a ∈ K ∧ b ∈ K) →
  x ∉ K →
  ∃ ds r ds',
    disjoint_sets_run fuel K ps = Some ds ∧
    findSet (S fuel) x ds = Some (r, ds') ∧
    parent ds' !! x = Some r ∧
    (0%Z ∈ K → ∃ ds0, findSet fuel 0 ds = Some (r, ds0)) ∧
    (0%Z ∉ K → r = 0%Z).
Proof.
  intros Hfuel Hmax Hps Hx.
  destruct (disjoint_sets_run_models fuel K ps ltac:(lia) Hmax Hps)
    as (ds & rep & Hrun & Hfuel' & Hm & Hcl).
  assert (HK : ∀ x, x ∈ remove_dups K ↔ x ∈ K) by (intros y; apply elem_of_remove_dups).
  exists ds. rewrite <- HK in Hx.
  assert (parent ds !! x = None) as Hnone.
  { apply eq_None_not_Some. intros H. by apply Hx, (um_parent_dom _ _ _ Hm). }
  destruct (decide (0%Z ∈ K)) as [H0|H0].
  - assert (x ≠ 0%Z) as Hx0 by (intros ->; by apply Hx, HK).
    apply HK in H0 as H0'.
    destruct (findSet_models _ rep ds 0 Hm H0') as (ds0 & Hf0 & Hm0 & _).
    apply (findSet_fuel _ fuel) in Hf0; [|done].
    pose proof (findSet_frame _ rep x 0 fuel 0 ds _ _ Hm H0' Hx Hf0) as Hfr.
    eexists (rep 0%Z), _. split; [done|]. split; [|split; [|split]].
    + simpl. unfold at_key. rewrite Hnone. rewrite decide_True by done.
      rewrite Hfr. done.
    + simpl. by rewrite lookup_insert_eq.
    + intros _. eauto.
    + done.
  - rewrite <- HK in H0.
    assert (parent ds !! 0%Z = None) as Hnone0.
    { apply eq_None_not_Some. intros H. by apply H0, (um_parent_dom _ _ _ Hm). }
    destruct (decide (x = 0%Z)) as [->|Hx0].
    + eexists 0%Z, _. split; [done|]. split; [|split; [|split]].
      * simpl. unfold at_key. rewrite Hnone. rewrite decide_False by (intros H; by apply H).
        done.
      * simpl. by rewrite lookup_insert_eq.
      * intros H. by apply HK in H.
      * done.
    + destruct fuel as [|fuel]; [lia|].
      eexists 0%Z, _. split; [done|]. split; [|split; [|split]].
      * simpl. unfold at_key at 1. rewrite Hnone. rewrite decide_True by done.
        simpl. unfold at_key. rewrite lookup_insert_ne by done. rewrite Hnone0.
        rewrite decide_False by (intros H; by apply H). done.
      * simpl. by rewrite lookup_insert_eq.
      * intros H. by apply HK in H.
      * done.
Qed.

Lemma findSet_unknown_key_witness :
  ∃ ds r ds',
    disjoint_sets_run 4 [0; 1; 2]%Z [(1, 0)]%Z = Some ds ∧
    findSet 5 7 ds = Some (r, ds') ∧
    parent ds' !! 7%Z = Some r ∧
    (0%Z ∈ [0; 1; 2]%Z → ∃ ds0, findSet 4 0 ds = Some (r, ds0)) ∧
    (0%Z ∉ [0; 1; 2]%Z → r = 0%Z).
Proof.
  apply (findSet_unknown_key 4 [0; 1; 2]%Z [(1, 0)]%Z 7).
  - simpl. lia.
  - by vm_compute.
  - intros a b Hab. apply list_elem_of_singleton in Hab. injection Hab as -> ->. set_solver.
  - set_solver.
Defined.
